(** * marlarky: the generation engine, embedded and verified

    A shallow embedding of the TypeScript generation engine (seeded RNG,
    generation context, lexicon store, rule engine, phrase and sentence
    builders, and the retry loop of [TextGenerator]) and of the output
    transforms (tokenizer, protection, registry, configuration merge,
    pipeline, and the reverseWords and mockCase transforms), together
    with the properties stated for them.

    Conventions of the embedding.
    - A JavaScript [number] that the code uses as an integer (seeds,
      counts, indices, limits) is a [Z]; a number used as a weight or a
      probability is a rational [Q].  Rounding of IEEE doubles is not
      modelled; every constant and every RNG draw the engine uses is
      exactly representable, so comparisons agree with the code.
    - A JavaScript string is a [string] of 7-bit characters; codes above
      127 are carried along as opaque symbols that are neither letters
      nor white space.
    - A thrown [Error] is the [Throw] branch of [Result]; state changes
      made before the throw are kept, as in the code.
    - A [Map<string, number>] is a [gmap string Q]; a [Record<string, T>]
      whose enumeration order is observable is an association list. *)

From Stdlib Require Import ZArith QArith Qround Qminmax List String Ascii Bool Lia Lqa Btauto Sorted.
From stdpp Require Import base option list gmap strings.
Import ListNotations.

Local Open Scope string_scope.
Local Open Scope list_scope.

(** ** Results of fallible code *)

Inductive JsError : Type := Err (message : string).

Inductive Result (A : Type) : Type :=
| Ok (value : A)
| Throw (e : JsError).
Arguments Ok {A} value.
Arguments Throw {A} e.

Definition isOk {A} (r : Result A) : bool :=
  match r with Ok _ => true | Throw _ => false end.

(** Strict comparison of rationals as a boolean, [x < y]. *)
Definition Qlt_bool (x y : Q) : bool := negb (Qle_bool y x).

(** ** rng/seedable-rng.ts *)

Module Rng.

Definition two32 : Z := 4294967296%Z.

(** [x >>> 0]: the unsigned 32-bit reading of a number. *)
Definition toUint32 (x : Z) : Z := (x mod two32)%Z.

(** [Math.imul(a, b)], read unsigned. *)
Definition imul (a b : Z) : Z := toUint32 (a * b).

(** One call of the closure returned by [mulberry32(seed)]: the 32-bit
    output (the numerator of the returned fraction) and the new value of
    the captured [seed] variable. *)
Definition mulberry32 (seed : Z) : Z * Z :=
  let seed' := (seed + 0x6D2B79F5)%Z in
  let t := toUint32 seed' in
  let t := imul (Z.lxor t (Z.shiftr t 15)) (Z.lor t 1) in
  let t := Z.lxor t (toUint32 (t + imul (Z.lxor t (Z.shiftr t 7)) (Z.lor t 61))) in
  (toUint32 (Z.lxor t (Z.shiftr t 14)), seed').

(** The object state: [_seed] and the variable captured by [_next]. *)
Record SeedableRng : Type := mkRng { _seed : Z; _next : Z }.

Definition create (seed : Z) : SeedableRng := mkRng seed seed.

Definition seed (n : Z) (r : SeedableRng) : SeedableRng := mkRng n n.

Definition currentSeed (r : SeedableRng) : Z := _seed r.

Definition float (r : SeedableRng) : Q * SeedableRng :=
  let '(u, s) := mulberry32 (_next r) in
  (Qmake u (Z.to_pos two32), mkRng (_seed r) s).

Definition int (min max : Z) (r : SeedableRng) : Z * SeedableRng :=
  let '(min, max) := if (min >? max)%Z then (max, min) else (min, max) in
  let '(f, r') := float r in
  ((Qfloor (f * inject_Z (max - min + 1)) + min)%Z, r').

Definition pick {T} (l : list T) (r : SeedableRng) : Result T * SeedableRng :=
  match l with
  | [] => (Throw (Err "Cannot pick from empty list"), r)
  | d :: _ =>
      let '(i, r') := int 0 (Z.of_nat (length l) - 1) r in
      (Ok (nth (Z.to_nat i) l d), r')
  end.

Record WeightedItem (T : Type) : Type := mkWeighted { item : T; weight : Q }.
Arguments mkWeighted {T} item weight.
Arguments item {T} w.
Arguments weight {T} w.

(** The [for] loop of [weightedPick]: [Some] at the early [return],
    [None] when the loop runs off the end of [validItems]. *)
Fixpoint walk {T} (random : Q) (validItems : list (WeightedItem T)) : option T :=
  match validItems with
  | [] => None
  | i :: rest =>
      let random := (random - weight i)%Q in
      if Qle_bool random 0 then Some (item i) else walk random rest
  end.

(** The loop followed by the fallback [validItems[validItems.length - 1]!.item]. *)
Definition walkOrLast {T} (random : Q) (validItems : list (WeightedItem T)) : Result T :=
  match walk random validItems with
  | Some x => Ok x
  | None =>
      match last validItems with
      | Some i => Ok (item i)
      | None => Throw (Err "TypeError: undefined has no property item")
      end
  end.

Definition totalWeight {T} (validItems : list (WeightedItem T)) : Q :=
  fold_left (fun sum i => (sum + weight i)%Q) validItems 0%Q.

Definition weightedPick {T} (items : list (WeightedItem T)) (r : SeedableRng)
  : Result T * SeedableRng :=
  if (length items =? 0)%nat then
    (Throw (Err "Cannot pick from empty weighted list"), r)
  else
    let validItems := List.filter (fun i => Qlt_bool 0 (weight i)) items in
    if (length validItems =? 0)%nat then
      (Throw (Err "All weights are zero or negative"), r)
    else
      let '(f, r') := float r in
      (walkOrLast (f * totalWeight validItems) validItems, r').

Definition chance (probability : Q) (r : SeedableRng) : bool * SeedableRng :=
  let '(f, r') := float r in (Qlt_bool f probability, r').

(** [shuffle]: Fisher-Yates from the last index down to 1. *)
Definition swap {T} (l : list T) (i j : nat) : list T :=
  match l !! i, l !! j with
  | Some x, Some y => <[j := x]> (<[i := y]> l)
  | _, _ => l
  end.

Fixpoint shuffleFrom {T} (i : nat) (result : list T) (r : SeedableRng)
  : list T * SeedableRng :=
  match i with
  | O => (result, r)
  | S i' =>
      let '(j, r') := int 0 (Z.of_nat i) r in
      shuffleFrom i' (swap result i (Z.to_nat j)) r'
  end.

Definition shuffle {T} (l : list T) (r : SeedableRng) : list T * SeedableRng :=
  shuffleFrom (length l - 1) l r.

End Rng.

(** ** types/lexicon.ts *)

Module Lexicon.

Inductive POS : Type := noun | verb | adj | adv | prep | conj | intj | det.

Definition POS_eqb (a b : POS) : bool :=
  match a, b with
  | noun, noun | verb, verb | adj, adj | adv, adv
  | prep, prep | conj, conj | intj, intj | det, det => true
  | _, _ => false
  end.

(** The six scope names; a correlation uses four of them. *)
Inductive Scope : Type :=
  token | phrase | clause | sentence | paragraph | text.

Definition Scope_eqb (a b : Scope) : bool :=
  match a, b with
  | token, token | phrase, phrase | clause, clause
  | sentence, sentence | paragraph, paragraph | text, text => true
  | _, _ => false
  end.

(** The string a scope is written as, used in [`${scope}:`]. *)
Definition scopeName (s : Scope) : string :=
  match s with
  | token => "token" | phrase => "phrase" | clause => "clause"
  | sentence => "sentence" | paragraph => "paragraph" | text => "text"
  end.

(** A feature value ([unknown] in the source): primitives compare by
    value under [===], objects by identity. *)
Inductive JsValue : Type :=
| VBool (b : bool)
| VNum (q : Q)
| VStr (s : string)
| VObj (identity : nat).

Definition strictEquals (a b : JsValue) : bool :=
  match a, b with
  | VBool x, VBool y => Bool.eqb x y
  | VNum x, VNum y => Qeq_bool x y
  | VStr x, VStr y => String.eqb x y
  | VObj x, VObj y => Nat.eqb x y
  | _, _ => false
  end.

(** [TermFeatures], an open record: the keys in enumeration order. *)
Definition TermFeatures : Type := list (string * JsValue).

Definition getFeature (fs : option TermFeatures) (key : string) : option JsValue :=
  match fs with
  | None => None
  | Some l => snd <$> List.find (fun kv => String.eqb (fst kv) key) l
  end.

Record Term : Type := mkTerm {
  term_value : string;
  term_weight : option Q;
  term_features : option TermFeatures;
  term_tags : option (list string)
}.

Record TermSet : Type := mkTermSet {
  ts_pos : POS;
  ts_tags : option (list string);
  ts_terms : list Term
}.

Record LexicalItem : Type := mkLexicalItem {
  li_value : string;
  li_pos : POS;
  li_termSetId : option string;
  li_features : option TermFeatures;
  li_tags : option (list string)
}.

Inductive PatternType : Type :=
  PSentence | PNounPhrase | PVerbPhrase | PPrepPhrase | PAdjPhrase
| PAdvPhrase | PClause.

Definition PatternType_eqb (a b : PatternType) : bool :=
  match a, b with
  | PSentence, PSentence | PNounPhrase, PNounPhrase
  | PVerbPhrase, PVerbPhrase | PPrepPhrase, PPrepPhrase
  | PAdjPhrase, PAdjPhrase | PAdvPhrase, PAdvPhrase
  | PClause, PClause => true
  | _, _ => false
  end.

Record Pattern : Type := mkPattern {
  pat_type : PatternType;
  pat_slots : list string;
  pat_constraints : option (list string);
  pat_weight : option Q;
  pat_tags : option (list string)
}.

Record DistributionEntry : Type := mkDistributionEntry {
  de_key : string;
  de_weight : Q
}.

Record CorrelationCondition : Type := mkCondition {
  chosenTermSet : option string;
  chosenTag : option string;
  chosenValue : option string;
  usedPattern : option string
}.

Record CorrelationBoost : Type := mkBoost {
  boost_termSet : option string;
  boost_pattern : option string;
  weightDelta : Q
}.

Record Correlation : Type := mkCorrelation {
  when : CorrelationCondition;
  thenBoost : list CorrelationBoost;
  corr_scope : Scope
}.

Inductive Level : Type := hard | soft.

Inductive ConstraintType : Type :=
  noRepeat | maxCount | minCount | required | forbidden | customConstraint.

Record Constraint : Type := mkConstraint {
  c_id : string;
  c_level : Level;
  c_scope : Scope;
  c_type : ConstraintType;
  c_target : string;
  c_value : option Z;
  c_customFn : option string
}.

Inductive InvariantType : Type :=
  capitalization | punctuation | whitespace | agreement | customInvariant.

Record Invariant : Type := mkInvariant {
  inv_id : string;
  inv_type : InvariantType;
  inv_scope : Scope;
  inv_customFn : option string
}.

(** A pipeline step of the output transforms; its parameters are opaque here. *)
Record TransformStep : Type := mkTransformStep {
  step_id : string;
  step_params : option (list (string * JsValue))
}.

Record Archetype : Type := mkArchetype {
  arch_tags : option (list string);
  arch_distributions : option (list (string * string));
  arch_overrides : option (list (string * Q));
  arch_outputTransforms : option (list TransformStep)
}.

Record Relation : Type := mkRelation {
  rel_from : string;
  rel_type : string;
  rel_to : string;
  rel_weight : option Q
}.

(** [Record<string, T>]: the entries in the order [Object.entries] lists them. *)
Definition Dict (T : Type) : Type := list (string * T).

(** [dict[key]] *)
Definition dictGet {T} (d : Dict T) (key : string) : option T :=
  snd <$> List.find (fun kv => String.eqb (fst kv) key) d.

Record Lexicon : Type := mkLexicon {
  lex_id : string;
  lex_version : option string;
  lex_language : string;
  termSets : option (Dict TermSet);
  patterns : option (Dict Pattern);
  distributions : option (Dict (list DistributionEntry));
  correlations : option (list Correlation);
  lex_constraints : option (list Constraint);
  lex_invariants : option (list Invariant);
  archetypes : option (Dict Archetype);
  relations : option (list Relation);
  lex_outputTransforms : option (list TransformStep)
}.

Record TermQuery : Type := mkTermQuery {
  q_pos : POS;
  q_tags : option (list string);
  q_termSetIds : option (list string);
  q_features : option TermFeatures;
  q_fallbackToFaker : bool;
  q_exclude : option (list string)
}.

Record PatternQuery : Type := mkPatternQuery {
  pq_type : PatternType;
  pq_tags : option (list string);
  pq_patternIds : option (list string)
}.

Inductive ChoiceType : Type := CTerm | CPattern | CTemplate.

Inductive ChoiceItem : Type :=
| ItemLexical (i : LexicalItem)
| ItemPattern (p : Pattern)
| ItemString (s : string).

Record ChoiceEvent : Type := mkChoiceEvent {
  ev_type : ChoiceType;
  ev_item : ChoiceItem;
  ev_termSetId : option string;
  ev_patternId : option string;
  ev_scope : Scope
}.

Inductive Direction : Type := outgoing | incoming.

Record RelationResult : Type := mkRelationResult {
  rr_term : string;
  rr_relationType : string;
  rr_weight : Q;
  rr_direction : Direction
}.

End Lexicon.

(** ** types/config.ts *)

Module Config.

Record SentenceTypeWeights : Type := mkWeights {
  simpleDeclarativeW : Q;
  compoundW : Q;
  introAdverbialW : Q;
  subordinateW : Q;
  interjectionW : Q;
  questionW : Q
}.

Record PartialSentenceTypeWeights : Type := mkPartialWeights {
  p_simpleDeclarativeW : option Q;
  p_compoundW : option Q;
  p_introAdverbialW : option Q;
  p_subordinateW : option Q;
  p_interjectionW : option Q;
  p_questionW : option Q
}.

Record OutputTransformsConfig : Type := mkOutputTransformsConfig {
  ot_enabled : bool;
  ot_pipeline : list Lexicon.TransformStep;
  ot_protection : list (string * Lexicon.JsValue);
  ot_strict : bool;
  ot_autoOrder : option bool
}.

Record GeneratorConfig : Type := mkConfig {
  sentenceTypeWeights : SentenceTypeWeights;
  minWordsPerSentence : Z;
  maxWordsPerSentence : Z;
  avgSentenceLength : Q;
  minSentencesPerParagraph : Z;
  maxSentencesPerParagraph : Z;
  interjectionRate : Q;
  subordinateClauseRate : Q;
  relativeClauseRate : Q;
  questionRate : Q;
  compoundRate : Q;
  maxPPChain : Z;
  maxAdjectivesPerNoun : Z;
  maxAdverbsPerVerb : Z;
  maxSentenceAttempts : Z;
  maxPhraseAttempts : Z;
  enableTrace : bool;
  strictMode : bool;
  determiners : list string;
  subjectPronouns : list string;
  objectPronouns : list string;
  possessiveDeterminers : list string;
  modals : list string;
  subordinators : list string;
  relatives : list string;
  coordinators : list string;
  transitions : list string;
  interjections : list string;
  outputTransforms : option OutputTransformsConfig
}.

(** [this.config.maxPPChain = v] *)
Definition set_maxPPChain (v : Z) (c : GeneratorConfig) : GeneratorConfig :=
  mkConfig (sentenceTypeWeights c) (minWordsPerSentence c) (maxWordsPerSentence c)
    (avgSentenceLength c) (minSentencesPerParagraph c) (maxSentencesPerParagraph c)
    (interjectionRate c) (subordinateClauseRate c) (relativeClauseRate c)
    (questionRate c) (compoundRate c) v (maxAdjectivesPerNoun c)
    (maxAdverbsPerVerb c) (maxSentenceAttempts c) (maxPhraseAttempts c)
    (enableTrace c) (strictMode c) (determiners c) (subjectPronouns c)
    (objectPronouns c) (possessiveDeterminers c) (modals c) (subordinators c)
    (relatives c) (coordinators c) (transitions c) (interjections c)
    (outputTransforms c).

(** [Partial<GeneratorConfig>] *)
Record PartialConfig : Type := mkPartialConfig {
  p_sentenceTypeWeights : option PartialSentenceTypeWeights;
  p_minWordsPerSentence : option Z;
  p_maxWordsPerSentence : option Z;
  p_avgSentenceLength : option Q;
  p_minSentencesPerParagraph : option Z;
  p_maxSentencesPerParagraph : option Z;
  p_interjectionRate : option Q;
  p_subordinateClauseRate : option Q;
  p_relativeClauseRate : option Q;
  p_questionRate : option Q;
  p_compoundRate : option Q;
  p_maxPPChain : option Z;
  p_maxAdjectivesPerNoun : option Z;
  p_maxAdverbsPerVerb : option Z;
  p_maxSentenceAttempts : option Z;
  p_maxPhraseAttempts : option Z;
  p_enableTrace : option bool;
  p_strictMode : option bool;
  p_determiners : option (list string);
  p_subjectPronouns : option (list string);
  p_objectPronouns : option (list string);
  p_possessiveDeterminers : option (list string);
  p_modals : option (list string);
  p_subordinators : option (list string);
  p_relatives : option (list string);
  p_coordinators : option (list string);
  p_transitions : option (list string);
  p_interjections : option (list string);
  p_outputTransforms : option OutputTransformsConfig
}.

Definition DEFAULT_CONFIG : GeneratorConfig := {|
  sentenceTypeWeights := mkWeights 45 15 12 15 3 10;
  minWordsPerSentence := 5;
  maxWordsPerSentence := 25;
  avgSentenceLength := 12;
  minSentencesPerParagraph := 2;
  maxSentencesPerParagraph := 7;
  interjectionRate := 3 # 100;
  subordinateClauseRate := 15 # 100;
  relativeClauseRate := 10 # 100;
  questionRate := 10 # 100;
  compoundRate := 15 # 100;
  maxPPChain := 2;
  maxAdjectivesPerNoun := 2;
  maxAdverbsPerVerb := 1;
  maxSentenceAttempts := 25;
  maxPhraseAttempts := 10;
  enableTrace := false;
  strictMode := false;
  determiners := ["the"; "a"; "an"; "this"; "that"; "these"; "those"; "my";
    "your"; "his"; "her"; "its"; "our"; "their"; "some"; "any"; "no";
    "every"; "each"; "all"; "both"; "few"; "many"; "several"];
  subjectPronouns := ["I"; "you"; "he"; "she"; "it"; "we"; "they"];
  objectPronouns := ["me"; "you"; "him"; "her"; "it"; "us"; "them"];
  possessiveDeterminers := ["my"; "your"; "his"; "her"; "its"; "our"; "their"];
  modals := ["can"; "could"; "may"; "might"; "must"; "shall"; "should";
    "will"; "would"];
  subordinators := ["after"; "although"; "as"; "because"; "before"; "if";
    "once"; "since"; "than"; "that"; "though"; "unless"; "until"; "when";
    "whenever"; "where"; "wherever"; "while"];
  relatives := ["who"; "whom"; "whose"; "which"; "that"];
  coordinators := ["and"; "but"; "or"; "nor"; "for"; "yet"; "so"];
  transitions := ["however"; "therefore"; "moreover"; "furthermore";
    "meanwhile"; "consequently"; "nevertheless"; "otherwise"; "accordingly";
    "indeed"; "certainly"; "naturally"; "fortunately"; "unfortunately";
    "surprisingly"; "generally"; "specifically"; "particularly"];
  interjections := ["oh"; "ah"; "well"; "wow"; "hey"; "alas"; "indeed";
    "certainly"; "surely"; "naturally"];
  outputTransforms := None
|}.

(** [a ?? b] *)
Definition orElse {A} (a : option A) (b : A) : A :=
  match a with Some x => x | None => b end.

Definition mergeWeights (d : SentenceTypeWeights)
    (u : option PartialSentenceTypeWeights) : SentenceTypeWeights :=
  match u with
  | None => d
  | Some u =>
      mkWeights (orElse (p_simpleDeclarativeW u) (simpleDeclarativeW d))
        (orElse (p_compoundW u) (compoundW d))
        (orElse (p_introAdverbialW u) (introAdverbialW d))
        (orElse (p_subordinateW u) (subordinateW d))
        (orElse (p_interjectionW u) (interjectionW d))
        (orElse (p_questionW u) (questionW d))
  end.

Definition mergeConfig (userConfig : option PartialConfig) : GeneratorConfig :=
  match userConfig with
  | None => DEFAULT_CONFIG
  | Some u =>
      let d := DEFAULT_CONFIG in {|
        sentenceTypeWeights := mergeWeights (sentenceTypeWeights d) (p_sentenceTypeWeights u);
        minWordsPerSentence := orElse (p_minWordsPerSentence u) (minWordsPerSentence d);
        maxWordsPerSentence := orElse (p_maxWordsPerSentence u) (maxWordsPerSentence d);
        avgSentenceLength := orElse (p_avgSentenceLength u) (avgSentenceLength d);
        minSentencesPerParagraph :=
          orElse (p_minSentencesPerParagraph u) (minSentencesPerParagraph d);
        maxSentencesPerParagraph :=
          orElse (p_maxSentencesPerParagraph u) (maxSentencesPerParagraph d);
        interjectionRate := orElse (p_interjectionRate u) (interjectionRate d);
        subordinateClauseRate :=
          orElse (p_subordinateClauseRate u) (subordinateClauseRate d);
        relativeClauseRate := orElse (p_relativeClauseRate u) (relativeClauseRate d);
        questionRate := orElse (p_questionRate u) (questionRate d);
        compoundRate := orElse (p_compoundRate u) (compoundRate d);
        maxPPChain := orElse (p_maxPPChain u) (maxPPChain d);
        maxAdjectivesPerNoun := orElse (p_maxAdjectivesPerNoun u) (maxAdjectivesPerNoun d);
        maxAdverbsPerVerb := orElse (p_maxAdverbsPerVerb u) (maxAdverbsPerVerb d);
        maxSentenceAttempts := orElse (p_maxSentenceAttempts u) (maxSentenceAttempts d);
        maxPhraseAttempts := orElse (p_maxPhraseAttempts u) (maxPhraseAttempts d);
        enableTrace := orElse (p_enableTrace u) (enableTrace d);
        strictMode := orElse (p_strictMode u) (strictMode d);
        determiners := orElse (p_determiners u) (determiners d);
        subjectPronouns := orElse (p_subjectPronouns u) (subjectPronouns d);
        objectPronouns := orElse (p_objectPronouns u) (objectPronouns d);
        possessiveDeterminers :=
          orElse (p_possessiveDeterminers u) (possessiveDeterminers d);
        modals := orElse (p_modals u) (modals d);
        subordinators := orElse (p_subordinators u) (subordinators d);
        relatives := orElse (p_relatives u) (relatives d);
        coordinators := orElse (p_coordinators u) (coordinators d);
        transitions := orElse (p_transitions u) (transitions d);
        interjections := orElse (p_interjections u) (interjections d);
        outputTransforms :=
          match p_outputTransforms u with
          | Some o => Some o
          | None => outputTransforms d
          end
      |}
  end.

End Config.

(** ** types/context.ts *)

Module Context.
Import Lexicon.

Global Instance POS_eq_dec : EqDecision POS.
Proof. solve_decision. Defined.

Definition POS_code (p : POS) : nat :=
  match p with
  | noun => 0 | verb => 1 | adj => 2 | adv => 3
  | prep => 4 | conj => 5 | intj => 6 | det => 7
  end.

Definition POS_of_code (n : nat) : POS :=
  match n with
  | 0 => noun | 1 => verb | 2 => adj | 3 => adv
  | 4 => prep | 5 => conj | 6 => intj | _ => det
  end.

Global Instance POS_countable : Countable POS.
Proof. apply (inj_countable' POS_code POS_of_code). intros []; reflexivity. Defined.

Inductive GrammaticalNumber : Type := singular | plural.
Inductive Person : Type := first | second | third.

Record PhraseFeatures : Type := mkFeatures {
  number : GrammaticalNumber;
  person : Person
}.

Record GenerationHistory : Type := mkHistory {
  chosenTermSets : list string;
  chosenTerms : gmap POS (list LexicalItem);
  chosenPatterns : list string;
  events : list ChoiceEvent
}.

Record ScopeEntry : Type := mkScopeEntry {
  se_type : Scope;
  startIndex : nat
}.

Record GenerationContext : Type := mkContext {
  seed : Z;
  archetype : string;
  activeTags : gset string;
  biases : gmap string Q;
  history : GenerationHistory;
  scopeStack : list ScopeEntry;
  constraints : list Constraint;
  invariants : list Invariant;
  sentenceIndex : Z;
  paragraphIndex : Z;
  currentSentenceTokens : list string;
  currentSubjectFeatures : option PhraseFeatures;
  relationHints : list string;
  retryCount : Z
}.

Definition createContext (seed : Z) (archetype : string) : GenerationContext := {|
  seed := seed;
  archetype := archetype;
  activeTags := ∅;
  biases := ∅;
  history := mkHistory [] ∅ [] [];
  scopeStack := [mkScopeEntry text 0];
  constraints := [];
  invariants := [];
  sentenceIndex := 0;
  paragraphIndex := 0;
  currentSentenceTokens := [];
  currentSubjectFeatures := None;
  relationHints := [];
  retryCount := 0
|}.

(** Field updates of the mutable context object. *)
Definition set_activeTags (v : gset string) (c : GenerationContext) :=
  mkContext (seed c) (archetype c) v (biases c) (history c) (scopeStack c)
    (constraints c) (invariants c) (sentenceIndex c) (paragraphIndex c)
    (currentSentenceTokens c) (currentSubjectFeatures c) (relationHints c)
    (retryCount c).

Definition set_biases (v : gmap string Q) (c : GenerationContext) :=
  mkContext (seed c) (archetype c) (activeTags c) v (history c) (scopeStack c)
    (constraints c) (invariants c) (sentenceIndex c) (paragraphIndex c)
    (currentSentenceTokens c) (currentSubjectFeatures c) (relationHints c)
    (retryCount c).

Definition set_history (v : GenerationHistory) (c : GenerationContext) :=
  mkContext (seed c) (archetype c) (activeTags c) (biases c) v (scopeStack c)
    (constraints c) (invariants c) (sentenceIndex c) (paragraphIndex c)
    (currentSentenceTokens c) (currentSubjectFeatures c) (relationHints c)
    (retryCount c).

Definition set_scopeStack (v : list ScopeEntry) (c : GenerationContext) :=
  mkContext (seed c) (archetype c) (activeTags c) (biases c) (history c) v
    (constraints c) (invariants c) (sentenceIndex c) (paragraphIndex c)
    (currentSentenceTokens c) (currentSubjectFeatures c) (relationHints c)
    (retryCount c).

Definition set_rules (cs : list Constraint) (invs : list Invariant)
    (c : GenerationContext) :=
  mkContext (seed c) (archetype c) (activeTags c) (biases c) (history c)
    (scopeStack c) cs invs (sentenceIndex c) (paragraphIndex c)
    (currentSentenceTokens c) (currentSubjectFeatures c) (relationHints c)
    (retryCount c).

Definition set_sentenceIndex (v : Z) (c : GenerationContext) :=
  mkContext (seed c) (archetype c) (activeTags c) (biases c) (history c)
    (scopeStack c) (constraints c) (invariants c) v (paragraphIndex c)
    (currentSentenceTokens c) (currentSubjectFeatures c) (relationHints c)
    (retryCount c).

Definition set_paragraphIndex (v : Z) (c : GenerationContext) :=
  mkContext (seed c) (archetype c) (activeTags c) (biases c) (history c)
    (scopeStack c) (constraints c) (invariants c) (sentenceIndex c) v
    (currentSentenceTokens c) (currentSubjectFeatures c) (relationHints c)
    (retryCount c).

Definition set_relationHints (v : list string) (c : GenerationContext) :=
  mkContext (seed c) (archetype c) (activeTags c) (biases c) (history c)
    (scopeStack c) (constraints c) (invariants c) (sentenceIndex c)
    (paragraphIndex c) (currentSentenceTokens c) (currentSubjectFeatures c) v
    (retryCount c).

Definition set_retryCount (v : Z) (c : GenerationContext) :=
  mkContext (seed c) (archetype c) (activeTags c) (biases c) (history c)
    (scopeStack c) (constraints c) (invariants c) (sentenceIndex c)
    (paragraphIndex c) (currentSentenceTokens c) (currentSubjectFeatures c)
    (relationHints c) v.

Definition pushScope (type : Scope) (c : GenerationContext) : GenerationContext :=
  set_scopeStack (scopeStack c ++ [mkScopeEntry type (length (events (history c)))]) c.

Definition popScope (c : GenerationContext) : option ScopeEntry * GenerationContext :=
  if (1 <? length (scopeStack c))%nat then
    (last (scopeStack c), set_scopeStack (removelast (scopeStack c)) c)
  else (None, c).

Definition currentScope (c : GenerationContext) : Scope :=
  match last (scopeStack c) with
  | Some e => se_type e
  | None => text
  end.

Definition recordChoice (event : ChoiceEvent) (c : GenerationContext)
  : GenerationContext :=
  let h := history c in
  let evs := events h ++ [event] in
  match ev_type event, ev_item event with
  | CTerm, ItemLexical item =>
      let existing := default [] (chosenTerms h !! li_pos item) in
      let terms := <[li_pos item := existing ++ [item]]> (chosenTerms h) in
      let sets :=
        match ev_termSetId event with
        | Some id => if String.eqb id "" then chosenTermSets h
                     else chosenTermSets h ++ [id]
        | None => chosenTermSets h
        end in
      set_history (mkHistory sets terms (chosenPatterns h) evs) c
  | CPattern, _ =>
      match ev_patternId event with
      | Some id =>
          if String.eqb id "" then
            set_history (mkHistory (chosenTermSets h) (chosenTerms h)
                           (chosenPatterns h) evs) c
          else
            set_history (mkHistory (chosenTermSets h) (chosenTerms h)
                           (chosenPatterns h ++ [id]) evs) c
      | None =>
          set_history (mkHistory (chosenTermSets h) (chosenTerms h)
                         (chosenPatterns h) evs) c
      end
  | _, _ =>
      set_history (mkHistory (chosenTermSets h) (chosenTerms h)
                     (chosenPatterns h) evs) c
  end.

(** [key.startsWith(p)] *)
Definition startsWith (p key : string) : bool := String.prefix p key.

(** The loop [for (const [key] of ctx.biases) if (key.startsWith(p))
    ctx.biases.delete(key)]. *)
Definition deletePrefixed (p : string) (m : gmap string Q) : gmap string Q :=
  filter (fun kv => startsWith p (fst kv) = false) m.

Definition clearSentenceState (c : GenerationContext) : GenerationContext :=
  mkContext (seed c) (archetype c) (activeTags c)
    (deletePrefixed "sentence:" (biases c)) (history c) (scopeStack c)
    (constraints c) (invariants c) (sentenceIndex c) (paragraphIndex c)
    [] None [] (retryCount c).

Definition clearParagraphState (c : GenerationContext) : GenerationContext :=
  let c := set_sentenceIndex 0 (clearSentenceState c) in
  set_biases (deletePrefixed "paragraph:" (biases c)) c.

End Context.

(** ** morphology/normalize.ts *)

Module Normalize.

Definition code (c : ascii) : nat := nat_of_ascii c.

(** [\s] on 7-bit characters: tab, line feed, vertical tab, form feed,
    carriage return, space. *)
Definition isSpace (c : ascii) : bool :=
  let n := code c in (((9 <=? n) && (n <=? 13)) || (n =? 32))%nat.

Definition isLower (c : ascii) : bool :=
  let n := code c in ((97 <=? n) && (n <=? 122))%nat.

Definition isUpper (c : ascii) : bool :=
  let n := code c in ((65 <=? n) && (n <=? 90))%nat.

(** [[a-zA-Z]] *)
Definition isLetter (c : ascii) : bool := isLower c || isUpper c.

(** [ch.toUpperCase()] on one 7-bit character. *)
Definition toUpperCaseChar (c : ascii) : ascii :=
  if isLower c then ascii_of_nat (code c - 32) else c.

Definition memChar (c : ascii) (set : list ascii) : bool :=
  existsb (Ascii.eqb c) set.

(** [[.,!?;:)]] *)
Definition closingPunct : list ascii :=
  ["."; ","; "!"; "?"; ";"; ":"; ")"]%char.

(** [[.,!?;:]] *)
Definition spacedPunct : list ascii := ["."; ","; "!"; "?"; ";"; ":"]%char.

(** [['.', '!', '?', ';', ':']] *)
Definition endPunct : list ascii := ["."; "!"; "?"; ";"; ":"]%char.

(** [['.', '!', '?', ';', ':', ',']] *)
Definition checkedEndPunct : list ascii := ["."; "!"; "?"; ";"; ":"; ","]%char.

(** [.replace(/\s+/g, ' ')]; [inRun] tells that the previous character
    belonged to the white-space run being replaced. *)
Fixpoint collapseSpaces (inRun : bool) (s : string) : string :=
  match s with
  | EmptyString => EmptyString
  | String c rest =>
      if isSpace c then
        if inRun then collapseSpaces true rest
        else String " " (collapseSpaces true rest)
      else String c (collapseSpaces false rest)
  end.

(** [s.trimStart()] *)
Fixpoint trimStart (s : string) : string :=
  match s with
  | EmptyString => EmptyString
  | String c rest => if isSpace c then trimStart rest else s
  end.

Definition startsWithAny (set : list ascii) (s : string) : bool :=
  match s with
  | EmptyString => false
  | String c _ => memChar c set
  end.

(** [.replace(/\s+([.,!?;:)])/g, '$1')]: a white-space run is dropped
    when the character that ends it is a closing punctuation mark. *)
Fixpoint dropSpaceBeforePunct (s : string) : string :=
  match s with
  | EmptyString => EmptyString
  | String c rest =>
      if isSpace c && startsWithAny closingPunct (trimStart rest)
      then dropSpaceBeforePunct rest
      else String c (dropSpaceBeforePunct rest)
  end.

(** [.replace(/\(\s+/g, '(')]; [afterParen] tells that only white space
    has been read since an opening parenthesis. *)
Fixpoint dropSpaceAfterParen (afterParen : bool) (s : string) : string :=
  match s with
  | EmptyString => EmptyString
  | String c rest =>
      if afterParen && isSpace c then dropSpaceAfterParen true rest
      else String c (dropSpaceAfterParen (Ascii.eqb c "(") rest)
  end.

(** [.replace(/([.,!?;:])(?=[^\s])/g, '$1 ')] *)
Fixpoint spaceAfterPunct (s : string) : string :=
  match s with
  | EmptyString => EmptyString
  | String c rest =>
      let followed :=
        match rest with
        | EmptyString => false
        | String d _ => negb (isSpace d)
        end in
      if memChar c spacedPunct && followed
      then String c (String " " (spaceAfterPunct rest))
      else String c (spaceAfterPunct rest)
  end.

(** [s.trimEnd()] *)
Fixpoint trimEnd (s : string) : string :=
  match s with
  | EmptyString => EmptyString
  | String c rest =>
      match trimEnd rest with
      | EmptyString => if isSpace c then EmptyString else String c EmptyString
      | r => String c r
      end
  end.

(** [s.trim()] *)
Definition trim (s : string) : string := trimEnd (trimStart s).

Definition normalizeWhitespace (text : string) : string :=
  trim (spaceAfterPunct (dropSpaceAfterParen false
         (dropSpaceBeforePunct (collapseSpaces false text)))).

Definition capitalize (text : string) : string :=
  match text with
  | EmptyString => text
  | String c rest => String (toUpperCaseChar c) rest
  end.

(** [s[s.length - 1]] *)
Fixpoint lastChar (s : string) : option ascii :=
  match s with
  | EmptyString => None
  | String c EmptyString => Some c
  | String _ rest => lastChar rest
  end.

Definition ensureEndPunctuation (text defaultPunct : string) : string :=
  let trimmed := trimEnd text in
  match lastChar trimmed with
  | None => trimmed
  | Some c => if memChar c endPunct then trimmed else trimmed +:+ defaultPunct
  end.

(** [text.match(/[a-zA-Z]/)] *)
Fixpoint firstLetter (s : string) : option ascii :=
  match s with
  | EmptyString => None
  | String c rest => if isLetter c then Some c else firstLetter rest
  end.

Definition isCapitalized (text : string) : bool :=
  match firstLetter text with
  | None => true
  | Some c => Ascii.eqb c (toUpperCaseChar c)
  end.

Definition endsWithPunctuation (text : string) : bool :=
  match text with
  | EmptyString => true
  | _ =>
      match lastChar (trimEnd text) with
      | None => false
      | Some c => memChar c checkedEndPunct
      end
  end.

(** [/\s{2,}/.test(text)] *)
Fixpoint hasDoubleSpace (s : string) : bool :=
  match s with
  | EmptyString => false
  | String c rest =>
      (isSpace c && match rest with
                    | EmptyString => false
                    | String d _ => isSpace d
                    end)
      || hasDoubleSpace rest
  end.

Definition hasNoDoubleSpaces (text : string) : bool := negb (hasDoubleSpace text).

(** [result.endsWith('(')] *)
Definition endsWithParen (s : string) : bool :=
  match lastChar s with
  | Some c => Ascii.eqb c "("
  | None => false
  end.

Definition joinStep (result token : string) : string :=
  if startsWithAny closingPunct token then result +:+ token
  else if endsWithParen result then result +:+ token
  else result +:+ " " +:+ token.

Definition joinTokens (tokens : list string) : string :=
  match tokens with
  | [] => ""
  | t :: rest => fold_left joinStep rest t
  end.

Definition formatSentence (text punctuation : string) : string :=
  let result := normalizeWhitespace text in
  let result := capitalize result in
  ensureEndPunctuation result punctuation.

(** [parts.join(sep)] *)
Fixpoint join (sep : string) (parts : list string) : string :=
  match parts with
  | [] => ""
  | [p] => p
  | p :: rest => p +:+ sep +:+ join sep rest
  end.

Definition formatParagraph (sentences : list string) : string :=
  join " " (map (fun s => formatSentence s ".") sentences).

Definition newline : string := String (ascii_of_nat 10) EmptyString.

Definition formatTextBlock (paragraphs : list string) : string :=
  join (newline +:+ newline) paragraphs.

End Normalize.

(** ** The state a generation call runs in

    [TextGenerator] hands one [config] object, one [rng] and one
    [LexiconStore] to every component, and each call threads one mutable
    [GenerationContext] through the builders.  The embedding keeps each of
    these shared objects in a single cell of [World], so a write by one
    component is seen by all the others. *)

Module Gen.
Import Lexicon Config Context.

(** The methods of [IFakerAdapter] the engine calls. *)
Inductive FakerMethod : Type :=
  FAdjective | FAdverb | FNoun | FVerb | FPreposition | FConjunction
| FInterjection.

(** An injected adapter is an object with hidden state: what a method
    returns may depend on every call made before. *)
Record FakerAdapter : Type := mkFaker {
  respond : list FakerMethod -> FakerMethod -> string;
  calls : list FakerMethod
}.

Definition callFaker (m : FakerMethod) (f : FakerAdapter) : string * FakerAdapter :=
  (respond f (calls f) m, mkFaker (respond f) (calls f ++ [m])).

(** The fields of a [TextGenerator] (and of the components sharing them). *)
Record Session : Type := mkSession {
  config : GeneratorConfig;
  rng : Rng.SeedableRng;
  lexicon : option Lexicon;
  fakerAdapter : FakerAdapter;
  enableTrace : bool;
  currentArchetype : string;
  currentSeed : Z
}.

Definition set_config (v : GeneratorConfig) (s : Session) : Session :=
  mkSession v (rng s) (lexicon s) (fakerAdapter s) (enableTrace s)
    (currentArchetype s) (currentSeed s).

Definition set_rng (v : Rng.SeedableRng) (s : Session) : Session :=
  mkSession (config s) v (lexicon s) (fakerAdapter s) (enableTrace s)
    (currentArchetype s) (currentSeed s).

Definition set_lexicon (v : option Lexicon) (s : Session) : Session :=
  mkSession (config s) (rng s) v (fakerAdapter s) (enableTrace s)
    (currentArchetype s) (currentSeed s).

Definition set_fakerAdapter (v : FakerAdapter) (s : Session) : Session :=
  mkSession (config s) (rng s) (lexicon s) v (enableTrace s)
    (currentArchetype s) (currentSeed s).

Definition set_currentArchetype (v : string) (s : Session) : Session :=
  mkSession (config s) (rng s) (lexicon s) (fakerAdapter s) (enableTrace s)
    v (currentSeed s).

Definition set_currentSeed (v : Z) (s : Session) : Session :=
  mkSession (config s) (rng s) (lexicon s) (fakerAdapter s) (enableTrace s)
    (currentArchetype s) v.

Record World : Type := mkWorld { session : Session; ctx : GenerationContext }.

(** A computation that may read and write the world and may throw. *)
Definition M (A : Type) : Type := World -> Result A * World.

Definition ret {A} (a : A) : M A := fun w => (Ok a, w).

Definition bind {A B} (m : M A) (k : A -> M B) : M B :=
  fun w =>
    match m w with
    | (Ok a, w') => k a w'
    | (Throw e, w') => (Throw e, w')
    end.

Definition throw {A} (e : JsError) : M A := fun w => (Throw e, w).

(** [try { m } catch (e) { h(e) }] *)
Definition tryCatch {A} (m : M A) (h : JsError -> M A) : M A :=
  fun w =>
    match m w with
    | (Ok a, w') => (Ok a, w')
    | (Throw e, w') => h e w'
    end.

Definition getConfig : M GeneratorConfig := fun w => (Ok (config (session w)), w).

Definition putConfig (c : GeneratorConfig) : M unit :=
  fun w => (Ok tt, mkWorld (set_config c (session w)) (ctx w)).

Definition getLexicon : M (option Lexicon) := fun w => (Ok (lexicon (session w)), w).

Definition getCtx : M GenerationContext := fun w => (Ok (ctx w), w).

Definition modifyCtx (f : GenerationContext -> GenerationContext) : M unit :=
  fun w => (Ok tt, mkWorld (session w) (f (ctx w))).

(** A total method of the shared [rng]. *)
Definition liftRng {A} (op : Rng.SeedableRng -> A * Rng.SeedableRng) : M A :=
  fun w =>
    let '(a, r) := op (rng (session w)) in
    (Ok a, mkWorld (set_rng r (session w)) (ctx w)).

(** A method of the shared [rng] that may throw. *)
Definition liftRngResult {A} (op : Rng.SeedableRng -> Result A * Rng.SeedableRng)
  : M A :=
  fun w =>
    let '(a, r) := op (rng (session w)) in
    (a, mkWorld (set_rng r (session w)) (ctx w)).

Definition float : M Q := liftRng Rng.float.
Definition int (min max : Z) : M Z := liftRng (Rng.int min max).
Definition pick {T} (l : list T) : M T := liftRngResult (Rng.pick l).
Definition weightedPick {T} (items : list (Rng.WeightedItem T)) : M T :=
  liftRngResult (Rng.weightedPick items).
Definition chance (p : Q) : M bool := liftRng (Rng.chance p).

Definition faker (m : FakerMethod) : M string :=
  fun w =>
    let '(s, f) := callFaker m (fakerAdapter (session w)) in
    (Ok s, mkWorld (set_fakerAdapter f (session w)) (ctx w)).

End Gen.

Notation "'let*' x ':=' m 'in' k" := (Gen.bind m (fun x => k))
  (at level 10, x pattern, m at level 100, k at level 200).

(** ** lexicon/store.ts *)

Module LexiconStore.
Import Lexicon Config Context Gen.

(** JavaScript truthiness of an optional string. *)
Definition truthy (o : option string) : bool :=
  match o with
  | Some s => negb (String.eqb s "")
  | None => false
  end.

(** [a === b] on optional strings. *)
Definition optEq (a b : option string) : bool :=
  match a, b with
  | Some x, Some y => String.eqb x y
  | None, None => true
  | _, _ => false
  end.

(** [list.includes(x)] *)
Definition includes (x : string) (l : list string) : bool :=
  existsb (String.eqb x) l.

Definition isLoaded (lex : option Lexicon) : bool :=
  match lex with Some _ => true | None => false end.

Definition getMeta (lex : option Lexicon) : option (string * option string * string) :=
  match lex with
  | None => None
  | Some l => Some (lex_id l, lex_version l, lex_language l)
  end.

Definition getTermSet (lex : option Lexicon) (id : string) : option TermSet :=
  l ← lex; d ← termSets l; dictGet d id.

Definition getArchetype (lex : option Lexicon) (name : string) : option Archetype :=
  l ← lex; d ← archetypes l; dictGet d name.

Definition getDistribution (lex : option Lexicon) (id : string)
  : option (list DistributionEntry) :=
  l ← lex; d ← distributions l; dictGet d id.

Definition getPattern (lex : option Lexicon) (id : string) : option Pattern :=
  l ← lex; d ← patterns l; dictGet d id.

Definition nonEmpty {A} (o : option (list A)) : bool :=
  match o with
  | Some (_ :: _) => true
  | _ => false
  end.

Definition findMatchingTermSets (lex : option Lexicon) (termQuery : TermQuery)
    (c : GenerationContext) : list (string * TermSet) :=
  match lex ≫= termSets with
  | None => []
  | Some sets =>
      if nonEmpty (q_termSetIds termQuery) then
        flat_map
          (fun id =>
             match dictGet sets id with
             | Some set => if POS_eqb (ts_pos set) (q_pos termQuery)
                           then [(id, set)] else []
             | None => []
             end)
          (default [] (q_termSetIds termQuery))
      else
        List.filter
          (fun '(id, set) =>
             POS_eqb (ts_pos set) (q_pos termQuery)
             && (if nonEmpty (q_tags termQuery) then
                   existsb (fun t => includes t (default [] (ts_tags set)))
                     (default [] (q_tags termQuery))
                 else true)
             && (match ts_tags set with
                 | Some setTags =>
                     if (0 <? size (activeTags c))%nat then
                       let hasActiveTag :=
                         existsb (fun t => includes t setTags)
                           (elements (activeTags c)) in
                       negb (negb hasActiveTag && nonEmpty (q_tags termQuery))
                     else true
                 | None => true
                 end))
          sets
  end.

(** The body of the callback that weights one candidate term set in
    [sampleTerm], before the clamp. *)
Definition rawTermSetWeight (lex : option Lexicon) (c : GenerationContext)
    (id : string) : Q :=
  let weight := 1%Q in
  let weight :=
    match (a ← getArchetype lex (archetype c);
           d ← arch_distributions a;
           dictGet (T := string) d "termSetBias") with
    | Some name =>
        if String.eqb name "" then weight
        else
          match (dist ← getDistribution lex name;
                 List.find (fun e => String.eqb (de_key e) id) dist) with
          | Some entry => (weight * de_weight entry)%Q
          | None => weight
          end
    | None => weight
    end in
  let bias := default 0%Q (biases c !! id) in
  (weight + bias)%Q.

(** [Math.max(0, weight)] of the above: the weight a set is sampled with. *)
Definition termSetWeight (lex : option Lexicon) (c : GenerationContext)
    (id : string) : Q :=
  Qmax 0 (rawTermSetWeight lex c id).

Definition weightedSets (lex : option Lexicon) (c : GenerationContext)
    (candidateSets : list (string * TermSet))
  : list (Rng.WeightedItem (string * TermSet)) :=
  map (fun '(id, set) => Rng.mkWeighted (id, set) (termSetWeight lex c id))
    candidateSets.

Definition termMatches (termQuery : TermQuery) (t : Term) : bool :=
  forallb
    (fun '(key, value) =>
       match getFeature (term_features t) key with
       | Some v => strictEquals v value
       | None => false
       end)
    (default [] (q_features termQuery))
  && negb (includes (term_value t) (default [] (q_exclude termQuery))).

Definition sampleTerm (termQuery : TermQuery) : M (option LexicalItem) :=
  let* lex := getLexicon in
  let* c := getCtx in
  match lex ≫= termSets with
  | None => ret None
  | Some _ =>
      let candidateSets := findMatchingTermSets lex termQuery c in
      if (length candidateSets =? 0)%nat then ret None
      else
        let validWeightedSets :=
          List.filter (fun w => Qlt_bool 0 (Rng.weight w))
            (weightedSets lex c candidateSets) in
        if (length validWeightedSets =? 0)%nat then ret None
        else
          let* (termSetId, set) := weightedPick validWeightedSets in
          let terms := List.filter (termMatches termQuery) (ts_terms set) in
          if (length terms =? 0)%nat then ret None
          else
            let weightedTerms :=
              map (fun t => Rng.mkWeighted t (default 1%Q (term_weight t))) terms in
            let* term := weightedPick weightedTerms in
            ret (Some {|
              li_value := term_value term;
              li_pos := q_pos termQuery;
              li_termSetId := Some termSetId;
              li_features := term_features term;
              li_tags := match term_tags term with
                         | Some t => Some t
                         | None => ts_tags set
                         end
            |})
  end.

(** The weight of one candidate pattern in [samplePattern]. *)
Definition patternWeight (c : GenerationContext) (id : string) (p : Pattern) : Q :=
  let weight := default 1%Q (pat_weight p) in
  let bias := default 0%Q (biases c !! ("pattern:" +:+ id)) in
  Qmax 0 (weight + bias).

Definition patternCandidates (lex : option Lexicon) (patternQuery : PatternQuery)
  : list (string * Pattern) :=
  match lex ≫= patterns with
  | None => []
  | Some pats =>
      if nonEmpty (pq_patternIds patternQuery) then
        flat_map
          (fun id =>
             match dictGet pats id with
             | Some p => if PatternType_eqb (pat_type p) (pq_type patternQuery)
                         then [(id, p)] else []
             | None => []
             end)
          (default [] (pq_patternIds patternQuery))
      else
        List.filter
          (fun '(id, p) =>
             PatternType_eqb (pat_type p) (pq_type patternQuery)
             && (if nonEmpty (pq_tags patternQuery) then
                   existsb (fun t => includes t (default [] (pat_tags p)))
                     (default [] (pq_tags patternQuery))
                 else true))
          pats
  end.

Definition samplePattern (patternQuery : PatternQuery) : M (option Pattern) :=
  let* lex := getLexicon in
  let* c := getCtx in
  match lex ≫= patterns with
  | None => ret None
  | Some _ =>
      let candidates := patternCandidates lex patternQuery in
      if (length candidates =? 0)%nat then ret None
      else
        let weighted :=
          map (fun '(id, p) => Rng.mkWeighted p (patternWeight c id p)) candidates in
        let validWeighted := List.filter (fun w => Qlt_bool 0 (Rng.weight w)) weighted in
        if (length validWeighted =? 0)%nat then ret None
        else
          let* p := weightedPick validWeighted in
          ret (Some p)
  end.

(** [item.tags] and [item.value] of [chosen.item as LexicalItem]. *)
Definition itemTags (i : ChoiceItem) : option (list string) :=
  match i with
  | ItemLexical li => li_tags li
  | ItemPattern p => pat_tags p
  | ItemString _ => None
  end.

Definition itemValue (i : ChoiceItem) : option string :=
  match i with
  | ItemLexical li => Some (li_value li)
  | _ => None
  end.

Definition isTerm (t : ChoiceType) : bool :=
  match t with CTerm => true | _ => false end.

Definition matchesCorrelationCondition (condition : CorrelationCondition)
    (chosen : ChoiceEvent) : bool :=
  if truthy (chosenTermSet condition)
     && optEq (ev_termSetId chosen) (chosenTermSet condition) then true
  else if truthy (chosenTag condition) && isTerm (ev_type chosen)
          && match itemTags (ev_item chosen), chosenTag condition with
             | Some tags, Some tag => includes tag tags
             | _, _ => false
             end then true
  else if truthy (chosenValue condition) && isTerm (ev_type chosen)
          && optEq (itemValue (ev_item chosen)) (chosenValue condition) then true
  else if truthy (usedPattern condition)
          && optEq (ev_patternId chosen) (usedPattern condition) then true
  else false.

(** [ctx.biases.set(key, (ctx.biases.get(key) ?? 0) + delta)] *)
Definition addBias (key : string) (delta : Q) (m : gmap string Q) : gmap string Q :=
  <[key := (default 0%Q (m !! key) + delta)%Q]> m.

(** The body of the inner loop of [applyCorrelations] for one boost. *)
Definition applyBoost (scope : Scope) (boost : CorrelationBoost)
    (m : gmap string Q) : gmap string Q :=
  let prefix := scopeName scope +:+ ":" in
  let m :=
    match boost_termSet boost with
    | Some ts =>
        if String.eqb ts "" then m
        else addBias ts (weightDelta boost)
               (addBias (prefix +:+ ts) (weightDelta boost) m)
    | None => m
    end in
  match boost_pattern boost with
  | Some p =>
      if String.eqb p "" then m
      else addBias (prefix +:+ "pattern:" +:+ p) (weightDelta boost) m
  | None => m
  end.

Definition applyCorrelation (chosen : ChoiceEvent) (m : gmap string Q)
    (correlation : Correlation) : gmap string Q :=
  if matchesCorrelationCondition (when correlation) chosen then
    fold_left (fun m boost => applyBoost (corr_scope correlation) boost m)
      (thenBoost correlation) m
  else m.

Definition applyCorrelations (lex : option Lexicon) (chosen : ChoiceEvent)
    (c : GenerationContext) : GenerationContext :=
  match lex ≫= correlations with
  | None => c
  | Some cs => set_biases (fold_left (applyCorrelation chosen) cs (biases c)) c
  end.

Definition evaluateRelations (lex : option Lexicon) (entityOrTerm : string)
    (relationType : option string) : list RelationResult :=
  match lex ≫= relations with
  | None => []
  | Some rels =>
      flat_map
        (fun r =>
           let typeOk := negb (truthy relationType)
                         || optEq (Some (rel_type r)) relationType in
           (if String.eqb (rel_from r) entityOrTerm && typeOk then
              [mkRelationResult (rel_to r) (rel_type r)
                 (default 1%Q (rel_weight r)) outgoing]
            else [])
           ++ (if String.eqb (rel_to r) entityOrTerm && typeOk then
                 [mkRelationResult (rel_from r) (rel_type r)
                    (default 1%Q (rel_weight r)) incoming]
               else []))
        rels
  end.

Definition getTermSetsByPOS (lex : option Lexicon) (pos : POS)
  : list (string * TermSet) :=
  match lex ≫= termSets with
  | None => []
  | Some sets => List.filter (fun '(_, set) => POS_eqb (ts_pos set) pos) sets
  end.

End LexiconStore.

(** ** rules/rule-engine.ts

    The [message] field of a result is a diagnostic text only and is left
    out of the embedding. *)

Module RuleEngine.
Import Lexicon Config Context.

Record ConstraintResult : Type := mkConstraintResult {
  cr_id : string;
  cr_passed : bool
}.

Record InvariantResult : Type := mkInvariantResult {
  ir_id : string;
  ir_passed : bool
}.

Record ValidationResult : Type := mkValidationResult {
  valid : bool;
  constraintResults : list ConstraintResult;
  invariantResults : list InvariantResult;
  hardConstraintsFailed : list string;
  softConstraintsFailed : list string;
  invariantsFailed : list string
}.

Definition toLowerCaseChar (c : ascii) : ascii :=
  if Normalize.isUpper c then ascii_of_nat (Normalize.code c + 32) else c.

(** [s.toLowerCase()] *)
Fixpoint toLowerCase (s : string) : string :=
  match s with
  | EmptyString => EmptyString
  | String c rest => String (toLowerCaseChar c) (toLowerCase rest)
  end.

(** [s.slice(n)] *)
Fixpoint slice (n : nat) (s : string) : string :=
  match n, s with
  | O, _ => s
  | S n', String _ rest => slice n' rest
  | S _, EmptyString => EmptyString
  end.

(** [new Set(l).size] *)
Fixpoint distinctCount (l : list string) : nat :=
  match l with
  | [] => 0
  | x :: rest =>
      if LexiconStore.includes x rest then distinctCount rest
      else S (distinctCount rest)
  end.

(** The value of [target.slice(4) as POS] when it names a part of speech. *)
Definition parsePOS (s : string) : option POS :=
  if String.eqb s "noun" then Some noun
  else if String.eqb s "verb" then Some verb
  else if String.eqb s "adj" then Some adj
  else if String.eqb s "adv" then Some adv
  else if String.eqb s "prep" then Some prep
  else if String.eqb s "conj" then Some conj
  else if String.eqb s "intj" then Some intj
  else if String.eqb s "det" then Some det
  else None.

(** [ctx.history.chosenTerms.get(pos) ?? []] *)
Definition posTerms (c : GenerationContext) (pos : string) : list LexicalItem :=
  match parsePOS pos with
  | Some p => default [] (chosenTerms (history c) !! p)
  | None => []
  end.

Definition evaluateNoRepeat (constraint : Constraint) (c : GenerationContext)
    (tokens : list string) : ConstraintResult :=
  let target := c_target constraint in
  if startsWith "pos:" target then
    let values := map (fun t => toLowerCase (li_value t)) (posTerms c (slice 4 target)) in
    if negb (length values =? distinctCount values)%nat
    then mkConstraintResult (c_id constraint) false
    else mkConstraintResult (c_id constraint) true
  else if startsWith "termSet:" target then
    let termSetId := slice 8 target in
    let count :=
      length (List.filter (String.eqb termSetId) (chosenTermSets (history c))) in
    if (1 <? count)%nat
    then mkConstraintResult (c_id constraint) false
    else mkConstraintResult (c_id constraint) true
  else
    let tokenLower := map toLowerCase tokens in
    if negb (length tokenLower =? distinctCount tokenLower)%nat
    then mkConstraintResult (c_id constraint) false
    else mkConstraintResult (c_id constraint) true.

(** The count taken in the ['PP'] branch of [evaluateMaxCount]. *)
Definition ppCount (cfg : GeneratorConfig) (tokens : list string) : Z :=
  let preps := determiners cfg in
  Z.of_nat
    (length (List.filter (fun t => LexiconStore.includes (toLowerCase t) preps) tokens)).

Definition evaluateMaxCount (cfg : GeneratorConfig) (constraint : Constraint)
    (tokens : list string) : ConstraintResult :=
  let target := c_target constraint in
  let maxValue := default 1%Z (c_value constraint) in
  if String.eqb target "PP" then
    let count := ppCount cfg tokens in
    if (count >? maxValue)%Z
    then mkConstraintResult (c_id constraint) false
    else mkConstraintResult (c_id constraint) true
  else if String.eqb target "words" then
    if (Z.of_nat (length tokens) >? maxValue)%Z
    then mkConstraintResult (c_id constraint) false
    else mkConstraintResult (c_id constraint) true
  else mkConstraintResult (c_id constraint) true.

Definition evaluateMinCount (constraint : Constraint) (tokens : list string)
  : ConstraintResult :=
  let target := c_target constraint in
  let minValue := default 1%Z (c_value constraint) in
  if String.eqb target "words" then
    if (Z.of_nat (length tokens) <? minValue)%Z
    then mkConstraintResult (c_id constraint) false
    else mkConstraintResult (c_id constraint) true
  else mkConstraintResult (c_id constraint) true.

Definition evaluateRequired (constraint : Constraint) (c : GenerationContext)
  : ConstraintResult :=
  let target := c_target constraint in
  if startsWith "pos:" target then
    if (length (posTerms c (slice 4 target)) =? 0)%nat
    then mkConstraintResult (c_id constraint) false
    else mkConstraintResult (c_id constraint) true
  else mkConstraintResult (c_id constraint) true.

Definition evaluateForbidden (constraint : Constraint) (tokens : list string)
  : ConstraintResult :=
  let tokenLower := map toLowerCase tokens in
  if LexiconStore.includes (toLowerCase (c_target constraint)) tokenLower
  then mkConstraintResult (c_id constraint) false
  else mkConstraintResult (c_id constraint) true.

Definition evaluateConstraint (cfg : GeneratorConfig) (constraint : Constraint)
    (c : GenerationContext) (tokens : list string) : ConstraintResult :=
  match c_type constraint with
  | noRepeat => evaluateNoRepeat constraint c tokens
  | maxCount => evaluateMaxCount cfg constraint tokens
  | minCount => evaluateMinCount constraint tokens
  | required => evaluateRequired constraint c
  | forbidden => evaluateForbidden constraint tokens
  | customConstraint => mkConstraintResult (c_id constraint) true
  end.

Definition evaluateConstraints (cfg : GeneratorConfig) (cs : list Constraint)
    (c : GenerationContext) (tokens : list string) (scope : Scope)
  : list ConstraintResult :=
  map (fun k => evaluateConstraint cfg k c tokens)
    (List.filter (fun k => Scope_eqb (c_scope k) scope) cs).

Definition evaluateInvariant (invariant : Invariant) (text : string)
  : InvariantResult :=
  match inv_type invariant with
  | capitalization =>
      mkInvariantResult (inv_id invariant) (Normalize.isCapitalized text)
  | punctuation =>
      mkInvariantResult (inv_id invariant) (Normalize.endsWithPunctuation text)
  | whitespace =>
      mkInvariantResult (inv_id invariant) (Normalize.hasNoDoubleSpaces text)
  | agreement => mkInvariantResult (inv_id invariant) true
  | customInvariant => mkInvariantResult (inv_id invariant) true
  end.

Definition evaluateInvariants (invs : list Invariant) (text : string)
    (scope : Scope) : list InvariantResult :=
  map (fun i => evaluateInvariant i text)
    (List.filter (fun i => Scope_eqb (inv_scope i) scope) invs).

(** [constraints.find(c => c.id === r.id)?.level === level] *)
Definition levelIs (cs : list Constraint) (level : Level) (r : ConstraintResult)
  : bool :=
  match List.find (fun k => String.eqb (c_id k) (cr_id r)) cs with
  | Some k =>
      match c_level k, level with
      | hard, hard | soft, soft => true
      | _, _ => false
      end
  | None => false
  end.

Definition validate (cfg : GeneratorConfig) (cs : list Constraint)
    (invs : list Invariant) (c : GenerationContext) (text : string)
    (tokens : list string) (scope : Scope) : ValidationResult :=
  let constraintResults := evaluateConstraints cfg cs c tokens scope in
  let invariantResults := evaluateInvariants invs text scope in
  let failed := List.filter (fun r => negb (cr_passed r)) constraintResults in
  let hardConstraintsFailed := map cr_id (List.filter (levelIs cs hard) failed) in
  let softConstraintsFailed := map cr_id (List.filter (levelIs cs soft) failed) in
  let invariantsFailed :=
    map ir_id (List.filter (fun r => negb (ir_passed r)) invariantResults) in
  {| valid := (length hardConstraintsFailed =? 0)%nat
              && (length invariantsFailed =? 0)%nat;
     constraintResults := constraintResults;
     invariantResults := invariantResults;
     hardConstraintsFailed := hardConstraintsFailed;
     softConstraintsFailed := softConstraintsFailed;
     invariantsFailed := invariantsFailed |}.

Definition getDefaultInvariants : list Invariant :=
  [ mkInvariant "inv.capitalized" capitalization sentence None;
    mkInvariant "inv.endsWithPunct" punctuation sentence None;
    mkInvariant "inv.noDoubleSpaces" whitespace text None ].

Definition getDefaultConstraints (cfg : GeneratorConfig) : list Constraint :=
  [ mkConstraint "c.maxPP" hard phrase maxCount "PP" (Some (maxPPChain cfg)) None;
    mkConstraint "c.minWords" soft sentence minCount "words"
      (Some (minWordsPerSentence cfg)) None;
    mkConstraint "c.maxWords" soft sentence maxCount "words"
      (Some (maxWordsPerSentence cfg)) None ].

End RuleEngine.

(** ** defaults/index.ts *)

Module Defaults.

Definition DEFAULT_NOUNS : list string :=
  [ "idea"; "system"; "problem"; "question"; "answer"; "plan"; "reason"; "result";
    "group"; "project"; "team"; "process"; "change"; "way"; "part"; "place";
    "case"; "point"; "fact"; "example"; "issue"; "matter"; "thing"; "situation";
    "area"; "level"; "type"; "kind"; "form"; "method"; "approach"; "solution";
    "person"; "company"; "organization"; "market"; "industry"; "service"; "product";
    "customer"; "client"; "user"; "employee"; "manager"; "leader"; "expert";
    "report"; "document"; "policy"; "strategy"; "goal"; "objective"; "target";
    "decision"; "action"; "step"; "task"; "activity"; "event"; "meeting";
    "resource"; "tool"; "technology"; "data"; "information"; "knowledge"; "skill";
    "opportunity"; "challenge"; "risk"; "benefit"; "value"; "cost"; "time" ].

Definition DEFAULT_VERBS : list string :=
  [ "be"; "have"; "do"; "say"; "get"; "make"; "go"; "know"; "take"; "see";
    "come"; "think"; "look"; "want"; "give"; "use"; "find"; "tell"; "ask"; "work";
    "seem"; "feel"; "try"; "leave"; "call"; "need"; "become"; "put"; "mean"; "keep";
    "let"; "begin"; "show"; "hear"; "play"; "run"; "move"; "live"; "believe"; "hold";
    "bring"; "happen"; "write"; "provide"; "sit"; "stand"; "lose"; "pay"; "meet";
    "include"; "continue"; "set"; "learn"; "change"; "lead"; "understand"; "watch";
    "follow"; "stop"; "create"; "speak"; "read"; "spend"; "grow"; "open"; "walk";
    "offer"; "remember"; "consider"; "appear"; "buy"; "wait"; "serve"; "send";
    "expect"; "build"; "stay"; "fall"; "cut"; "reach"; "remain"; "suggest"; "raise";
    "pass"; "sell"; "require"; "report"; "decide"; "support"; "develop"; "produce";
    "achieve"; "improve"; "increase"; "reduce"; "manage"; "maintain"; "ensure" ].

Definition DEFAULT_ADJECTIVES : list string :=
  [ "good"; "new"; "first"; "last"; "long"; "great"; "little"; "own"; "other";
    "old"; "right"; "big"; "high"; "different"; "small"; "large"; "next"; "early";
    "young"; "important"; "few"; "public"; "bad"; "same"; "able"; "sure"; "real";
    "best"; "better"; "true"; "certain"; "clear"; "full"; "special"; "free";
    "strong"; "hard"; "likely"; "simple"; "recent"; "possible"; "whole"; "current";
    "general"; "specific"; "available"; "significant"; "particular"; "major";
    "successful"; "effective"; "essential"; "critical"; "key"; "primary"; "main";
    "direct"; "positive"; "negative"; "basic"; "common"; "serious"; "difficult";
    "similar"; "final"; "previous"; "additional"; "individual"; "professional" ].

Definition DEFAULT_ADVERBS : list string :=
  [ "also"; "just"; "only"; "now"; "then"; "more"; "very"; "well"; "even"; "still";
    "already"; "often"; "always"; "never"; "really"; "much"; "most"; "almost";
    "here"; "there"; "together"; "quite"; "soon"; "perhaps"; "probably"; "actually";
    "simply"; "certainly"; "clearly"; "definitely"; "directly"; "easily"; "especially";
    "eventually"; "exactly"; "finally"; "frequently"; "generally"; "greatly";
    "highly"; "immediately"; "increasingly"; "indeed"; "naturally"; "nearly";
    "necessarily"; "normally"; "obviously"; "particularly"; "possibly"; "primarily";
    "quickly"; "rapidly"; "recently"; "regularly"; "significantly"; "slightly";
    "sometimes"; "specifically"; "strongly"; "successfully"; "suddenly"; "typically" ].

Definition DEFAULT_PREPOSITIONS : list string :=
  [ "of"; "in"; "to"; "for"; "with"; "on"; "at"; "from"; "by"; "about";
    "as"; "into"; "through"; "during"; "before"; "after"; "above"; "below";
    "between"; "under"; "since"; "without"; "toward"; "upon"; "within";
    "against"; "among"; "across"; "behind"; "beyond"; "over"; "around";
    "throughout"; "despite"; "near"; "along"; "beside"; "outside"; "inside" ].

Definition DEFAULT_CONJUNCTIONS : list string :=
  [ "and"; "but"; "or"; "so"; "yet"; "nor"; "for" ].

Definition DEFAULT_SUBORDINATORS : list string :=
  [ "after"; "although"; "as"; "because"; "before"; "if"; "once"; "since";
    "than"; "that"; "though"; "unless"; "until"; "when"; "whenever"; "where";
    "wherever"; "while"; "whereas" ].

Definition DEFAULT_INTERJECTIONS : list string :=
  [ "oh"; "ah"; "well"; "wow"; "hey"; "alas"; "indeed"; "certainly"; "surely";
    "naturally"; "clearly"; "obviously"; "honestly"; "frankly"; "fortunately";
    "unfortunately"; "surprisingly"; "interestingly" ].

Definition DEFAULT_DETERMINERS : list string :=
  [ "the"; "a"; "an"; "this"; "that"; "these"; "those";
    "my"; "your"; "his"; "her"; "its"; "our"; "their";
    "some"; "any"; "no"; "every"; "each"; "all"; "both"; "few"; "many"; "several";
    "most"; "other"; "another"; "such"; "what"; "which" ].

Definition DEFAULT_SUBJECT_PRONOUNS : list string :=
  [ "I"; "you"; "he"; "she"; "it"; "we"; "they" ].

Definition DEFAULT_OBJECT_PRONOUNS : list string :=
  [ "me"; "you"; "him"; "her"; "it"; "us"; "them" ].

Definition DEFAULT_POSSESSIVE_DETERMINERS : list string :=
  [ "my"; "your"; "his"; "her"; "its"; "our"; "their" ].

Definition DEFAULT_MODALS : list string :=
  [ "can"; "could"; "may"; "might"; "must"; "shall"; "should"; "will"; "would" ].

Definition DEFAULT_RELATIVES : list string :=
  [ "who"; "whom"; "whose"; "which"; "that" ].

Definition DEFAULT_TRANSITIONS : list string :=
  [ "however"; "therefore"; "moreover"; "furthermore"; "meanwhile";
    "consequently"; "nevertheless"; "otherwise"; "accordingly"; "indeed";
    "certainly"; "naturally"; "fortunately"; "unfortunately"; "surprisingly";
    "generally"; "specifically"; "particularly"; "additionally"; "similarly";
    "conversely"; "alternatively"; "subsequently"; "ultimately"; "eventually" ].

End Defaults.

(** ** providers/word-provider.ts *)

Module WordProvider.
Import Lexicon Config Context Gen.

(** The [options] argument of [getWord]; an absent field is [None]. *)
Record WordOptions : Type := mkWordOptions {
  o_tags : option (list string);
  o_termSetIds : option (list string);
  o_features : option TermFeatures;
  o_exclude : option (list string);
  o_fallbackToFaker : option bool
}.

Definition noOptions : WordOptions := mkWordOptions None None None None None.

Definition getFromFaker (pos : POS) : M string :=
  match pos with
  | noun => faker FNoun
  | verb => faker FVerb
  | adj => faker FAdjective
  | adv => faker FAdverb
  | prep => faker FPreposition
  | conj => faker FConjunction
  | intj => faker FInterjection
  | det => pick Defaults.DEFAULT_DETERMINERS
  end.

Definition defaultCandidates (pos : POS) : list string :=
  match pos with
  | noun => Defaults.DEFAULT_NOUNS
  | verb => Defaults.DEFAULT_VERBS
  | adj => Defaults.DEFAULT_ADJECTIVES
  | adv => Defaults.DEFAULT_ADVERBS
  | prep => Defaults.DEFAULT_PREPOSITIONS
  | conj => Defaults.DEFAULT_CONJUNCTIONS
  | intj => Defaults.DEFAULT_INTERJECTIONS
  | det => Defaults.DEFAULT_DETERMINERS
  end.

Definition getFallbackWord (pos : POS) (exclude : option (list string)) : M string :=
  let candidates := defaultCandidates pos in
  let candidates :=
    if LexiconStore.nonEmpty exclude then
      List.filter (fun w => negb (LexiconStore.includes w (default [] exclude)))
        candidates
    else candidates in
  if (0 <? length candidates)%nat then pick candidates
  else getFromFaker pos.

(** [`No term found for POS: ${pos}`] *)
Definition posName (pos : POS) : string :=
  match pos with
  | noun => "noun" | verb => "verb" | adj => "adj" | adv => "adv"
  | prep => "prep" | conj => "conj" | intj => "intj" | det => "det"
  end.

Definition getWord (pos : POS) (options : WordOptions) : M LexicalItem :=
  let fallbackToFaker := default true (o_fallbackToFaker options) in
  let query := {|
    q_pos := pos;
    q_tags := o_tags options;
    q_termSetIds := o_termSetIds options;
    q_features := o_features options;
    q_fallbackToFaker := fallbackToFaker;
    q_exclude := o_exclude options
  |} in
  let* lexiconItem := LexiconStore.sampleTerm query in
  match lexiconItem with
  | Some item =>
      let event := mkChoiceEvent CTerm (ItemLexical item) (li_termSetId item) None token in
      let* _ := modifyCtx (recordChoice event) in
      let* lex := getLexicon in
      let* _ := modifyCtx (LexiconStore.applyCorrelations lex event) in
      let* _ :=
        if String.eqb (li_value item) "" then ret tt
        else
          let relations := LexiconStore.evaluateRelations lex (li_value item) None in
          modifyCtx (fun c =>
            set_relationHints (relationHints c ++ map rr_term relations) c) in
      ret item
  | None =>
      if fallbackToFaker then
        let* value := getFallbackWord pos (o_exclude options) in
        let item := mkLexicalItem value pos None None (Some []) in
        let* _ := modifyCtx (recordChoice (mkChoiceEvent CTerm (ItemLexical item)
                                             None None token)) in
        ret item
      else throw (Err ("No term found for POS: " +:+ posName pos))
  end.

Definition getNoun (options : WordOptions) : M LexicalItem := getWord noun options.
Definition getVerb (options : WordOptions) : M LexicalItem := getWord verb options.
Definition getAdjective (options : WordOptions) : M LexicalItem := getWord adj options.
Definition getAdverb (options : WordOptions) : M LexicalItem := getWord adv options.
Definition getPreposition (options : WordOptions) : M LexicalItem :=
  getWord prep options.
Definition getConjunction (options : WordOptions) : M LexicalItem :=
  getWord conj options.
Definition getInterjection (options : WordOptions) : M LexicalItem :=
  getWord intj options.
Definition getDeterminer (options : WordOptions) : M string :=
  let* item := getWord det options in ret (li_value item).

Definition getSubjectPronoun : M string := pick Defaults.DEFAULT_SUBJECT_PRONOUNS.
Definition getObjectPronoun : M string := pick Defaults.DEFAULT_OBJECT_PRONOUNS.
Definition getPossessiveDeterminer : M string :=
  pick Defaults.DEFAULT_POSSESSIVE_DETERMINERS.
Definition getModal : M string := pick Defaults.DEFAULT_MODALS.
Definition getSubordinator : M string := pick Defaults.DEFAULT_SUBORDINATORS.
Definition getRelativePronoun : M string := pick Defaults.DEFAULT_RELATIVES.
Definition getCoordinator : M string := pick Defaults.DEFAULT_CONJUNCTIONS.
Definition getTransition : M string := pick Defaults.DEFAULT_TRANSITIONS.

End WordProvider.

(** ** grammar/phrase-builders.ts

    The morphology helpers (pluralization, conjugation, article choice)
    are pure string functions; the builders are stated over any such
    functions. *)

Module PhraseBuilders.
Import Lexicon Config Context Gen.

Inductive Tense : Type := present | past | progressive.

Record Morphology : Type := mkMorphology {
  useAn : string -> bool;
  pluralize : string -> string;
  getThirdPersonSingular : string -> string;
  getPastTense : string -> string;
  getPresentParticiple : string -> string;
  conjugateBe : PhraseFeatures -> Tense -> string
}.

Record PhraseResult : Type := mkPhraseResult {
  tokens : list string;
  features : option PhraseFeatures
}.

Record NPOptions : Type := mkNPOptions {
  usePronoun : bool;
  includePP : bool;
  maxPP : option Z;
  forcePlural : bool;
  forceSingular : bool;
  useDeterminer : bool
}.

(** The defaults of the destructured [options] of [buildNP]. *)
Definition npDefaults : NPOptions := mkNPOptions false false None false false true.

(** [{ usePronoun, includePP: false }] *)
Definition npWithPronoun (usePronoun : bool) : NPOptions :=
  mkNPOptions usePronoun false None false false true.

Record VPOptions : Type := mkVPOptions {
  includeObject : bool;
  vp_includePP : bool;
  tense : Tense;
  useModal : bool
}.

Definition vpDefaults : VPOptions := mkVPOptions true false present false.

(** [subject.features!] followed by a property access. *)
Definition demand (f : option PhraseFeatures) : M PhraseFeatures :=
  match f with
  | Some x => ret x
  | None => throw (Err "TypeError: cannot read properties of undefined")
  end.

Definition pronounFeatures (pronoun : string) : PhraseFeatures :=
  if String.eqb pronoun "I" then mkFeatures singular first
  else if String.eqb pronoun "you" then mkFeatures singular second
  else if String.eqb pronoun "we" then mkFeatures plural first
  else if String.eqb pronoun "they" then mkFeatures plural third
  else mkFeatures singular third.

(** [for (let i = 0; i < n; i++) out.push(await step)] *)
Fixpoint repeatM {A} (n : nat) (step : M A) : M (list A) :=
  match n with
  | O => ret []
  | S n' =>
      let* x := step in
      let* rest := repeatM n' step in
      ret (x :: rest)
  end.

Definition isThirdSingular (f : PhraseFeatures) : bool :=
  match number f, person f with
  | singular, third => true
  | _, _ => false
  end.

Section Builders.
Variable morph : Morphology.

Definition getIndefiniteArticle (word : string) : string :=
  if useAn morph word then "an" else "a".

(** [buildNP], with the prepositional-phrase builder it calls when
    [includePP] holds passed in: [buildPP] calls [buildNP] back, always
    with [includePP: false], which ends the recursion. *)
Definition buildNPWith (buildPP : M PhraseResult) (options : NPOptions)
  : M PhraseResult :=
  let* cfg := getConfig in
  let maxPP := default (maxPPChain cfg) (maxPP options) in
  let* pronounBranch :=
    if usePronoun options then chance (3 # 10) else ret false in
  if pronounBranch then
    let* pronoun := WordProvider.getSubjectPronoun in
    ret (mkPhraseResult [pronoun] (Some (pronounFeatures pronoun)))
  else
    let* nounItem := WordProvider.getNoun WordProvider.noOptions in
    let noun := li_value nounItem in
    let* isPlural :=
      if forcePlural options then ret true
      else if negb (forceSingular options) then chance (25 # 100)
      else ret false in
    let noun := if isPlural then pluralize morph noun else noun in
    let features := mkFeatures (if isPlural then plural else singular) third in
    let* toks :=
      if useDeterminer options then
        if isPlural then
          let* d := pick ["the"; "some"; "many"; "few"; "these"; "those"; "several"] in
          ret [d]
        else
          let* useThe := chance (5 # 10) in
          if useThe then ret ["the"]
          else
            let* c := chance (4 # 10) in
            let willHaveAdj := c && (0 <? maxAdjectivesPerNoun cfg)%Z in
            if willHaveAdj then ret []
            else ret [getIndefiniteArticle noun]
      else ret [] in
    let* withAdjectives := chance (4 # 10) in
    let* numAdjectives :=
      if withAdjectives then int 1 (maxAdjectivesPerNoun cfg) else ret 0%Z in
    let* adjItems :=
      repeatM (Z.to_nat numAdjectives)
        (WordProvider.getAdjective WordProvider.noOptions) in
    let adjectives := map li_value adjItems in
    let toks :=
      match adjectives with
      | adjective0 :: _ =>
          if useDeterminer options && negb isPlural && (length toks =? 0)%nat
          then toks ++ [getIndefiniteArticle adjective0]
          else toks
      | [] => toks
      end in
    let toks := toks ++ adjectives ++ [noun] in
    let* addPP := if includePP options then chance (3 # 10) else ret false in
    let* toks :=
      if addPP then
        let* numPPs := int 1 maxPP in
        let* pps := repeatM (Z.to_nat numPPs) buildPP in
        ret (toks ++ concat (map tokens pps))
      else ret toks in
    ret (mkPhraseResult toks (Some features)).

Definition buildPP : M PhraseResult :=
  let* prepItem := WordProvider.getPreposition WordProvider.noOptions in
  let* np := buildNPWith (throw (Err "unreachable: nested PP")) (npWithPronoun false) in
  ret (mkPhraseResult (li_value prepItem :: tokens np) None).

Definition buildNP (options : NPOptions) : M PhraseResult :=
  buildNPWith buildPP options.

Definition buildVP (subjectFeatures : PhraseFeatures) (options : VPOptions)
  : M PhraseResult :=
  let* leading := chance (2 # 10) in
  let* toks :=
    if leading then
      let* advItem := WordProvider.getAdverb WordProvider.noOptions in
      ret [li_value advItem]
    else ret [] in
  let* verbItem := WordProvider.getVerb WordProvider.noOptions in
  let verb := li_value verbItem in
  let* modalBranch := if useModal options then chance (3 # 10) else ret false in
  let* (toks, verb) :=
    if modalBranch then
      let* modal := WordProvider.getModal in
      ret (toks ++ [modal], verb)
    else
      match tense options with
      | past => ret (toks, getPastTense morph verb)
      | progressive =>
          ret (toks ++ [conjugateBe morph subjectFeatures present],
               getPresentParticiple morph verb)
      | present =>
          if isThirdSingular subjectFeatures
          then ret (toks, getThirdPersonSingular morph verb)
          else ret (toks, verb)
      end in
  let toks := toks ++ [verb] in
  let* withObject := if includeObject options then chance (6 # 10) else ret false in
  let* toks :=
    if withObject then
      let* objectNP := buildNP (npWithPronoun false) in
      ret (toks ++ tokens objectNP)
    else ret toks in
  let* withPP := if vp_includePP options then chance (25 # 100) else ret false in
  let* toks :=
    if withPP then
      let* pp := buildPP in
      ret (toks ++ tokens pp)
    else ret toks in
  let* trailing := chance (15 # 100) in
  let* toks :=
    if trailing then
      let* advItem := WordProvider.getAdverb WordProvider.noOptions in
      ret (toks ++ [li_value advItem])
    else ret toks in
  ret (mkPhraseResult toks None).

Definition buildADJP : M PhraseResult :=
  let* intensify := chance (3 # 10) in
  let* toks :=
    if intensify then
      let* i := pick ["very"; "quite"; "rather"; "somewhat"; "extremely"; "incredibly"] in
      ret [i]
    else ret [] in
  let* adjItem := WordProvider.getAdjective WordProvider.noOptions in
  ret (mkPhraseResult (toks ++ [li_value adjItem]) None).

Definition buildADVP : M PhraseResult :=
  let* intensify := chance (2 # 10) in
  let* toks :=
    if intensify then
      let* i := pick ["very"; "quite"; "rather"; "most"] in
      ret [i]
    else ret [] in
  let* advItem := WordProvider.getAdverb WordProvider.noOptions in
  ret (mkPhraseResult (toks ++ [li_value advItem]) None).

(** [buildClause(ctx, { tense, usePronoun })] *)
Definition buildClause (tense : Tense) (usePronoun : bool) : M PhraseResult :=
  let* subject := buildNP (npWithPronoun usePronoun) in
  let* subjectFeatures := demand (features subject) in
  let* includePP := chance (3 # 10) in
  let* predicate := buildVP subjectFeatures (mkVPOptions true includePP tense false) in
  ret (mkPhraseResult (tokens subject ++ tokens predicate) (features subject)).

Definition pickTense : M Tense := pick [present; past].

Definition buildSubordinateClause : M PhraseResult :=
  let* subordinator := WordProvider.getSubordinator in
  let* tense := pickTense in
  let* usePronoun := chance (5 # 10) in
  let* cl := buildClause tense usePronoun in
  ret (mkPhraseResult (subordinator :: tokens cl) None).

Definition buildRelativeClause (antecedentFeatures : PhraseFeatures)
  : M PhraseResult :=
  let* relativePronoun := WordProvider.getRelativePronoun in
  let* includeObject := chance (5 # 10) in
  let* vp := buildVP antecedentFeatures (mkVPOptions includeObject false present false) in
  ret (mkPhraseResult (relativePronoun :: tokens vp) None).

End Builders.

End PhraseBuilders.

(** ** grammar/sentence-templates.ts *)

Module SentenceTemplates.
Import Lexicon Config Context Gen PhraseBuilders.

Inductive SentenceType : Type :=
  simpleDeclarative | compound | introAdverbial | subordinate | interjection
| question.

Record SentenceResult : Type := mkSentenceResult {
  sr_text : string;
  sr_type : SentenceType;
  sr_tokens : list string
}.

Definition selectSentenceType : M SentenceType :=
  let* cfg := getConfig in
  let weights := sentenceTypeWeights cfg in
  let total :=
    (simpleDeclarativeW weights + compoundW weights + introAdverbialW weights
     + subordinateW weights + interjectionW weights + questionW weights)%Q in
  let* f := float in
  let rand := (f * total)%Q in
  let cumulative := (0 + simpleDeclarativeW weights)%Q in
  if Qlt_bool rand cumulative then ret simpleDeclarative
  else
    let cumulative := (cumulative + compoundW weights)%Q in
    if Qlt_bool rand cumulative then ret compound
    else
      let cumulative := (cumulative + introAdverbialW weights)%Q in
      if Qlt_bool rand cumulative then ret introAdverbial
      else
        let cumulative := (cumulative + subordinateW weights)%Q in
        if Qlt_bool rand cumulative then ret subordinate
        else
          let cumulative := (cumulative + interjectionW weights)%Q in
          if Qlt_bool rand cumulative then ret interjection
          else ret question.

Section Templates.
Variable morph : Morphology.

Definition finish (toks : list string) (punctuation : string)
    (type : SentenceType) : SentenceResult :=
  mkSentenceResult
    (Normalize.formatSentence (Normalize.joinTokens toks) punctuation) type toks.

Definition buildSimpleDeclarative : M SentenceResult :=
  let* tense := pickTense in
  let* usePronoun := chance (3 # 10) in
  let* cl := buildClause morph tense usePronoun in
  ret (finish (tokens cl) "." simpleDeclarative).

Definition buildCompound : M SentenceResult :=
  let* tense := pickTense in
  let* clause1 := buildClause morph tense false in
  let* cfg := getConfig in
  let* conjunction := pick (coordinators cfg) in
  let* clause2 := buildClause morph tense false in
  ret (finish (tokens clause1 ++ ["," ; conjunction] ++ tokens clause2) "." compound).

Definition buildIntroAdverbial : M SentenceResult :=
  let* useTransition := chance (6 # 10) in
  let* toks :=
    if useTransition then
      let* cfg := getConfig in
      let* transition := pick (transitions cfg) in
      ret [transition]
    else
      let* pp := buildPP morph in
      ret (tokens pp) in
  let toks := toks ++ [","] in
  let* tense := pickTense in
  let* cl := buildClause morph tense false in
  ret (finish (toks ++ tokens cl) "." introAdverbial).

Definition buildSubordinate : M SentenceResult :=
  let* subClause := buildSubordinateClause morph in
  let* tense := pickTense in
  let* mainClause := buildClause morph tense false in
  let* subordinateFirst := chance (5 # 10) in
  let toks :=
    if subordinateFirst
    then tokens subClause ++ [","] ++ tokens mainClause
    else tokens mainClause ++ tokens subClause in
  ret (finish toks "." subordinate).

Definition buildInterjection : M SentenceResult :=
  let* cfg := getConfig in
  let* interj := pick (interjections cfg) in
  let* cl := buildClause morph present false in
  ret (finish ([interj; ","] ++ tokens cl) "." interjection).

Definition doOrDoes (f : PhraseFeatures) : string :=
  if isThirdSingular f then "does" else "do".

Definition buildQuestion : M SentenceResult :=
  let* yesNo := chance (6 # 10) in
  let* toks :=
    if yesNo then
      let* usePronoun := chance (4 # 10) in
      let* subject := buildNP morph (npWithPronoun usePronoun) in
      let* isPast := chance (3 # 10) in
      let* subjectFeatures := demand (features subject) in
      let doAux := if isPast then "did" else doOrDoes subjectFeatures in
      let* vp := buildVP morph subjectFeatures (mkVPOptions true false present false) in
      ret ([doAux] ++ tokens subject ++ tokens vp)
    else
      let* whWord := pick ["what"; "how"; "why"; "when"; "where"] in
      if String.eqb whWord "what" || String.eqb whWord "how" then
        let* whatVP := chance (5 # 10) in
        if whatVP then
          let* vp := buildVP morph (mkFeatures singular third)
                       (mkVPOptions true false present false) in
          ret ([whWord] ++ tokens vp)
        else
          let* subject := buildNP morph (npWithPronoun false) in
          let* subjectFeatures := demand (features subject) in
          let doAux := doOrDoes subjectFeatures in
          let* vp := buildVP morph subjectFeatures
                       (mkVPOptions false false present false) in
          ret ([whWord; doAux] ++ tokens subject ++ tokens vp)
      else
        let* subject := buildNP morph (npWithPronoun false) in
        let* subjectFeatures := demand (features subject) in
        let doAux := doOrDoes subjectFeatures in
        let* vp := buildVP morph subjectFeatures
                     (mkVPOptions true false present false) in
        ret ([whWord; doAux] ++ tokens subject ++ tokens vp) in
  ret (finish toks "?" question).

Definition buildSentence (type : option SentenceType) : M SentenceResult :=
  let* sentenceType :=
    match type with
    | Some t => ret t
    | None => selectSentenceType
    end in
  match sentenceType with
  | simpleDeclarative => buildSimpleDeclarative
  | compound => buildCompound
  | introAdverbial => buildIntroAdverbial
  | subordinate => buildSubordinate
  | interjection => buildInterjection
  | question => buildQuestion
  end.

Definition buildWithRelativeClause : M SentenceResult :=
  let* subject := buildNP morph (npWithPronoun false) in
  let* subjectFeatures := demand (features subject) in
  let* relClause := buildRelativeClause morph subjectFeatures in
  let* vp := buildVP morph subjectFeatures (mkVPOptions false false present false) in
  ret (finish (tokens subject ++ tokens relClause ++ tokens vp) "." simpleDeclarative).

End Templates.

End SentenceTemplates.

(** ** generator/text-generator.ts

    The output-transform pipeline ([mergeOutputTransformsConfig] followed
    by [executePipeline]) is an external collaborator: it is taken as a
    function of exactly the values the generator passes to it.  The trace
    object returned when tracing is enabled is not modelled; a call yields
    the final text. *)

Module TextGenerator.
Import Lexicon Config Context Gen PhraseBuilders SentenceTemplates.

Inductive MergeMode : Type := replace | append.

Record PerCallOverride : Type := mkOverride {
  ov_outputTransforms : option OutputTransformsConfig;
  ov_mergeMode : option MergeMode
}.

(** [executePipeline(text, mergeOutputTransformsConfig(base, lexicon,
    archetype, perCall), registry, seed, enableTrace).text] *)
Definition Pipeline : Type :=
  option OutputTransformsConfig -> option (list TransformStep) ->
  option (list TransformStep) -> option PerCallOverride -> Z -> bool ->
  string -> Result string.

Record SentenceOptions : Type := mkSentenceOptions {
  so_type : option SentenceType;
  so_hints : option (list string);
  so_override : PerCallOverride
}.

Record ParagraphOptions : Type := mkParagraphOptions {
  po_sentences : option Z;
  po_minSentences : option Z;
  po_maxSentences : option Z;
  po_hints : option (list string);
  po_override : PerCallOverride
}.

Record TextBlockOptions : Type := mkTextBlockOptions {
  to_paragraphs : option Z;
  to_minParagraphs : option Z;
  to_maxParagraphs : option Z;
  to_hints : option (list string);
  to_override : PerCallOverride
}.

(** [GeneratorInitOptions], with the default [SeedableRng]. *)
Record GeneratorInitOptions : Type := mkInitOptions {
  io_lexicon : option Lexicon;
  io_fakerAdapter : FakerAdapter;
  io_config : option PartialConfig;
  io_enableTrace : option bool
}.

(** [new TextGenerator(options)]; [now] is the value of [Date.now()]. *)
Definition create (now : Z) (options : GeneratorInitOptions) : Session :=
  let cfg := mergeConfig (io_config options) in {|
    config := cfg;
    rng := Rng.seed now (Rng.create now);
    lexicon := io_lexicon options;
    fakerAdapter := io_fakerAdapter options;
    enableTrace := default (Config.enableTrace cfg) (io_enableTrace options);
    currentArchetype :=
      match io_lexicon options with
      | Some l =>
          match default [] (archetypes l) with
          | (name, _) :: _ => name
          | [] => "default"
          end
      | None => "default"
      end;
    currentSeed := now
  |}.

Definition setSeed (seed : Z) (s : Session) : Session :=
  set_rng (Rng.seed seed (rng s)) (set_currentSeed seed s).

Definition setLexicon (l : Lexicon) (s : Session) : Session :=
  set_lexicon (Some l) s.

Definition setArchetype (name : string) (s : Session) : Session :=
  set_currentArchetype name s.

Definition getActiveConstraints (s : Session) : list Constraint :=
  let defaults := RuleEngine.getDefaultConstraints (config s) in
  if negb (LexiconStore.isLoaded (lexicon s)) then defaults
  else
    match LexiconStore.getMeta (lexicon s) with
    | None => defaults
    | Some _ => defaults
    end.

Definition getActiveInvariants (s : Session) : list Invariant :=
  let defaults := RuleEngine.getDefaultInvariants in
  if negb (LexiconStore.isLoaded (lexicon s)) then defaults
  else defaults.

Definition addTags (tags : list string) (c : GenerationContext) : GenerationContext :=
  set_activeTags (fold_left (fun acc t => acc ∪ {[t]}) tags (activeTags c)) c.

Definition createGenerationContext (s : Session) (hints : option (list string))
  : GenerationContext :=
  let c := createContext (currentSeed s) (currentArchetype s) in
  let c := match hints with Some h => addTags h c | None => c end in
  let c :=
    match LexiconStore.getArchetype (lexicon s) (currentArchetype s) with
    | Some a => match arch_tags a with Some t => addTags t c | None => c end
    | None => c
    end in
  set_rules (getActiveConstraints s) (getActiveInvariants s) c.

(** The local variables of [generateSentenceWithRetry]. *)
Record LoopState : Type := mkLoopState {
  attempts : Z;
  type : option SentenceType;
  lastResult : option SentenceResult;
  lastError : option JsError
}.

(** One pass through the loop body either executes [return result] or
    reaches the end of the body. *)
Inductive Step : Type :=
| Return (result : SentenceResult) (st : LoopState)
| Continue (st : LoopState).

(** How the [while] loop is left.  [OutOfFuel] belongs to the embedding
    only: the loop is unrolled at most [fuel] times. *)
Inductive LoopExit : Type :=
| Returned (result : SentenceResult) (st : LoopState)
| Exhausted (st : LoopState)
| OutOfFuel (st : LoopState).

Section Generator.
Variable morph : Morphology.
Variable pipeline : Pipeline.

(** The body of the [while] loop. *)
Definition attempt (st : LoopState) : M Step :=
  let attempts := (attempts st + 1)%Z in
  let* _ := modifyCtx (set_retryCount (attempts - 1)) in
  tryCatch
    (let* result := buildSentence morph (type st) in
     let* cfg := getConfig in
     let* c := getCtx in
     let validation :=
       RuleEngine.validate cfg (constraints c) (invariants c) c
         (sr_text result) (sr_tokens result) sentence in
     if RuleEngine.valid validation then
       ret (Return result (mkLoopState attempts (type st) (lastResult st) (lastError st)))
     else if (length (RuleEngine.hardConstraintsFailed validation) =? 0)%nat
             && (length (RuleEngine.invariantsFailed validation) =? 0)%nat then
       ret (Return result (mkLoopState attempts (type st) (Some result) (lastError st)))
     else
       let* _ :=
         if (attempts >? 5)%Z
         then putConfig (set_maxPPChain (Z.max 0 (maxPPChain cfg - 1)) cfg)
         else ret tt in
       let type := if (attempts >? 10)%Z then Some simpleDeclarative else type st in
       ret (Continue (mkLoopState attempts type (Some result) (lastError st))))
    (fun e =>
       ret (Continue (mkLoopState attempts (type st) (lastResult st) (Some e)))).

(** [while (attempts < this.config.maxSentenceAttempts) { ... }] *)
Fixpoint retryLoop (fuel : nat) (st : LoopState) : M LoopExit :=
  let* cfg := getConfig in
  if negb (attempts st <? maxSentenceAttempts cfg)%Z then ret (Exhausted st)
  else
    match fuel with
    | O => ret (OutOfFuel st)
    | S fuel' =>
        let* step := attempt st in
        match step with
        | Return result st' => ret (Returned result st')
        | Continue st' => retryLoop fuel' st'
        end
    end.

(** The statements after the loop. *)
Definition afterLoop (st : LoopState) : M SentenceResult :=
  match lastResult st with
  | Some r => ret r
  | None =>
      let* cfg := getConfig in
      if strictMode cfg then
        throw (default (Err "Failed to generate valid sentence") (lastError st))
      else buildSimpleDeclarative morph
  end.

Definition initialLoopState (type : option SentenceType) : LoopState :=
  mkLoopState 0 type None None.

Definition generateSentenceWithRetry (type : option SentenceType)
  : M SentenceResult :=
  let* cfg := getConfig in
  let* exit := retryLoop (Z.to_nat (maxSentenceAttempts cfg)) (initialLoopState type) in
  match exit with
  | Returned result _ => ret result
  | Exhausted st => afterLoop st
  | OutOfFuel _ => throw (Err "embedding: loop fuel exhausted")
  end.

Definition applyOutputTransforms (s : Session) (text : string)
    (perCallOverride : option PerCallOverride) : Result string :=
  let lexiconDefaults := lexicon s ≫= lex_outputTransforms in
  let archetypeTransforms :=
    a ← LexiconStore.getArchetype (lexicon s) (currentArchetype s);
    arch_outputTransforms a in
  pipeline (outputTransforms (config s)) lexiconDefaults archetypeTransforms
    perCallOverride (currentSeed s) (enableTrace s) text.

(** Runs a computation on a fresh context and keeps the session. *)
Definition withContext {A} (hints : option (list string)) (m : M A)
  : Session -> Result A * Session :=
  fun s =>
    let '(r, w) := m (mkWorld s (createGenerationContext s hints)) in
    (r, session w).

Definition transformed (text : Result string) (s : Session)
    (perCallOverride : option PerCallOverride) : Result string * Session :=
  match text with
  | Ok t => (applyOutputTransforms s t perCallOverride, s)
  | Throw e => (Throw e, s)
  end.

Definition sentence (opts : option SentenceOptions) (s : Session)
  : Result string * Session :=
  let '(r, s') :=
    withContext (opts ≫= so_hints)
      (let* result := generateSentenceWithRetry (opts ≫= so_type) in
       ret (sr_text result)) s in
  transformed r s' (so_override <$> opts).

(** The [for] loop over the sentences of one paragraph. *)
Fixpoint sentencesFrom (i : Z) (n : nat) : M (list SentenceResult) :=
  match n with
  | O => ret []
  | S n' =>
      let* _ := modifyCtx (set_sentenceIndex i) in
      let* _ := modifyCtx clearSentenceState in
      let* result := generateSentenceWithRetry None in
      let* rest := sentencesFrom (i + 1) n' in
      ret (result :: rest)
  end.

Definition paragraph (opts : option ParagraphOptions) (s : Session)
  : Result string * Session :=
  let sentences := opts ≫= po_sentences in
  let minSentences :=
    default (default (minSentencesPerParagraph (config s)) sentences)
      (opts ≫= po_minSentences) in
  let maxSentences :=
    default (default (maxSentencesPerParagraph (config s)) sentences)
      (opts ≫= po_maxSentences) in
  let '(r, s') :=
    withContext (opts ≫= po_hints)
      (let* numSentences :=
         match sentences with
         | Some n => ret n
         | None => int minSentences maxSentences
         end in
       let* results := sentencesFrom 0 (Z.to_nat numSentences) in
       ret (Normalize.formatParagraph (map sr_text results))) s in
  transformed r s' (po_override <$> opts).

(** The body of the loop over paragraphs in [textBlock]. *)
Definition blockParagraph (hints : option (list string)) (i : Z) (s : Session)
  : Result string * Session :=
  withContext hints
    (let* _ := modifyCtx (set_paragraphIndex i) in
     let* cfg := getConfig in
     let* numSentences :=
       int (minSentencesPerParagraph cfg) (maxSentencesPerParagraph cfg) in
     let* results := sentencesFrom 0 (Z.to_nat numSentences) in
     let* _ := modifyCtx clearParagraphState in
     ret (Normalize.formatParagraph (map sr_text results))) s.

Fixpoint paragraphsFrom (hints : option (list string)) (i : Z) (n : nat)
    (s : Session) : Result (list string) * Session :=
  match n with
  | O => (Ok [], s)
  | S n' =>
      match blockParagraph hints i s with
      | (Ok p, s') =>
          match paragraphsFrom hints (i + 1) n' s' with
          | (Ok rest, s'') => (Ok (p :: rest), s'')
          | (Throw e, s'') => (Throw e, s'')
          end
      | (Throw e, s') => (Throw e, s')
      end
  end.

Definition textBlock (opts : option TextBlockOptions) (s : Session)
  : Result string * Session :=
  let paragraphs := opts ≫= to_paragraphs in
  let minParagraphs := default (default 1%Z paragraphs) (opts ≫= to_minParagraphs) in
  let maxParagraphs := default (default 3%Z paragraphs) (opts ≫= to_maxParagraphs) in
  let '(numParagraphs, s1) :=
    match paragraphs with
    | Some n => (n, s)
    | None =>
        let '(n, r) := Rng.int minParagraphs maxParagraphs (rng s) in
        (n, set_rng r s)
    end in
  let '(r, s2) := paragraphsFrom (opts ≫= to_hints) 0 (Z.to_nat numParagraphs) s1 in
  match r with
  | Ok ps => transformed (Ok (Normalize.formatTextBlock ps)) s2 (to_override <$> opts)
  | Throw e => (Throw e, s2)
  end.

(** A generation call of the public API. *)
Inductive Call : Type :=
| CallSentence (opts : option SentenceOptions)
| CallParagraph (opts : option ParagraphOptions)
| CallTextBlock (opts : option TextBlockOptions).

Definition runCall (c : Call) (s : Session) : Result string * Session :=
  match c with
  | CallSentence o => sentence o s
  | CallParagraph o => paragraph o s
  | CallTextBlock o => textBlock o s
  end.

(** A sequence of calls on one generator; a call that throws still
    leaves the generator usable for the next one. *)
Fixpoint runCalls (cs : list Call) (s : Session) : list (Result string) * Session :=
  match cs with
  | [] => ([], s)
  | c :: rest =>
      let '(r, s') := runCall c s in
      let '(rs, s'') := runCalls rest s' in
      (r :: rs, s'')
  end.

End Generator.

End TextGenerator.


(** ** The statements under test, as the specification words them *)

Module Claimed.
Import Lexicon Config Context.

(** The entry for [id] in the distribution that the active archetype
    names as its [termSetBias], when there is one. *)
Definition activeDistributionEntry (lex : option Lexicon) (c : GenerationContext)
    (id : string) : option DistributionEntry :=
  a ← LexiconStore.getArchetype lex (archetype c);
  d ← arch_distributions a;
  name ← dictGet (T := string) d "termSetBias";
  if String.eqb name "" then None
  else dist ← LexiconStore.getDistribution lex name;
       List.find (fun e => String.eqb (de_key e) id) dist.

(** "1 + activeArchetypeDistributionWeight(setId) + ctx.bias[setId],
    clamped at 0". *)
Definition claimedTermSetWeight (lex : option Lexicon) (c : GenerationContext)
    (id : string) : Q :=
  Qmax 0 (1 + match activeDistributionEntry lex c id with
              | Some e => de_weight e
              | None => 0
              end
            + default 0%Q (biases c !! id)).

(** What the code computes instead: the distribution weight replaces the
    base weight 1 rather than being added to it. *)
Definition distributionFactor (lex : option Lexicon) (c : GenerationContext)
    (id : string) : Q :=
  match activeDistributionEntry lex c id with
  | Some e => de_weight e
  | None => 1
  end.

(** The count named by the comment in [evaluateMaxCount]: "count
    prepositions as proxy for PPs". *)
Definition prepositionCount (tokens : list string) : Z :=
  Z.of_nat (length (List.filter
    (fun t => LexiconStore.includes (RuleEngine.toLowerCase t)
                Defaults.DEFAULT_PREPOSITIONS) tokens)).

End Claimed.

(** ** Sample inputs *)

Module Samples.
Import Lexicon Config Context.

Definition emptyLexicon : Lexicon :=
  mkLexicon "sample" None "en" None None None None None None None None None.

(** A set [noun.tech] and an archetype [default] whose [termSetBias]
    distribution gives that set the weight 3. *)
Definition biasedLexicon : Lexicon :=
  mkLexicon "sample" None "en"
    (Some [("noun.tech", mkTermSet noun None [mkTerm "server" None None None])])
    None
    (Some [("bias", [mkDistributionEntry "noun.tech" 3])])
    None None None
    (Some [("default", mkArchetype None (Some [("termSetBias", "bias")]) None None)])
    None None.

Definition techNoun : LexicalItem :=
  mkLexicalItem "server" noun (Some "noun.tech") None None.

(** The event [getWord] records after sampling [techNoun]. *)
Definition techNounChosen : ChoiceEvent :=
  mkChoiceEvent CTerm (ItemLexical techNoun) (Some "noun.tech") None token.

(** Choosing from [noun.tech] boosts the set [verb.tech] by 5, at the
    given scope. *)
Definition termSetBoostLexicon (scope : Scope) : Lexicon :=
  mkLexicon "sample" None "en" None None None
    (Some [mkCorrelation (mkCondition (Some "noun.tech") None None None)
             [mkBoost (Some "verb.tech") None 5] scope])
    None None None None None.

(** Choosing from [noun.tech] boosts the pattern [p1] by 2. *)
Definition patternBoostLexicon : Lexicon :=
  mkLexicon "sample" None "en" None None None
    (Some [mkCorrelation (mkCondition (Some "noun.tech") None None None)
             [mkBoost None (Some "p1") 2] sentence])
    None None None None None.

Definition samplePattern1 : Pattern := mkPattern PSentence [] None None None.

(** The default [c.maxPP] constraint at [maxPPChain = 2]. *)
Definition maxPP2 : Constraint :=
  mkConstraint "c.maxPP" hard phrase maxCount "PP" (Some 2%Z) None.

Definition nounQuery : TermQuery := mkTermQuery noun None None None true None.

(** A hard sentence-scope constraint no token sequence satisfies: at most
    -1 words. *)
Definition impossible : Constraint :=
  mkConstraint "c.impossible" hard sentence maxCount "words" (Some (-1)%Z) None.

(** Regular English endings, standing in for the morphology helpers. *)
Definition regularMorphology : PhraseBuilders.Morphology :=
  PhraseBuilders.mkMorphology
    (fun w => match w with
              | String c _ => Normalize.memChar c ["a"; "e"; "i"; "o"; "u"]%char
              | EmptyString => false
              end)
    (fun w => w +:+ "s") (fun w => w +:+ "s") (fun w => w +:+ "ed")
    (fun w => w +:+ "ing") (fun _ _ => "is").

Definition silentFaker : Gen.FakerAdapter := Gen.mkFaker (fun _ _ => "word") [].

Definition otherFaker : Gen.FakerAdapter := Gen.mkFaker (fun _ _ => "thing") [].

(** The identity pipeline: no output transform is configured. *)
Definition noTransforms : TextGenerator.Pipeline := fun _ _ _ _ _ _ t => Ok t.

(** A generator built with default options at time 1 and seeded with 42. *)
Definition seeded42 : Gen.Session :=
  TextGenerator.setSeed 42
    (TextGenerator.create 1 (TextGenerator.mkInitOptions None silentFaker None None)).

(** The same generator in strict mode with a budget of [n] attempts. *)
Definition strictSession (n : Z) : Gen.Session :=
  TextGenerator.setSeed 42
    (TextGenerator.create 1
       (TextGenerator.mkInitOptions None silentFaker
          (Some (mkPartialConfig None None None None None None None None None None
                   None None None None (Some n) None None (Some true) None None
                   None None None None None None None None None))
          None)).

(** A generator with a budget of [n] attempts, not in strict mode. *)
Definition lenientSession (n : Z) : Gen.Session :=
  TextGenerator.setSeed 42
    (TextGenerator.create 1
       (TextGenerator.mkInitOptions None silentFaker
          (Some (mkPartialConfig None None None None None None None None None None
                   None None None None (Some n) None None None None None
                   None None None None None None None None None))
          None)).

(** A generation world whose context carries the [impossible] constraint. *)
Definition impossibleWorld (s : Gen.Session) : Gen.World :=
  Gen.mkWorld s
    (set_rules [impossible] RuleEngine.getDefaultInvariants
       (TextGenerator.createGenerationContext s None)).

(** The default generator, but for a prepositional-phrase limit of 0. *)
Definition flatSession : Gen.Session :=
  TextGenerator.setSeed 42
    (TextGenerator.create 1
       (TextGenerator.mkInitOptions None silentFaker
          (Some (mkPartialConfig None None None None None None None None None None
                   None (Some 0%Z) None None None None None None None None
                   None None None None None None None None None))
          None)).

(** A lexicon whose only verb has the weight 0: sampling a verb throws
    [All weights are zero or negative]. *)
Definition zeroVerbLexicon : Lexicon :=
  mkLexicon "sample" None "en"
    (Some [("verb.none", mkTermSet verb None [mkTerm "run" (Some 0%Q) None None])])
    None None None None None None None None.

(** The default generator with that lexicon. *)
Definition stalledSession : Gen.Session :=
  TextGenerator.setLexicon zeroVerbLexicon seeded42.

Definition threeDeterminers : list string :=
  ["the"; "cat"; "sees"; "the"; "dog"; "and"; "the"; "bird"].

Definition threePrepositions : list string :=
  ["rain"; "in"; "spring"; "on"; "hills"; "at"; "dawn"].

End Samples.


(** ** Predicates on computations *)

Module Triples.
Import Lexicon Config Context Gen.

(** The cells of the world, other than the configuration, that no phrase
    or sentence builder writes. *)
Definition restPart (w : World) :=
  (lexicon (session w), enableTrace (session w),
   currentArchetype (session w), currentSeed (session w),
   constraints (ctx w), invariants (ctx w), archetype (ctx w),
   activeTags (ctx w), seed (ctx w)).

(** The same, with the configuration. *)
Definition stablePart (w : World) := (config (session w), restPart w).

(** [m] leaves the stable part of the world as it found it, whether it
    returns or throws. *)
Definition Frame {A} (m : M A) : Prop :=
  forall w, stablePart (snd (m w)) = stablePart w.

(** The world with another injected adapter. *)
Definition withFaker (f : FakerAdapter) (w : World) : World :=
  mkWorld (set_fakerAdapter f (session w)) (ctx w).

(** [m] neither calls the injected adapter nor depends on it. *)
Definition Indep {A} (m : M A) : Prop :=
  forall f w, m (withFaker f w) = (fst (m w), withFaker f (snd (m w))).

Definition Tame {A} (m : M A) : Prop := Frame m /\ Indep m.

(** The same for an operation of the public API, which runs on a session. *)
Definition IndepS {A} (g : Session -> Result A * Session) : Prop :=
  forall f s, g (set_fakerAdapter f s) = (fst (g s), set_fakerAdapter f (snd (g s))).

(** [P] is an invariant of [m]: in every world that satisfies [P], [m]
    returns a value that satisfies [Q] and leaves a world that satisfies
    [P]. *)
Definition Succeeds {A} (P : World -> Prop) (m : M A) (Q : A -> Prop) : Prop :=
  forall w, P w -> exists a w', m w = (Ok a, w') /\ P w' /\ Q a.

(** What a retry loop may do to the configuration: every field but
    [maxPPChain] is kept, and [maxPPChain] is either kept or lowered into
    the range from 0 to one below its old value. *)
Definition Degraded (c c' : GeneratorConfig) : Prop :=
  exists k, c' = set_maxPPChain k c
            /\ (k = maxPPChain c \/ (0 <= k <= Z.max 0 (maxPPChain c - 1))%Z).

(** What a retry loop may do to the world: the configuration is
    [Degraded] and the rest of the stable part is kept. *)
Definition Kept (w w' : World) : Prop :=
  Degraded (config (session w)) (config (session w')) /\ restPart w' = restPart w.

(** [m] changes the stable part of the world at most by degrading the
    configuration. *)
Definition Keeps {A} (m : M A) : Prop := forall w, Kept w (snd (m w)).

(** No candidate can satisfy the hard constraints in [cs] at sentence scope. *)
Definition UnsatisfiableHard (cs : list Constraint) : Prop :=
  forall cfg invs c text tokens,
    RuleEngine.hardConstraintsFailed
      (RuleEngine.validate cfg cs invs c text tokens sentence) <> [].

(** The validation of a candidate in the world its build left behind. *)
Definition validates (result : SentenceTemplates.SentenceResult) (w : World) : bool :=
  RuleEngine.valid
    (RuleEngine.validate (config (session w)) (constraints (ctx w)) (invariants (ctx w))
       (ctx w) (SentenceTemplates.sr_text result) (SentenceTemplates.sr_tokens result) sentence).

(** The world in which an attempt builds its candidate. *)
Definition attemptWorld (st : TextGenerator.LoopState) (w : World) : World :=
  mkWorld (session w) (set_retryCount (TextGenerator.attempts st + 1 - 1) (ctx w)).

(** The world after the degrade step of an attempt. *)
Definition degradeWorld (st : TextGenerator.LoopState) (w : World) : World :=
  if (TextGenerator.attempts st + 1 >? 5)%Z then
    mkWorld (set_config (set_maxPPChain (Z.max 0 (maxPPChain (config (session w)) - 1))
                           (config (session w))) (session w)) (ctx w)
  else w.

(** The first character of a string is a letter. *)
Definition startsWithLetter (s : string) : bool :=
  match s with
  | String c _ => Normalize.isLetter c
  | EmptyString => false
  end.

(** The first token of a sequence starts with a letter. *)
Definition goodStart (toks : list string) : bool :=
  match toks with
  | t :: _ => startsWithLetter t
  | [] => false
  end.

(** The first character is an upper-case letter. *)
Definition startsUpper (s : string) : bool :=
  match s with
  | String c _ => Normalize.isUpper c
  | EmptyString => false
  end.

(** The last character is one of [. ! ? ; :]. *)
Definition endsTerminal (s : string) : bool :=
  match Normalize.lastChar s with
  | Some c => Normalize.memChar c Normalize.endPunct
  | None => false
  end.

(** The first character is white space. *)
Definition headSpace (s : string) : bool :=
  match s with
  | String c _ => Normalize.isSpace c
  | EmptyString => false
  end.

(** The last character is white space. *)
Definition lastIsSpace (s : string) : bool :=
  match Normalize.lastChar s with
  | Some c => Normalize.isSpace c
  | None => false
  end.

(** A rendered text in good form: it starts with an upper-case letter,
    ends in terminal punctuation and has no two white-space characters in
    a row. *)
Definition wellFormed (text : string) : Prop :=
  startsUpper text = true /\ endsTerminal text = true
  /\ Normalize.hasDoubleSpace text = false.

(** The default configuration, up to the one field the retry loop writes. *)
Definition defaultConfigured (c : GeneratorConfig) : Prop :=
  set_maxPPChain (maxPPChain DEFAULT_CONFIG) c = DEFAULT_CONFIG.

(** A world with the default configuration and no lexicon. *)
Definition DefaultWorld (w : World) : Prop :=
  defaultConfigured (config (session w)) /\ lexicon (session w) = None.

(** A generator with the default configuration and no lexicon. *)
Definition DefaultSession (s : Session) : Prop :=
  defaultConfigured (config s) /\ lexicon s = None.

(** The candidate kept from a rejected attempt, if there is one, is in
    good form. *)
Definition lastShaped (st : TextGenerator.LoopState) : Prop :=
  forall r, TextGenerator.lastResult st = Some r ->
            wellFormed (SentenceTemplates.sr_text r).

(** What one pass through the loop body hands on. *)
Definition stepShaped (st : TextGenerator.LoopState) (step : TextGenerator.Step) : Prop :=
  match step with
  | TextGenerator.Return r st' =>
      wellFormed (SentenceTemplates.sr_text r)
      /\ TextGenerator.attempts st' = (TextGenerator.attempts st + 1)%Z
  | TextGenerator.Continue st' =>
      lastShaped st'
      /\ TextGenerator.attempts st' = (TextGenerator.attempts st + 1)%Z
  end.

(** How the loop is left: with a candidate in good form, or exhausted. *)
Definition exitShaped (exit : TextGenerator.LoopExit) : Prop :=
  match exit with
  | TextGenerator.Returned r _ => wellFormed (SentenceTemplates.sr_text r)
  | TextGenerator.Exhausted st => lastShaped st
  | TextGenerator.OutOfFuel _ => False
  end.

(** A per-call override that configures no output transform. *)
Definition plainOverride (ov : option TextGenerator.PerCallOverride) : bool :=
  match ov with
  | Some o =>
      match TextGenerator.ov_outputTransforms o with
      | None => true
      | Some _ => false
      end
  | None => true
  end.

(** The pipeline hands a text back as it is when no output transform is
    configured at any level. *)
Definition Untransformed (pipeline : TextGenerator.Pipeline) : Prop :=
  forall ov seed trace text,
    plainOverride ov = true -> pipeline None None None ov seed trace text = Ok text.

(** Every sentence count a paragraph call asks for is at least one. *)
Definition positiveCounts (opts : option TextGenerator.ParagraphOptions) : bool :=
  forallb (fun n => match n with Some k => (1 <=? k)%Z | None => true end)
    [opts ≫= TextGenerator.po_sentences; opts ≫= TextGenerator.po_minSentences;
     opts ≫= TextGenerator.po_maxSentences].

(** The three text invariants of the rule engine hold of a text. *)
Definition passesTextInvariants (text : string) : Prop :=
  Normalize.isCapitalized text = true
  /\ Normalize.endsWithPunctuation text = true
  /\ Normalize.hasNoDoubleSpaces text = true.

(** An attempt whose candidate is rejected: it is built, and it fails a
    hard constraint or an invariant. *)
Definition rejected (morph : PhraseBuilders.Morphology) (st : TextGenerator.LoopState)
    (w : World) : bool :=
  match SentenceTemplates.buildSentence morph (TextGenerator.type st) (attemptWorld st w) with
  | (Ok result, w1) => negb (validates result w1)
  | (Throw _, _) => false
  end.

(** The number of degrade steps the loop runs from the state [st] on: the
    rejected attempts after the fifth. *)
Fixpoint degradeSteps (morph : PhraseBuilders.Morphology) (fuel : nat)
    (st : TextGenerator.LoopState) (w : World) : nat :=
  if negb (TextGenerator.attempts st <? maxSentenceAttempts (config (session w)))%Z then O
  else
    match fuel with
    | O => O
    | S fuel' =>
        match TextGenerator.attempt morph st w with
        | (Ok (TextGenerator.Continue st'), w') =>
            ((if rejected morph st w && (TextGenerator.attempts st + 1 >? 5)%Z
              then 1 else 0)
             + degradeSteps morph fuel' st' w')%nat
        | _ => O
        end
    end.

(** The limit [p] after [k] degrade steps. *)
Definition lowered (p : Z) (k : nat) : Z :=
  match k with
  | O => p
  | S _ => Z.max 0 (p - Z.of_nat k)
  end.

(** The attempts that had failed when the loop was left. *)
Definition failedAttempts (exit : TextGenerator.LoopExit) : Z :=
  match exit with
  | TextGenerator.Returned _ st => (TextGenerator.attempts st - 1)%Z
  | TextGenerator.Exhausted st => TextGenerator.attempts st
  | TextGenerator.OutOfFuel st => TextGenerator.attempts st
  end.

End Triples.


(** ** Claims that the code does not satisfy as worded *)

Module Worded.
Import Lexicon Config Context Gen Triples.

(** C3 as worded: with an unsatisfiable hard constraint, strict mode
    throws at exhaustion and non-strict mode returns a simple declarative
    sentence. *)
Definition exhaustionThrowsOrFallsBack : Prop :=
  forall morph type w,
    UnsatisfiableHard (constraints (ctx w)) ->
    (strictMode (config (session w)) = true ->
       exists e, fst (TextGenerator.generateSentenceWithRetry morph type w) = Throw e)
    /\ (strictMode (config (session w)) = false ->
          exists r, fst (TextGenerator.generateSentenceWithRetry morph type w) = Ok r
                    /\ SentenceTemplates.sr_type r = SentenceTemplates.simpleDeclarative).

(** C8 as worded: a sentence generation that reaches more than five
    failed attempts leaves the session with a lower [maxPPChain]. *)
Definition degradeLowersTheLimit : Prop :=
  forall morph type w exit w',
    TextGenerator.retryLoop morph
      (Z.to_nat (maxSentenceAttempts (config (session w))))
      (TextGenerator.initialLoopState type) w = (Ok exit, w') ->
    (5 < failedAttempts exit)%Z ->
    (maxPPChain (config (session w')) < maxPPChain (config (session w)))%Z.

End Worded.


(** ** generator/text-generator.ts: the invariant report of a trace *)

Module Trace.

(** [checkInvariants(text)]: the default invariants, each evaluated on the
    final text whatever its scope. *)
Definition checkInvariants (text : string) : list (string * bool) :=
  map (fun inv =>
         let result := RuleEngine.evaluateInvariant inv text in
         (RuleEngine.ir_id result, RuleEngine.ir_passed result))
    RuleEngine.getDefaultInvariants.

End Trace.


(** ** transforms/tokenizer.ts

    Strings are read one 8-bit character at a time.  Of the punctuation
    characters of the source, the ellipsis and the em dash lie outside
    this alphabet and are left out of [PUNCTUATION_CHARS]. *)

Module Tokenizer.

Inductive TokenType : Type := TWord | TWhitespace | TPunct | TNumber | TSymbol.

Record TokenMeta : Type := mkTokenMeta {
  tm_protected : option bool;
  tm_protectionsApplied : option (list string)
}.

Record Token : Type := mkToken {
  tok_type : TokenType;
  tok_value : string;
  tok_meta : option TokenMeta
}.

Definition doubleQuote : ascii := ascii_of_nat 34.

Definition PUNCTUATION_CHARS : list ascii :=
  [ "."; ","; ";"; ":"; "!"; "?"; "'"; doubleQuote;
    "("; ")"; "["; "]"; "{"; "}"; "-" ]%char.

Definition isLetter (ch : ascii) : bool :=
  let c := nat_of_ascii ch in
  (((65 <=? c) && (c <=? 90)) || ((97 <=? c) && (c <=? 122)))%nat.

Definition isDigit (ch : ascii) : bool :=
  let c := nat_of_ascii ch in ((48 <=? c) && (c <=? 57))%nat.

(** [ch === ' ' || ch === '\t' || ch === '\n' || ch === '\r'] *)
Definition isWhitespace (ch : ascii) : bool :=
  let c := nat_of_ascii ch in ((c =? 32) || (c =? 9) || (c =? 10) || (c =? 13))%nat.

(** A loop [while (i < len && p(input[i])) i++]: the characters passed
    over and the rest of the input. *)
Fixpoint span (p : ascii -> bool) (s : string) : string * string :=
  match s with
  | String c rest =>
      if p c then let '(a, b) := span p rest in (String c a, b)
      else (EmptyString, s)
  | EmptyString => (EmptyString, EmptyString)
  end.

(** The loop of the word branch, entered after the first letter: letters,
    and apostrophes that a letter follows. *)
Fixpoint wordTail (s : string) : string * string :=
  match s with
  | String c rest =>
      if isLetter c then let '(a, b) := wordTail rest in (String c a, b)
      else if Ascii.eqb c "'" then
        match rest with
        | String d rest' =>
            if isLetter d then
              let '(a, b) := wordTail rest' in (String c (String d a), b)
            else (EmptyString, s)
        | EmptyString => (EmptyString, s)
        end
      else (EmptyString, s)
  | EmptyString => (EmptyString, EmptyString)
  end.

(** The number branch, entered after the first digit: more digits, then
    a decimal part when a point is followed by a digit, then a percent
    sign. *)
Definition numberTail (s : string) : string * string :=
  let '(digits, r1) := span isDigit s in
  let '(decimals, r2) :=
    match r1 with
    | String c (String d _ as t) =>
        if Ascii.eqb c "." && isDigit d then
          let '(ds, r) := span isDigit t in (String c ds, r)
        else (EmptyString, r1)
    | _ => (EmptyString, r1)
    end in
  let '(percent, r3) :=
    match r2 with
    | String c rest => if Ascii.eqb c "%" then (String c EmptyString, rest)
                       else (EmptyString, r2)
    | EmptyString => (EmptyString, r2)
    end in
  (digits +:+ decimals +:+ percent, r3).

(** The outer [while (i < len)] loop on the input from index [i] on;
    every pass consumes at least one character, so [fuel] equal to the
    length of the input is never used up. *)
Fixpoint tokenizeFrom (fuel : nat) (s : string) : list Token :=
  match fuel, s with
  | S fuel', String ch rest =>
      if isWhitespace ch then
        let '(v, r) := span isWhitespace rest in
        mkToken TWhitespace (String ch v) None :: tokenizeFrom fuel' r
      else if isLetter ch then
        let '(v, r) := wordTail rest in
        mkToken TWord (String ch v) None :: tokenizeFrom fuel' r
      else if isDigit ch then
        let '(v, r) := numberTail rest in
        mkToken TNumber (String ch v) None :: tokenizeFrom fuel' r
      else if Normalize.memChar ch PUNCTUATION_CHARS then
        match rest with
        | String c1 (String c2 rest') =>
            if Ascii.eqb ch "." && Ascii.eqb c1 "." && Ascii.eqb c2 "." then
              mkToken TPunct "..." None :: tokenizeFrom fuel' rest'
            else mkToken TPunct (String ch EmptyString) None :: tokenizeFrom fuel' rest
        | _ => mkToken TPunct (String ch EmptyString) None :: tokenizeFrom fuel' rest
        end
      else mkToken TSymbol (String ch EmptyString) None :: tokenizeFrom fuel' rest
  | _, _ => []
  end.

Definition tokenize (input : string) : list Token :=
  tokenizeFrom (String.length input) input.

Definition render (tokens : list Token) : string :=
  fold_left (fun result token => result +:+ tok_value token) tokens EmptyString.

Definition classifyChar (ch : ascii) : TokenType :=
  if isWhitespace ch then TWhitespace
  else if isLetter ch then TWord
  else if isDigit ch then TNumber
  else if Normalize.memChar ch PUNCTUATION_CHARS then TPunct
  else TSymbol.

End Tokenizer.


(** ** transforms/types.ts, config-merge.ts, registry.ts, protection.ts,
       pipeline.ts

    An optional field of a configuration object is [None] when its key is
    absent.  The regular-expression engine behind [customProtectedRegex]
    is taken as a function [compile] from a pattern to its test, [None]
    when [new RegExp] rejects the pattern.  The trace fields of a
    pipeline result ([outputTokens], [transformEvents]) are diagnostic
    and left out. *)

Module Transforms.
Import Lexicon Tokenizer.

Record ProtectionConfig : Type := mkProtection {
  keepAcronyms : option bool;
  keepNumbers : option bool;
  keepCodeTokens : option bool;
  keepUrlsEmails : option bool;
  minWordLength : option Z;
  customProtectedRegex : option (list string)
}.

Definition DEFAULT_PROTECTION_CONFIG : ProtectionConfig :=
  mkProtection (Some true) (Some true) (Some true) (Some true) (Some 2%Z) (Some []).

(** One field of [{ ...a, ...b }]: the field of [b] when present. *)
Definition over {A} (b a : option A) : option A :=
  match b with
  | Some _ => b
  | None => a
  end.

(** [{ ...a, ...b }] on protection configurations. *)
Definition spreadProtection (a b : ProtectionConfig) : ProtectionConfig :=
  mkProtection
    (over (keepAcronyms b) (keepAcronyms a))
    (over (keepNumbers b) (keepNumbers a))
    (over (keepCodeTokens b) (keepCodeTokens a))
    (over (keepUrlsEmails b) (keepUrlsEmails a))
    (over (minWordLength b) (minWordLength a))
    (over (customProtectedRegex b) (customProtectedRegex a)).

Definition noProtection : ProtectionConfig := mkProtection None None None None None None.

Record OutputTransformsConfig : Type := mkOT {
  otc_enabled : bool;
  otc_pipeline : list TransformStep;
  otc_protection : ProtectionConfig;
  otc_strict : bool;
  otc_autoOrder : option bool
}.

(** [Partial<OutputTransformsConfig>] *)
Record PartialOutputTransformsConfig : Type := mkPartialOT {
  pot_enabled : option bool;
  pot_pipeline : option (list TransformStep);
  pot_protection : option ProtectionConfig;
  pot_strict : option bool;
  pot_autoOrder : option bool
}.

Definition DEFAULT_OUTPUT_TRANSFORMS_CONFIG : OutputTransformsConfig :=
  mkOT false [] DEFAULT_PROTECTION_CONFIG false (Some false).

Record LexiconOutputTransforms : Type := mkLexiconOT {
  lot_defaults : option (list TransformStep)
}.

Record ArchetypeOutputTransforms : Type := mkArchetypeOT {
  aot_pipeline : option (list TransformStep)
}.

Record OutputTransformsOverride : Type := mkOTOverride {
  oto_outputTransforms : option PartialOutputTransformsConfig;
  oto_mergeMode : option TextGenerator.MergeMode
}.

(** [x && x.length > 0] for an optional array. *)
Definition present {A} (o : option (list A)) : bool :=
  match o with
  | Some (_ :: _) => true
  | _ => false
  end.

Definition mergeOutputTransformsConfig
    (base : option PartialOutputTransformsConfig)
    (lexiconDefaults : option LexiconOutputTransforms)
    (archetypeTransforms : option ArchetypeOutputTransforms)
    (perCallOverride : option OutputTransformsOverride) : OutputTransformsConfig :=
  let result :=
    mkOT (otc_enabled DEFAULT_OUTPUT_TRANSFORMS_CONFIG)
      (otc_pipeline DEFAULT_OUTPUT_TRANSFORMS_CONFIG)
      (spreadProtection noProtection DEFAULT_PROTECTION_CONFIG)
      (otc_strict DEFAULT_OUTPUT_TRANSFORMS_CONFIG)
      (otc_autoOrder DEFAULT_OUTPUT_TRANSFORMS_CONFIG) in
  (* 1. base config *)
  let result :=
    match base with
    | Some b =>
        mkOT (default (otc_enabled result) (pot_enabled b))
          (default (otc_pipeline result) (pot_pipeline b))
          (spreadProtection (otc_protection result)
             (default noProtection (pot_protection b)))
          (default (otc_strict result) (pot_strict b))
          (over (pot_autoOrder b) (otc_autoOrder result))
    | None => result
    end in
  (* 2. lexicon defaults *)
  let result :=
    if present (lexiconDefaults ≫= lot_defaults) then
      if (length (otc_pipeline result) =? 0)%nat then
        mkOT (otc_enabled result) (default [] (lexiconDefaults ≫= lot_defaults))
          (otc_protection result) (otc_strict result) (otc_autoOrder result)
      else result
    else result in
  (* 3. archetype transforms *)
  let result :=
    if present (archetypeTransforms ≫= aot_pipeline) then
      mkOT true (default [] (archetypeTransforms ≫= aot_pipeline))
        (otc_protection result) (otc_strict result) (otc_autoOrder result)
    else result in
  (* 4. per-call overrides *)
  match perCallOverride ≫= oto_outputTransforms with
  | Some override =>
      let mergeMode := default TextGenerator.replace (perCallOverride ≫= oto_mergeMode) in
      mkOT (default (otc_enabled result) (pot_enabled override))
        (match pot_pipeline override with
         | Some p =>
             match mergeMode with
             | TextGenerator.append => otc_pipeline result ++ p
             | TextGenerator.replace => p
             end
         | None => otc_pipeline result
         end)
        (match pot_protection override with
         | Some p => spreadProtection (otc_protection result) p
         | None => otc_protection result
         end)
        (default (otc_strict result) (pot_strict override))
        (over (pot_autoOrder override) (otc_autoOrder result))
  | None => result
  end.

(** [mergeProtectionConfig(...configs)] *)
Definition mergeProtectionConfig (configs : list (option ProtectionConfig))
  : ProtectionConfig :=
  fold_left
    (fun result config =>
       match config with
       | Some c => spreadProtection result c
       | None => result
       end)
    configs (spreadProtection noProtection DEFAULT_PROTECTION_CONFIG).

(** *** The plugin interface *)

Definition Params : Type := list (string * JsValue).

Record ValidationResult : Type := mkValidation {
  v_valid : bool;
  v_errors : list string
}.

Record TransformInput : Type := mkInput {
  in_tokens : list Token;
  in_params : Params;
  in_rng : Rng.SeedableRng;
  in_protection : ProtectionConfig;
  in_traceEnabled : bool
}.

Record TransformOutput : Type := mkOutput {
  out_tokens : list Token;
  out_warnings : option (list string)
}.

(** [IOutputTransform]; of its capabilities the pipeline reads
    [preferredOrder] only. *)
Record IOutputTransform : Type := mkTransform {
  t_id : string;
  t_preferredOrder : option Z;
  t_validateParams : Params -> ValidationResult;
  t_apply : TransformInput -> TransformOutput
}.

(** *** registry.ts: a [Map] from id to transform, in insertion order *)

Definition TransformRegistry : Type := list (string * IOutputTransform).

Definition emptyRegistry : TransformRegistry := [].

(** [this.transforms.set(transform.id, transform)]: an id already
    present keeps its place. *)
Fixpoint mapSet (id : string) (t : IOutputTransform) (r : TransformRegistry)
  : TransformRegistry :=
  match r with
  | [] => [(id, t)]
  | (k, v) :: rest =>
      if String.eqb k id then (k, t) :: rest else (k, v) :: mapSet id t rest
  end.

Definition register (transform : IOutputTransform) (r : TransformRegistry)
  : TransformRegistry :=
  mapSet (t_id transform) transform r.

Definition get (r : TransformRegistry) (id : string) : option IOutputTransform :=
  snd <$> List.find (fun kv => String.eqb (fst kv) id) r.

(** [list()] *)
Definition registryList (r : TransformRegistry) : list IOutputTransform :=
  map snd r.

Definition has (r : TransformRegistry) (id : string) : bool :=
  existsb (fun kv => String.eqb (fst kv) id) r.

(** [createDefaultRegistry], for a given pack of transforms. *)
Definition createRegistry (pack : list IOutputTransform) : TransformRegistry :=
  fold_left (fun r t => register t r) pack emptyRegistry.

(** *** protection.ts *)

Definition isUpperAZ (c : ascii) : bool :=
  let n := nat_of_ascii c in ((65 <=? n) && (n <=? 90))%nat.

Fixpoint allChars (p : ascii -> bool) (s : string) : bool :=
  match s with
  | EmptyString => true
  | String c rest => p c && allChars p rest
  end.

Fixpoint anyChar (p : ascii -> bool) (s : string) : bool :=
  match s with
  | EmptyString => false
  | String c rest => p c || anyChar p rest
  end.

(** [/^[A-Z]{2,}$/.test(value)] *)
Definition isAcronym (value : string) : bool :=
  (2 <=? String.length value)%nat && allChars isUpperAZ value.

(** [value.includes(sub)] *)
Fixpoint includesStr (sub value : string) : bool :=
  String.prefix sub value
  || match value with
     | String _ rest => includesStr sub rest
     | EmptyString => false
     end.

Definition isUrlLike (value : string) : bool :=
  includesStr "://" value || String.prefix "www." value.

Definition isEmailLike (value : string) : bool := includesStr "@" value.

(** [value.split('.')]: the current segment and the segments after it. *)
Fixpoint splitDots (value : string) : string * list string :=
  match value with
  | EmptyString => (EmptyString, [])
  | String c rest =>
      let '(seg, more) := splitDots rest in
      if Ascii.eqb c "." then (EmptyString, seg :: more)
      else (String c seg, more)
  end.

Definition dotParts (value : string) : list string :=
  let '(seg, more) := splitDots value in seg :: more.

Definition isCodeLike (value : string) : bool :=
  if includesStr "_" value || includesStr "\" value then true
  else if includesStr "/" value && (1 <? String.length value)%nat then true
  else if (1 <? length (dotParts value))%nat
          && forallb (fun p => (0 <? String.length p)%nat) (dotParts value) then true
  else anyChar Tokenizer.isLetter value && anyChar Tokenizer.isDigit value.

(** [String(n)] for a natural number. *)
Fixpoint digitsOf (fuel n : nat) (acc : string) : string :=
  match fuel with
  | O => acc
  | S fuel' =>
      let acc' := String (ascii_of_nat (48 + n mod 10)) acc in
      if (n / 10 =? 0)%nat then acc' else digitsOf fuel' (n / 10) acc'
  end.

Definition natToString (n : nat) : string := digitsOf (S n) n EmptyString.

(** The labels of the custom patterns a value matches, in order. *)
Fixpoint customLabels (tests : list (string -> bool)) (idx : nat) (value : string)
  : list string :=
  match tests with
  | [] => []
  | test :: rest =>
      (if test value then ["customRegex[" +:+ natToString idx +:+ "]"] else [])
      ++ customLabels rest (S idx) value
  end.

Section Protection.
Variable compile : string -> option (string -> bool).

(** [cfg.customProtectedRegex.map(r => new RegExp(r))] *)
Fixpoint compileAll (patterns : list string) : Result (list (string -> bool)) :=
  match patterns with
  | [] => Ok []
  | p :: rest =>
      match compile p with
      | None => Throw (Err "SyntaxError: Invalid regular expression")
      | Some test =>
          match compileAll rest with
          | Ok tests => Ok (test :: tests)
          | Throw e => Throw e
          end
      end
  end.

(** The body of the loop of [applyProtection] for one token. *)
Definition protectToken (cfg : ProtectionConfig) (customRegexes : list (string -> bool))
    (token : Token) : Token :=
  let value := tok_value token in
  let protections :=
    (match tok_type token with
     | TNumber => if default false (keepNumbers cfg) then ["number"] else []
     | _ => []
     end)
    ++ (match tok_type token with
        | TWord =>
            (if default false (keepAcronyms cfg) && isAcronym value
             then ["acronym"] else [])
            ++ (if default false (keepUrlsEmails cfg)
                   && (isUrlLike value || isEmailLike value)
                then ["urlLike"] else [])
            ++ (if default false (keepCodeTokens cfg) && isCodeLike value
                then ["codeLike"] else [])
            ++ (if (0 <? default 0 (minWordLength cfg))%Z
                   && (Z.of_nat (String.length value) <? default 0 (minWordLength cfg))%Z
                then ["shortWord"] else [])
            ++ customLabels customRegexes 0 value
        | _ => []
        end)
    ++ (match tok_type token with
        | TSymbol =>
            (if default false (keepUrlsEmails cfg)
                && (isUrlLike value || isEmailLike value)
             then ["urlLike"] else [])
            ++ (if default false (keepCodeTokens cfg) && isCodeLike value
                then ["codeLike"] else [])
        | _ => []
        end) in
  if (0 <? length protections)%nat then
    mkToken (tok_type token) value (Some (mkTokenMeta (Some true) (Some protections)))
  else token.

Definition applyProtection (tokens : list Token) (config : ProtectionConfig)
  : Result (list Token) :=
  let cfg := spreadProtection DEFAULT_PROTECTION_CONFIG config in
  match compileAll (default [] (customProtectedRegex cfg)) with
  | Throw e => Throw e
  | Ok customRegexes => Ok (map (protectToken cfg customRegexes) tokens)
  end.

End Protection.

(** [token.meta?.protected === true] *)
Definition isProtected (token : Token) : bool :=
  match tok_meta token ≫= tm_protected with
  | Some true => true
  | _ => false
  end.

(** *** pipeline.ts *)

Definition two31 : Z := 2147483648%Z.

(** [x | 0]: the signed 32-bit reading of an integer. *)
Definition toInt32 (x : Z) : Z := ((x + two31) mod Rng.two32 - two31)%Z.

(** The loop of [hashString]. *)
Fixpoint hashFrom (hash : Z) (str : string) : Z :=
  match str with
  | EmptyString => hash
  | String c rest =>
      let ch := Z.of_nat (nat_of_ascii c) in
      hashFrom (toInt32 (toInt32 (hash * 32) - hash + ch)) rest
  end.

Definition hashString (str : string) : Z := Rng.toUint32 (hashFrom 0 str).

Record PipelineResult : Type := mkPipelineResult {
  pr_text : string;
  pr_tokens : list Token;
  pr_transformsApplied : list string
}.

Definition ResolvedStep : Type := (TransformStep * IOutputTransform)%type.

(** [`"${s}"`] *)
Definition quoted (s : string) : string :=
  String doubleQuote (s +:+ String doubleQuote EmptyString).

Definition unknownTransform (id : string) : JsError :=
  Err ("Unknown transform ID: " +:+ quoted id).

Fixpoint collectValidSteps (pipeline : list TransformStep)
    (registry : TransformRegistry) (strict : bool) : Result (list ResolvedStep) :=
  match pipeline with
  | [] => Ok []
  | step :: rest =>
      match get registry (step_id step) with
      | None =>
          if strict then Throw (unknownTransform (step_id step))
          else collectValidSteps rest registry strict
      | Some transform =>
          match collectValidSteps rest registry strict with
          | Ok steps => Ok ((step, transform) :: steps)
          | Throw e => Throw e
          end
      end
  end.

Definition orderOf (s : ResolvedStep) : Z := default 50%Z (t_preferredOrder (snd s)).

(** [steps.sort((a, b) => orderA - orderB)], a stable sort: a step goes
    after the steps already placed whose order is not larger. *)
Fixpoint insertByOrder (s : ResolvedStep) (sorted : list ResolvedStep)
  : list ResolvedStep :=
  match sorted with
  | [] => [s]
  | y :: rest =>
      if (orderOf y <=? orderOf s)%Z then y :: insertByOrder s rest
      else s :: sorted
  end.

Definition sortByOrder (steps : list ResolvedStep) : list ResolvedStep :=
  fold_left (fun sorted s => insertByOrder s sorted) steps [].

Definition invalidParams (id : string) (errors : list string) : JsError :=
  Err ("Transform " +:+ quoted id +:+ " invalid params: "
       +:+ Normalize.join ", " errors).

(** The [for] loop over the resolved steps, from [stepIndex] on. *)
Fixpoint runSteps (config : OutputTransformsConfig) (baseSeed : Z)
    (traceEnabled : bool) (steps : list ResolvedStep) (stepIndex : nat)
    (tokens : list Token) (transformsApplied : list string)
  : Result (list Token * list string) :=
  match steps with
  | [] => Ok (tokens, transformsApplied)
  | (step, transform) :: rest =>
      let params := default [] (step_params step) in
      let stepSeed :=
        Rng.toUint32
          (baseSeed + hashString (t_id transform +:+ natToString stepIndex)) in
      let stepRng := Rng.create stepSeed in
      let validation := t_validateParams transform params in
      if negb (v_valid validation) then
        if otc_strict config
        then Throw (invalidParams (t_id transform) (v_errors validation))
        else runSteps config baseSeed traceEnabled rest (S stepIndex) tokens
               transformsApplied
      else
        let output :=
          t_apply transform
            (mkInput tokens params stepRng (otc_protection config) traceEnabled) in
        runSteps config baseSeed traceEnabled rest (S stepIndex) (out_tokens output)
          (transformsApplied ++ [t_id transform])
  end.

Section Pipeline.
Variable compile : string -> option (string -> bool).

Definition executePipeline (text : string) (config : OutputTransformsConfig)
    (registry : TransformRegistry) (baseSeed : Z) (traceEnabled : bool)
  : Result PipelineResult :=
  if negb (otc_enabled config) || (length (otc_pipeline config) =? 0)%nat then
    Ok (mkPipelineResult text (tokenize text) [])
  else
    match applyProtection compile (tokenize text) (otc_protection config) with
    | Throw e => Throw e
    | Ok tokens =>
        match collectValidSteps (otc_pipeline config) registry (otc_strict config) with
        | Throw e => Throw e
        | Ok steps =>
            let steps :=
              if default false (otc_autoOrder config) then sortByOrder steps
              else steps in
            match runSteps config baseSeed traceEnabled steps 0 tokens [] with
            | Throw e => Throw e
            | Ok (tokens, transformsApplied) =>
                Ok (mkPipelineResult (render tokens) tokens transformsApplied)
            end
        end
    end.

End Pipeline.

End Transforms.


(** ** transforms/transforms/reverse-words.ts *)

Module ReverseWords.
Import Lexicon Tokenizer Transforms.

(** JavaScript truthiness of a parameter value. *)
Definition jsTruthy (v : JsValue) : bool :=
  match v with
  | VBool b => b
  | VNum q => negb (Qeq_bool q 0)
  | VStr s => negb (String.eqb s "")
  | VObj _ => true
  end.

(** [ReverseWordsParams]: the fields hold whatever values the caller
    passed for them. *)
Record ReverseWordsParams : Type := mkReverseParams {
  mode : JsValue;
  preserveCase : JsValue
}.

Definition DEFAULT_PARAMS : ReverseWordsParams :=
  mkReverseParams (VStr "full") (VBool true).

(** [{ ...DEFAULT_PARAMS, ...input.params }] *)
Definition withDefaults (params : Params) : ReverseWordsParams :=
  mkReverseParams (default (mode DEFAULT_PARAMS) (dictGet params "mode"))
    (default (preserveCase DEFAULT_PARAMS) (dictGet params "preserveCase")).

Definition isUpperCase (ch : ascii) : bool :=
  let n := nat_of_ascii ch in ((65 <=? n) && (n <=? 90))%nat.

(** A code unit of the ASCII range. *)
Definition isAsciiUnit (ch : ascii) : bool := (nat_of_ascii ch <? 128)%nat.

Section CaseMapping.
(** [ch.toUpperCase()] and [ch.toLowerCase()] for a code unit beyond
    ASCII.  The result is a string of its own, of one unit or of more
    (the upper case of the sharp s is [SS]), and may hold ASCII letters. *)
Variable upperBeyondAscii : ascii -> list ascii.
Variable lowerBeyondAscii : ascii -> list ascii.

(** [ch.toUpperCase()] for one code unit. *)
Definition toUpperCaseUnit (ch : ascii) : list ascii :=
  if isAsciiUnit ch then [Normalize.toUpperCaseChar ch] else upperBeyondAscii ch.

(** [ch.toLowerCase()] for one code unit. *)
Definition toLowerCaseUnit (ch : ascii) : list ascii :=
  if isAsciiUnit ch then [RuleEngine.toLowerCaseChar ch] else lowerBeyondAscii ch.

(** The loop that transfers the casing pattern of [word] to [s]: unit by
    unit, the upper case of the unit where [word] has an upper-case
    letter at that index, its lower case elsewhere, appended to the
    result. *)
Fixpoint transferCase (word s : list ascii) : list ascii :=
  match s with
  | [] => []
  | c :: rest =>
      match word with
      | w :: wrest =>
          (if isUpperCase w then toUpperCaseUnit c else toLowerCaseUnit c)
          ++ transferCase wrest rest
      | [] => toLowerCaseUnit c ++ transferCase [] rest
      end
  end.

(** [reverseWord] on the code units of the word ([word.split('')]). *)
Definition reverseChars (word : list ascii) (params : ReverseWordsParams)
  : list ascii :=
  if (length word <=? 1)%nat then word
  else if strictEquals (mode params) (VStr "full") then
    let reversed := rev word in
    if jsTruthy (preserveCase params) then transferCase word reversed
    else reversed
  else if (length word <=? 2)%nat then word
  else
    match word with
    | first :: rest =>
        let last := List.last rest first in
        let inner := rev (removelast rest) in
        let combined := first :: inner ++ [last] in
        if jsTruthy (preserveCase params) then transferCase word combined
        else combined
    | [] => word
    end.

Definition reverseWord (word : string) (params : ReverseWordsParams) : string :=
  string_of_list_ascii (reverseChars (list_ascii_of_string word) params).

Definition validateParams (params : Params) : ValidationResult :=
  let errors :=
    match dictGet params "mode" with
    | Some m =>
        if jsTruthy m && negb (strictEquals m (VStr "full"))
           && negb (strictEquals m (VStr "innerOnly"))
        then ["mode must be " +:+ quoted "full" +:+ " or " +:+ quoted "innerOnly"]
        else []
    | None => []
    end in
  mkValidation (length errors =? 0)%nat errors.

Definition apply (input : TransformInput) : TransformOutput :=
  let params := withDefaults (in_params input) in
  mkOutput
    (map (fun token =>
            match tok_type token with
            | TWord =>
                if negb (isProtected token) then
                  mkToken (tok_type token) (reverseWord (tok_value token) params)
                    (tok_meta token)
                else token
            | _ => token
            end)
       (in_tokens input))
    None.

Definition reverseWordsTransform : IOutputTransform :=
  mkTransform "reverseWords" (Some 60%Z) validateParams apply.

End CaseMapping.

End ReverseWords.


(** ** transforms/pipeline.ts: checkPipelineOrder *)

Module PipelineOrder.
Import Lexicon Tokenizer Transforms.

(** [String(n)] for an integer. *)
Definition intToString (z : Z) : string :=
  if (z <? 0)%Z then "-" +:+ natToString (Z.to_nat (- z))
  else natToString (Z.to_nat z).

Definition orderWarning (id : string) (order lastOrder : Z) : string :=
  "Transform " +:+ quoted id +:+ " (order " +:+ intToString order
  +:+ ") appears after a transform with higher structural impact (order "
  +:+ intToString lastOrder +:+ "). Consider reordering.".

(** The loop of [checkPipelineOrder]; [lastOrder] is [None] while it is
    still [-Infinity]. *)
Fixpoint checkFrom (pipeline : list TransformStep) (registry : TransformRegistry)
    (lastOrder : option Z) : list string :=
  match pipeline with
  | [] => []
  | step :: rest =>
      match get registry (step_id step) with
      | None => checkFrom rest registry lastOrder
      | Some transform =>
          let order := default 50%Z (t_preferredOrder transform) in
          (match lastOrder with
           | Some l =>
               if (order <? l)%Z then [orderWarning (step_id step) order l] else []
           | None => []
           end)
          ++ checkFrom rest registry (Some order)
      end
  end.

Definition checkPipelineOrder (pipeline : list TransformStep)
    (registry : TransformRegistry) : list string :=
  checkFrom pipeline registry None.

End PipelineOrder.

(** ** transforms/transforms/mock-case.ts *)

Module MockCase.
Import Lexicon Tokenizer Transforms.

Record MockCaseParams : Type := mkMockParams {
  mode : JsValue;
  randomRate : JsValue;
  scope : JsValue;
  preserveNonLetters : JsValue
}.

Definition DEFAULT_PARAMS : MockCaseParams :=
  mkMockParams (VStr "alternate") (VNum (4 # 10)) (VStr "word") (VBool true).

(** [{ ...DEFAULT_PARAMS, ...input.params }] *)
Definition withDefaults (params : Params) : MockCaseParams :=
  mkMockParams (default (mode DEFAULT_PARAMS) (dictGet params "mode"))
    (default (randomRate DEFAULT_PARAMS) (dictGet params "randomRate"))
    (default (scope DEFAULT_PARAMS) (dictGet params "scope"))
    (default (preserveNonLetters DEFAULT_PARAMS) (dictGet params "preserveNonLetters")).

Definition isLetter (ch : ascii) : bool :=
  let c := nat_of_ascii ch in
  (((65 <=? c) && (c <=? 90)) || ((97 <=? c) && (c <=? 122)))%nat.

Fixpoint alternateCase (word : string) (startUpper : bool) : string :=
  match word with
  | EmptyString => EmptyString
  | String ch rest =>
      if isLetter ch then
        String (if startUpper then Normalize.toUpperCaseChar ch
                else RuleEngine.toLowerCaseChar ch)
          (alternateCase rest (negb startUpper))
      else String ch (alternateCase rest startUpper)
  end.

(** The inner loop of the sentence scope: the letter index runs on from
    one word to the next. *)
Fixpoint alternateFrom (value : string) (globalLetterIdx : nat) : string * nat :=
  match value with
  | EmptyString => (EmptyString, globalLetterIdx)
  | String ch rest =>
      if isLetter ch then
        let '(result, idx) := alternateFrom rest (S globalLetterIdx) in
        (String (if (globalLetterIdx mod 2 =? 0)%nat
                 then RuleEngine.toLowerCaseChar ch
                 else Normalize.toUpperCaseChar ch) result, idx)
      else
        let '(result, idx) := alternateFrom rest globalLetterIdx in
        (String ch result, idx)
  end.

Section Randomized.
(** The number a parameter value is read as in [float() < probability];
    [None] when that is [NaN]. *)
Variable toNumber : JsValue -> option Q.

(** [rng.chance(rate)] *)
Definition chanceOf (rate : JsValue) (rng : Rng.SeedableRng)
  : bool * Rng.SeedableRng :=
  match toNumber rate with
  | Some probability => Rng.chance probability rng
  | None => let '(_, rng') := Rng.float rng in (false, rng')
  end.

Fixpoint randomizedCase (word : string) (rate : JsValue) (rng : Rng.SeedableRng)
  : string * Rng.SeedableRng :=
  match word with
  | EmptyString => (EmptyString, rng)
  | String ch rest =>
      if isLetter ch then
        let '(up, rng1) := chanceOf rate rng in
        let '(result, rng2) := randomizedCase rest rate rng1 in
        (String (if up then Normalize.toUpperCaseChar ch
                 else RuleEngine.toLowerCaseChar ch) result, rng2)
      else
        let '(result, rng') := randomizedCase rest rate rng in
        (String ch result, rng')
  end.

(** The token loop of the alternate mode. *)
Fixpoint alternateTokens (params : MockCaseParams) (tokens : list Token)
    (globalLetterIdx : nat) : list Token :=
  match tokens with
  | [] => []
  | tkn :: rest =>
      match tok_type tkn with
      | TWord =>
          if negb (isProtected tkn) then
            if strictEquals (scope params) (VStr "word") then
              mkToken (tok_type tkn) (alternateCase (tok_value tkn) false)
                (tok_meta tkn)
              :: alternateTokens params rest globalLetterIdx
            else
              let '(result, idx) := alternateFrom (tok_value tkn) globalLetterIdx in
              mkToken (tok_type tkn) result (tok_meta tkn)
              :: alternateTokens params rest idx
          else tkn :: alternateTokens params rest globalLetterIdx
      | _ => tkn :: alternateTokens params rest globalLetterIdx
      end
  end.

(** The token loop of the randomized mode. *)
Fixpoint randomizedTokens (params : MockCaseParams) (tokens : list Token)
    (rng : Rng.SeedableRng) : list Token :=
  match tokens with
  | [] => []
  | tkn :: rest =>
      match tok_type tkn with
      | TWord =>
          if negb (isProtected tkn) then
            let '(value, rng') :=
              randomizedCase (tok_value tkn) (randomRate params) rng in
            mkToken (tok_type tkn) value (tok_meta tkn)
            :: randomizedTokens params rest rng'
          else tkn :: randomizedTokens params rest rng
      | _ => tkn :: randomizedTokens params rest rng
      end
  end.

Definition apply (input : TransformInput) : TransformOutput :=
  let params := withDefaults (in_params input) in
  mkOutput
    (if strictEquals (mode params) (VStr "alternate") then
       alternateTokens params (in_tokens input) 0
     else randomizedTokens params (in_tokens input) (in_rng input))
    None.

End Randomized.

Definition validateParams (params : Params) : ValidationResult :=
  let errors :=
    (match dictGet params "mode" with
     | Some m =>
         if ReverseWords.jsTruthy m && negb (strictEquals m (VStr "alternate"))
            && negb (strictEquals m (VStr "randomized"))
         then ["mode must be " +:+ quoted "alternate" +:+ " or " +:+ quoted "randomized"]
         else []
     | None => []
     end)
    ++ (match dictGet params "randomRate" with
        | Some (VNum rate) =>
            if Qlt_bool rate 0 || Qlt_bool 1 rate
            then ["randomRate must be between 0 and 1"] else []
        | Some _ => ["randomRate must be between 0 and 1"]
        | None => []
        end)
    ++ (match dictGet params "scope" with
        | Some s =>
            if ReverseWords.jsTruthy s && negb (strictEquals s (VStr "word"))
               && negb (strictEquals s (VStr "sentence"))
            then ["scope must be " +:+ quoted "word" +:+ " or " +:+ quoted "sentence"]
            else []
        | None => []
        end) in
  mkValidation (length errors =? 0)%nat errors.

(** A token and a copy of it that differs at most in the case of the
    letters of its value, and not at all unless it is an unprotected word. *)
Definition recased (t t' : Token) : Prop :=
  tok_type t' = tok_type t
  /\ tok_meta t' = tok_meta t
  /\ RuleEngine.toLowerCase (tok_value t') = RuleEngine.toLowerCase (tok_value t)
  /\ (tok_type t <> TWord \/ isProtected t = true -> t' = t).

Definition mockCaseTransform (toNumber : JsValue -> option Q) : IOutputTransform :=
  mkTransform "mockCase" (Some 50%Z) validateParams (apply toNumber).

End MockCase.





(** * Properties *)

(** ** Rational comparisons *)

Lemma Qlt_bool_iff (x y : Q) : Qlt_bool x y = true <-> (x < y)%Q.
Proof.
  unfold Qlt_bool. rewrite negb_true_iff. split.
  - intros H. apply Qnot_le_lt. intros Hle.
    apply Qle_bool_iff in Hle. congruence.
  - intros H. destruct (Qle_bool y x) eqn:E; [|reflexivity].
    apply Qle_bool_iff in E. exfalso. apply (Qlt_not_le _ _ H E).
Qed.

Lemma Qlt_bool_false_iff (x y : Q) : Qlt_bool x y = false <-> (y <= x)%Q.
Proof. unfold Qlt_bool. rewrite negb_false_iff. apply Qle_bool_iff. Qed.

(** ** Lists *)

Lemma filter_nil_all {A} (f : A -> bool) (l : list A) :
  List.filter f l = [] <-> forall x, In x l -> f x = false.
Proof.
  induction l as [|a l IH]; simpl.
  - split; [intros _ x [] | reflexivity].
  - destruct (f a) eqn:E; split.
    + discriminate.
    + intros H. specialize (H a (or_introl eq_refl)). congruence.
    + intros H x [<-|Hx]; [exact E | now apply IH].
    + intros H. apply IH. intros x Hx. apply H. now right.
Qed.

(** ** The seeded generator *)

Section RngFacts.
Import Rng.

Lemma toUint32_range (x : Z) : (0 <= toUint32 x < two32)%Z.
Proof. unfold toUint32. apply Z.mod_pos_bound. reflexivity. Qed.

Lemma mulberry32_range (s : Z) : (0 <= fst (mulberry32 s) < two32)%Z.
Proof. unfold mulberry32. cbv zeta. cbn [fst]. apply toUint32_range. Qed.

(** [float()] lies in [0, 1). *)
Lemma float_range (r : SeedableRng) : (0 <= fst (float r))%Q /\ (fst (float r) < 1)%Q.
Proof.
  unfold float. pose proof (mulberry32_range (_next r)) as H.
  destruct (mulberry32 (_next r)) as [u s]. cbn [fst] in *.
  unfold Qle, Qlt. cbn. unfold two32 in *. lia.
Qed.

Context {T : Type}.
Implicit Types (items validItems : list (WeightedItem T)).

Lemma walk_Some random validItems x :
  walk random validItems = Some x -> exists i, In i validItems /\ item i = x.
Proof.
  revert random. induction validItems as [|i rest IH]; intros random; simpl.
  - discriminate.
  - destruct (Qle_bool (random - weight i) 0).
    + intros [= <-]. exists i. split; [now left | reflexivity].
    + intros H. destruct (IH _ H) as (j & Hj & Hx). exists j. split; [now right | exact Hx].
Qed.

Lemma last_In (l : list (WeightedItem T)) i : last l = Some i -> In i l.
Proof.
  intros H. apply list_elem_of_In. now apply last_Some_elem_of.
Qed.

Lemma walkOrLast_Ok random validItems x :
  walkOrLast random validItems = Ok x -> exists i, In i validItems /\ item i = x.
Proof.
  unfold walkOrLast. destruct (walk random validItems) as [y|] eqn:W.
  - intros [= <-]. eapply walk_Some; eassumption.
  - destruct (last validItems) as [i|] eqn:L; [|discriminate].
    intros [= <-]. exists i. split; [now apply last_In | reflexivity].
Qed.

Lemma walkOrLast_total random validItems :
  validItems <> [] -> exists x, walkOrLast random validItems = Ok x.
Proof.
  intros Hne. unfold walkOrLast. destruct (walk random validItems) as [y|]; [eauto|].
  destruct (last validItems) as [i|] eqn:L; [eauto|].
  apply last_None in L. contradiction.
Qed.

Lemma length_zero_nil {A} (l : list A) : (length l =? 0)%nat = true <-> l = [].
Proof. destruct l; simpl; split; intros; congruence. Qed.

(** With at least one positive weight, [weightedPick] is the walk over the
    positively weighted items at the draw [float() * totalWeight]. *)
Lemma weightedPick_unfold items r :
  List.filter (fun i => Qlt_bool 0 (weight i)) items <> [] ->
  weightedPick items r =
    (walkOrLast (fst (float r) * totalWeight (List.filter (fun i => Qlt_bool 0 (weight i)) items))
       (List.filter (fun i => Qlt_bool 0 (weight i)) items),
     snd (float r)).
Proof.
  intros Hne. unfold weightedPick.
  destruct items as [|i0 items']; [contradiction Hne; reflexivity|].
  cbn [length Nat.eqb].
  set (v := List.filter _ (i0 :: items')) in *.
  destruct (length v =? 0)%nat eqn:E.
  - apply length_zero_nil in E. contradiction.
  - destruct (float r); reflexivity.
Qed.

Lemma weightedPick_nonpositive items r :
  (forall i, In i items -> (weight i <= 0)%Q) ->
  exists e, weightedPick items r = (Throw e, r).
Proof.
  intros Hall. unfold weightedPick.
  destruct (length items =? 0)%nat; [eauto|].
  assert (Hv : List.filter (fun i => Qlt_bool 0 (weight i)) items = []).
  { apply filter_nil_all. intros i Hi.
    apply Qlt_bool_false_iff. now apply Hall. }
  rewrite Hv. simpl. eauto.
Qed.

End RngFacts.

(** C7. [weightedPick] only ever returns the item of an entry with a
    positive weight, and it does return one as soon as some entry has a
    positive weight; when no entry has a positive weight (the empty list
    included) it throws and leaves the generator untouched; the result is
    that of the subtraction walk at the draw [float() * totalWeight], and
    whenever that walk runs off the end without returning, the item of the
    last positively weighted entry is returned. *)
Theorem weightedPick_positive_or_error :
  (forall (T : Type) (items : list (Rng.WeightedItem T)) r x r',
      Rng.weightedPick items r = (Ok x, r') ->
      exists i, In i items /\ Rng.item i = x /\ (0 < Rng.weight i)%Q)
  /\ (forall (T : Type) (items : list (Rng.WeightedItem T)) r,
      (exists i, In i items /\ (0 < Rng.weight i)%Q) ->
      exists x, Rng.weightedPick items r = (Ok x, snd (Rng.float r)))
  /\ (forall (T : Type) (items : list (Rng.WeightedItem T)) r,
      (forall i, In i items -> (Rng.weight i <= 0)%Q) ->
      exists e, Rng.weightedPick items r = (Throw e, r))
  /\ (forall (T : Type) (items : list (Rng.WeightedItem T)) r,
      let validItems := List.filter (fun i => Qlt_bool 0 (Rng.weight i)) items in
      validItems <> [] ->
      Rng.weightedPick items r =
        (Rng.walkOrLast (fst (Rng.float r) * Rng.totalWeight validItems) validItems,
         snd (Rng.float r)))
  /\ (forall (T : Type) (random : Q) (validItems : list (Rng.WeightedItem T)) l,
      last validItems = Some l ->
      Rng.walk random validItems = None ->
      Rng.walkOrLast random validItems = Ok (Rng.item l)).
Proof.
  repeat split.
  - intros T items r x r' H.
    destruct (List.filter (fun i => Qlt_bool 0 (Rng.weight i)) items) as [|v0 vs] eqn:V.
    + destruct (weightedPick_nonpositive items r) as [e He].
      * intros i Hi. apply Qlt_bool_false_iff.
        exact (proj1 (filter_nil_all _ _) V i Hi).
      * congruence.
    + rewrite weightedPick_unfold in H by (rewrite V; discriminate).
      injection H as H _. apply walkOrLast_Ok in H as (i & Hi & Hx).
      apply List.filter_In in Hi as [Hin Hw]. apply Qlt_bool_iff in Hw. eauto.
  - intros T items r (i & Hi & Hw).
    assert (Hne : List.filter (fun i => Qlt_bool 0 (Rng.weight i)) items <> []).
    { intros E. pose proof (proj1 (filter_nil_all _ _) E i Hi) as F.
      apply Qlt_bool_false_iff in F. apply (Qlt_not_le _ _ Hw F). }
    rewrite weightedPick_unfold by exact Hne.
    destruct (walkOrLast_total (fst (Rng.float r) * Rng.totalWeight
      (List.filter (fun i => Qlt_bool 0 (Rng.weight i)) items)) _ Hne) as [x Hx].
    exists x. now rewrite Hx.
  - intros T items r H. now apply weightedPick_nonpositive.
  - intros T items r validItems Hne. now apply weightedPick_unfold.
  - intros T random validItems l Hl Hw. unfold Rng.walkOrLast. now rewrite Hw, Hl.
Qed.

(** ** Sampling weights of term sets *)

Section TermSetWeights.
Import Lexicon Context LexiconStore Claimed.

Lemma rawTermSetWeight_factor lex c id :
  (rawTermSetWeight lex c id == distributionFactor lex c id + default 0%Q (biases c !! id))%Q.
Proof.
  unfold rawTermSetWeight, distributionFactor, activeDistributionEntry.
  destruct (getArchetype lex (archetype c)) as [a|]; cbn; [|reflexivity].
  destruct (arch_distributions a) as [d|]; cbn; [|reflexivity].
  destruct (dictGet d "termSetBias") as [name|]; cbn; [|reflexivity].
  destruct (String.eqb name ""); [reflexivity|].
  destruct (getDistribution lex name) as [dist|]; cbn; [|reflexivity].
  destruct (List.find _ dist) as [e|]; [|reflexivity].
  now rewrite Qmult_1_l.
Qed.

(** Every entry that [sampleTerm] weights carries [termSetWeight] of its
    set id. *)
Lemma weightedSets_weight lex c candidateSets w :
  In w (weightedSets lex c candidateSets) ->
  Rng.weight w = termSetWeight lex c (fst (Rng.item w)).
Proof.
  unfold weightedSets. intros H. apply in_map_iff in H as ([id set] & <- & _).
  reflexivity.
Qed.

End TermSetWeights.

(** C4, as amended.  Every candidate term set that [sampleTerm] weights
    gets the weight [max(0, d + bias)], where [bias] is the context bias
    stored under the set id and [d] is the weight of the set's entry in the
    active archetype's [termSetBias] distribution when there is such an
    entry, and 1 otherwise: the distribution weight multiplies the base
    weight 1, it is not added to it. *)
Theorem termSetWeight_formula :
  forall lex termQuery c w,
    In w (LexiconStore.weightedSets lex c (LexiconStore.findMatchingTermSets lex termQuery c)) ->
    (Rng.weight w ==
       Qmax 0 (Claimed.distributionFactor lex c (fst (Rng.item w))
               + default 0%Q (Context.biases c !! fst (Rng.item w))))%Q.
Proof.
  intros lex termQuery c w H.
  rewrite (weightedSets_weight _ _ _ _ H). unfold LexiconStore.termSetWeight.
  apply Q.max_compat; [reflexivity | apply rawTermSetWeight_factor].
Qed.

(** C4 fails as stated: with a distribution weight of 3 and no bias the
    code weights the set 3, not 1 + 3. *)
Lemma termSetWeight_not_additive :
  ~ (forall lex c id,
       (LexiconStore.termSetWeight lex c id == Claimed.claimedTermSetWeight lex c id)%Q).
Proof.
  intros H.
  specialize (H (Some Samples.biasedLexicon) (Context.createContext 0 "default") "noun.tech").
  vm_compute in H. discriminate H.
Qed.

Lemma termSetWeight_formula_witness :
  let lex := Some Samples.biasedLexicon in
  let c := Context.createContext 0 "default" in
  let w := Rng.mkWeighted
             ("noun.tech", Lexicon.mkTermSet Lexicon.noun None
                             [Lexicon.mkTerm "server" None None None])
             (LexiconStore.termSetWeight lex c "noun.tech") in
  In w (LexiconStore.weightedSets lex c
          (LexiconStore.findMatchingTermSets lex Samples.nounQuery c))
  /\ (Rng.weight w == Qmax 0 (3 + 0))%Q.
Proof.
  cbv zeta. split.
  - left. reflexivity.
  - apply (termSetWeight_formula (Some Samples.biasedLexicon) Samples.nounQuery
             (Context.createContext 0 "default")).
    left. reflexivity.
Defined.

(** ** Correlation boosts and the bias table *)

Section Boosts.
Import Lexicon Context LexiconStore.

Lemma string_length_append (a b : string) :
  String.length (a +:+ b) = (String.length a + String.length b)%nat.
Proof. induction a as [|ch a IH]; simpl; [reflexivity | f_equal; exact IH]. Qed.

(** A scope-prefixed key is never the bare key. *)
Lemma scoped_key_ne (scope : Scope) (k : string) :
  (scopeName scope +:+ ":") +:+ k <> k.
Proof.
  intros E. apply (f_equal String.length) in E.
  rewrite !string_length_append in E. cbn in E. lia.
Qed.

Lemma addBias_lookup_eq key delta (m : gmap string Q) :
  addBias key delta m !! key = Some (default 0%Q (m !! key) + delta)%Q.
Proof. unfold addBias. apply lookup_insert_eq. Qed.

Lemma addBias_lookup_ne key key' delta (m : gmap string Q) :
  key <> key' -> addBias key delta m !! key' = m !! key'.
Proof. intros H. unfold addBias. now apply lookup_insert_ne. Qed.

(** A term-set boost is written under the scoped key and under the bare
    set id. *)
Lemma applyBoost_termSet_keys scope ts delta (m : gmap string Q) :
  ts <> "" ->
  let m' := applyBoost scope (mkBoost (Some ts) None delta) m in
  m' !! ts = Some (default 0%Q (m !! ts) + delta)%Q
  /\ m' !! ((scopeName scope +:+ ":") +:+ ts)
     = Some (default 0%Q (m !! ((scopeName scope +:+ ":") +:+ ts)) + delta)%Q.
Proof.
  intros Hne. cbv zeta. unfold applyBoost. cbn.
  destruct (String.eqb_spec ts ""); [contradiction|].
  split.
  - rewrite addBias_lookup_eq.
    rewrite addBias_lookup_ne by apply scoped_key_ne. reflexivity.
  - rewrite addBias_lookup_ne by (intros E; symmetry in E; revert E; apply scoped_key_ne).
    apply addBias_lookup_eq.
Qed.

(** A pattern boost is written under the scoped key only: the keys
    [pattern:<id>] (the one [samplePattern] reads) and [<id>] keep their
    old binding. *)
Lemma applyBoost_pattern_keys scope p delta (m : gmap string Q) :
  p <> "" ->
  let m' := applyBoost scope (mkBoost None (Some p) delta) m in
  m' !! ((scopeName scope +:+ ":") +:+ "pattern:" +:+ p)
  = Some (default 0%Q (m !! ((scopeName scope +:+ ":") +:+ "pattern:" +:+ p)) + delta)%Q
  /\ m' !! ("pattern:" +:+ p) = m !! ("pattern:" +:+ p)
  /\ m' !! p = m !! p.
Proof.
  intros Hne. cbv zeta. unfold applyBoost. cbn.
  destruct (String.eqb_spec p ""); [contradiction|].
  split; [apply addBias_lookup_eq|]. split.
  - apply addBias_lookup_ne. apply scoped_key_ne.
  - apply addBias_lookup_ne. intros E. apply (f_equal String.length) in E.
    rewrite !string_length_append in E. cbn in E. lia.
Qed.

(** The sentence-boundary clear drops exactly the keys that start with
    [sentence:]. *)
Lemma clearSentenceState_biases c key :
  biases (clearSentenceState c) !! key
  = if startsWith "sentence:" key then None else biases c !! key.
Proof.
  unfold clearSentenceState, deletePrefixed. cbn [biases].
  rewrite map_lookup_filter.
  destruct (biases c !! key) as [v|] eqn:E; cbn.
  - destruct (startsWith "sentence:" key) eqn:P; cbn.
    + rewrite option_guard_False; [reflexivity|].
      intros Hf. change (startsWith "sentence:" key = false) in Hf. congruence.
    + rewrite option_guard_True; [reflexivity | exact P].
  - now destruct (startsWith "sentence:" key).
Qed.

End Boosts.

(** C5 (the code departs from it).  At the failing input, a correlation
    that fires and boosts the pattern [p1] by 2 at [sentence] scope,
    [applyCorrelations] writes the delta under [sentence:pattern:p1] only:
    neither [pattern:p1], the key [samplePattern] reads, nor [p1] gets a
    binding, and the sampling weight of the pattern is unchanged.  The
    sibling branch for a term-set target does write both keys. *)
Theorem pattern_boost_written_under_one_key :
  let c0 := Context.createContext 0 "default" in
  let c := LexiconStore.applyCorrelations (Some Samples.patternBoostLexicon)
             Samples.techNounChosen c0 in
  let c' := LexiconStore.applyCorrelations (Some (Samples.termSetBoostLexicon Lexicon.sentence))
              Samples.techNounChosen c0 in
  Context.biases c !! "sentence:pattern:p1" = Some 2%Q
  /\ Context.biases c !! "pattern:p1" = None
  /\ Context.biases c !! "p1" = None
  /\ LexiconStore.patternWeight c "p1" Samples.samplePattern1
     = LexiconStore.patternWeight c0 "p1" Samples.samplePattern1
  /\ Context.biases c' !! "sentence:verb.tech" = Some 5%Q
  /\ Context.biases c' !! "verb.tech" = Some 5%Q.
Proof. vm_compute. repeat split. Qed.

(** C2 (the code departs from it).  At the failing input, a boost of 5
    for the set [verb.tech] applied at [sentence] scope, the sentence
    boundary clear removes the key [sentence:verb.tech] but not the bare
    key [verb.tech] that [sampleTerm] reads: the set is still sampled with
    weight 6 instead of 1 in the next sentence.  A [paragraph]-scoped boost
    persists in the same way. *)
Theorem sentence_boost_outlives_sentence :
  let lex := Some (Samples.termSetBoostLexicon Lexicon.sentence) in
  let c0 := Context.createContext 0 "default" in
  let c1 := LexiconStore.applyCorrelations lex Samples.techNounChosen c0 in
  let c2 := Context.clearSentenceState c1 in
  let lexP := Some (Samples.termSetBoostLexicon Lexicon.paragraph) in
  let p2 := Context.clearSentenceState
              (LexiconStore.applyCorrelations lexP Samples.techNounChosen c0) in
  LexiconStore.termSetWeight lex c0 "verb.tech" = 1%Q
  /\ LexiconStore.termSetWeight lex c1 "verb.tech" = 6%Q
  /\ Context.biases c2 !! "sentence:verb.tech" = None
  /\ LexiconStore.termSetWeight lex c2 "verb.tech" = 6%Q
  /\ LexiconStore.termSetWeight lexP p2 "verb.tech" = 6%Q.
Proof. vm_compute. repeat split. Qed.

(** ** The rule engine *)

(** What the ['PP'] branch of [evaluateMaxCount] decides on: the number
    of tokens found in [config.determiners]. *)
Lemma evaluateMaxCount_PP cfg constraint tokens :
  Lexicon.c_target constraint = "PP" ->
  RuleEngine.cr_passed (RuleEngine.evaluateMaxCount cfg constraint tokens)
  = negb (RuleEngine.ppCount cfg tokens >? default 1%Z (Lexicon.c_value constraint))%Z.
Proof.
  intros H. unfold RuleEngine.evaluateMaxCount. rewrite H. cbn.
  now destruct (_ >? _)%Z.
Qed.

(** C9 (the code departs from it).  The ['PP'] branch counts the tokens
    that are determiners of the configuration, not prepositions: with the
    bound 2 a sentence with three determiners and no preposition fails the
    constraint, and a sentence with three prepositions and no determiner
    passes it. *)
Theorem maxCount_PP_counts_determiners :
  RuleEngine.cr_passed
    (RuleEngine.evaluateMaxCount Config.DEFAULT_CONFIG Samples.maxPP2 Samples.threeDeterminers)
  = false
  /\ Claimed.prepositionCount Samples.threeDeterminers = 0%Z
  /\ RuleEngine.cr_passed
       (RuleEngine.evaluateMaxCount Config.DEFAULT_CONFIG Samples.maxPP2 Samples.threePrepositions)
     = true
  /\ Claimed.prepositionCount Samples.threePrepositions = 3%Z.
Proof. vm_compute. repeat split. Qed.

(** ** What the builders leave untouched *)

Section TameComputations.
Import Lexicon Config Context Gen Triples.

Lemma Frame_ret {A} (a : A) : Frame (ret a).
Proof. intros w. reflexivity. Qed.

Lemma Frame_throw {A} e : Frame (@throw A e).
Proof. intros w. reflexivity. Qed.

Lemma Frame_bind {A B} (m : M A) (k : A -> M B) :
  Frame m -> (forall a, Frame (k a)) -> Frame (bind m k).
Proof.
  intros Hm Hk w. unfold bind. specialize (Hm w).
  destruct (m w) as [[a|e] w1]; cbn in *; [|exact Hm].
  rewrite (Hk a w1). exact Hm.
Qed.

Lemma Frame_tryCatch {A} (m : M A) (h : JsError -> M A) :
  Frame m -> (forall e, Frame (h e)) -> Frame (tryCatch m h).
Proof.
  intros Hm Hh w. unfold tryCatch. specialize (Hm w).
  destruct (m w) as [[a|e] w1]; cbn in *; [exact Hm|].
  rewrite (Hh e w1). exact Hm.
Qed.

Lemma Indep_ret {A} (a : A) : Indep (ret a).
Proof. intros f w. reflexivity. Qed.

Lemma Indep_throw {A} e : Indep (@throw A e).
Proof. intros f w. reflexivity. Qed.

Lemma Indep_bind {A B} (m : M A) (k : A -> M B) :
  Indep m -> (forall a, Indep (k a)) -> Indep (bind m k).
Proof.
  intros Hm Hk f w. unfold bind. rewrite (Hm f w).
  destruct (m w) as [[a|e] w1]; cbn; [|reflexivity].
  apply Hk.
Qed.

Lemma Indep_tryCatch {A} (m : M A) (h : JsError -> M A) :
  Indep m -> (forall e, Indep (h e)) -> Indep (tryCatch m h).
Proof.
  intros Hm Hh f w. unfold tryCatch. rewrite (Hm f w).
  destruct (m w) as [[a|e] w1]; cbn; [reflexivity|].
  apply Hh.
Qed.

Lemma Tame_ret {A} (a : A) : Tame (ret a).
Proof. split; [apply Frame_ret | apply Indep_ret]. Qed.

Lemma Tame_throw {A} e : Tame (@throw A e).
Proof. split; [apply Frame_throw | apply Indep_throw]. Qed.

Lemma Tame_bind {A B} (m : M A) (k : A -> M B) :
  Tame m -> (forall a, Tame (k a)) -> Tame (bind m k).
Proof.
  intros [Fm Im] Hk. split.
  - apply Frame_bind; [exact Fm | intros a; apply Hk].
  - apply Indep_bind; [exact Im | intros a; apply Hk].
Qed.

Lemma Tame_tryCatch {A} (m : M A) (h : JsError -> M A) :
  Tame m -> (forall e, Tame (h e)) -> Tame (tryCatch m h).
Proof.
  intros [Fm Im] Hh. split.
  - apply Frame_tryCatch; [exact Fm | intros e; apply Hh].
  - apply Indep_tryCatch; [exact Im | intros e; apply Hh].
Qed.

Lemma Tame_getConfig : Tame getConfig.
Proof. split; intros ?; reflexivity. Qed.

Lemma Tame_getLexicon : Tame getLexicon.
Proof. split; intros ?; reflexivity. Qed.

Lemma Tame_getCtx : Tame getCtx.
Proof. split; intros ?; reflexivity. Qed.

Lemma Tame_liftRng {A} (op : Rng.SeedableRng -> A * Rng.SeedableRng) :
  Tame (liftRng op).
Proof.
  split.
  - intros w. unfold liftRng. destruct (op _). reflexivity.
  - intros f w. unfold liftRng. cbn. destruct (op _). reflexivity.
Qed.

Lemma Tame_liftRngResult {A} (op : Rng.SeedableRng -> Result A * Rng.SeedableRng) :
  Tame (liftRngResult op).
Proof.
  split.
  - intros w. unfold liftRngResult. destruct (op _). reflexivity.
  - intros f w. unfold liftRngResult. cbn. destruct (op _). reflexivity.
Qed.

Lemma Tame_float : Tame float.
Proof. apply Tame_liftRng. Qed.

Lemma Tame_int a b : Tame (int a b).
Proof. apply Tame_liftRng. Qed.

Lemma Tame_chance p : Tame (chance p).
Proof. apply Tame_liftRng. Qed.

Lemma Tame_pick {T} (l : list T) : Tame (pick l).
Proof. apply Tame_liftRngResult. Qed.

Lemma Tame_weightedPick {T} (l : list (Rng.WeightedItem T)) : Tame (weightedPick l).
Proof. apply Tame_liftRngResult. Qed.

(** A context update that keeps the rules, the archetype, the tags and
    the seed of the context. *)
Lemma Tame_modifyCtx (f : GenerationContext -> GenerationContext) :
  (forall c, constraints (f c) = constraints c /\ invariants (f c) = invariants c
             /\ archetype (f c) = archetype c /\ activeTags (f c) = activeTags c
             /\ seed (f c) = seed c) ->
  Tame (modifyCtx f).
Proof.
  intros H. split.
  - intros w. unfold stablePart, restPart. cbn.
    destruct (H (ctx w)) as (-> & -> & -> & -> & ->). reflexivity.
  - intros g w. reflexivity.
Qed.

End TameComputations.

Create HintDb tame.
#[export] Hint Resolve Tame_ret Tame_throw Tame_getConfig Tame_getLexicon
  Tame_getCtx Tame_float Tame_int Tame_chance Tame_pick Tame_weightedPick : tame.

(** Splits a goal [Tame m] along the structure of [m]. *)
Ltac tame_step :=
  match goal with
  | |- Triples.Tame (Gen.bind _ _) => apply Tame_bind; [|intros]
  | |- Triples.Tame (Gen.tryCatch _ _) => apply Tame_tryCatch; [|intros]
  | |- Triples.Tame (if ?b then _ else _) => destruct b
  | |- Triples.Tame (match ?x with _ => _ end) => destruct x
  | |- Triples.Tame _ => solve [auto with tame]
  end.

Ltac tame := cbv zeta; repeat tame_step.

Section TameBuilders.
Import Lexicon Config Context Gen Triples PhraseBuilders SentenceTemplates.

Lemma recordChoice_keeps event c :
  constraints (recordChoice event c) = constraints c
  /\ invariants (recordChoice event c) = invariants c
  /\ archetype (recordChoice event c) = archetype c
  /\ activeTags (recordChoice event c) = activeTags c
  /\ seed (recordChoice event c) = seed c.
Proof.
  unfold recordChoice.
  destruct (ev_type event), (ev_item event); cbn; repeat split;
    repeat match goal with |- context [match ?x with _ => _ end] => destruct x end;
    reflexivity.
Qed.

Lemma applyCorrelations_keeps lex event c :
  constraints (LexiconStore.applyCorrelations lex event c) = constraints c
  /\ invariants (LexiconStore.applyCorrelations lex event c) = invariants c
  /\ archetype (LexiconStore.applyCorrelations lex event c) = archetype c
  /\ activeTags (LexiconStore.applyCorrelations lex event c) = activeTags c
  /\ seed (LexiconStore.applyCorrelations lex event c) = seed c.
Proof.
  unfold LexiconStore.applyCorrelations.
  destruct (lex ≫= correlations); repeat split; reflexivity.
Qed.

Lemma Tame_sampleTerm q : Tame (LexiconStore.sampleTerm q).
Proof. unfold LexiconStore.sampleTerm. tame. Qed.

Lemma Tame_samplePattern q : Tame (LexiconStore.samplePattern q).
Proof. unfold LexiconStore.samplePattern. tame. Qed.

(** Without an exclusion list the fallback word is picked from the
    curated table: the injected adapter is not consulted. *)
Lemma getFallbackWord_no_exclude pos :
  WordProvider.getFallbackWord pos None = pick (WordProvider.defaultCandidates pos).
Proof. destruct pos; reflexivity. Qed.

Lemma Tame_getWord pos : Tame (WordProvider.getWord pos WordProvider.noOptions).
Proof.
  unfold WordProvider.getWord. cbn [WordProvider.o_fallbackToFaker WordProvider.noOptions
    WordProvider.o_exclude default].
  apply Tame_bind; [apply Tame_sampleTerm|]. intros [item|].
  - repeat (apply Tame_bind; [|intros]); auto with tame.
    + apply Tame_modifyCtx. intros c. apply recordChoice_keeps.
    + apply Tame_modifyCtx. intros c. apply applyCorrelations_keeps.
    + destruct (String.eqb _ _); [apply Tame_ret|].
      apply Tame_modifyCtx. intros c. repeat split; reflexivity.
  - rewrite getFallbackWord_no_exclude.
    repeat (apply Tame_bind; [|intros]); auto with tame.
    apply Tame_modifyCtx. intros c. apply recordChoice_keeps.
Qed.

Lemma Tame_getNoun : Tame (WordProvider.getNoun WordProvider.noOptions).
Proof. apply Tame_getWord. Qed.
Lemma Tame_getVerb : Tame (WordProvider.getVerb WordProvider.noOptions).
Proof. apply Tame_getWord. Qed.
Lemma Tame_getAdjective : Tame (WordProvider.getAdjective WordProvider.noOptions).
Proof. apply Tame_getWord. Qed.
Lemma Tame_getAdverb : Tame (WordProvider.getAdverb WordProvider.noOptions).
Proof. apply Tame_getWord. Qed.
Lemma Tame_getPreposition : Tame (WordProvider.getPreposition WordProvider.noOptions).
Proof. apply Tame_getWord. Qed.
Lemma Tame_getSubjectPronoun : Tame WordProvider.getSubjectPronoun.
Proof. apply Tame_pick. Qed.
Lemma Tame_getModal : Tame WordProvider.getModal.
Proof. apply Tame_pick. Qed.
Lemma Tame_getSubordinator : Tame WordProvider.getSubordinator.
Proof. apply Tame_pick. Qed.
Lemma Tame_getRelativePronoun : Tame WordProvider.getRelativePronoun.
Proof. apply Tame_pick. Qed.

Lemma Tame_repeatM {A} n (step : M A) : Tame step -> Tame (repeatM n step).
Proof.
  intros H. induction n as [|n IH]; cbn.
  - apply Tame_ret.
  - apply Tame_bind; [exact H|]. intros x.
    apply Tame_bind; [exact IH|]. intros rest. apply Tame_ret.
Qed.

Lemma Tame_demand f : Tame (demand f).
Proof. destruct f; [apply Tame_ret | apply Tame_throw]. Qed.

Lemma Tame_pickTense : Tame pickTense.
Proof. apply Tame_pick. Qed.

End TameBuilders.

#[export] Hint Resolve Tame_sampleTerm Tame_samplePattern Tame_getWord Tame_getNoun
  Tame_getVerb Tame_getAdjective Tame_getAdverb Tame_getPreposition
  Tame_getSubjectPronoun Tame_getModal Tame_getSubordinator
  Tame_getRelativePronoun Tame_repeatM Tame_demand Tame_pickTense : tame.

Section TamePhrases.
Import Lexicon Config Context Gen Triples PhraseBuilders SentenceTemplates.
Variable morph : Morphology.

Lemma Tame_buildNPWith pp options : Tame pp -> Tame (buildNPWith morph pp options).
Proof. intros Hpp. unfold buildNPWith. tame. Qed.

Lemma Tame_buildPP : Tame (buildPP morph).
Proof.
  unfold buildPP. tame. apply Tame_buildNPWith. apply Tame_throw.
Qed.

Lemma Tame_buildNP options : Tame (buildNP morph options).
Proof. apply Tame_buildNPWith, Tame_buildPP. Qed.

Hint Resolve Tame_buildPP Tame_buildNP : tame.

Lemma Tame_buildVP f options : Tame (buildVP morph f options).
Proof. unfold buildVP. tame. Qed.

Hint Resolve Tame_buildVP : tame.

Lemma Tame_buildClause t p : Tame (buildClause morph t p).
Proof. unfold buildClause. tame. Qed.

Hint Resolve Tame_buildClause : tame.

Lemma Tame_buildSubordinateClause : Tame (buildSubordinateClause morph).
Proof. unfold buildSubordinateClause. tame. Qed.

Hint Resolve Tame_buildSubordinateClause : tame.

Lemma Tame_selectSentenceType : Tame selectSentenceType.
Proof. unfold selectSentenceType. tame. Qed.

Lemma Tame_buildSimpleDeclarative : Tame (buildSimpleDeclarative morph).
Proof. unfold buildSimpleDeclarative. tame. Qed.

Lemma Tame_buildCompound : Tame (buildCompound morph).
Proof. unfold buildCompound. tame. Qed.

Lemma Tame_buildIntroAdverbial : Tame (buildIntroAdverbial morph).
Proof. unfold buildIntroAdverbial. tame. Qed.

Lemma Tame_buildSubordinate : Tame (buildSubordinate morph).
Proof. unfold buildSubordinate. tame. Qed.

Lemma Tame_buildInterjection : Tame (buildInterjection morph).
Proof. unfold buildInterjection. tame. Qed.

Lemma Tame_buildQuestion : Tame (buildQuestion morph).
Proof. unfold buildQuestion. tame. Qed.

Lemma Tame_buildSentence type : Tame (buildSentence morph type).
Proof.
  unfold buildSentence. apply Tame_bind.
  - destruct type; [apply Tame_ret | apply Tame_selectSentenceType].
  - intros []; auto using Tame_buildSimpleDeclarative, Tame_buildCompound,
      Tame_buildIntroAdverbial, Tame_buildSubordinate, Tame_buildInterjection,
      Tame_buildQuestion.
Qed.

End TamePhrases.

(** ** The retry loop *)

Section RetryLoop.
Import Lexicon Config Context Gen Triples PhraseBuilders SentenceTemplates TextGenerator.
Variable morph : Morphology.

Lemma set_maxPPChain_same c : set_maxPPChain (maxPPChain c) c = c.
Proof. destruct c; reflexivity. Qed.

Lemma Degraded_refl c : Degraded c c.
Proof. exists (maxPPChain c). split; [symmetry; apply set_maxPPChain_same | now left]. Qed.

Lemma Degraded_trans c1 c2 c3 : Degraded c1 c2 -> Degraded c2 c3 -> Degraded c1 c3.
Proof.
  intros (k1 & -> & H1) (k2 & -> & H2). exists k2. split; [reflexivity|].
  cbn [maxPPChain set_maxPPChain] in H2.
  destruct H2 as [->|H2]; [exact H1|]. right.
  destruct H1 as [->|H1]; [exact H2|]. lia.
Qed.

Lemma Degraded_step c :
  Degraded c (set_maxPPChain (Z.max 0 (maxPPChain c - 1)) c).
Proof. eexists. split; [reflexivity|]. right. lia. Qed.

(** A degraded configuration differs in [maxPPChain] only. *)
Lemma Degraded_fields c c' :
  Degraded c c' ->
  maxSentenceAttempts c' = maxSentenceAttempts c
  /\ strictMode c' = strictMode c
  /\ set_maxPPChain (maxPPChain c) c' = c.
Proof.
  intros (k & -> & _). repeat split. destruct c; reflexivity.
Qed.

Lemma Kept_refl w : Kept w w.
Proof. split; [apply Degraded_refl | reflexivity]. Qed.

Lemma Kept_trans w1 w2 w3 : Kept w1 w2 -> Kept w2 w3 -> Kept w1 w3.
Proof.
  intros [D1 R1] [D2 R2]. split; [eapply Degraded_trans; eassumption | congruence].
Qed.

Lemma Frame_Kept {A} (m : M A) w : Frame m -> Kept w (snd (m w)).
Proof.
  intros F. specialize (F w).
  pose proof (f_equal fst F) as Hc. pose proof (f_equal snd F) as Hr.
  cbn [fst snd stablePart] in Hc, Hr.
  split; [rewrite Hc; apply Degraded_refl | exact Hr].
Qed.

Lemma valid_spec cfg cs invs c txt toks :
  RuleEngine.valid (RuleEngine.validate cfg cs invs c txt toks Lexicon.sentence)
  = ((length (RuleEngine.hardConstraintsFailed
                (RuleEngine.validate cfg cs invs c txt toks Lexicon.sentence)) =? 0)%nat
     && (length (RuleEngine.invariantsFailed
                   (RuleEngine.validate cfg cs invs c txt toks Lexicon.sentence)) =? 0)%nat).
Proof. reflexivity. Qed.

(** The three ways through the loop body. *)
Lemma attempt_cases st w :
  match buildSentence morph (type st) (attemptWorld st w) with
  | (Throw e, w1) =>
      attempt morph st w
      = (Ok (Continue (mkLoopState (attempts st + 1) (type st) (lastResult st) (Some e))), w1)
  | (Ok result, w1) =>
      if validates result w1 then
        attempt morph st w
        = (Ok (Return result
                 (mkLoopState (attempts st + 1) (type st) (lastResult st) (lastError st))), w1)
      else
        attempt morph st w
        = (Ok (Continue
                 (mkLoopState (attempts st + 1)
                    (if (attempts st + 1 >? 10)%Z then Some simpleDeclarative else type st)
                    (Some result) (lastError st))),
           degradeWorld st w1)
  end.
Proof.
  cbv beta iota zeta delta [attempt attemptWorld degradeWorld validates bind modifyCtx
    tryCatch getConfig getCtx ret putConfig].
  cbn [session ctx].
  destruct (buildSentence morph (type st) _) as [[result|e] w1]; [|reflexivity].
  rewrite valid_spec.
  destruct (_ && _); [reflexivity|].
  destruct (attempts st + 1 >? 5)%Z; reflexivity.
Qed.

Lemma Kept_attemptWorld st w : Kept w (attemptWorld st w).
Proof. split; [apply Degraded_refl | reflexivity]. Qed.

Lemma Kept_degradeWorld st w : Kept w (degradeWorld st w).
Proof.
  unfold degradeWorld. destruct (_ >? 5)%Z; [|apply Kept_refl].
  split; [apply Degraded_step | reflexivity].
Qed.

(** An attempt never throws, counts itself, and keeps the world up to
    the degrade step. *)
Lemma attempt_spec st w :
  exists step w',
    attempt morph st w = (Ok step, w') /\ Kept w w'
    /\ match step with
       | Return _ st' | Continue st' => attempts st' = (attempts st + 1)%Z
       end.
Proof.
  pose proof (attempt_cases st w) as H.
  pose proof (Frame_Kept (buildSentence morph (type st)) (attemptWorld st w)
                (proj1 (Tame_buildSentence morph (type st)))) as K.
  destruct (buildSentence morph (type st) (attemptWorld st w)) as [[result|e] w1];
    cbn [snd] in K.
  - destruct (validates result w1); rewrite H; do 2 eexists; (split; [reflexivity|]).
    + split; [|reflexivity]. eapply Kept_trans; [apply Kept_attemptWorld | exact K].
    + split; [|reflexivity].
      eapply Kept_trans; [apply Kept_attemptWorld|].
      eapply Kept_trans; [exact K | apply Kept_degradeWorld].
  - rewrite H. do 2 eexists. split; [reflexivity|]. split; [|reflexivity].
    eapply Kept_trans; [apply Kept_attemptWorld | exact K].
Qed.

Lemma retryLoop_unfold fuel st w :
  retryLoop morph fuel st w =
    if negb (attempts st <? maxSentenceAttempts (config (session w)))%Z
    then (Ok (Exhausted st), w)
    else match fuel with
         | O => (Ok (OutOfFuel st), w)
         | S fuel' =>
             match attempt morph st w with
             | (Ok (Return result st'), w') => (Ok (Returned result st'), w')
             | (Ok (Continue st'), w') => retryLoop morph fuel' st' w'
             | (Throw e, w') => (Throw e, w')
             end
         end.
Proof.
  destruct fuel; cbn [retryLoop]; unfold bind at 1, getConfig at 1;
    destruct (negb _); try reflexivity.
  unfold bind at 1. destruct (attempt morph st w) as [[[r st'|st']|e] w']; reflexivity.
Qed.

(** With fuel for the remaining budget the loop returns a candidate or
    exhausts the budget; it never throws and never runs out of fuel. *)
Lemma retryLoop_spec fuel : forall st w,
  (maxSentenceAttempts (config (session w)) - attempts st <= Z.of_nat fuel)%Z ->
  exists exit w',
    retryLoop morph fuel st w = (Ok exit, w') /\ Kept w w'
    /\ match exit with
       | Returned _ st' =>
           (attempts st < attempts st' <= maxSentenceAttempts (config (session w)))%Z
       | Exhausted st' =>
           attempts st' = Z.max (attempts st) (maxSentenceAttempts (config (session w)))
       | OutOfFuel _ => False
       end.
Proof.
  induction fuel as [|fuel IH]; intros st w Hfuel; rewrite retryLoop_unfold;
    destruct (attempts st <? maxSentenceAttempts (config (session w)))%Z eqn:E;
    cbn [negb];
    try (apply Z.ltb_ge in E; do 2 eexists; split; [reflexivity|];
         split; [apply Kept_refl | lia]).
  - apply Z.ltb_lt in E. lia.
  - apply Z.ltb_lt in E.
    destruct (attempt_spec st w) as (step & w1 & -> & K & Hst).
    pose proof (Degraded_fields _ _ (proj1 K)) as (Hmax & _ & _).
    destruct step as [result st'|st'].
    + do 2 eexists. split; [reflexivity|]. split; [exact K | lia].
    + destruct (IH st' w1) as (exit & w' & -> & K' & Hexit); [lia|].
      do 2 eexists. split; [reflexivity|].
      split; [eapply Kept_trans; eassumption|].
      rewrite Hmax in Hexit. destruct exit; lia.
Qed.

(** Under an unsatisfiable hard constraint no candidate validates. *)
Lemma unsatisfiable_invalid result w :
  UnsatisfiableHard (constraints (ctx w)) -> validates result w = false.
Proof.
  intros U. unfold validates. rewrite valid_spec.
  specialize (U (config (session w)) (invariants (ctx w)) (ctx w)
                (sr_text result) (sr_tokens result)).
  destruct (RuleEngine.hardConstraintsFailed _); [contradiction|reflexivity].
Qed.

Lemma Kept_constraints w w' : Kept w w' -> constraints (ctx w') = constraints (ctx w).
Proof. intros [_ R]. unfold restPart in R. congruence. Qed.

Lemma Kept_invariants w w' : Kept w w' -> invariants (ctx w') = invariants (ctx w).
Proof. intros [_ R]. unfold restPart in R. congruence. Qed.

Lemma attempt_unsat st w :
  UnsatisfiableHard (constraints (ctx w)) ->
  exists st' w',
    attempt morph st w = (Ok (Continue st'), w') /\ Kept w w'
    /\ attempts st' = (attempts st + 1)%Z.
Proof.
  intros U. pose proof (attempt_cases st w) as H.
  destruct (attempt_spec st w) as (step & w' & E & K & Hst).
  pose proof (Frame_Kept (buildSentence morph (type st)) (attemptWorld st w)
                (proj1 (Tame_buildSentence morph (type st)))) as K1.
  destruct (buildSentence morph (type st) (attemptWorld st w)) as [[result|e] w1];
    cbn [snd] in K1.
  - rewrite unsatisfiable_invalid in H.
    + rewrite H in E. injection E as <- <-. eauto.
    + rewrite (Kept_constraints _ _ K1). exact U.
  - rewrite H in E. injection E as <- <-. eauto.
Qed.

Lemma retryLoop_unsat fuel : forall st w,
  UnsatisfiableHard (constraints (ctx w)) ->
  (maxSentenceAttempts (config (session w)) - attempts st <= Z.of_nat fuel)%Z ->
  exists st' w',
    retryLoop morph fuel st w = (Ok (Exhausted st'), w') /\ Kept w w'
    /\ attempts st' = Z.max (attempts st) (maxSentenceAttempts (config (session w))).
Proof.
  induction fuel as [|fuel IH]; intros st w U Hfuel; rewrite retryLoop_unfold;
    destruct (attempts st <? maxSentenceAttempts (config (session w)))%Z eqn:E;
    cbn [negb];
    try (apply Z.ltb_ge in E; do 2 eexists; split; [reflexivity|];
         split; [apply Kept_refl | lia]).
  - apply Z.ltb_lt in E. lia.
  - apply Z.ltb_lt in E.
    destruct (attempt_unsat st w U) as (st' & w1 & -> & K & Hst).
    pose proof (Degraded_fields _ _ (proj1 K)) as (Hmax & _ & _).
    destruct (IH st' w1) as (st'' & w' & -> & K' & Hexit).
    + rewrite (Kept_constraints _ _ K). exact U.
    + lia.
    + do 2 eexists. split; [reflexivity|].
      split; [eapply Kept_trans; eassumption | lia].
Qed.

Lemma generateSentenceWithRetry_unfold type w :
  generateSentenceWithRetry morph type w =
    match retryLoop morph (Z.to_nat (maxSentenceAttempts (config (session w))))
            (initialLoopState type) w with
    | (Ok (Returned result _), w') => (Ok result, w')
    | (Ok (Exhausted st), w') => afterLoop morph st w'
    | (Ok (OutOfFuel _), w') => (Throw (Err "embedding: loop fuel exhausted"), w')
    | (Throw e, w') => (Throw e, w')
    end.
Proof.
  unfold generateSentenceWithRetry. unfold bind at 1, getConfig at 1.
  unfold bind at 1. destruct (retryLoop _ _ _ _) as [[[r st|st|st]|e] w']; reflexivity.
Qed.

Lemma afterLoop_unfold st w :
  afterLoop morph st w =
    match lastResult st with
    | Some r => (Ok r, w)
    | None =>
        if strictMode (config (session w))
        then (Throw (default (Err "Failed to generate valid sentence") (lastError st)), w)
        else buildSimpleDeclarative morph w
    end.
Proof.
  unfold afterLoop. destruct (lastResult st); [reflexivity|].
  unfold bind, getConfig. destruct (strictMode _); reflexivity.
Qed.

Lemma impossible_unsatisfiable invs0 w :
  constraints (ctx w) = [Samples.impossible] ->
  invariants (ctx w) = invs0 ->
  UnsatisfiableHard (constraints (ctx w)).
Proof.
  intros -> _ cfg invs c txt toks.
  unfold RuleEngine.validate, RuleEngine.evaluateConstraints. cbn.
  unfold RuleEngine.evaluateMaxCount. cbn.
  destruct (Z.of_nat (length toks) >? -1)%Z eqn:E; [cbn; discriminate|].
  rewrite Z.gtb_ltb in E. apply Z.ltb_ge in E. lia.
Qed.

End RetryLoop.

(** C3, as amended.  With an unsatisfiable hard constraint in the
    context, the loop of [generateSentenceWithRetry] makes exactly
    [max(0, maxSentenceAttempts)] build attempts, none of which is
    accepted, and then stops.  What is returned at exhaustion depends on
    whether an attempt built a candidate: if none did, strict mode throws
    and non-strict mode returns the [buildSimpleDeclarative] fallback; if
    one did, non-strict mode returns the last candidate built, as a best
    effort. *)
Theorem retry_budget_exhaustion :
  forall morph type w,
    Triples.UnsatisfiableHard (Context.constraints (Gen.ctx w)) ->
    let cfg := Gen.config (Gen.session w) in
    exists st w1,
      TextGenerator.retryLoop morph (Z.to_nat (Config.maxSentenceAttempts cfg))
        (TextGenerator.initialLoopState type) w
      = (Ok (TextGenerator.Exhausted st), w1)
      /\ TextGenerator.attempts st = Z.max 0 (Config.maxSentenceAttempts cfg)
      /\ match TextGenerator.lastResult st with
         | Some r =>
             Config.strictMode cfg = false ->
             TextGenerator.generateSentenceWithRetry morph type w = (Ok r, w1)
         | None =>
             if Config.strictMode cfg then
               exists e, TextGenerator.generateSentenceWithRetry morph type w = (Throw e, w1)
             else
               TextGenerator.generateSentenceWithRetry morph type w
               = SentenceTemplates.buildSimpleDeclarative morph w1
         end.
Proof.
  intros morph type w U cfg.
  destruct (retryLoop_unsat morph (Z.to_nat (Config.maxSentenceAttempts cfg))
              (TextGenerator.initialLoopState type) w U) as (st & w1 & E & K & Hatt).
  { cbn [TextGenerator.attempts TextGenerator.initialLoopState]. fold cfg. lia. }
  exists st, w1. split; [exact E|]. split; [exact Hatt|].
  rewrite generateSentenceWithRetry_unfold. fold cfg. rewrite E.
  rewrite afterLoop_unfold.
  pose proof (Degraded_fields _ _ (proj1 K)) as (_ & Hstrict & _). fold cfg in Hstrict.
  rewrite Hstrict.
  destruct (TextGenerator.lastResult st); [reflexivity|].
  destruct (Config.strictMode cfg); [eauto | reflexivity].
Qed.

Lemma retry_budget_exhaustion_witness :
  let w := Samples.impossibleWorld (Samples.lenientSession 3) in
  Triples.UnsatisfiableHard (Context.constraints (Gen.ctx w))
  /\ exists st w1,
       TextGenerator.retryLoop Samples.regularMorphology 3
         (TextGenerator.initialLoopState (Some SentenceTemplates.question)) w
       = (Ok (TextGenerator.Exhausted st), w1)
       /\ TextGenerator.attempts st = 3%Z.
Proof.
  cbv zeta.
  assert (U : Triples.UnsatisfiableHard
                (Context.constraints (Gen.ctx (Samples.impossibleWorld (Samples.lenientSession 3))))).
  { eapply impossible_unsatisfiable; reflexivity. }
  split; [exact U|].
  destruct (retry_budget_exhaustion Samples.regularMorphology
              (Some SentenceTemplates.question) _ U) as (st & w1 & E & Hatt & _).
  exists st, w1. split; [exact E | exact Hatt].
Defined.

(** C3 fails as worded: with a budget of three attempts, not in strict
    mode, and the sentence type [question] requested, generation under an
    unsatisfiable hard constraint returns the last candidate, a question,
    and not a simple declarative sentence. *)
Lemma exhaustion_returns_last_candidate : ~ Worded.exhaustionThrowsOrFallsBack.
Proof.
  intros H.
  destruct (H Samples.regularMorphology (Some SentenceTemplates.question)
              (Samples.impossibleWorld (Samples.lenientSession 3))) as [_ Hn].
  { eapply impossible_unsatisfiable; reflexivity. }
  destruct (Hn eq_refl) as (r & Hr & Ht).
  vm_compute in Hr. injection Hr as <-. discriminate Ht.
Qed.

Lemma weightedPick_positive_or_error_witness :
  let a1 := Rng.mkWeighted "a" 1 in
  let b0 := Rng.mkWeighted "b" 0 in
  let a0 := Rng.mkWeighted "a" 0 in
  let b2 := Rng.mkWeighted "b" 2 in
  let r := Rng.create 12345 in
  (exists i, In i [a1; b0] /\ Rng.item i = "a" /\ (0 < Rng.weight i)%Q)
  /\ (exists x, Rng.weightedPick [a1; b0] r = (Ok x, snd (Rng.float r)))
  /\ (exists e, Rng.weightedPick [a0; b0] r = (Throw e, r))
  /\ Rng.walkOrLast 10 [a1; b2] = Ok "b".
Proof.
  cbv zeta.
  destruct weightedPick_positive_or_error as (H1 & H2 & H3 & _ & H5).
  split; [|split; [|split]].
  - apply (H1 string [Rng.mkWeighted "a" 1; Rng.mkWeighted "b" 0] (Rng.create 12345) "a"
             (snd (Rng.float (Rng.create 12345)))).
    vm_compute. reflexivity.
  - apply H2. exists (Rng.mkWeighted "a" 1). split; [left; reflexivity | reflexivity].
  - apply H3. intros i [<-|[<-|[]]]; cbn; discriminate.
  - apply (H5 string 10%Q [Rng.mkWeighted "a" 1; Rng.mkWeighted "b" 2] (Rng.mkWeighted "b" 2));
      reflexivity.
Defined.

(** ** What a whole generation call keeps *)

Section KeptByCalls.
Import Lexicon Config Context Gen Triples PhraseBuilders SentenceTemplates TextGenerator.
Variable morph : Morphology.
Variable pipeline : Pipeline.

Lemma Keeps_ret {A} (a : A) : Keeps (ret a).
Proof. intros w. apply Kept_refl. Qed.

Lemma Keeps_bind {A B} (m : M A) (k : A -> M B) :
  Keeps m -> (forall a, Keeps (k a)) -> Keeps (bind m k).
Proof.
  intros Hm Hk w. unfold bind. specialize (Hm w).
  destruct (m w) as [[a|e] w1]; cbn [snd] in *; [|exact Hm].
  eapply Kept_trans; [exact Hm | apply Hk].
Qed.

Lemma Keeps_Tame {A} (m : M A) : Tame m -> Keeps m.
Proof. intros [F _] w. now apply Frame_Kept. Qed.

Lemma Keeps_generateSentenceWithRetry type : Keeps (generateSentenceWithRetry morph type).
Proof.
  intros w. rewrite generateSentenceWithRetry_unfold.
  destruct (retryLoop_spec morph (Z.to_nat (maxSentenceAttempts (config (session w))))
              (initialLoopState type) w) as (exit & w1 & -> & K & Hexit).
  { cbn [attempts initialLoopState]. lia. }
  destruct exit as [r st|st|st]; [exact K| |contradiction].
  rewrite afterLoop_unfold.
  destruct (lastResult st); [exact K|].
  destruct (strictMode _); [exact K|].
  eapply Kept_trans; [exact K|]. apply Frame_Kept, Tame_buildSimpleDeclarative.
Qed.

Lemma Keeps_sentencesFrom n : forall i, Keeps (sentencesFrom morph i n).
Proof.
  induction n as [|n IH]; intros i; cbn [sentencesFrom].
  - apply Keeps_ret.
  - apply Keeps_bind; [|intros _].
    { apply Keeps_Tame, Tame_modifyCtx. intros c. repeat split; reflexivity. }
    apply Keeps_bind; [|intros _].
    { apply Keeps_Tame, Tame_modifyCtx. intros c. repeat split; reflexivity. }
    apply Keeps_bind; [apply Keeps_generateSentenceWithRetry | intros r].
    apply Keeps_bind; [apply IH | intros rest]. apply Keeps_ret.
Qed.

(** A computation run on a fresh context hands back a session whose
    configuration is the old one, possibly degraded. *)
Lemma withContext_Degraded {A} hints (m : M A) s :
  Keeps m -> Degraded (config s) (config (snd (withContext hints m s))).
Proof.
  intros K. unfold withContext.
  specialize (K (mkWorld s (createGenerationContext s hints))).
  destruct (m _) as [r w]. cbn [snd] in *. exact (proj1 K).
Qed.

Lemma transformed_session r s ov : snd (transformed pipeline r s ov) = s.
Proof. destruct r; reflexivity. Qed.

(** The session [sentence] hands back is the one the retry loop left. *)
Lemma sentence_session opts s :
  snd (sentence morph pipeline opts s)
  = session (snd (generateSentenceWithRetry morph (opts ≫= so_type)
                    (mkWorld s (createGenerationContext s (opts ≫= so_hints))))).
Proof.
  unfold sentence, withContext. unfold bind.
  destruct (generateSentenceWithRetry morph _ _) as [[r|e] w]; cbv beta iota zeta;
    unfold ret; rewrite transformed_session; reflexivity.
Qed.

Lemma sentence_Degraded opts s :
  Degraded (config s) (config (snd (sentence morph pipeline opts s))).
Proof.
  rewrite sentence_session.
  exact (proj1 (Keeps_generateSentenceWithRetry _ _)).
Qed.

Lemma paragraph_Degraded opts s :
  Degraded (config s) (config (snd (paragraph morph pipeline opts s))).
Proof.
  unfold paragraph.
  match goal with
  | |- context [withContext ?h ?m s] =>
      pose proof (withContext_Degraded h m s) as D; destruct (withContext h m s) as [r s']
  end.
  rewrite transformed_session. cbn [snd] in D. apply D.
  apply Keeps_bind.
  - destruct (opts ≫= po_sentences); [apply Keeps_ret | apply Keeps_Tame, Tame_int].
  - intros n. apply Keeps_bind; [apply Keeps_sentencesFrom | intros; apply Keeps_ret].
Qed.

Lemma blockParagraph_Degraded hints i s :
  Degraded (config s) (config (snd (blockParagraph morph hints i s))).
Proof.
  unfold blockParagraph. apply withContext_Degraded.
  apply Keeps_bind; [|intros _].
  { apply Keeps_Tame, Tame_modifyCtx. intros c. repeat split; reflexivity. }
  apply Keeps_bind; [apply Keeps_Tame, Tame_getConfig | intros cfg].
  apply Keeps_bind; [apply Keeps_Tame, Tame_int | intros n].
  apply Keeps_bind; [apply Keeps_sentencesFrom | intros results].
  apply Keeps_bind; [|intros _; apply Keeps_ret].
  apply Keeps_Tame, Tame_modifyCtx. intros c. repeat split; reflexivity.
Qed.

Lemma paragraphsFrom_Degraded hints n : forall i s,
  Degraded (config s) (config (snd (paragraphsFrom morph hints i n s))).
Proof.
  induction n as [|n IH]; intros i s; cbn [paragraphsFrom].
  - apply Degraded_refl.
  - pose proof (blockParagraph_Degraded hints i s) as D.
    destruct (blockParagraph morph hints i s) as [[p|e] s1]; cbn [snd] in *; [|exact D].
    specialize (IH (i + 1)%Z s1).
    destruct (paragraphsFrom morph hints (i + 1) n s1) as [[rest|e] s2]; cbn [snd] in *;
      eapply Degraded_trans; eassumption.
Qed.

Lemma textBlock_Degraded opts s :
  Degraded (config s) (config (snd (textBlock morph pipeline opts s))).
Proof.
  unfold textBlock.
  set (s1p := match opts ≫= to_paragraphs with Some n => (n, s) | None => _ end).
  assert (Hs1 : config (snd s1p) = config s).
  { subst s1p. destruct (opts ≫= to_paragraphs); [reflexivity|].
    destruct (Rng.int _ _ _); reflexivity. }
  destruct s1p as [numParagraphs s1]. cbn [snd] in Hs1.
  pose proof (paragraphsFrom_Degraded (opts ≫= to_hints) (Z.to_nat numParagraphs) 0%Z s1) as D.
  rewrite Hs1 in D.
  destruct (paragraphsFrom morph _ _ _ s1) as [[ps|e] s2]; cbn [snd] in *.
  - unfold transformed. exact D.
  - exact D.
Qed.

Lemma runCalls_Degraded calls : forall s,
  Degraded (config s) (config (snd (runCalls morph pipeline calls s))).
Proof.
  induction calls as [|c rest IH]; intros s; cbn [runCalls].
  - apply Degraded_refl.
  - assert (D : Degraded (config s) (config (snd (runCall morph pipeline c s)))).
    { destruct c; [apply sentence_Degraded | apply paragraph_Degraded | apply textBlock_Degraded]. }
    destruct (runCall morph pipeline c s) as [r s1]. cbn [snd] in D.
    specialize (IH s1). destruct (runCalls morph pipeline rest s1) as [rs s2].
    cbn [snd] in *. eapply Degraded_trans; eassumption.
Qed.

End KeptByCalls.



(** ** Determinism under a seed *)

#[export] Hint Resolve Tame_buildSentence Tame_buildSimpleDeclarative : tame.

Section Independence.
Import Lexicon Config Context Gen Triples PhraseBuilders SentenceTemplates TextGenerator.

Lemma Tame_Indep {A} (m : M A) : Tame m -> Indep m.
Proof. intros [_ I]. exact I. Qed.

Lemma Indep_modifyCtx f : Indep (modifyCtx f).
Proof. intros g w. reflexivity. Qed.

Lemma Indep_putConfig c : Indep (putConfig c).
Proof. intros g w. reflexivity. Qed.

End Independence.

(** Splits a goal [Indep m] along the structure of [m]. *)
Ltac indep_step :=
  match goal with
  | |- Triples.Indep (Gen.bind _ _) => apply Indep_bind; [|intros]
  | |- Triples.Indep (Gen.tryCatch _ _) => apply Indep_tryCatch; [|intros]
  | |- Triples.Indep (if ?b then _ else _) => destruct b
  | |- Triples.Indep (match ?x with _ => _ end) => destruct x
  | |- Triples.Indep _ =>
      first [ apply Indep_ret | apply Indep_throw | apply Indep_modifyCtx
            | apply Indep_putConfig | apply Tame_Indep; solve [auto with tame] ]
  end.

Ltac indep := cbv zeta; repeat indep_step.

Section IndependentCalls.
Import Lexicon Config Context Gen Triples PhraseBuilders SentenceTemplates TextGenerator.
Variable morph : Morphology.
Variable pipeline : Pipeline.

Lemma Indep_attempt st : Indep (attempt morph st).
Proof. unfold attempt. indep. Qed.

Lemma Indep_retryLoop fuel : forall st, Indep (retryLoop morph fuel st).
Proof.
  induction fuel as [|fuel IH]; intros st; cbn [retryLoop]; indep.
  - apply Indep_attempt.
  - apply IH.
Qed.

Lemma Indep_afterLoop st : Indep (afterLoop morph st).
Proof. unfold afterLoop. indep. Qed.

Lemma Indep_generateSentenceWithRetry type : Indep (generateSentenceWithRetry morph type).
Proof.
  unfold generateSentenceWithRetry. indep.
  - apply Indep_retryLoop.
  - apply Indep_afterLoop.
Qed.

Lemma Indep_sentencesFrom n : forall i, Indep (sentencesFrom morph i n).
Proof.
  induction n as [|n IH]; intros i; cbn [sentencesFrom]; indep.
  - apply Indep_generateSentenceWithRetry.
  - apply IH.
Qed.

Lemma IndepS_withContext {A} hints (m : M A) : Indep m -> IndepS (withContext hints m).
Proof.
  intros I f s. unfold withContext.
  change (mkWorld (set_fakerAdapter f s) (createGenerationContext (set_fakerAdapter f s) hints))
    with (withFaker f (mkWorld s (createGenerationContext s hints))).
  rewrite I. destruct (m _) as [r w]. reflexivity.
Qed.

Lemma transformed_faker r f s ov :
  transformed pipeline r (set_fakerAdapter f s) ov
  = (fst (transformed pipeline r s ov), set_fakerAdapter f s).
Proof. destruct r; reflexivity. Qed.

Lemma IndepS_sentence opts : IndepS (sentence morph pipeline opts).
Proof.
  intros f s. unfold sentence.
  match goal with
  | |- context [withContext ?h ?m (set_fakerAdapter f s)] =>
      rewrite (IndepS_withContext h m); [destruct (withContext h m s) as [r s1]|]
  end.
  - cbn [fst snd]. rewrite transformed_faker, transformed_session. reflexivity.
  - indep. apply Indep_generateSentenceWithRetry.
Qed.

Lemma IndepS_paragraph opts : IndepS (paragraph morph pipeline opts).
Proof.
  intros f s. unfold paragraph.
  change (config (set_fakerAdapter f s)) with (config s).
  match goal with
  | |- context [withContext ?h ?m (set_fakerAdapter f s)] =>
      rewrite (IndepS_withContext h m); [destruct (withContext h m s) as [r s1]|]
  end.
  - cbn [fst snd]. rewrite transformed_faker, transformed_session. reflexivity.
  - indep. apply Indep_sentencesFrom.
Qed.

Lemma IndepS_blockParagraph hints i : IndepS (blockParagraph morph hints i).
Proof.
  unfold blockParagraph. apply IndepS_withContext. indep. apply Indep_sentencesFrom.
Qed.

Lemma IndepS_paragraphsFrom hints n : forall i, IndepS (paragraphsFrom morph hints i n).
Proof.
  induction n as [|n IH]; intros i f s; cbn [paragraphsFrom]; [reflexivity|].
  rewrite IndepS_blockParagraph.
  destruct (blockParagraph morph hints i s) as [[p|e] s1]; cbn [fst snd]; [|reflexivity].
  rewrite IH. destruct (paragraphsFrom morph hints (i + 1) n s1) as [[rest|e] s2];
    reflexivity.
Qed.

Lemma IndepS_textBlock opts : IndepS (textBlock morph pipeline opts).
Proof.
  intros f s. unfold textBlock.
  destruct (opts ≫= to_paragraphs) as [n|].
  - rewrite IndepS_paragraphsFrom.
    destruct (paragraphsFrom morph _ _ _ s) as [[ps|e] s2]; cbn [fst snd]; [|reflexivity].
    rewrite transformed_faker, transformed_session. reflexivity.
  - change (rng (set_fakerAdapter f s)) with (rng s).
    destruct (Rng.int _ _ (rng s)) as [n r].
    change (set_rng r (set_fakerAdapter f s)) with (set_fakerAdapter f (set_rng r s)).
    rewrite IndepS_paragraphsFrom.
    destruct (paragraphsFrom morph _ _ _ (set_rng r s)) as [[ps|e] s2]; cbn [fst snd];
      [|reflexivity].
    rewrite transformed_faker, transformed_session. reflexivity.
Qed.

Lemma IndepS_runCall c : IndepS (runCall morph pipeline c).
Proof.
  destruct c; [apply IndepS_sentence | apply IndepS_paragraph | apply IndepS_textBlock].
Qed.

Lemma IndepS_runCalls calls :
  forall f s,
    runCalls morph pipeline calls (set_fakerAdapter f s)
    = (fst (runCalls morph pipeline calls s),
       set_fakerAdapter f (snd (runCalls morph pipeline calls s))).
Proof.
  induction calls as [|c rest IH]; intros f s; cbn [runCalls]; [reflexivity|].
  rewrite IndepS_runCall. destruct (runCall morph pipeline c s) as [r s1]. cbn [fst snd].
  rewrite IH. destruct (runCalls morph pipeline rest s1) as [rs s2]. reflexivity.
Qed.

End IndependentCalls.

(** C1.  Two generators built with the same lexicon and configuration,
    at whatever times and with whatever injected word sources, give the
    same results, call by call, once both have been seeded with the same
    seed and are sent the same sequence of [sentence], [paragraph] and
    [textBlock] calls with the same options. *)
Theorem same_seed_same_output :
  forall morph pipeline lexicon config trace seed calls now1 now2 faker1 faker2,
    fst (TextGenerator.runCalls morph pipeline calls
           (TextGenerator.setSeed seed
              (TextGenerator.create now1
                 (TextGenerator.mkInitOptions lexicon faker1 config trace))))
    = fst (TextGenerator.runCalls morph pipeline calls
             (TextGenerator.setSeed seed
                (TextGenerator.create now2
                   (TextGenerator.mkInitOptions lexicon faker2 config trace)))).
Proof.
  intros morph pipeline lexicon config trace seed calls now1 now2 faker1 faker2.
  set (base := TextGenerator.setSeed seed
                 (TextGenerator.create now1
                    (TextGenerator.mkInitOptions lexicon faker1 config trace))).
  change (TextGenerator.setSeed seed
            (TextGenerator.create now2
               (TextGenerator.mkInitOptions lexicon faker2 config trace)))
    with (Gen.set_fakerAdapter faker2 base).
  rewrite IndepS_runCalls. reflexivity.
Qed.

(** ** Text normalization *)

Section Characters.
Import Normalize Triples.

(** Facts about single characters, checked on all 256 of them. *)
Ltac all_chars c :=
  destruct c as [[] [] [] [] [] [] [] []]; vm_compute; try reflexivity; try discriminate;
  intros; try discriminate; try reflexivity.

Lemma letter_not_space c : isLetter c = true -> isSpace c = false.
Proof. all_chars c. Qed.

Lemma upper_is_letter c : isUpper c = true -> isLetter c = true.
Proof. all_chars c. Qed.

Lemma toUpper_letter c : isLetter c = true -> isUpper (toUpperCaseChar c) = true.
Proof. all_chars c. Qed.

Lemma toUpper_space c : isSpace (toUpperCaseChar c) = isSpace c.
Proof. all_chars c. Qed.

Lemma toUpper_upper c : isUpper c = true -> Ascii.eqb c (toUpperCaseChar c) = true.
Proof. all_chars c. Qed.

Lemma spacedPunct_not_space c : memChar c spacedPunct = true -> isSpace c = false.
Proof. all_chars c. Qed.

Lemma endPunct_not_space c : memChar c endPunct = true -> isSpace c = false.
Proof. all_chars c. Qed.

Lemma endPunct_checked c : memChar c endPunct = true -> memChar c checkedEndPunct = true.
Proof. all_chars c. Qed.

End Characters.

Section Strings.
Import Normalize Triples.

Lemma hasDoubleSpace_cons c s :
  hasDoubleSpace (String c s) = (isSpace c && headSpace s) || hasDoubleSpace s.
Proof. destruct s; reflexivity. Qed.

Lemma hasDoubleSpace_single c : hasDoubleSpace (String c EmptyString) = false.
Proof. cbn. now rewrite andb_false_r. Qed.

Lemma headSpace_append a b :
  headSpace (a +:+ b) = match a with EmptyString => headSpace b | _ => headSpace a end.
Proof. destruct a; reflexivity. Qed.

Lemma lastChar_cons c s :
  lastChar (String c s) = match s with EmptyString => Some c | _ => lastChar s end.
Proof. destruct s; reflexivity. Qed.

Lemma lastChar_append a b :
  b <> EmptyString -> lastChar (a +:+ b) = lastChar b.
Proof.
  intros Hb. induction a as [|c a IH]; [reflexivity|].
  change (String c a +:+ b) with (String c (a +:+ b)). rewrite lastChar_cons.
  destruct (a +:+ b) eqn:E; [|exact IH].
  destruct a; cbn in E; [contradiction | discriminate].
Qed.

Lemma lastIsSpace_cons c s :
  lastIsSpace (String c s) = match s with EmptyString => isSpace c | _ => lastIsSpace s end.
Proof. unfold lastIsSpace. rewrite lastChar_cons. now destruct s. Qed.

(** White-space pairs of a concatenation: those of the parts, and the
    one across the seam. *)
Lemma hasDoubleSpace_append a b :
  hasDoubleSpace (a +:+ b)
  = hasDoubleSpace a || hasDoubleSpace b || (lastIsSpace a && headSpace b).
Proof.
  induction a as [|c a IH]; [cbn; now rewrite orb_false_r|].
  change (String c a +:+ b) with (String c (a +:+ b)).
  rewrite !hasDoubleSpace_cons, IH, headSpace_append, lastIsSpace_cons.
  destruct a as [|d a'].
  - cbn [hasDoubleSpace headSpace lastIsSpace lastChar]. btauto.
  - generalize (hasDoubleSpace (String d a')) (lastIsSpace (String d a')).
    intros X Y. cbn [headSpace]. btauto.
Qed.

(** *** [collapseSpaces] *)

Lemma collapseSpaces_clean s : forall b,
  hasDoubleSpace (collapseSpaces b s) = false
  /\ (b = true -> headSpace (collapseSpaces b s) = false).
Proof.
  induction s as [|c s IH]; intros b; [split; reflexivity|].
  cbn [collapseSpaces]. destruct (isSpace c) eqn:Ec.
  - destruct b.
    + apply IH.
    + destruct (IH true) as [H1 H2]. split; [|discriminate].
      rewrite hasDoubleSpace_cons, H1, (H2 eq_refl). reflexivity.
  - destruct (IH false) as [H1 _]. split.
    + rewrite hasDoubleSpace_cons, H1, Ec. reflexivity.
    + intros _. cbn. exact Ec.
Qed.

Lemma collapseSpaces_head s :
  startsWithLetter s = true -> startsWithLetter (collapseSpaces false s) = true.
Proof.
  destruct s as [|c s]; [discriminate|]. cbn. intros H.
  rewrite (letter_not_space _ H). exact H.
Qed.

(** *** [dropSpaceBeforePunct] *)

Lemma dropSpaceBeforePunct_headSpace s :
  headSpace (dropSpaceBeforePunct s) = true -> headSpace s = true.
Proof.
  destruct s as [|c s]; [discriminate|]. cbn [dropSpaceBeforePunct].
  destruct (isSpace c) eqn:Ec; cbn [andb].
  - intros _. cbn. exact Ec.
  - cbn. now rewrite Ec.
Qed.

Lemma dropSpaceBeforePunct_clean s :
  hasDoubleSpace s = false -> hasDoubleSpace (dropSpaceBeforePunct s) = false.
Proof.
  induction s as [|c s IH]; [reflexivity|].
  rewrite hasDoubleSpace_cons. intros H. apply orb_false_iff in H as [Hc Hs].
  cbn [dropSpaceBeforePunct].
  destruct (isSpace c && startsWithAny closingPunct (trimStart s)); [now apply IH|].
  rewrite hasDoubleSpace_cons, (IH Hs), orb_false_r.
  destruct (isSpace c); [|reflexivity]. cbn in *.
  destruct (headSpace (dropSpaceBeforePunct s)) eqn:E; [|reflexivity].
  apply dropSpaceBeforePunct_headSpace in E. congruence.
Qed.

Lemma dropSpaceBeforePunct_head s :
  startsWithLetter s = true -> startsWithLetter (dropSpaceBeforePunct s) = true.
Proof.
  destruct s as [|c s]; [discriminate|]. cbn. intros H.
  rewrite (letter_not_space _ H). exact H.
Qed.

(** *** [dropSpaceAfterParen] *)

Lemma dropSpaceAfterParen_headSpace s b :
  headSpace (dropSpaceAfterParen b s) = true -> headSpace s = true.
Proof.
  destruct s as [|c s]; [destruct b; discriminate|]. cbn [dropSpaceAfterParen].
  destruct (isSpace c) eqn:Ec.
  - intros _. cbn. exact Ec.
  - rewrite andb_false_r. cbn. now rewrite Ec.
Qed.

Lemma dropSpaceAfterParen_clean s : forall b,
  hasDoubleSpace s = false -> hasDoubleSpace (dropSpaceAfterParen b s) = false.
Proof.
  induction s as [|c s IH]; intros b; [reflexivity|].
  rewrite hasDoubleSpace_cons. intros H. apply orb_false_iff in H as [Hc Hs].
  cbn [dropSpaceAfterParen].
  destruct (b && isSpace c); [now apply IH|].
  rewrite hasDoubleSpace_cons, (IH _ Hs), orb_false_r.
  destruct (isSpace c); [|reflexivity]. cbn in *.
  destruct (headSpace (dropSpaceAfterParen _ s)) eqn:E; [|reflexivity].
  apply dropSpaceAfterParen_headSpace in E. congruence.
Qed.

Lemma dropSpaceAfterParen_head s :
  startsWithLetter s = true -> startsWithLetter (dropSpaceAfterParen false s) = true.
Proof. destruct s as [|c s]; [discriminate|]. cbn. auto. Qed.

(** *** [spaceAfterPunct] *)

Lemma spaceAfterPunct_headSpace s : headSpace (spaceAfterPunct s) = headSpace s.
Proof.
  destruct s as [|c s]; [reflexivity|]. cbn [spaceAfterPunct].
  destruct (memChar c spacedPunct && _); reflexivity.
Qed.

Lemma spaceAfterPunct_clean s :
  hasDoubleSpace s = false -> hasDoubleSpace (spaceAfterPunct s) = false.
Proof.
  induction s as [|c s IH]; [reflexivity|].
  rewrite hasDoubleSpace_cons. intros H. apply orb_false_iff in H as [Hc Hs].
  specialize (IH Hs). cbn [spaceAfterPunct].
  destruct (memChar c spacedPunct
            && match s with EmptyString => false | String d _ => negb (isSpace d) end)
    eqn:Cond.
  - apply andb_true_iff in Cond as [Ep Hf].
    rewrite !hasDoubleSpace_cons, IH, spaceAfterPunct_headSpace,
      (spacedPunct_not_space _ Ep).
    destruct s as [|d s']; [discriminate|]. cbn.
    apply negb_true_iff in Hf. rewrite Hf. reflexivity.
  - rewrite hasDoubleSpace_cons, IH, spaceAfterPunct_headSpace, Hc. reflexivity.
Qed.

Lemma spaceAfterPunct_head s :
  startsWithLetter s = true -> startsWithLetter (spaceAfterPunct s) = true.
Proof.
  destruct s as [|c s]; [discriminate|]. cbn [spaceAfterPunct].
  destruct (memChar c spacedPunct && _); cbn; auto.
Qed.

(** *** [trimStart], [trimEnd] *)

Lemma trimStart_clean s :
  hasDoubleSpace s = false -> hasDoubleSpace (trimStart s) = false.
Proof.
  induction s as [|c s IH]; [reflexivity|].
  intros H. cbn [trimStart]. destruct (isSpace c); [|exact H].
  apply IH. rewrite hasDoubleSpace_cons in H. now apply orb_false_iff in H.
Qed.

Lemma trimStart_head s :
  startsWithLetter s = true -> startsWithLetter (trimStart s) = true.
Proof.
  destruct s as [|c s]; [discriminate|]. cbn. intros H.
  rewrite (letter_not_space _ H). exact H.
Qed.

Lemma trimEnd_cons c s :
  trimEnd (String c s)
  = match trimEnd s with
    | EmptyString => if isSpace c then EmptyString else String c EmptyString
    | r => String c r
    end.
Proof. reflexivity. Qed.

Lemma trimEnd_headSpace s : headSpace (trimEnd s) = true -> headSpace s = true.
Proof.
  destruct s as [|c s]; [discriminate|]. rewrite trimEnd_cons.
  destruct (trimEnd s); [destruct (isSpace c) eqn:E; cbn; congruence | cbn; auto].
Qed.

Lemma trimEnd_clean s :
  hasDoubleSpace s = false -> hasDoubleSpace (trimEnd s) = false.
Proof.
  induction s as [|c s IH]; [reflexivity|].
  rewrite hasDoubleSpace_cons. intros H. apply orb_false_iff in H as [Hc Hs].
  rewrite trimEnd_cons. specialize (IH Hs).
  destruct (trimEnd s) as [|d r] eqn:E.
  - destruct (isSpace c); [reflexivity | apply hasDoubleSpace_single].
  - rewrite hasDoubleSpace_cons, IH, orb_false_r.
    destruct (isSpace c); [|reflexivity]. cbn in Hc. cbn.
    destruct (isSpace d) eqn:Ed; [|reflexivity].
    assert (Hh : headSpace (trimEnd s) = true) by (rewrite E; exact Ed).
    apply trimEnd_headSpace in Hh. congruence.
Qed.

Lemma trimEnd_head s :
  startsWithLetter s = true -> startsWithLetter (trimEnd s) = true.
Proof.
  destruct s as [|c s]; [discriminate|]. rewrite trimEnd_cons. intros H. cbn in H.
  destruct (trimEnd s); [rewrite (letter_not_space _ H)|]; exact H.
Qed.

(** What [trimEnd] returns does not end in white space. *)
Lemma trimEnd_last s : lastIsSpace (trimEnd s) = false.
Proof.
  induction s as [|c s IH]; [reflexivity|]. rewrite trimEnd_cons.
  destruct (trimEnd s) as [|d r] eqn:E.
  - destruct (isSpace c) eqn:Ec; [reflexivity|]. unfold lastIsSpace. cbn. exact Ec.
  - rewrite lastIsSpace_cons. exact IH.
Qed.

(** A string that does not end in white space is left as it is. *)
Lemma trimEnd_id s : lastIsSpace s = false -> trimEnd s = s.
Proof.
  induction s as [|c s IH]; [reflexivity|].
  rewrite lastIsSpace_cons, trimEnd_cons. destruct s as [|d s'].
  - intros ->. reflexivity.
  - intros H. rewrite (IH H). reflexivity.
Qed.

End Strings.

Section Formatting.
Import Normalize Triples.

Lemma normalizeWhitespace_clean s : hasDoubleSpace (normalizeWhitespace s) = false.
Proof.
  unfold normalizeWhitespace, trim.
  apply trimEnd_clean, trimStart_clean, spaceAfterPunct_clean,
    dropSpaceAfterParen_clean, dropSpaceBeforePunct_clean.
  apply (collapseSpaces_clean s false).
Qed.

Lemma normalizeWhitespace_head s :
  startsWithLetter s = true -> startsWithLetter (normalizeWhitespace s) = true.
Proof.
  intros H. unfold normalizeWhitespace, trim.
  apply trimEnd_head, trimStart_head, spaceAfterPunct_head,
    dropSpaceAfterParen_head, dropSpaceBeforePunct_head, collapseSpaces_head, H.
Qed.

Lemma trimEnd_first c r :
  isSpace c = false -> exists r', trimEnd (String c r) = String c r'.
Proof.
  intros H. rewrite trimEnd_cons. destruct (trimEnd r); rewrite ?H; eauto.
Qed.

Lemma lastChar_None s : lastChar s = None -> s = EmptyString.
Proof.
  induction s as [|c s IH]; [reflexivity|]. rewrite lastChar_cons.
  destruct s; [discriminate|]. intros H. now apply IH in H.
Qed.

Lemma endsTerminal_lastIsSpace s : endsTerminal s = true -> lastIsSpace s = false.
Proof.
  unfold endsTerminal, lastIsSpace. destruct (lastChar s); [|reflexivity].
  apply endPunct_not_space.
Qed.

Lemma startsUpper_headSpace s : startsUpper s = true -> headSpace s = false.
Proof.
  destruct s as [|c s]; [reflexivity|]. cbn. intros H.
  apply letter_not_space, upper_is_letter, H.
Qed.

Lemma wellFormed_letter text : wellFormed text -> startsWithLetter text = true.
Proof.
  intros (H & _ & _). destruct text as [|c r]; [discriminate|].
  cbn in *. now apply upper_is_letter.
Qed.

(** [formatSentence] turns any text that starts with a letter into a
    text in good form. *)
Lemma formatSentence_wellFormed s p :
  startsWithLetter s = true -> p = "." \/ p = "?" ->
  wellFormed (formatSentence s p).
Proof.
  intros Hs Hp. unfold formatSentence.
  pose proof (normalizeWhitespace_clean s) as Hclean.
  pose proof (normalizeWhitespace_head s Hs) as Hhead.
  destruct (normalizeWhitespace s) as [|c r]; [discriminate|].
  cbn [startsWithLetter] in Hhead. cbn [capitalize].
  assert (Hup : isUpper (toUpperCaseChar c) = true) by now apply toUpper_letter.
  assert (Hcap : hasDoubleSpace (String (toUpperCaseChar c) r) = false).
  { rewrite hasDoubleSpace_cons in *. now rewrite toUpper_space. }
  unfold ensureEndPunctuation.
  destruct (trimEnd_first (toUpperCaseChar c) r) as [r' Hr'].
  { now apply letter_not_space, upper_is_letter. }
  pose proof (trimEnd_clean _ Hcap) as Htc.
  pose proof (trimEnd_last (String (toUpperCaseChar c) r)) as Htl.
  rewrite Hr' in *.
  destruct (lastChar (String (toUpperCaseChar c) r')) as [l|] eqn:El.
  - destruct (memChar l endPunct) eqn:Em.
    + repeat split; [exact Hup | unfold endsTerminal; now rewrite El | exact Htc].
    + repeat split.
      * exact Hup.
      * unfold endsTerminal. rewrite lastChar_append by (destruct Hp as [->| ->]; discriminate).
        destruct Hp as [->| ->]; reflexivity.
      * rewrite hasDoubleSpace_append, Htc, Htl. destruct Hp as [->| ->]; reflexivity.
  - now apply lastChar_None in El.
Qed.

(** A text in good form passes the three checks of the rule engine. *)
Lemma wellFormed_checks text :
  wellFormed text ->
  isCapitalized text = true /\ endsWithPunctuation text = true
  /\ hasNoDoubleSpaces text = true.
Proof.
  intros (Hup & Hend & Hnd). destruct text as [|c r]; [discriminate|].
  cbn [startsUpper] in Hup. split; [|split].
  - unfold isCapitalized. cbn [firstLetter]. rewrite (upper_is_letter _ Hup).
    now apply toUpper_upper.
  - unfold endsWithPunctuation.
    rewrite trimEnd_id by now apply endsTerminal_lastIsSpace.
    unfold endsTerminal in Hend. destruct (lastChar (String c r)); [|discriminate].
    now apply endPunct_checked.
  - unfold hasNoDoubleSpaces. now rewrite Hnd.
Qed.

Lemma startsUpper_nonempty s : startsUpper s = true -> s <> EmptyString.
Proof. destruct s; [discriminate | discriminate]. Qed.

Lemma wellFormed_joined a b :
  wellFormed a -> wellFormed b -> wellFormed (a +:+ " " +:+ b).
Proof.
  intros (Ha1 & Ha2 & Ha3) (Hb1 & Hb2 & Hb3). repeat split.
  - destruct a; [discriminate | exact Ha1].
  - unfold endsTerminal in *. rewrite lastChar_append by discriminate.
    rewrite (lastChar_append " " b) by now apply startsUpper_nonempty. exact Hb2.
  - rewrite hasDoubleSpace_append, Ha3, (endsTerminal_lastIsSpace _ Ha2).
    rewrite (hasDoubleSpace_append " " b), Hb3, (startsUpper_headSpace _ Hb1).
    reflexivity.
Qed.

Lemma join_wellFormed parts :
  parts <> [] -> Forall wellFormed parts -> wellFormed (join " " parts).
Proof.
  induction parts as [|p rest IH]; [contradiction|]. intros _ H.
  inversion H as [|? ? Hp Hrest]; subst.
  destruct rest as [|q rest']; [exact Hp|].
  change (join " " (p :: q :: rest')) with (p +:+ " " +:+ join " " (q :: rest')).
  apply wellFormed_joined; [exact Hp | apply IH; [discriminate | exact Hrest]].
Qed.

(** A paragraph of at least one sentence in good form is in good form. *)
Lemma formatParagraph_wellFormed texts :
  texts <> [] -> Forall wellFormed texts -> wellFormed (formatParagraph texts).
Proof.
  intros Hne H. unfold formatParagraph. apply join_wellFormed.
  - destruct texts; [contradiction | discriminate].
  - apply List.Forall_forall. intros x Hx. apply in_map_iff in Hx as (t & <- & Ht).
    apply formatSentence_wellFormed; [|now left].
    apply wellFormed_letter. eapply List.Forall_forall in H; eassumption.
Qed.

(** Joining tokens keeps the first token in front. *)
Lemma joinTokens_head toks :
  goodStart toks = true -> startsWithLetter (joinTokens toks) = true.
Proof.
  destruct toks as [|t rest]; [discriminate|]. cbn [goodStart joinTokens].
  revert t. induction rest as [|u rest IH]; intros t Ht; [exact Ht|].
  cbn [fold_left]. apply IH. unfold joinStep.
  destruct t as [|c t']; [discriminate|].
  destruct (startsWithAny _ _); [exact Ht|]. destruct (endsWithParen _); exact Ht.
Qed.

End Formatting.

(** ** Computations that succeed in the default world *)

Section Succeeding.
Import Lexicon Config Context Gen Triples.

Lemma Succeeds_ret {A} (P : World -> Prop) (a : A) (Q : A -> Prop) :
  Q a -> Succeeds P (ret a) Q.
Proof. intros H w Hw. exists a, w. auto. Qed.

Lemma Succeeds_bind {A B} (P : World -> Prop) (m : M A) (k : A -> M B) Q R :
  Succeeds P m Q -> (forall a, Q a -> Succeeds P (k a) R) -> Succeeds P (bind m k) R.
Proof.
  intros Hm Hk w Hw. destruct (Hm w Hw) as (a & w1 & E & Hw1 & Ha).
  destruct (Hk a Ha w1 Hw1) as (b & w2 & E2 & Hw2 & Hb).
  exists b, w2. unfold bind. rewrite E. auto.
Qed.

Lemma Succeeds_weaken {A} (P : World -> Prop) (m : M A) (Q Q' : A -> Prop) :
  Succeeds P m Q -> (forall a, Q a -> Q' a) -> Succeeds P m Q'.
Proof.
  intros Hm HQ w Hw. destruct (Hm w Hw) as (a & w1 & E & Hw1 & Ha).
  exists a, w1. auto.
Qed.

Lemma Succeeds_any {A} (P : World -> Prop) (m : M A) Q :
  Succeeds P m Q -> Succeeds P m (fun _ => True).
Proof. intros H. eapply Succeeds_weaken; [exact H | auto]. Qed.

Lemma Succeeds_bind_any {A B} (P : World -> Prop) (m : M A) (k : A -> M B) R :
  Succeeds P m (fun _ => True) -> (forall a, Succeeds P (k a) R) ->
  Succeeds P (bind m k) R.
Proof. intros Hm Hk. eapply Succeeds_bind; [exact Hm | intros a _; apply Hk]. Qed.

Lemma Succeeds_tryCatch {A} (P : World -> Prop) (m : M A) h Q :
  Succeeds P m Q -> Succeeds P (tryCatch m h) Q.
Proof.
  intros Hm w Hw. destruct (Hm w Hw) as (a & w1 & E & Hw1 & Ha).
  exists a, w1. unfold tryCatch. rewrite E. auto.
Qed.

Lemma Succeeds_getConfig : Succeeds DefaultWorld getConfig defaultConfigured.
Proof. intros w Hw. exists (config (session w)), w. split; [reflexivity|]. split; [exact Hw | apply Hw]. Qed.

Lemma Succeeds_getCtx : Succeeds DefaultWorld getCtx (fun _ => True).
Proof. intros w Hw. exists (ctx w), w. auto. Qed.

Lemma Succeeds_modifyCtx f : Succeeds DefaultWorld (modifyCtx f) (fun _ => True).
Proof. intros w Hw. eexists tt, _. split; [reflexivity|]. split; [exact Hw | exact I]. Qed.

Lemma Succeeds_liftRng {A} (op : Rng.SeedableRng -> A * Rng.SeedableRng) (Q : A -> Prop) :
  (forall r, Q (fst (op r))) -> Succeeds DefaultWorld (liftRng op) Q.
Proof.
  intros H w Hw. unfold liftRng. specialize (H (rng (session w))).
  destruct (op (rng (session w))) as [a r]. eexists a, _.
  split; [reflexivity|]. split; [exact Hw | exact H].
Qed.

Lemma Succeeds_liftRngResult {A} (op : Rng.SeedableRng -> Result A * Rng.SeedableRng)
    (Q : A -> Prop) :
  (forall r, exists a, fst (op r) = Ok a /\ Q a) ->
  Succeeds DefaultWorld (liftRngResult op) Q.
Proof.
  intros H w Hw. unfold liftRngResult. destruct (H (rng (session w))) as (a & E & Ha).
  destruct (op (rng (session w))) as [x r]. cbn [fst] in E. subst x. eexists a, _.
  split; [reflexivity|]. split; [exact Hw | exact Ha].
Qed.

Lemma Succeeds_float : Succeeds DefaultWorld float (fun _ => True).
Proof. apply Succeeds_liftRng. auto. Qed.

Lemma Succeeds_chance p : Succeeds DefaultWorld (chance p) (fun _ => True).
Proof. apply Succeeds_liftRng. auto. Qed.

Lemma Succeeds_int lo hi : Succeeds DefaultWorld (int lo hi) (fun _ => True).
Proof. apply Succeeds_liftRng. auto. Qed.

(** [int] never goes below the smaller of its bounds. *)
Lemma int_lower lo hi r : (Z.min lo hi <= fst (Rng.int lo hi r))%Z.
Proof.
  unfold Rng.int. pose proof (float_range r) as [Hf _].
  assert (H : forall a b, (a <= b)%Z ->
            (0 <= Qfloor (fst (Rng.float r) * inject_Z (b - a + 1)))%Z).
  { intros a b Hab. change 0%Z with (Qfloor 0). apply Qfloor_resp_le.
    apply Qmult_le_0_compat; [exact Hf|]. unfold Qle. cbn. lia. }
  destruct (lo >? hi)%Z eqn:E; rewrite Z.gtb_ltb in E;
    [apply Z.ltb_lt in E | apply Z.ltb_ge in E].
  - specialize (H hi lo). destruct (Rng.float r) as [f r']. cbn [fst] in *. lia.
  - specialize (H lo hi). destruct (Rng.float r) as [f r']. cbn [fst] in *. lia.
Qed.

Lemma Succeeds_int_lower lo hi :
  Succeeds DefaultWorld (int lo hi) (fun n => (Z.min lo hi <= n)%Z).
Proof. apply Succeeds_liftRng. apply int_lower. Qed.

(** [pick] returns an element of a non-empty list. *)
Lemma pick_In {T} (l : list T) r :
  l <> [] -> exists x, fst (Rng.pick l r) = Ok x /\ In x l.
Proof.
  destruct l as [|d l']; [contradiction|]. intros _. unfold Rng.pick.
  destruct (Rng.int _ _ r) as [i r']. cbn [fst]. eexists. split; [reflexivity|].
  destruct (Nat.lt_ge_cases (Z.to_nat i) (length (d :: l'))) as [H|H].
  - now apply nth_In.
  - rewrite nth_overflow by exact H. now left.
Qed.

Lemma Succeeds_pick {T} (l : list T) :
  l <> [] -> Succeeds DefaultWorld (pick l) (fun x => In x l).
Proof. intros H. apply Succeeds_liftRngResult. intros r. now apply pick_In. Qed.

Lemma Succeeds_pick_any {T} (l : list T) :
  l <> [] -> Succeeds DefaultWorld (pick l) (fun _ => True).
Proof. intros H. eapply Succeeds_any, Succeeds_pick, H. Qed.

(** Without a lexicon the store has no term to offer. *)
Lemma Succeeds_sampleTerm q :
  Succeeds DefaultWorld (LexiconStore.sampleTerm q) (fun x => x = None).
Proof.
  intros w Hw. exists None, w. split; [|auto].
  unfold LexiconStore.sampleTerm, bind, getLexicon, getCtx.
  rewrite (proj2 Hw). reflexivity.
Qed.

Lemma defaultCandidates_nonempty pos : WordProvider.defaultCandidates pos <> [].
Proof. destruct pos; discriminate. Qed.

(** Without a lexicon a word is drawn from the curated table of its
    part of speech. *)
Lemma Succeeds_getWord_In pos :
  Succeeds DefaultWorld (WordProvider.getWord pos WordProvider.noOptions)
    (fun item => In (li_value item) (WordProvider.defaultCandidates pos)).
Proof.
  unfold WordProvider.getWord.
  cbn [WordProvider.o_fallbackToFaker WordProvider.noOptions WordProvider.o_exclude default].
  eapply Succeeds_bind; [apply Succeeds_sampleTerm|]. intros ? ->.
  rewrite getFallbackWord_no_exclude.
  eapply Succeeds_bind; [apply Succeeds_pick, defaultCandidates_nonempty|].
  intros value Hv. apply Succeeds_bind_any; [apply Succeeds_modifyCtx|].
  intros _. apply Succeeds_ret. exact Hv.
Qed.

Lemma letters_In (l : list string) x :
  forallb startsWithLetter l = true -> In x l -> startsWithLetter x = true.
Proof. intros H Hx. rewrite forallb_forall in H. now apply H. Qed.

(** Every curated word starts with a letter. *)
Lemma defaultCandidates_letters pos x :
  In x (WordProvider.defaultCandidates pos) -> startsWithLetter x = true.
Proof.
  apply letters_In. destruct pos; vm_compute; reflexivity.
Qed.

Lemma Succeeds_getWord pos :
  Succeeds DefaultWorld (WordProvider.getWord pos WordProvider.noOptions)
    (fun item => startsWithLetter (li_value item) = true).
Proof.
  eapply Succeeds_weaken; [apply Succeeds_getWord_In|].
  intros item. apply defaultCandidates_letters.
Qed.

Lemma Succeeds_getWord_any pos :
  Succeeds DefaultWorld (WordProvider.getWord pos WordProvider.noOptions) (fun _ => True).
Proof. eapply Succeeds_any, Succeeds_getWord. Qed.

Lemma Succeeds_repeatM {A} n (step : M A) :
  Succeeds DefaultWorld step (fun _ => True) ->
  Succeeds DefaultWorld (PhraseBuilders.repeatM n step) (fun _ => True).
Proof.
  intros H. induction n as [|n IH]; cbn [PhraseBuilders.repeatM].
  - now apply Succeeds_ret.
  - apply Succeeds_bind_any; [exact H|]. intros x.
    apply Succeeds_bind_any; [exact IH|]. intros rest. now apply Succeeds_ret.
Qed.

Lemma goodStart_app toks rest : goodStart toks = true -> goodStart (toks ++ rest) = true.
Proof. destruct toks; [discriminate | auto]. Qed.

End Succeeding.

Create HintDb total.
#[export] Hint Resolve Succeeds_getCtx Succeeds_modifyCtx Succeeds_float Succeeds_chance
  Succeeds_int Succeeds_getWord_any Succeeds_repeatM : total.

(** Splits a goal [Succeeds _ m (fun _ => True)] along the structure of [m]. *)
Ltac total_step :=
  match goal with
  | |- Triples.Succeeds _ (Gen.bind _ _) _ => apply Succeeds_bind_any; [|intros]
  | |- Triples.Succeeds _ (Gen.ret _) _ => apply Succeeds_ret; exact I
  | |- Triples.Succeeds _ (Gen.pick _) _ => apply Succeeds_pick_any; discriminate
  | |- Triples.Succeeds _ (if ?b then _ else _) _ => destruct b
  | |- Triples.Succeeds _ (match ?x with _ => _ end) _ => destruct x
  | |- Triples.Succeeds _ _ _ => solve [eauto with total]
  end.

Ltac total := cbv zeta; repeat total_step.

(** ** The builders in the default world *)

Section ShapedPhrases.
Import Lexicon Config Context Gen Triples PhraseBuilders SentenceTemplates.
Variable morph : Morphology.

Lemma Succeeds_ret_eq {A} (a : A) : Succeeds DefaultWorld (ret a) (fun x => x = a).
Proof. now apply Succeeds_ret. Qed.

Lemma article_letter word : startsWithLetter (getIndefiniteArticle morph word) = true.
Proof. unfold getIndefiniteArticle. destruct (useAn morph word); reflexivity. Qed.

(** A noun phrase built without prepositional phrases starts with a
    letter and carries its features. *)
Lemma Succeeds_buildNPWith pp b :
  Succeeds DefaultWorld (buildNPWith morph pp (npWithPronoun b))
    (fun r => goodStart (tokens r) = true /\ exists f, features r = Some f).
Proof.
  unfold buildNPWith.
  cbn [usePronoun includePP maxPP forcePlural forceSingular useDeterminer
       npWithPronoun negb].
  cbv zeta.
  eapply Succeeds_bind; [apply Succeeds_getConfig|]. intros cfg Hcfg.
  apply Succeeds_bind_any; [total|]. intros [|].
  - eapply Succeeds_bind; [apply Succeeds_pick; discriminate|]. intros p Hp.
    apply Succeeds_ret. split; [|eauto]. cbn [tokens goodStart].
    revert Hp. apply letters_In. reflexivity.
  - eapply Succeeds_bind; [apply Succeeds_getWord|]. intros nounItem Hn.
    apply Succeeds_bind_any; [total|]. intros isPlural.
    eapply Succeeds_bind with
      (Q := fun dtoks => goodStart dtoks = true \/ (dtoks = [] /\ isPlural = false)).
    { destruct isPlural.
      - eapply Succeeds_bind; [apply Succeeds_pick; discriminate|]. intros d Hd.
        apply Succeeds_ret. left. cbn [goodStart]. revert Hd.
        apply letters_In. reflexivity.
      - apply Succeeds_bind_any; [total|]. intros [|].
        + apply Succeeds_ret. now left.
        + apply Succeeds_bind_any; [total|]. intros c.
          destruct (c && _).
          * apply Succeeds_ret. now right.
          * apply Succeeds_ret. left. apply article_letter. }
    intros dtoks Hd.
    apply Succeeds_bind_any; [total|]. intros withAdjectives.
    apply Succeeds_bind_any; [total|]. intros numAdjectives.
    apply Succeeds_bind_any; [total|]. intros adjItems.
    eapply Succeeds_bind; [apply Succeeds_ret_eq|]. intros ? ->.
    eapply Succeeds_bind; [apply Succeeds_ret_eq|]. intros ? ->.
    apply Succeeds_ret. split; [|eauto]. cbn [tokens].
    destruct Hd as [Hd|[-> ->]].
    + destruct (map li_value adjItems) as [|a0 adjs].
      * now apply goodStart_app.
      * destruct (_ && _); [rewrite <- app_assoc|]; now apply goodStart_app.
    + destruct (map li_value adjItems) as [|a0 adjs]; [exact Hn|].
      cbn. apply article_letter.
Qed.

(** A prepositional phrase starts with its preposition. *)
Lemma Succeeds_buildPP :
  Succeeds DefaultWorld (buildPP morph) (fun r => goodStart (tokens r) = true).
Proof.
  unfold buildPP.
  eapply Succeeds_bind; [apply Succeeds_getWord|]. intros prepItem Hp.
  apply Succeeds_bind_any; [eapply Succeeds_any, Succeeds_buildNPWith|]. intros np.
  apply Succeeds_ret. exact Hp.
Qed.

Lemma Succeeds_buildNP b :
  Succeeds DefaultWorld (buildNP morph (npWithPronoun b))
    (fun r => goodStart (tokens r) = true /\ exists f, features r = Some f).
Proof. apply Succeeds_buildNPWith. Qed.

Lemma Succeeds_buildNP_any b :
  Succeeds DefaultWorld (buildNP morph (npWithPronoun b)) (fun _ => True).
Proof. eapply Succeeds_any, Succeeds_buildNP. Qed.

Lemma Succeeds_buildPP_any : Succeeds DefaultWorld (buildPP morph) (fun _ => True).
Proof. eapply Succeeds_any, Succeeds_buildPP. Qed.

Hint Resolve Succeeds_buildNP_any Succeeds_buildPP_any : total.

(** A verb phrase is always built. *)
Lemma Succeeds_buildVP f options :
  Succeeds DefaultWorld (buildVP morph f options) (fun _ => True).
Proof. unfold buildVP, WordProvider.getModal. total. Qed.

Lemma Succeeds_demand f :
  Succeeds DefaultWorld (demand (Some f)) (fun x => x = f).
Proof. apply Succeeds_ret_eq. Qed.

(** A clause starts with its subject. *)
Lemma Succeeds_buildClause t b :
  Succeeds DefaultWorld (buildClause morph t b) (fun r => goodStart (tokens r) = true).
Proof.
  unfold buildClause.
  eapply Succeeds_bind; [apply Succeeds_buildNP|]. intros subject [Hs [f Hf]].
  rewrite Hf.
  eapply Succeeds_bind; [apply Succeeds_demand|]. intros ? ->.
  apply Succeeds_bind_any; [total|]. intros includePP.
  apply Succeeds_bind_any; [apply Succeeds_buildVP|]. intros predicate.
  apply Succeeds_ret. cbn [tokens]. now apply goodStart_app.
Qed.

Lemma Succeeds_pickTense : Succeeds DefaultWorld pickTense (fun _ => True).
Proof. apply Succeeds_pick_any. discriminate. Qed.

(** A subordinate clause starts with its subordinator. *)
Lemma Succeeds_buildSubordinateClause :
  Succeeds DefaultWorld (buildSubordinateClause morph)
    (fun r => goodStart (tokens r) = true).
Proof.
  unfold buildSubordinateClause.
  eapply Succeeds_bind; [apply Succeeds_pick; discriminate|]. intros subordinator Hs.
  apply Succeeds_bind_any; [apply Succeeds_pickTense|]. intros t.
  apply Succeeds_bind_any; [total|]. intros p.
  apply Succeeds_bind_any; [eapply Succeeds_any, Succeeds_buildClause|]. intros cl.
  apply Succeeds_ret. cbn [tokens goodStart]. revert Hs. apply letters_In. reflexivity.
Qed.

End ShapedPhrases.

Section ShapedSentences.
Import Lexicon Config Context Gen Triples PhraseBuilders SentenceTemplates.
Variable morph : Morphology.

(** The fields the generator reads are those of the default configuration. *)
Lemma defaultConfigured_fields cfg :
  defaultConfigured cfg ->
  coordinators cfg = coordinators DEFAULT_CONFIG
  /\ transitions cfg = transitions DEFAULT_CONFIG
  /\ interjections cfg = interjections DEFAULT_CONFIG
  /\ minSentencesPerParagraph cfg = 2%Z
  /\ maxSentencesPerParagraph cfg = 7%Z
  /\ maxSentenceAttempts cfg = 25%Z
  /\ strictMode cfg = false
  /\ outputTransforms cfg = None.
Proof.
  unfold defaultConfigured. intros H.
  repeat split;
    [ apply (f_equal coordinators) in H | apply (f_equal transitions) in H
    | apply (f_equal interjections) in H
    | apply (f_equal minSentencesPerParagraph) in H
    | apply (f_equal maxSentencesPerParagraph) in H
    | apply (f_equal maxSentenceAttempts) in H
    | apply (f_equal strictMode) in H
    | apply (f_equal outputTransforms) in H ]; exact H.
Qed.

Lemma defaultConfigured_degraded k cfg :
  defaultConfigured cfg -> defaultConfigured (set_maxPPChain k cfg).
Proof. unfold defaultConfigured. intros <-. destruct cfg; reflexivity. Qed.

(** A token sequence that starts with a letter is rendered in good form. *)
Lemma finish_wellFormed toks p t :
  goodStart toks = true -> p = "." \/ p = "?" ->
  wellFormed (sr_text (finish toks p t)).
Proof.
  intros H Hp. cbn [sr_text finish].
  apply formatSentence_wellFormed; [now apply joinTokens_head | exact Hp].
Qed.

Lemma Succeeds_selectSentenceType :
  Succeeds DefaultWorld selectSentenceType (fun _ => True).
Proof.
  unfold selectSentenceType.
  apply Succeeds_bind_any; [eapply Succeeds_any, Succeeds_getConfig|]. intros cfg.
  total.
Qed.

Lemma Succeeds_buildSimpleDeclarative :
  Succeeds DefaultWorld (buildSimpleDeclarative morph)
    (fun r => wellFormed (sr_text r)).
Proof.
  unfold buildSimpleDeclarative.
  apply Succeeds_bind_any; [apply Succeeds_pickTense|]. intros t.
  apply Succeeds_bind_any; [total|]. intros p.
  eapply Succeeds_bind; [apply Succeeds_buildClause|]. intros cl Hcl.
  apply Succeeds_ret. apply finish_wellFormed; [exact Hcl | now left].
Qed.

Lemma Succeeds_buildCompound :
  Succeeds DefaultWorld (buildCompound morph) (fun r => wellFormed (sr_text r)).
Proof.
  unfold buildCompound.
  apply Succeeds_bind_any; [apply Succeeds_pickTense|]. intros t.
  eapply Succeeds_bind; [apply Succeeds_buildClause|]. intros clause1 H1.
  eapply Succeeds_bind; [apply Succeeds_getConfig|]. intros cfg Hcfg.
  apply defaultConfigured_fields in Hcfg as (-> & _).
  apply Succeeds_bind_any; [apply Succeeds_pick_any; discriminate|]. intros conjunction.
  apply Succeeds_bind_any; [eapply Succeeds_any, Succeeds_buildClause|]. intros clause2.
  apply Succeeds_ret. apply finish_wellFormed; [now apply goodStart_app | now left].
Qed.

Lemma Succeeds_buildIntroAdverbial :
  Succeeds DefaultWorld (buildIntroAdverbial morph) (fun r => wellFormed (sr_text r)).
Proof.
  unfold buildIntroAdverbial. cbv zeta.
  apply Succeeds_bind_any; [total|]. intros useTransition.
  eapply Succeeds_bind with (Q := fun toks => goodStart toks = true).
  { destruct useTransition.
    - eapply Succeeds_bind; [apply Succeeds_getConfig|]. intros cfg Hcfg.
      apply defaultConfigured_fields in Hcfg as (_ & -> & _).
      eapply Succeeds_bind; [apply Succeeds_pick; discriminate|]. intros transition Ht.
      apply Succeeds_ret. cbn [goodStart]. revert Ht. apply letters_In. reflexivity.
    - eapply Succeeds_bind; [apply Succeeds_buildPP|]. intros pp Hpp.
      apply Succeeds_ret. exact Hpp. }
  intros toks Htoks.
  apply Succeeds_bind_any; [apply Succeeds_pickTense|]. intros t.
  apply Succeeds_bind_any; [eapply Succeeds_any, Succeeds_buildClause|]. intros cl.
  apply Succeeds_ret. apply finish_wellFormed; [|now left].
  now apply goodStart_app, goodStart_app.
Qed.

Lemma Succeeds_buildSubordinate :
  Succeeds DefaultWorld (buildSubordinate morph) (fun r => wellFormed (sr_text r)).
Proof.
  unfold buildSubordinate. cbv zeta.
  eapply Succeeds_bind; [apply Succeeds_buildSubordinateClause|]. intros subClause Hs.
  apply Succeeds_bind_any; [apply Succeeds_pickTense|]. intros t.
  eapply Succeeds_bind; [apply Succeeds_buildClause|]. intros mainClause Hm.
  apply Succeeds_bind_any; [total|]. intros subordinateFirst.
  apply Succeeds_ret. apply finish_wellFormed; [|now left].
  destruct subordinateFirst; now apply goodStart_app.
Qed.

Lemma Succeeds_buildInterjection :
  Succeeds DefaultWorld (buildInterjection morph) (fun r => wellFormed (sr_text r)).
Proof.
  unfold buildInterjection.
  eapply Succeeds_bind; [apply Succeeds_getConfig|]. intros cfg Hcfg.
  apply defaultConfigured_fields in Hcfg as (_ & _ & -> & _).
  eapply Succeeds_bind; [apply Succeeds_pick; discriminate|]. intros interj Hi.
  apply Succeeds_bind_any; [eapply Succeeds_any, Succeeds_buildClause|]. intros cl.
  apply Succeeds_ret. apply finish_wellFormed; [|now left].
  cbn [app goodStart]. revert Hi. apply letters_In. reflexivity.
Qed.

Lemma doOrDoes_letter f : startsWithLetter (doOrDoes f) = true.
Proof. unfold doOrDoes. destruct (isThirdSingular f); reflexivity. Qed.

Lemma Succeeds_buildQuestion :
  Succeeds DefaultWorld (buildQuestion morph) (fun r => wellFormed (sr_text r)).
Proof.
  unfold buildQuestion. cbv zeta.
  apply Succeeds_bind_any; [total|]. intros yesNo.
  eapply Succeeds_bind with (Q := fun toks => goodStart toks = true).
  { destruct yesNo.
    - apply Succeeds_bind_any; [total|]. intros usePronoun.
      eapply Succeeds_bind; [apply Succeeds_buildNP|]. intros subject [_ [f Hf]].
      apply Succeeds_bind_any; [total|]. intros isPast.
      rewrite Hf. eapply Succeeds_bind; [apply Succeeds_demand|]. intros ? ->.
      apply Succeeds_bind_any; [apply Succeeds_buildVP|]. intros vp.
      apply Succeeds_ret. cbn [app goodStart].
      destruct isPast; [reflexivity | apply doOrDoes_letter].
    - eapply Succeeds_bind; [apply Succeeds_pick; discriminate|]. intros whWord Hw.
      assert (Hl : startsWithLetter whWord = true).
      { revert Hw. apply letters_In. reflexivity. }
      destruct (_ || _).
      + apply Succeeds_bind_any; [total|]. intros [|].
        * apply Succeeds_bind_any; [apply Succeeds_buildVP|]. intros vp.
          apply Succeeds_ret. exact Hl.
        * eapply Succeeds_bind; [apply Succeeds_buildNP|]. intros subject [_ [f Hf]].
          rewrite Hf. eapply Succeeds_bind; [apply Succeeds_demand|]. intros ? ->.
          apply Succeeds_bind_any; [apply Succeeds_buildVP|]. intros vp.
          apply Succeeds_ret. exact Hl.
      + eapply Succeeds_bind; [apply Succeeds_buildNP|]. intros subject [_ [f Hf]].
        rewrite Hf. eapply Succeeds_bind; [apply Succeeds_demand|]. intros ? ->.
        apply Succeeds_bind_any; [apply Succeeds_buildVP|]. intros vp.
        apply Succeeds_ret. exact Hl. }
  intros toks Htoks. apply Succeeds_ret. apply finish_wellFormed; [exact Htoks | now right].
Qed.

(** Every sentence template renders a text in good form. *)
Lemma Succeeds_buildSentence type :
  Succeeds DefaultWorld (buildSentence morph type) (fun r => wellFormed (sr_text r)).
Proof.
  unfold buildSentence. apply Succeeds_bind_any.
  - destruct type; [now apply Succeeds_ret | apply Succeeds_selectSentenceType].
  - intros []; [apply Succeeds_buildSimpleDeclarative | apply Succeeds_buildCompound
      | apply Succeeds_buildIntroAdverbial | apply Succeeds_buildSubordinate
      | apply Succeeds_buildInterjection | apply Succeeds_buildQuestion].
Qed.

End ShapedSentences.

(** ** Generated texts in the default world *)

Section ShapedTexts.
Import Lexicon Config Context Gen Triples PhraseBuilders SentenceTemplates TextGenerator.
Variable morph : Morphology.
Variable pipeline : Pipeline.

Lemma DefaultWorld_degradeWorld st w : DefaultWorld w -> DefaultWorld (degradeWorld st w).
Proof.
  intros Hw. unfold degradeWorld. destruct (_ >? 5)%Z; [|exact Hw].
  split; [apply defaultConfigured_degraded, Hw | apply Hw].
Qed.

(** One pass through the loop body returns a candidate in good form or
    keeps one. *)
Lemma attempt_shaped st w :
  DefaultWorld w ->
  exists step w',
    attempt morph st w = (Ok step, w') /\ DefaultWorld w' /\ stepShaped st step.
Proof.
  intros Hw. pose proof (attempt_cases morph st w) as H.
  assert (Hw0 : DefaultWorld (attemptWorld st w)) by exact Hw.
  destruct (Succeeds_buildSentence morph (type st) _ Hw0) as (r & w1 & E & Hw1 & Hr).
  rewrite E in H. destruct (validates r w1).
  - do 2 eexists. split; [exact H|]. split; [exact Hw1|]. split; [exact Hr | reflexivity].
  - do 2 eexists. split; [exact H|]. split; [now apply DefaultWorld_degradeWorld|].
    split; [|reflexivity]. intros r' [= <-]. exact Hr.
Qed.

(** With fuel for the remaining budget the loop is left with a candidate
    in good form, or exhausted with such a candidate kept, if any. *)
Lemma retryLoop_shaped fuel : forall st w,
  DefaultWorld w -> lastShaped st ->
  (25 - attempts st <= Z.of_nat fuel)%Z ->
  exists exit w',
    retryLoop morph fuel st w = (Ok exit, w') /\ DefaultWorld w' /\ exitShaped exit.
Proof.
  induction fuel as [|fuel IH]; intros st w Hw Hst Hfuel; rewrite retryLoop_unfold;
    destruct (defaultConfigured_fields _ (proj1 Hw)) as (_ & _ & _ & _ & _ & -> & _);
    destruct (attempts st <? 25)%Z eqn:E; cbn [negb];
    try (do 2 eexists; split; [reflexivity|]; split; [exact Hw | exact Hst]).
  - apply Z.ltb_lt in E. lia.
  - destruct (attempt_shaped st w Hw) as (step & w1 & -> & Hw1 & Hstep).
    destruct step as [result st'|st']; destruct Hstep as [H1 H2].
    + do 2 eexists. split; [reflexivity|]. split; [exact Hw1 | exact H1].
    + apply IH; [exact Hw1 | exact H1 | lia].
Qed.

(** The retry loop yields a sentence in good form. *)
Lemma Succeeds_generateSentenceWithRetry type :
  Succeeds DefaultWorld (generateSentenceWithRetry morph type)
    (fun r => wellFormed (sr_text r)).
Proof.
  intros w Hw. rewrite generateSentenceWithRetry_unfold.
  destruct (defaultConfigured_fields _ (proj1 Hw)) as (_ & _ & _ & _ & _ & -> & _).
  destruct (retryLoop_shaped (Z.to_nat 25) (initialLoopState type) w Hw)
    as (exit & w1 & -> & Hw1 & Hexit).
  { intros r. discriminate. }
  { cbn. lia. }
  destruct exit as [result st|st|st]; [eauto | | contradiction].
  rewrite afterLoop_unfold. destruct (lastResult st) as [r|] eqn:L.
  - exists r, w1. auto.
  - destruct (defaultConfigured_fields _ (proj1 Hw1)) as (_ & _ & _ & _ & _ & _ & -> & _).
    now apply Succeeds_buildSimpleDeclarative.
Qed.

Lemma Succeeds_sentencesFrom n : forall i,
  Succeeds DefaultWorld (sentencesFrom morph i n)
    (fun rs => length rs = n /\ Forall wellFormed (map sr_text rs)).
Proof.
  induction n as [|n IH]; intros i; cbn [sentencesFrom].
  - apply Succeeds_ret. split; [reflexivity | constructor].
  - apply Succeeds_bind_any; [apply Succeeds_modifyCtx|]. intros _.
    apply Succeeds_bind_any; [apply Succeeds_modifyCtx|]. intros _.
    eapply Succeeds_bind; [apply Succeeds_generateSentenceWithRetry|]. intros r Hr.
    eapply Succeeds_bind; [apply IH|]. intros rest [Hlen Hrest].
    apply Succeeds_ret. split; [cbn; now rewrite Hlen | now constructor].
Qed.

(** A computation that succeeds in the default world succeeds on a fresh
    context of a default generator, and leaves a default generator. *)
Lemma withContext_Succeeds {A} hints (m : M A) (Q : A -> Prop) s :
  Succeeds DefaultWorld m Q -> DefaultSession s ->
  exists a s', withContext hints m s = (Ok a, s') /\ DefaultSession s' /\ Q a.
Proof.
  intros Hm Hs. unfold withContext.
  destruct (Hm (mkWorld s (createGenerationContext s hints)) Hs) as (a & w' & -> & Hw' & Ha).
  exists a, (session w'). auto.
Qed.

(** With no transform configured the rendered text is the final text. *)
Lemma transformed_plain text s ov :
  Untransformed pipeline -> DefaultSession s -> plainOverride ov = true ->
  transformed pipeline (Ok text) s ov = (Ok text, s).
Proof.
  intros U [Hc Hl] Hov. unfold transformed, applyOutputTransforms.
  destruct (defaultConfigured_fields _ Hc) as (_ & _ & _ & _ & _ & _ & _ & ->).
  rewrite Hl. cbn. now rewrite U.
Qed.

Lemma sentence_shaped opts s :
  Untransformed pipeline -> DefaultSession s ->
  plainOverride (so_override <$> opts) = true ->
  exists text s',
    sentence morph pipeline opts s = (Ok text, s') /\ DefaultSession s'
    /\ wellFormed text.
Proof.
  intros U Hs Hov. unfold sentence.
  edestruct (withContext_Succeeds (opts ≫= so_hints)
               (let* result := generateSentenceWithRetry morph (opts ≫= so_type) in
                ret (sr_text result))
               wellFormed s) as (text & s' & -> & Hs' & Ht); [|exact Hs|].
  - eapply Succeeds_bind; [apply Succeeds_generateSentenceWithRetry|].
    intros r Hr. now apply Succeeds_ret.
  - exists text, s'. rewrite transformed_plain by assumption. auto.
Qed.

Lemma positiveCounts_spec opts :
  positiveCounts opts = true ->
  forall n,
    opts ≫= po_sentences = Some n \/ opts ≫= po_minSentences = Some n
    \/ opts ≫= po_maxSentences = Some n -> (1 <= n)%Z.
Proof.
  unfold positiveCounts. cbn [forallb]. rewrite !andb_true_iff.
  intros (H1 & H2 & H3 & _) n [E|[E|E]]; rewrite E in *; now apply Z.leb_le.
Qed.

Lemma paragraph_shaped opts s :
  Untransformed pipeline -> DefaultSession s ->
  plainOverride (po_override <$> opts) = true -> positiveCounts opts = true ->
  exists text s',
    paragraph morph pipeline opts s = (Ok text, s') /\ DefaultSession s'
    /\ wellFormed text.
Proof.
  intros U Hs Hov Hpos. pose proof (positiveCounts_spec opts Hpos) as Hn.
  unfold paragraph. cbv zeta.
  destruct (defaultConfigured_fields _ (proj1 Hs)) as (_ & _ & _ & -> & -> & _).
  match goal with
  | |- context [withContext ?h ?m s] =>
      destruct (withContext_Succeeds h m wellFormed s) as (text & s' & -> & Hs' & Ht);
        [|exact Hs|]
  end.
  - eapply Succeeds_bind with (Q := fun n => (1 <= n)%Z).
    { destruct (opts ≫= po_sentences) as [n|] eqn:En.
      - apply Succeeds_ret. apply Hn. now left.
      - eapply Succeeds_weaken; [apply Succeeds_int_lower|]. intros k Hk.
        cbn [default] in Hk.
        assert (1 <= default 2 (opts ≫= po_minSentences))%Z.
        { destruct (opts ≫= po_minSentences) as [a|] eqn:Ea; cbn; [|lia].
          apply Hn. right. now left. }
        assert (1 <= default 7 (opts ≫= po_maxSentences))%Z.
        { destruct (opts ≫= po_maxSentences) as [a|] eqn:Ea; cbn; [|lia].
          apply Hn. right. now right. }
        lia. }
    intros n Hpos1.
    eapply Succeeds_bind; [apply Succeeds_sentencesFrom|]. intros rs [Hlen Hrs].
    apply Succeeds_ret. apply formatParagraph_wellFormed; [|exact Hrs].
    destruct rs; [cbn in Hlen; lia | discriminate].
  - exists text, s'. rewrite transformed_plain by assumption. auto.
Qed.

End ShapedTexts.

(** C6.  On a generator with the default configuration and no lexicon,
    whatever the state of its random number generator, and with no output
    transform configured, every call of [sentence] and every call of
    [paragraph] that asks for at least one sentence returns a text that
    starts with an upper-case letter, ends in terminal punctuation and
    holds no two white-space characters in a row; the text passes the
    capitalization, punctuation and whitespace invariants of the rule
    engine, and the generator is left in a state where the same holds of
    the next call. *)
Theorem generated_text_is_well_formed
    (morph : PhraseBuilders.Morphology) (pipeline : TextGenerator.Pipeline)
    (s : Gen.Session) :
  Triples.Untransformed pipeline -> Triples.DefaultSession s ->
  (forall opts,
     Triples.plainOverride (TextGenerator.so_override <$> opts) = true ->
     exists text s',
       TextGenerator.sentence morph pipeline opts s = (Ok text, s')
       /\ Triples.DefaultSession s' /\ Triples.wellFormed text
       /\ Triples.passesTextInvariants text)
  /\ (forall opts,
        Triples.plainOverride (TextGenerator.po_override <$> opts) = true ->
        Triples.positiveCounts opts = true ->
        exists text s',
          TextGenerator.paragraph morph pipeline opts s = (Ok text, s')
          /\ Triples.DefaultSession s' /\ Triples.wellFormed text
          /\ Triples.passesTextInvariants text).
Proof.
  intros U Hs. split.
  - intros opts Hov.
    destruct (sentence_shaped morph pipeline opts s U Hs Hov) as (text & s' & E & Hs' & W).
    exists text, s'. split; [exact E|]. split; [exact Hs'|]. split; [exact W|].
    now apply wellFormed_checks.
  - intros opts Hov Hpos.
    destruct (paragraph_shaped morph pipeline opts s U Hs Hov Hpos)
      as (text & s' & E & Hs' & W).
    exists text, s'. split; [exact E|]. split; [exact Hs'|]. split; [exact W|].
    now apply wellFormed_checks.
Qed.

Lemma generated_text_is_well_formed_witness :
  Triples.Untransformed Samples.noTransforms
  /\ Triples.DefaultSession Samples.seeded42
  /\ (exists text s',
        TextGenerator.sentence Samples.regularMorphology Samples.noTransforms None
          Samples.seeded42 = (Ok text, s')
        /\ Triples.wellFormed text)
  /\ (exists text s',
        TextGenerator.paragraph Samples.regularMorphology Samples.noTransforms None
          Samples.seeded42 = (Ok text, s')
        /\ Triples.wellFormed text).
Proof.
  assert (U : Triples.Untransformed Samples.noTransforms).
  { intros ov sd tr text _. reflexivity. }
  assert (D : Triples.DefaultSession Samples.seeded42).
  { split; reflexivity. }
  split; [exact U|]. split; [exact D|].
  destruct (generated_text_is_well_formed Samples.regularMorphology Samples.noTransforms
              Samples.seeded42 U D) as [HS HP].
  split.
  - destruct (HS None eq_refl) as (text & s' & E & _ & W & _). exists text, s'. auto.
  - destruct (HP None eq_refl eq_refl) as (text & s' & E & _ & W & _).
    exists text, s'. auto.
Defined.

(** ** The degrade step of the retry loop *)

Section DegradeSteps.
Import Lexicon Config Context Gen Triples PhraseBuilders SentenceTemplates TextGenerator.
Variable morph : Morphology.
Variable pipeline : Pipeline.

Lemma lowered_add p j k : lowered (lowered p j) k = lowered p (j + k).
Proof. destruct j, k; cbn [lowered Nat.add]; rewrite ?Nat.add_0_r; try reflexivity; lia. Qed.

Lemma set_maxPPChain_twice x y c :
  set_maxPPChain x (set_maxPPChain y c) = set_maxPPChain x c.
Proof. reflexivity. Qed.

(** What one attempt does to the configuration, and how it ends. *)
Lemma attempt_config st w :
  exists step w',
    attempt morph st w = (Ok step, w')
    /\ config (session w')
       = (if rejected morph st w && (attempts st + 1 >? 5)%Z
          then set_maxPPChain (Z.max 0 (maxPPChain (config (session w)) - 1))
                 (config (session w))
          else config (session w))
    /\ restPart w' = restPart w
    /\ match step with
       | Return _ st' => rejected morph st w = false /\ attempts st' = (attempts st + 1)%Z
       | Continue st' => attempts st' = (attempts st + 1)%Z
       end.
Proof.
  pose proof (attempt_cases morph st w) as H.
  pose proof (proj1 (Tame_buildSentence morph (type st)) (attemptWorld st w)) as F.
  unfold rejected.
  destruct (buildSentence morph (type st) (attemptWorld st w)) as [[result|e] w1];
    cbn [snd] in F; pose proof (f_equal fst F) as Fc; pose proof (f_equal snd F) as Fr;
    cbn [fst snd stablePart] in Fc, Fr;
    change (restPart (attemptWorld st w)) with (restPart w) in Fr;
    change (config (session (attemptWorld st w))) with (config (session w)) in Fc.
  - destruct (validates result w1); rewrite H; do 2 eexists; (split; [reflexivity|]);
      cbn [negb andb].
    + split; [exact Fc|]. split; [exact Fr|]. split; reflexivity.
    + unfold degradeWorld. destruct (attempts st + 1 >? 5)%Z; cbn [session ctx config].
      * rewrite Fc. split; [reflexivity|]. split; [exact Fr | reflexivity].
      * split; [exact Fc|]. split; [exact Fr | reflexivity].
  - rewrite H. do 2 eexists. split; [reflexivity|]. cbn [andb].
    split; [exact Fc|]. split; [exact Fr | reflexivity].
Qed.

Lemma degradeSteps_unfold fuel st w :
  degradeSteps morph fuel st w =
    if negb (attempts st <? maxSentenceAttempts (config (session w)))%Z then O
    else match fuel with
         | O => O
         | S fuel' =>
             match attempt morph st w with
             | (Ok (Continue st'), w') =>
                 ((if rejected morph st w && (attempts st + 1 >? 5)%Z then 1 else 0)
                  + degradeSteps morph fuel' st' w')%nat
             | _ => O
             end
         end.
Proof. destruct fuel; reflexivity. Qed.

(** The loop leaves the configuration lowered by its degrade steps. *)
Lemma retryLoop_lowered fuel : forall st w,
  (maxSentenceAttempts (config (session w)) - attempts st <= Z.of_nat fuel)%Z ->
  exists exit w',
    retryLoop morph fuel st w = (Ok exit, w')
    /\ config (session w')
       = set_maxPPChain
           (lowered (maxPPChain (config (session w))) (degradeSteps morph fuel st w))
           (config (session w))
    /\ match exit with OutOfFuel _ => False | _ => True end.
Proof.
  induction fuel as [|fuel IH]; intros st w Hfuel;
    rewrite retryLoop_unfold, degradeSteps_unfold;
    destruct (attempts st <? maxSentenceAttempts (config (session w)))%Z eqn:E;
    cbn [negb];
    try (do 2 eexists; split; [reflexivity|]; cbn [lowered];
         split; [now rewrite set_maxPPChain_same | exact I]).
  - apply Z.ltb_lt in E. lia.
  - apply Z.ltb_lt in E.
    destruct (attempt_config st w) as (step & w1 & -> & Hc & _ & Hst).
    destruct step as [result st'|st'].
    + destruct Hst as [Hr _]. rewrite Hr in Hc. cbn [andb] in Hc.
      do 2 eexists. split; [reflexivity|]. cbn [lowered].
      split; [now rewrite Hc, set_maxPPChain_same | exact I].
    + assert (Hmax : maxSentenceAttempts (config (session w1))
                     = maxSentenceAttempts (config (session w))).
      { rewrite Hc. now destruct (_ && _). }
      destruct (IH st' w1) as (exit & w' & -> & Hc' & Hexit); [lia|].
      do 2 eexists. split; [reflexivity|]. split; [|exact Hexit].
      rewrite Hc', Hc. destruct (rejected morph st w && (attempts st + 1 >? 5)%Z).
      * cbn [maxPPChain set_maxPPChain]. rewrite set_maxPPChain_twice.
        change (Z.max 0 (maxPPChain (config (session w)) - 1))
          with (lowered (maxPPChain (config (session w))) 1).
        now rewrite lowered_add.
      * reflexivity.
Qed.

Lemma generateSentenceWithRetry_lowered type w :
  config (session (snd (generateSentenceWithRetry morph type w)))
  = set_maxPPChain
      (lowered (maxPPChain (config (session w)))
         (degradeSteps morph (Z.to_nat (maxSentenceAttempts (config (session w))))
            (initialLoopState type) w))
      (config (session w)).
Proof.
  rewrite generateSentenceWithRetry_unfold.
  destruct (retryLoop_lowered (Z.to_nat (maxSentenceAttempts (config (session w))))
              (initialLoopState type) w) as (exit & w1 & -> & Hc & Hexit).
  { cbn [attempts initialLoopState]. lia. }
  destruct exit as [r st|st|st]; [exact Hc| |contradiction].
  rewrite afterLoop_unfold.
  destruct (lastResult st); [exact Hc|].
  destruct (strictMode _); [exact Hc|].
  pose proof (f_equal fst (proj1 (Tame_buildSimpleDeclarative morph) w1)) as Fc.
  cbn [fst stablePart] in Fc. now rewrite Fc.
Qed.

(** With the default budget of 25 attempts and a hard constraint that
    cannot be met, every attempt is rejected. *)
Lemma degradeSteps_unsat fuel : forall st w,
  DefaultWorld w -> UnsatisfiableHard (constraints (ctx w)) ->
  (25 - attempts st <= Z.of_nat fuel)%Z ->
  degradeSteps morph fuel st w = Z.to_nat (25 - Z.max (attempts st) 5).
Proof.
  induction fuel as [|fuel IH]; intros st w Hw U Hfuel; rewrite degradeSteps_unfold;
    destruct (defaultConfigured_fields _ (proj1 Hw)) as (_ & _ & _ & _ & _ & -> & _);
    destruct (attempts st <? 25)%Z eqn:E; cbn [negb];
    try (apply Z.ltb_ge in E; lia).
  - apply Z.ltb_lt in E. lia.
  - apply Z.ltb_lt in E.
    pose proof (attempt_cases morph st w) as H.
    assert (Hw0 : DefaultWorld (attemptWorld st w)) by exact Hw.
    destruct (Succeeds_buildSentence morph (type st) _ Hw0) as (r & w1 & Eb & Hw1 & _).
    pose proof (Frame_Kept (buildSentence morph (type st)) (attemptWorld st w)
                  (proj1 (Tame_buildSentence morph (type st)))) as K.
    unfold rejected. rewrite Eb in H, K |- *. cbn [snd] in K.
    assert (U1 : UnsatisfiableHard (constraints (ctx w1))).
    { rewrite (Kept_constraints _ _ K). exact U. }
    rewrite (unsatisfiable_invalid r w1 U1) in H |- *. rewrite H. cbn [negb andb].
    rewrite (IH _ (degradeWorld st w1)).
    + cbn [attempts]. destruct (attempts st + 1 >? 5)%Z eqn:G.
      * rewrite Z.gtb_ltb in G. apply Z.ltb_lt in G. lia.
      * rewrite Z.gtb_ltb in G. apply Z.ltb_ge in G. lia.
    + now apply DefaultWorld_degradeWorld.
    + rewrite (Kept_constraints _ _ (Kept_degradeWorld st w1)). exact U1.
    + cbn [attempts]. lia.
Qed.

(** The session [paragraph] hands back is the one its sentence loop left. *)
Lemma paragraph_session opts s :
  snd (paragraph morph pipeline opts s)
  = session
      (snd ((let* numSentences :=
               match opts ≫= po_sentences with
               | Some n => ret n
               | None =>
                   int (default (default (minSentencesPerParagraph (config s))
                                   (opts ≫= po_sentences)) (opts ≫= po_minSentences))
                       (default (default (maxSentencesPerParagraph (config s))
                                   (opts ≫= po_sentences)) (opts ≫= po_maxSentences))
               end in
             let* results := sentencesFrom morph 0 (Z.to_nat numSentences) in
             ret (Normalize.formatParagraph (map sr_text results)))
              (mkWorld s (createGenerationContext s (opts ≫= po_hints))))).
Proof.
  unfold paragraph, withContext.
  match goal with
  | |- context [let '(r, w) := ?m ?w0 in _] => destruct (m w0) as [r w]
  end.
  cbn [snd]. apply (transformed_session pipeline).
Qed.

(** The session a paragraph of a text block hands back is the one its
    sentence loop left. *)
Lemma blockParagraph_session hints i s :
  snd (blockParagraph morph hints i s)
  = session
      (snd ((let* _ := modifyCtx (set_paragraphIndex i) in
             let* cfg := getConfig in
             let* numSentences :=
               int (minSentencesPerParagraph cfg) (maxSentencesPerParagraph cfg) in
             let* results := sentencesFrom morph 0 (Z.to_nat numSentences) in
             let* _ := modifyCtx clearParagraphState in
             ret (Normalize.formatParagraph (map sr_text results)))
              (mkWorld s (createGenerationContext s hints)))).
Proof.
  unfold blockParagraph, withContext.
  match goal with
  | |- context [let '(r, w) := ?m ?w0 in _] => destruct (m w0) as [r w]
  end.
  reflexivity.
Qed.

(** The session [textBlock] hands back is the one its last paragraph left. *)
Lemma textBlock_session opts s :
  snd (textBlock morph pipeline opts s)
  = let start :=
      match opts ≫= to_paragraphs with
      | Some n => (n, s)
      | None =>
          let '(n, r) :=
            Rng.int
              (default (default 1%Z (opts ≫= to_paragraphs)) (opts ≫= to_minParagraphs))
              (default (default 3%Z (opts ≫= to_paragraphs)) (opts ≫= to_maxParagraphs))
              (rng s) in
          (n, set_rng r s)
      end in
    snd (paragraphsFrom morph (opts ≫= to_hints) 0 (Z.to_nat (fst start)) (snd start)).
Proof.
  unfold textBlock. cbv zeta.
  destruct (match opts ≫= to_paragraphs with Some n => (n, s) | None => _ end)
    as [numParagraphs s1].
  cbn [fst snd].
  destruct (paragraphsFrom morph _ _ _ s1) as [[ps|e] s2]; cbn [snd];
    [apply (transformed_session pipeline) | reflexivity].
Qed.

End DegradeSteps.




(** Nor is a limit of 0 lowered: with a hard constraint that cannot be
    met, all 25 attempts are rejected and the limit stays 0. *)
Lemma flat_limit_is_not_lowered :
  let w := Samples.impossibleWorld Samples.flatSession in
  Config.maxPPChain (Gen.config (Gen.session w)) = 0%Z
  /\ exists st w',
       TextGenerator.retryLoop Samples.regularMorphology 25
         (TextGenerator.initialLoopState None) w
       = (Ok (TextGenerator.Exhausted st), w')
       /\ TextGenerator.attempts st = 25%Z
       /\ Config.maxPPChain (Gen.config (Gen.session w')) = 0%Z.
Proof.
  cbv zeta. split; [reflexivity|].
  destruct (retryLoop_unsat Samples.regularMorphology 25
              (TextGenerator.initialLoopState None)
              (Samples.impossibleWorld Samples.flatSession))
    as (st & w' & E & [(k & Hk & Hr) _] & Ha).
  - eapply impossible_unsatisfiable; reflexivity.
  - cbn. lia.
  - exists st, w'. split; [exact E|]. split; [exact Ha|].
    rewrite Hk. cbn [Config.maxPPChain Config.set_maxPPChain].
    change (Config.maxPPChain (Gen.config (Gen.session
              (Samples.impossibleWorld Samples.flatSession)))) with 0%Z in Hr. lia.
Qed.

(** * Further properties of the code *)

(** ** The random number generator *)

Section RngBounds.
Import Rng.

Lemma int_upper lo hi r : (fst (int lo hi r) <= Z.max lo hi)%Z.
Proof.
  unfold int. pose proof (float_range r) as [Hf0 Hf1].
  assert (H : forall a b, (a <= b)%Z ->
            (Qfloor (fst (float r) * inject_Z (b - a + 1)) < b - a + 1)%Z).
  { intros a b Hab.
    assert (Hlt : (fst (float r) * inject_Z (b - a + 1) < inject_Z (b - a + 1))%Q).
    { rewrite <- (Qmult_1_l (inject_Z (b - a + 1))) at 2.
      apply Qmult_lt_compat_r; [|exact Hf1]. unfold Qlt. cbn. lia. }
    pose proof (Qfloor_le (fst (float r) * inject_Z (b - a + 1))) as Hle.
    pose proof (Qle_lt_trans _ _ _ Hle Hlt) as Hz.
    rewrite <- Zlt_Qlt in Hz. exact Hz. }
  destruct (lo >? hi)%Z eqn:E; rewrite Z.gtb_ltb in E;
    [apply Z.ltb_lt in E | apply Z.ltb_ge in E].
  - specialize (H hi lo). destruct (float r) as [f r']. cbn [fst] in *. lia.
  - specialize (H lo hi). destruct (float r) as [f r']. cbn [fst] in *. lia.
Qed.

End RngBounds.

(** X1.  [int(min, max)] returns an integer between the smaller and the
    larger of its two arguments, both included, in whichever order they
    are given. *)
Theorem int_within_bounds (lo hi : Z) (r : Rng.SeedableRng) :
  (Z.min lo hi <= fst (Rng.int lo hi r) <= Z.max lo hi)%Z.
Proof. split; [apply int_lower | apply int_upper]. Qed.

(** X2.  [pick] on the empty list throws and draws no random number; on
    a list with at least one element it draws an index within the list
    and returns the element there, so what it returns belongs to the
    list. *)
Theorem pick_member_or_error {T : Type} (d : T) (l : list T) (r : Rng.SeedableRng) :
  (exists e, Rng.pick (@nil T) r = (Throw e, r))
  /\ (exists i,
        fst (Rng.int 0 (Z.of_nat (length (d :: l)) - 1) r) = Z.of_nat i
        /\ (i < length (d :: l))%nat
        /\ fst (Rng.pick (d :: l) r) = Ok (nth i (d :: l) d)
        /\ In (nth i (d :: l) d) (d :: l)).
Proof.
  split; [eexists; reflexivity|].
  pose proof (int_lower 0 (Z.of_nat (length (d :: l)) - 1) r) as Hlo.
  pose proof (int_upper 0 (Z.of_nat (length (d :: l)) - 1) r) as Hhi.
  unfold Rng.pick.
  destruct (Rng.int 0 (Z.of_nat (length (d :: l)) - 1) r) as [j r'].
  cbn [fst] in *. cbn [length] in Hlo, Hhi.
  exists (Z.to_nat j).
  assert (Hj : (Z.to_nat j < length (d :: l))%nat) by (cbn [length]; lia).
  split; [lia|]. split; [exact Hj|].
  split; [reflexivity | now apply nth_In].
Qed.

Section Shuffling.
Import Rng.
Context {T : Type}.
Implicit Types l : list T.

Lemma insert_Permutation l : forall i x y,
  l !! i = Some x -> Permutation (x :: <[i := y]> l) (y :: l).
Proof.
  induction l as [|a l IH]; intros [|i] x y H; try discriminate.
  - injection H as ->. apply perm_swap.
  - cbn in H. cbn [insert list_insert].
    etransitivity; [apply perm_swap|].
    etransitivity; [apply perm_skip, (IH i x y H)|]. apply perm_swap.
Qed.

Lemma swap_Permutation l i j : Permutation (swap l i j) l.
Proof.
  unfold swap. destruct (l !! i) as [x|] eqn:Ei; [|reflexivity].
  destruct (l !! j) as [y|] eqn:Ej; [|reflexivity].
  destruct (decide (i = j)) as [->|Hne].
  - assert (x = y) by congruence. subst y.
    rewrite (list_insert_id l j x Ej). now rewrite (list_insert_id l j x Ej).
  - assert (Hj : <[i := y]> l !! j = Some y).
    { rewrite list_lookup_insert_ne by exact Hne. exact Ej. }
    apply (Permutation_cons_inv (a := y)).
    etransitivity; [apply (insert_Permutation _ j y x Hj)|].
    apply (insert_Permutation l i x y Ei).
Qed.

Lemma shuffleFrom_Permutation i : forall l r, Permutation (fst (shuffleFrom i l r)) l.
Proof.
  induction i as [|i IH]; intros l r; cbn [shuffleFrom]; [reflexivity|].
  destruct (int 0 (Z.of_nat (S i)) r) as [j r'].
  etransitivity; [apply IH | apply swap_Permutation].
Qed.

End Shuffling.

(** X3.  [shuffle] returns a rearrangement of its argument: the same
    elements with the same multiplicities, hence a list of the same
    length. *)
Theorem shuffle_is_a_permutation {T : Type} (l : list T) (r : Rng.SeedableRng) :
  Permutation (fst (Rng.shuffle l r)) l
  /\ length (fst (Rng.shuffle l r)) = length l.
Proof.
  assert (H : Permutation (fst (Rng.shuffle l r)) l).
  { unfold Rng.shuffle. apply shuffleFrom_Permutation. }
  split; [exact H | now apply Permutation_length].
Qed.

(** X4.  [chance(p)] is never true for a probability of zero or less and
    always true for a probability of one or more. *)
Theorem chance_at_the_ends (p : Q) (r : Rng.SeedableRng) :
  ((p <= 0)%Q -> fst (Rng.chance p r) = false)
  /\ ((1 <= p)%Q -> fst (Rng.chance p r) = true).
Proof.
  pose proof (float_range r) as [H0 H1]. unfold Rng.chance.
  destruct (Rng.float r) as [f r']. cbn [fst] in *. split; intros Hp.
  - apply Qlt_bool_false_iff. now apply Qle_trans with 0%Q.
  - apply Qlt_bool_iff. now apply Qlt_le_trans with 1%Q.
Qed.

Lemma chance_at_the_ends_witness :
  fst (Rng.chance 0 (Rng.create 42)) = false
  /\ fst (Rng.chance 1 (Rng.create 42)) = true.
Proof.
  split.
  - apply (chance_at_the_ends 0 (Rng.create 42)). unfold Qle. cbn. lia.
  - apply (chance_at_the_ends 1 (Rng.create 42)). unfold Qle. cbn. lia.
Defined.

(** ** The generation context *)

Section ContextFacts.
Import Lexicon Context.

Lemma deletePrefixed_lookup p (m : gmap string Q) key :
  deletePrefixed p m !! key = if startsWith p key then None else m !! key.
Proof.
  unfold deletePrefixed. rewrite map_lookup_filter.
  destruct (m !! key) as [v|] eqn:E; cbn.
  - destruct (startsWith p key) eqn:P; cbn.
    + rewrite option_guard_False; [reflexivity|].
      intros Hf. change (startsWith p key = false) in Hf. congruence.
    + rewrite option_guard_True; [reflexivity | exact P].
  - now destruct (startsWith p key).
Qed.

End ContextFacts.

(** X5.  The scope stack is a stack whose bottom entry stays: right
    after [pushScope(ctx, type)] the current scope is [type]; [popScope]
    then returns the entry pushed, with the number of events recorded so
    far as its start index, and leaves the context as it was before the
    push; and [popScope] on a stack of one entry or none returns
    [undefined] and changes nothing. *)
Theorem scope_push_pop (c : Context.GenerationContext) (type : Lexicon.Scope) :
  Context.scopeStack c <> [] ->
  Context.currentScope (Context.pushScope type c) = type
  /\ Context.popScope (Context.pushScope type c)
     = (Some (Context.mkScopeEntry type
                (length (Context.events (Context.history c)))), c)
  /\ (forall c', (length (Context.scopeStack c') <= 1)%nat ->
                 Context.popScope c' = (None, c')).
Proof.
  intros Hne. split; [|split].
  - unfold Context.currentScope, Context.pushScope. cbn [Context.scopeStack Context.set_scopeStack].
    now rewrite last_snoc.
  - unfold Context.popScope, Context.pushScope.
    cbn [Context.scopeStack Context.set_scopeStack].
    rewrite length_app. cbn [length].
    destruct (Context.scopeStack c) as [|e s] eqn:E; [contradiction|].
    replace (1 <? length (e :: s) + 1)%nat with true
      by (symmetry; apply Nat.ltb_lt; cbn [length]; lia).
    rewrite last_snoc, removelast_last. f_equal.
    destruct c. cbn in *. now subst.
  - intros c' Hlen. unfold Context.popScope.
    replace (1 <? length (Context.scopeStack c'))%nat with false
      by (symmetry; apply Nat.ltb_ge; exact Hlen). reflexivity.
Qed.

Lemma scope_push_pop_witness :
  let c := Context.createContext 42 "default" in
  Context.currentScope (Context.pushScope Lexicon.sentence c) = Lexicon.sentence
  /\ fst (Context.popScope (Context.pushScope Lexicon.sentence c))
     = Some (Context.mkScopeEntry Lexicon.sentence 0)
  /\ Context.popScope c = (None, c).
Proof.
  cbv zeta.
  destruct (scope_push_pop (Context.createContext 42 "default") Lexicon.sentence)
    as (H1 & H2 & H3); [discriminate|].
  split; [exact H1|]. split; [now rewrite H2|].
  apply H3. cbn. lia.
Defined.

(** X6.  [clearParagraphState] removes from the bias map every key that
    starts with [sentence:] or with [paragraph:] and keeps every other
    binding as it is; it resets the sentence index to 0 and empties the
    sentence tokens, the subject features and the relation hints; the
    history of choices, the scope stack, the rules, the tags and the
    paragraph index are left alone. *)
Theorem clearParagraphState_effect (c : Context.GenerationContext) (key : string) :
  Context.biases (Context.clearParagraphState c) !! key
  = (if Context.startsWith "sentence:" key || Context.startsWith "paragraph:" key
     then None else Context.biases c !! key)
  /\ Context.sentenceIndex (Context.clearParagraphState c) = 0%Z
  /\ Context.currentSentenceTokens (Context.clearParagraphState c) = []
  /\ Context.currentSubjectFeatures (Context.clearParagraphState c) = None
  /\ Context.relationHints (Context.clearParagraphState c) = []
  /\ Context.history (Context.clearParagraphState c) = Context.history c
  /\ Context.scopeStack (Context.clearParagraphState c) = Context.scopeStack c
  /\ Context.constraints (Context.clearParagraphState c) = Context.constraints c
  /\ Context.invariants (Context.clearParagraphState c) = Context.invariants c
  /\ Context.activeTags (Context.clearParagraphState c) = Context.activeTags c
  /\ Context.paragraphIndex (Context.clearParagraphState c) = Context.paragraphIndex c.
Proof.
  split; [|repeat split].
  unfold Context.clearParagraphState, Context.clearSentenceState.
  cbn [Context.biases Context.set_biases Context.set_sentenceIndex].
  rewrite !deletePrefixed_lookup.
  destruct (Context.startsWith "sentence:" key), (Context.startsWith "paragraph:" key);
    reflexivity.
Qed.

(** ** Text normalization *)

Section NormalizeFacts.
Import Normalize Triples.

Lemma trimStart_headSpace s : headSpace (trimStart s) = false.
Proof.
  induction s as [|c s IH]; [reflexivity|]. cbn [trimStart].
  destruct (isSpace c) eqn:E; [exact IH | exact E].
Qed.

Lemma capitalize_clean s : hasDoubleSpace (capitalize s) = hasDoubleSpace s.
Proof.
  destruct s as [|c r]; [reflexivity|]. cbn [capitalize].
  rewrite !hasDoubleSpace_cons. now rewrite toUpper_space.
Qed.

(** What [ensureEndPunctuation] returns is empty or ends in a terminal
    mark, and it brings in no double white space. *)
Lemma ensureEndPunctuation_shape s p :
  p = "." \/ p = "?" \/ p = "!" ->
  (ensureEndPunctuation s p = EmptyString
   \/ endsTerminal (ensureEndPunctuation s p) = true)
  /\ (hasDoubleSpace s = false -> hasDoubleSpace (ensureEndPunctuation s p) = false).
Proof.
  intros Hp. unfold ensureEndPunctuation.
  pose proof (trimEnd_last s) as Hl.
  destruct (lastChar (trimEnd s)) as [l|] eqn:El.
  - destruct (memChar l endPunct) eqn:Em.
    + split; [right; unfold endsTerminal; now rewrite El | apply trimEnd_clean].
    + split.
      * right. unfold endsTerminal.
        rewrite lastChar_append by (destruct Hp as [->|[->| ->]]; discriminate).
        destruct Hp as [->|[->| ->]]; reflexivity.
      * intros Hc. rewrite hasDoubleSpace_append, (trimEnd_clean _ Hc), Hl.
        destruct Hp as [->|[->| ->]]; reflexivity.
  - apply lastChar_None in El. rewrite El. split; [now left | auto].
Qed.

End NormalizeFacts.

(** X7.  Whatever text it is given, [normalizeWhitespace] returns a text
    with no two white-space characters in a row, no white space at its
    start and none at its end. *)
Theorem normalizeWhitespace_is_trimmed_and_single_spaced (text : string) :
  Normalize.hasDoubleSpace (Normalize.normalizeWhitespace text) = false
  /\ Triples.headSpace (Normalize.normalizeWhitespace text) = false
  /\ Triples.lastIsSpace (Normalize.normalizeWhitespace text) = false.
Proof.
  split; [apply normalizeWhitespace_clean|]. unfold Normalize.normalizeWhitespace, Normalize.trim.
  split; [|apply trimEnd_last].
  destruct (Triples.headSpace (Normalize.trimEnd _)) eqn:E; [|reflexivity].
  apply trimEnd_headSpace in E. now rewrite trimStart_headSpace in E.
Qed.

(** X8.  Whatever text it is given, [formatSentence] with one of the
    marks [.], [?], [!] as its punctuation returns a text that passes the
    punctuation check and the whitespace check of the rule engine; the
    returned text is empty or ends in one of [. ! ? ; :].  Capitalization
    is not guaranteed in the same way: a text whose first character is a
    digit keeps its lower-case first letter. *)
Theorem formatSentence_punctuated_and_spaced (text p : string) :
  p = "." \/ p = "?" \/ p = "!" ->
  Normalize.endsWithPunctuation (Normalize.formatSentence text p) = true
  /\ Normalize.hasNoDoubleSpaces (Normalize.formatSentence text p) = true
  /\ (Normalize.formatSentence text p = EmptyString
      \/ Triples.endsTerminal (Normalize.formatSentence text p) = true)
  /\ Normalize.isCapitalized (Normalize.formatSentence "2nd try" ".") = false.
Proof.
  intros Hp. unfold Normalize.formatSentence at 1 2 3 4.
  destruct (ensureEndPunctuation_shape
              (Normalize.capitalize (Normalize.normalizeWhitespace text)) p Hp)
    as [Hend Hclean].
  specialize (Hclean ltac:(rewrite capitalize_clean; apply normalizeWhitespace_clean)).
  split; [|split; [|split; [exact Hend | reflexivity]]].
  - destruct Hend as [-> | Hend]; [reflexivity|].
    unfold Normalize.endsWithPunctuation.
    destruct (Normalize.ensureEndPunctuation _ p) as [|c r] eqn:E; [reflexivity|].
    rewrite trimEnd_id by now apply endsTerminal_lastIsSpace.
    unfold Triples.endsTerminal in Hend.
    destruct (Normalize.lastChar (String c r)); [|discriminate].
    now apply endPunct_checked.
  - unfold Normalize.hasNoDoubleSpaces. now rewrite Hclean.
Qed.

Lemma formatSentence_punctuated_and_spaced_witness :
  Normalize.endsWithPunctuation (Normalize.formatSentence "  so  it goes ,then" "?") = true
  /\ Normalize.hasNoDoubleSpaces (Normalize.formatSentence "  so  it goes ,then" "?") = true.
Proof.
  destruct (formatSentence_punctuated_and_spaced "  so  it goes ,then" "?")
    as (H1 & H2 & _); [right; left; reflexivity|].
  split; [exact H1 | exact H2].
Defined.

(** ** The default rules *)

Section DefaultRules.
Import Lexicon Config Context RuleEngine.

Lemma default_rules_validation cfg cfg' c text toks :
  let v := validate cfg (getDefaultConstraints cfg') getDefaultInvariants c text toks
             sentence in
  valid v = Normalize.isCapitalized text && Normalize.endsWithPunctuation text
  /\ hardConstraintsFailed v = []
  /\ softConstraintsFailed v
     = (if (Z.of_nat (length toks) <? minWordsPerSentence cfg')%Z
        then ["c.minWords"] else [])
       ++ (if (Z.of_nat (length toks) >? maxWordsPerSentence cfg')%Z
           then ["c.maxWords"] else []).
Proof.
  cbv zeta.
  unfold validate, evaluateConstraints, evaluateInvariants, getDefaultConstraints,
    getDefaultInvariants.
  cbn [List.filter c_scope inv_scope Scope_eqb map].
  unfold evaluateConstraint, evaluateInvariant.
  cbn [c_type inv_type inv_id].
  unfold evaluateMinCount, evaluateMaxCount. cbn [c_target c_value c_id default].
  change ("words" =? "words")%string with true.
  change ("words" =? "PP")%string with false. cbv iota.
  destruct (_ <? _)%Z, (_ >? _)%Z, (Normalize.isCapitalized text),
    (Normalize.endsWithPunctuation text); repeat split; reflexivity.
Qed.

End DefaultRules.

(** X9.  Under the default rules, validation at sentence scope accepts a
    candidate exactly when its text passes the capitalization and the
    punctuation check.  No hard constraint can fail: the only hard default,
    [c.maxPP], has phrase scope and is not evaluated; the word-count limits
    are soft, so a sentence that is too short or too long is reported in
    [softConstraintsFailed] and still valid; and the whitespace invariant,
    of text scope, is not evaluated either. *)
Theorem default_rules_accept_capitalized_punctuated
    (cfg cfg' : Config.GeneratorConfig) (c : Context.GenerationContext)
    (text : string) (toks : list string) :
  RuleEngine.valid
    (RuleEngine.validate cfg (RuleEngine.getDefaultConstraints cfg')
       RuleEngine.getDefaultInvariants c text toks Lexicon.sentence)
  = Normalize.isCapitalized text && Normalize.endsWithPunctuation text
  /\ RuleEngine.hardConstraintsFailed
       (RuleEngine.validate cfg (RuleEngine.getDefaultConstraints cfg')
          RuleEngine.getDefaultInvariants c text toks Lexicon.sentence) = []
  /\ RuleEngine.softConstraintsFailed
       (RuleEngine.validate cfg (RuleEngine.getDefaultConstraints cfg')
          RuleEngine.getDefaultInvariants c text toks Lexicon.sentence)
     = (if (Z.of_nat (length toks) <? Config.minWordsPerSentence cfg')%Z
        then ["c.minWords"] else [])
       ++ (if (Z.of_nat (length toks) >? Config.maxWordsPerSentence cfg')%Z
           then ["c.maxWords"] else []).
Proof. apply default_rules_validation. Qed.

Section FirstCandidate.
Import Lexicon Config Context Gen Triples PhraseBuilders SentenceTemplates TextGenerator.
Variable morph : Morphology.

Lemma createGenerationContext_rules s hints :
  constraints (createGenerationContext s hints) = RuleEngine.getDefaultConstraints (config s)
  /\ invariants (createGenerationContext s hints) = RuleEngine.getDefaultInvariants.
Proof.
  unfold createGenerationContext, getActiveConstraints, getActiveInvariants.
  cbn [constraints invariants set_rules]. split.
  - destruct (negb _); [reflexivity|]. now destruct (LexiconStore.getMeta _).
  - now destruct (negb _).
Qed.

(** In the default world, under the default rules, the first pass through
    the loop body returns its candidate and leaves the stable part of the
    world as it was. *)
Lemma attempt_accepts st w cfg0 :
  DefaultWorld w ->
  constraints (ctx w) = RuleEngine.getDefaultConstraints cfg0 ->
  invariants (ctx w) = RuleEngine.getDefaultInvariants ->
  exists r w',
    attempt morph st w
    = (Ok (Return r (mkLoopState (attempts st + 1) (type st) (lastResult st)
                       (lastError st))), w')
    /\ stablePart w' = stablePart w /\ wellFormed (sr_text r).
Proof.
  intros Hw Hc Hi. pose proof (attempt_cases morph st w) as H.
  pose proof (proj1 (Tame_buildSentence morph (type st)) (attemptWorld st w)) as F.
  assert (Hw0 : DefaultWorld (attemptWorld st w)) by exact Hw.
  destruct (Succeeds_buildSentence morph (type st) _ Hw0) as (r & w1 & E & Hw1 & Hr).
  rewrite E in H, F. cbn [snd] in F.
  assert (Hv : validates r w1 = true).
  { unfold validates.
    pose proof (Frame_Kept (buildSentence morph (type st)) (attemptWorld st w)
                  (proj1 (Tame_buildSentence morph (type st)))) as K.
    rewrite E in K. cbn [snd] in K.
    rewrite (Kept_constraints _ _ K), (Kept_invariants _ _ K).
    cbn [attemptWorld ctx constraints invariants set_retryCount].
    rewrite Hc, Hi.
    rewrite (proj1 (default_rules_validation _ _ _ _ _)).
    destruct (wellFormed_checks _ Hr) as (-> & -> & _). reflexivity. }
  rewrite Hv in H. exists r, w1. split; [exact H|]. split; [exact F | exact Hr].
Qed.

End FirstCandidate.

(** X10.  A generator with the default configuration and no lexicon never
    retries: on a fresh generation context the first candidate built
    passes validation, so the retry loop returns it after one attempt, the
    degrade step never runs and the configuration of the session is left
    exactly as it was. *)
Theorem default_generator_accepts_first_candidate
    (morph : PhraseBuilders.Morphology) (s : Gen.Session)
    (hints : option (list string)) (type : option SentenceTemplates.SentenceType) :
  Triples.DefaultSession s ->
  exists r w',
    TextGenerator.retryLoop morph (Z.to_nat (Config.maxSentenceAttempts (Gen.config s)))
      (TextGenerator.initialLoopState type)
      (Gen.mkWorld s (TextGenerator.createGenerationContext s hints))
    = (Ok (TextGenerator.Returned r (TextGenerator.mkLoopState 1 type None None)), w')
    /\ TextGenerator.generateSentenceWithRetry morph type
         (Gen.mkWorld s (TextGenerator.createGenerationContext s hints))
       = (Ok r, w')
    /\ Gen.config (Gen.session w') = Gen.config s
    /\ Triples.wellFormed (SentenceTemplates.sr_text r).
Proof.
  intros Hs.
  destruct (createGenerationContext_rules s hints) as [Hc Hi].
  destruct (attempt_accepts morph (TextGenerator.initialLoopState type)
              (Gen.mkWorld s (TextGenerator.createGenerationContext s hints))
              (Gen.config s) Hs Hc Hi) as (r & w' & E & F & Hr).
  destruct (defaultConfigured_fields _ (proj1 Hs)) as (_ & _ & _ & _ & _ & Hmax & _).
  assert (L : TextGenerator.retryLoop morph
                (Z.to_nat (Config.maxSentenceAttempts (Gen.config s)))
                (TextGenerator.initialLoopState type)
                (Gen.mkWorld s (TextGenerator.createGenerationContext s hints))
              = (Ok (TextGenerator.Returned r (TextGenerator.mkLoopState 1 type None None)),
                 w')).
  { rewrite Hmax. change (Z.to_nat 25) with (S 24). rewrite retryLoop_unfold.
    cbn [Gen.session Gen.config TextGenerator.attempts TextGenerator.initialLoopState].
    rewrite Hmax. cbn [Z.ltb Z.compare negb]. rewrite E. reflexivity. }
  exists r, w'. split; [exact L|]. split; [|split; [|exact Hr]].
  - rewrite generateSentenceWithRetry_unfold.
    cbn [Gen.session Gen.config]. rewrite L. reflexivity.
  - apply (f_equal fst) in F. exact F.
Qed.

Lemma default_generator_accepts_first_candidate_witness :
  exists r w',
    TextGenerator.generateSentenceWithRetry Samples.regularMorphology None
      (Gen.mkWorld Samples.seeded42
         (TextGenerator.createGenerationContext Samples.seeded42 None))
    = (Ok r, w')
    /\ Gen.config (Gen.session w') = Gen.config Samples.seeded42.
Proof.
  destruct (default_generator_accepts_first_candidate Samples.regularMorphology
              Samples.seeded42 None None) as (r & w' & _ & E & Hc & _).
  { split; reflexivity. }
  exists r, w'. split; [exact E | exact Hc].
Defined.

(** ** Sampling from the lexicon *)

Section Sampling.
Import Lexicon Config Context Gen LexiconStore.

(** What [weightedPick] returns is the item of an entry of positive weight. *)
Lemma weightedPick_Ok {T} (items : list (Rng.WeightedItem T)) r x r' :
  Rng.weightedPick items r = (Ok x, r') ->
  exists i, In i items /\ Rng.item i = x /\ (0 < Rng.weight i)%Q.
Proof.
  unfold Rng.weightedPick. destruct (length items =? 0)%nat; [discriminate|].
  destruct (length (List.filter _ items) =? 0)%nat; [discriminate|].
  destruct (Rng.float r) as [f r1]. intros [= H _].
  apply walkOrLast_Ok in H as (i & Hi & Hx).
  apply filter_In in Hi as [Hi Hw]. exists i. split; [exact Hi|]. split; [exact Hx|].
  now apply Qlt_bool_iff.
Qed.

Lemma dictGet_In {T} (d : Dict T) key v : dictGet d key = Some v -> In (key, v) d.
Proof.
  unfold dictGet. destruct (List.find _ d) as [[k x]|] eqn:E; [|discriminate].
  cbn. intros [= ->]. apply find_some in E as [Hin Hk]. cbn in Hk.
  apply String.eqb_eq in Hk. now subst.
Qed.

Lemma findMatchingTermSets_sound lex q c id set :
  In (id, set) (findMatchingTermSets lex q c) ->
  exists sets, lex ≫= termSets = Some sets /\ In (id, set) sets
               /\ ts_pos set = q_pos q.
Proof.
  unfold findMatchingTermSets. destruct (lex ≫= termSets) as [sets|]; [|contradiction].
  intros H. exists sets. split; [reflexivity|].
  destruct (nonEmpty (q_termSetIds q)).
  - apply in_flat_map in H as (k & _ & Hk).
    destruct (dictGet sets k) as [s0|] eqn:E; [|contradiction].
    destruct (POS_eqb (ts_pos s0) (q_pos q)) eqn:P; [|contradiction].
    destruct Hk as [[= <- <-]|[]]. split; [now apply dictGet_In|].
    destruct (ts_pos s0), (q_pos q); try discriminate; reflexivity.
  - apply filter_In in H as [Hin Hf]. split; [exact Hin|].
    apply andb_true_iff in Hf as [Hf _]. apply andb_true_iff in Hf as [Hf _].
    destruct (ts_pos set), (q_pos q); try discriminate; reflexivity.
Qed.

End Sampling.

(** X11.  Whenever [sampleTerm] returns an item, the item is a term of a
    term set of the loaded lexicon whose part of speech is the one asked
    for: its value is the value of that term, which is not on the query's
    exclusion list and has a positive weight, its [pos] is the query's and
    its [termSetId] names the set. *)
Theorem sampleTerm_returns_a_listed_term
    (q : Lexicon.TermQuery) (w w' : Gen.World) (item : Lexicon.LexicalItem) :
  LexiconStore.sampleTerm q w = (Ok (Some item), w') ->
  exists sets id set term,
    Gen.lexicon (Gen.session w) ≫= Lexicon.termSets = Some sets
    /\ In (id, set) sets /\ Lexicon.ts_pos set = Lexicon.q_pos q
    /\ In term (Lexicon.ts_terms set)
    /\ LexiconStore.includes (Lexicon.term_value term)
         (default [] (Lexicon.q_exclude q)) = false
    /\ (0 < default 1%Q (Lexicon.term_weight term))%Q
    /\ Lexicon.li_value item = Lexicon.term_value term
    /\ Lexicon.li_pos item = Lexicon.q_pos q
    /\ Lexicon.li_termSetId item = Some id.
Proof.
  unfold LexiconStore.sampleTerm, Gen.bind, Gen.getLexicon, Gen.getCtx, Gen.ret.
  destruct (Gen.lexicon (Gen.session w) ≫= Lexicon.termSets) as [sets|] eqn:Es;
    [|discriminate].
  destruct (length (LexiconStore.findMatchingTermSets _ _ _) =? 0)%nat; [discriminate|].
  destruct (length (List.filter _ (LexiconStore.weightedSets _ _ _)) =? 0)%nat;
    [discriminate|].
  unfold Gen.weightedPick at 1, Gen.liftRngResult.
  destruct (Rng.weightedPick _ (Gen.rng (Gen.session w))) as [[[id set]|e] r1] eqn:E1;
    [|discriminate].
  destruct (length (List.filter (LexiconStore.termMatches q) (Lexicon.ts_terms set)) =? 0)%nat;
    [discriminate|].
  unfold Gen.weightedPick, Gen.liftRngResult. cbn [Gen.session Gen.rng Gen.set_rng].
  destruct (Rng.weightedPick _ r1) as [[term|e] r2] eqn:E2; [|discriminate].
  intros [= <- _].
  apply weightedPick_Ok in E1 as (i & Hi & Hx & _).
  apply filter_In in Hi as [Hi _].
  unfold LexiconStore.weightedSets in Hi. apply in_map_iff in Hi as ([id0 set0] & <- & Hc).
  cbn in Hx. injection Hx as -> ->.
  apply findMatchingTermSets_sound in Hc as (sets' & Hs' & Hin & Hpos).
  apply weightedPick_Ok in E2 as (j & Hj & Hjx & Hjw).
  apply in_map_iff in Hj as (t0 & <- & Ht0). cbn in Hjx, Hjw. subst t0.
  apply filter_In in Ht0 as [Ht Hm].
  unfold LexiconStore.termMatches in Hm. apply andb_true_iff in Hm as [_ Hm].
  apply negb_true_iff in Hm.
  rewrite Es in Hs'. injection Hs' as <-.
  exists sets, id, set, term. repeat split; auto.
Qed.

Lemma sampleTerm_returns_a_listed_term_witness :
  let s := TextGenerator.setLexicon Samples.biasedLexicon Samples.seeded42 in
  let w := Gen.mkWorld s (TextGenerator.createGenerationContext s None) in
  LexiconStore.sampleTerm Samples.nounQuery w
  = (Ok (Some Samples.techNoun), snd (LexiconStore.sampleTerm Samples.nounQuery w))
  /\ exists term,
       In term [Lexicon.mkTerm "server" None None None]
       /\ Lexicon.li_value Samples.techNoun = Lexicon.term_value term.
Proof.
  cbv zeta.
  set (s := TextGenerator.setLexicon Samples.biasedLexicon Samples.seeded42).
  set (w := Gen.mkWorld s (TextGenerator.createGenerationContext s None)).
  assert (E : LexiconStore.sampleTerm Samples.nounQuery w
              = (Ok (Some Samples.techNoun),
                 snd (LexiconStore.sampleTerm Samples.nounQuery w))).
  { vm_compute. reflexivity. }
  split; [exact E|].
  destruct (sampleTerm_returns_a_listed_term _ _ _ _ E)
    as (sets & id & set & term & Hs & Hin & _ & Ht & _ & _ & Hv & _).
  vm_compute in Hs. injection Hs as <-.
  destruct Hin as [[= <- <-]|[]]. exists term. split; [exact Ht | exact Hv].
Defined.

(** ** Text blocks *)

Section TextBlocks.
Import Lexicon Config Context Gen Triples PhraseBuilders SentenceTemplates TextGenerator.
Variable morph : Morphology.
Variable pipeline : Pipeline.

Lemma blockParagraph_shaped hints i s :
  DefaultSession s ->
  exists p s', blockParagraph morph hints i s = (Ok p, s') /\ DefaultSession s'
               /\ wellFormed p.
Proof.
  intros Hs. unfold blockParagraph.
  apply withContext_Succeeds; [|exact Hs].
  apply Succeeds_bind_any; [apply Succeeds_modifyCtx|]. intros _.
  eapply Succeeds_bind; [apply Succeeds_getConfig|]. intros cfg Hcfg.
  destruct (defaultConfigured_fields _ Hcfg) as (_ & _ & _ & -> & -> & _).
  eapply Succeeds_bind; [apply Succeeds_int_lower|]. intros n Hn. cbn in Hn.
  eapply Succeeds_bind; [apply Succeeds_sentencesFrom|]. intros rs [Hlen Hrs].
  apply Succeeds_bind_any; [apply Succeeds_modifyCtx|]. intros _.
  apply Succeeds_ret. apply formatParagraph_wellFormed; [|exact Hrs].
  destruct rs; [cbn in Hlen; lia | discriminate].
Qed.

Lemma paragraphsFrom_shaped hints n : forall i s,
  DefaultSession s ->
  exists ps s', paragraphsFrom morph hints i n s = (Ok ps, s') /\ DefaultSession s'
                /\ length ps = n /\ Forall wellFormed ps.
Proof.
  induction n as [|n IH]; intros i s Hs; cbn [paragraphsFrom].
  - exists [], s. repeat split; [exact (proj1 Hs) | exact (proj2 Hs) | constructor].
  - destruct (blockParagraph_shaped hints i s Hs) as (p & s1 & -> & Hs1 & Hp).
    destruct (IH (i + 1)%Z s1 Hs1) as (ps & s2 & -> & Hs2 & Hlen & Hps).
    exists (p :: ps), s2. repeat split; [exact (proj1 Hs2) | exact (proj2 Hs2) | | ].
    + cbn. now rewrite Hlen.
    + now constructor.
Qed.

Lemma join_ends sep parts :
  parts <> [] -> Forall wellFormed parts ->
  startsUpper (Normalize.join sep parts) = true
  /\ endsTerminal (Normalize.join sep parts) = true.
Proof.
  induction parts as [|p rest IH]; [contradiction|]. intros _ H.
  inversion H as [|? ? Hp Hrest]; subst.
  destruct rest as [|q rest']; [split; apply Hp|].
  destruct IH as [IH1 IH2]; [discriminate | exact Hrest|].
  change (Normalize.join sep (p :: q :: rest'))
    with (p +:+ sep +:+ Normalize.join sep (q :: rest')).
  destruct Hp as (Hp1 & _). split.
  - destruct p; [discriminate | exact Hp1].
  - unfold endsTerminal in *.
    assert (Hne : Normalize.join sep (q :: rest') <> "")
      by now apply startsUpper_nonempty.
    rewrite lastChar_append.
    + now rewrite lastChar_append.
    + destruct sep; [exact Hne | discriminate].
Qed.

Lemma formatTextBlock_double p q rest :
  Normalize.hasDoubleSpace (Normalize.formatTextBlock (p :: q :: rest)) = true.
Proof.
  unfold Normalize.formatTextBlock.
  change (Normalize.join _ (p :: q :: rest))
    with (p +:+ (Normalize.newline +:+ Normalize.newline)
            +:+ Normalize.join (Normalize.newline +:+ Normalize.newline) (q :: rest)).
  rewrite hasDoubleSpace_append.
  rewrite (hasDoubleSpace_append (Normalize.newline +:+ Normalize.newline)).
  change (Normalize.hasDoubleSpace (Normalize.newline +:+ Normalize.newline)) with true.
  cbn [orb]. now rewrite orb_true_r.
Qed.

Lemma textBlock_shaped opts s n :
  Untransformed pipeline -> DefaultSession s ->
  plainOverride (to_override <$> opts) = true ->
  opts ≫= to_paragraphs = Some n -> (1 <= n)%Z ->
  exists ps s',
    textBlock morph pipeline opts s = (Ok (Normalize.formatTextBlock ps), s')
    /\ DefaultSession s' /\ Z.of_nat (length ps) = n /\ Forall wellFormed ps.
Proof.
  intros U Hs Hov Hpar Hn. unfold textBlock. rewrite Hpar. cbv zeta.
  destruct (paragraphsFrom_shaped (opts ≫= to_hints) (Z.to_nat n) 0%Z s Hs)
    as (ps & s2 & -> & Hs2 & Hlen & Hps).
  exists ps, s2. rewrite transformed_plain by assumption.
  repeat split; [exact (proj1 Hs2) | exact (proj2 Hs2) | lia | exact Hps].
Qed.

End TextBlocks.

(** X12.  On a generator with the default configuration and no lexicon,
    with no output transform configured, a text block of [n] paragraphs
    ([n] at least one, given as [opts.paragraphs]) is returned, starts
    with a capital letter and ends in terminal punctuation, but holds the
    separator of two line feeds between paragraphs: it passes the
    whitespace check only when [n] is 1.  The invariant report of a trace,
    which evaluates the three default invariants on the final text,
    therefore marks [inv.noDoubleSpaces] as failed for every block of two
    or more paragraphs. *)
Theorem text_blocks_break_the_whitespace_invariant
    (morph : PhraseBuilders.Morphology) (pipeline : TextGenerator.Pipeline)
    (s : Gen.Session) (opts : option TextGenerator.TextBlockOptions) (n : Z) :
  Triples.Untransformed pipeline -> Triples.DefaultSession s ->
  Triples.plainOverride (TextGenerator.to_override <$> opts) = true ->
  opts ≫= TextGenerator.to_paragraphs = Some n -> (1 <= n)%Z ->
  exists text s',
    TextGenerator.textBlock morph pipeline opts s = (Ok text, s')
    /\ Normalize.isCapitalized text = true
    /\ Normalize.endsWithPunctuation text = true
    /\ Normalize.hasNoDoubleSpaces text = (n =? 1)%Z
    /\ Trace.checkInvariants text
       = [("inv.capitalized", true); ("inv.endsWithPunct", true);
          ("inv.noDoubleSpaces", (n =? 1)%Z)].
Proof.
  intros U Hs Hov Hpar Hn.
  destruct (textBlock_shaped morph pipeline opts s n U Hs Hov Hpar Hn)
    as (ps & s' & E & _ & Hlen & Hps).
  exists (Normalize.formatTextBlock ps), s'. split; [exact E|].
  cut (Normalize.isCapitalized (Normalize.formatTextBlock ps) = true
       /\ Normalize.endsWithPunctuation (Normalize.formatTextBlock ps) = true
       /\ Normalize.hasNoDoubleSpaces (Normalize.formatTextBlock ps) = (n =? 1)%Z).
  { intros (H1 & H2 & H3). repeat split; try assumption.
    unfold Trace.checkInvariants. cbn. now rewrite H1, H2, H3. }
  assert (Hne : ps <> []) by (destruct ps; [cbn in Hlen; lia | discriminate]).
  destruct (join_ends (Normalize.newline +:+ Normalize.newline) ps Hne Hps) as [Hup Hend].
  fold (Normalize.formatTextBlock ps) in Hup, Hend.
  split; [|split].
  - destruct (Normalize.formatTextBlock ps) as [|c r]; [discriminate|].
    unfold Normalize.isCapitalized. cbn [Normalize.firstLetter].
    cbn [Triples.startsUpper] in Hup. rewrite (upper_is_letter _ Hup).
    now apply toUpper_upper.
  - unfold Normalize.endsWithPunctuation.
    destruct (Normalize.formatTextBlock ps) as [|c r] eqn:Et; [discriminate|].
    rewrite trimEnd_id by now apply endsTerminal_lastIsSpace.
    unfold Triples.endsTerminal in Hend.
    destruct (Normalize.lastChar (String c r)); [|discriminate].
    now apply endPunct_checked.
  - unfold Normalize.hasNoDoubleSpaces.
    destruct ps as [|p [|q rest]]; [contradiction| |].
    + cbn in Hlen. subst n. cbn [Z.eqb Z.of_nat Pos.of_succ_nat Pos.eqb].
      inversion Hps as [|? ? (_ & _ & Hd) _]; subst.
      change (Normalize.formatTextBlock [p]) with p. now rewrite Hd.
    + rewrite formatTextBlock_double. cbn [negb]. symmetry. apply Z.eqb_neq.
      cbn [length] in Hlen. lia.
Qed.

Lemma text_blocks_break_the_whitespace_invariant_witness :
  exists text s',
    TextGenerator.textBlock Samples.regularMorphology Samples.noTransforms
      (Some (TextGenerator.mkTextBlockOptions (Some 2%Z) None None None
               (TextGenerator.mkOverride None None)))
      Samples.seeded42 = (Ok text, s')
    /\ Normalize.hasNoDoubleSpaces text = false.
Proof.
  destruct (text_blocks_break_the_whitespace_invariant Samples.regularMorphology
              Samples.noTransforms Samples.seeded42
              (Some (TextGenerator.mkTextBlockOptions (Some 2%Z) None None None
                       (TextGenerator.mkOverride None None))) 2)
    as (text & s' & E & _ & _ & H & _).
  - intros ov sd tr text _. reflexivity.
  - split; reflexivity.
  - reflexivity.
  - reflexivity.
  - lia.
  - exists text, s'. split; [exact E | exact H].
Defined.

(** ** The tokenizer of the output transforms *)

Section TokenizerFacts.
Import Tokenizer.

Lemma append_cons c (a b : string) : String c a +:+ b = String c (a +:+ b).
Proof. reflexivity. Qed.

Lemma append_assoc (a b c : string) : (a +:+ b) +:+ c = a +:+ (b +:+ c).
Proof.
  induction a as [|x a IH]; [reflexivity|]. rewrite !append_cons. now rewrite IH.
Qed.

Lemma append_empty_r (a : string) : a +:+ "" = a.
Proof.
  induction a as [|x a IH]; [reflexivity|]. rewrite append_cons. now rewrite IH.
Qed.

Lemma render_from ts : forall acc,
  fold_left (fun result token => result +:+ tok_value token) ts acc
  = acc +:+ render ts.
Proof.
  unfold render. induction ts as [|t ts IH]; intros acc; cbn [fold_left].
  - now rewrite append_empty_r.
  - rewrite IH, (IH (EmptyString +:+ tok_value t)).
    change (EmptyString +:+ tok_value t) with (tok_value t).
    now rewrite append_assoc.
Qed.

Lemma render_cons t ts : render (t :: ts) = tok_value t +:+ render ts.
Proof. unfold render at 1. cbn [fold_left]. now rewrite render_from. Qed.

Lemma span_spec p s :
  fst (span p s) +:+ snd (span p s) = s
  /\ (String.length (snd (span p s)) <= String.length s)%nat.
Proof.
  induction s as [|c s [IH1 IH2]]; [split; reflexivity|]. cbn [span].
  destruct (p c); [|split; reflexivity].
  destruct (span p s) as [a b]. cbn [fst snd String.length] in *.
  rewrite append_cons, IH1. split; [reflexivity | lia].
Qed.

Lemma wordTail_spec_strong n : forall s, (String.length s <= n)%nat ->
  fst (wordTail s) +:+ snd (wordTail s) = s
  /\ (String.length (snd (wordTail s)) <= String.length s)%nat.
Proof.
  induction n as [|n IH]; intros s Hn.
  - destruct s; [split; reflexivity | cbn in Hn; lia].
  - destruct s as [|c rest]; [split; reflexivity|]. cbn [wordTail].
    cbn [String.length] in Hn. destruct (isLetter c).
    + destruct (IH rest ltac:(lia)) as [H1 H2].
      destruct (wordTail rest) as [a b]. cbn [fst snd String.length] in *.
      rewrite append_cons, H1. split; [reflexivity | lia].
    + destruct (Ascii.eqb c "'"); [|split; reflexivity].
      destruct rest as [|d rest']; [split; reflexivity|].
      destruct (isLetter d); [|split; reflexivity].
      cbn [String.length] in Hn. destruct (IH rest' ltac:(lia)) as [H1 H2].
      destruct (wordTail rest') as [a b]. cbn [fst snd String.length] in *.
      rewrite !append_cons, H1. split; [reflexivity | lia].
Qed.

Lemma wordTail_spec s :
  fst (wordTail s) +:+ snd (wordTail s) = s
  /\ (String.length (snd (wordTail s)) <= String.length s)%nat.
Proof. apply (wordTail_spec_strong (String.length s)). lia. Qed.

(** The optional percent sign at the end of a number. *)
Lemma percent_spec digits decimals r2 :
  let res :=
    (let '(percent, r3) :=
       match r2 with
       | String c rest => if Ascii.eqb c "%" then (String c EmptyString, rest)
                          else (EmptyString, r2)
       | EmptyString => (EmptyString, r2)
       end in (digits +:+ decimals +:+ percent, r3)) in
  fst res +:+ snd res = digits +:+ decimals +:+ r2
  /\ (String.length (snd res) <= String.length r2)%nat.
Proof.
  cbv zeta. destruct r2 as [|c rest].
  - cbn [fst snd]. rewrite !append_empty_r. split; [reflexivity | lia].
  - destruct (Ascii.eqb c "%"); cbn [fst snd String.length].
    + rewrite !append_assoc. split; [reflexivity | lia].
    + rewrite append_empty_r, append_assoc. split; [reflexivity | lia].
Qed.

Lemma numberTail_spec s :
  fst (numberTail s) +:+ snd (numberTail s) = s
  /\ (String.length (snd (numberTail s)) <= String.length s)%nat.
Proof.
  unfold numberTail. destruct (span_spec isDigit s) as [H1 H2].
  destruct (span isDigit s) as [digits r1]. cbn [fst snd] in *.
  destruct r1 as [|c [|d t']].
  - destruct (percent_spec digits EmptyString EmptyString) as [P1 P2].
    cbv zeta in P1, P2. rewrite P1. split; [exact H1 | cbn in *; lia].
  - destruct (percent_spec digits EmptyString (String c EmptyString)) as [P1 P2].
    cbv zeta in P1, P2. rewrite P1. split; [exact H1 | lia].
  - destruct (Ascii.eqb c "." && isDigit d).
    + destruct (span_spec isDigit (String d t')) as [S1 S2].
      destruct (span isDigit (String d t')) as [ds r]. cbn [fst snd] in *.
      destruct (percent_spec digits (String c ds) r) as [P1 P2].
      cbv zeta in P1, P2. rewrite P1. split.
      * rewrite append_cons, S1. exact H1.
      * cbn [String.length] in *. lia.
    + destruct (percent_spec digits EmptyString (String c (String d t'))) as [P1 P2].
      cbv zeta in P1, P2. rewrite P1. split; [exact H1 | lia].
Qed.

Lemma tokenizeFrom_render fuel : forall s,
  (String.length s <= fuel)%nat -> render (tokenizeFrom fuel s) = s.
Proof.
  induction fuel as [|fuel IH]; intros s Hf.
  - destruct s; [reflexivity | cbn in Hf; lia].
  - destruct s as [|ch rest]; [reflexivity|]. cbn [tokenizeFrom].
    cbn [String.length] in Hf.
    destruct (isWhitespace ch).
    { destruct (span_spec isWhitespace rest) as [H1 H2].
      destruct (span isWhitespace rest) as [v r]. cbn [fst snd] in *.
      rewrite render_cons, IH by lia. cbn [tok_value]. now rewrite append_cons, H1. }
    destruct (isLetter ch).
    { destruct (wordTail_spec rest) as [H1 H2].
      destruct (wordTail rest) as [v r]. cbn [fst snd] in *.
      rewrite render_cons, IH by lia. cbn [tok_value]. now rewrite append_cons, H1. }
    destruct (isDigit ch).
    { destruct (numberTail_spec rest) as [H1 H2].
      destruct (numberTail rest) as [v r]. cbn [fst snd] in *.
      rewrite render_cons, IH by lia. cbn [tok_value]. now rewrite append_cons, H1. }
    destruct (Normalize.memChar ch PUNCTUATION_CHARS).
    { destruct rest as [|c1 [|c2 rest']];
        try (rewrite render_cons, IH by (cbn [String.length] in *; lia); reflexivity).
      destruct (Ascii.eqb ch "." && Ascii.eqb c1 "." && Ascii.eqb c2 ".") eqn:E.
      - apply andb_true_iff in E as [E E3]. apply andb_true_iff in E as [E1 E2].
        apply Ascii.eqb_eq in E1, E2, E3. subst.
        rewrite render_cons, IH by (cbn [String.length] in *; lia). reflexivity.
      - rewrite render_cons, IH by (cbn [String.length] in *; lia). reflexivity. }
    rewrite render_cons, IH by lia. reflexivity.
Qed.

Lemma tokenizeFrom_shape fuel : forall s,
  Forall (fun t => exists c r, tok_value t = String c r
                               /\ tok_type t = classifyChar c /\ tok_meta t = None)
    (tokenizeFrom fuel s).
Proof.
  induction fuel as [|fuel IH]; intros s; [constructor|].
  destruct s as [|ch rest]; [constructor|]. cbn [tokenizeFrom]. unfold classifyChar in *.
  destruct (isWhitespace ch) eqn:W.
  { destruct (span isWhitespace rest) as [v r]. constructor; [|apply IH].
    do 2 eexists. split; [reflexivity|]. cbn [tok_type tok_value tok_meta]. now rewrite W. }
  destruct (isLetter ch) eqn:L.
  { destruct (wordTail rest) as [v r]. constructor; [|apply IH].
    do 2 eexists. split; [reflexivity|]. cbn [tok_type tok_value tok_meta]. now rewrite W, L. }
  destruct (isDigit ch) eqn:D.
  { destruct (numberTail rest) as [v r]. constructor; [|apply IH].
    do 2 eexists. split; [reflexivity|]. cbn [tok_type tok_value tok_meta]. now rewrite W, L, D. }
  destruct (Normalize.memChar ch PUNCTUATION_CHARS) eqn:P.
  { assert (One : exists c r, tok_value (mkToken TPunct (String ch EmptyString) None)
                              = String c r
                              /\ tok_type (mkToken TPunct (String ch EmptyString) None)
                                 = (if isWhitespace c then TWhitespace
                                    else if isLetter c then TWord
                                    else if isDigit c then TNumber
                                    else if Normalize.memChar c PUNCTUATION_CHARS
                                         then TPunct else TSymbol)
                              /\ tok_meta (mkToken TPunct (String ch EmptyString) None)
                                 = None).
    { do 2 eexists. split; [reflexivity|]. cbn [tok_type tok_value tok_meta]. now rewrite W, L, D, P. }
    destruct rest as [|c1 [|c2 rest']]; try (constructor; [exact One | apply IH]).
    destruct (Ascii.eqb ch "." && Ascii.eqb c1 "." && Ascii.eqb c2 ".");
      constructor; try apply IH; [|exact One].
    do 2 eexists. split; [reflexivity|]. split; reflexivity. }
  constructor; [|apply IH].
  do 2 eexists. split; [reflexivity|]. cbn [tok_type tok_value tok_meta]. now rewrite W, L, D, P.
Qed.

Lemma tokenize_render input : render (tokenize input) = input.
Proof. apply tokenizeFrom_render. unfold tokenize. lia. Qed.

End TokenizerFacts.

(** X13.  Tokenizing is lossless: rendering the tokens of any input
    gives the input back, character for character.  In particular the
    loop of [tokenize] always reaches the end of the input. *)
Theorem render_tokenize (input : string) :
  Tokenizer.render (Tokenizer.tokenize input) = input.
Proof. apply tokenize_render. Qed.

(** X14.  No token of [tokenize] is empty, and the type of each token is
    the class of its first character: white space, letter, digit and
    punctuation mark give [whitespace], [word], [number] and [punct], any
    other character gives [symbol].  Fresh tokens carry no metadata. *)
Theorem token_type_is_class_of_first_char (input : string) :
  Forall (fun t => exists c r,
            Tokenizer.tok_value t = String c r
            /\ Tokenizer.tok_type t = Tokenizer.classifyChar c
            /\ Tokenizer.tok_meta t = None)
    (Tokenizer.tokenize input).
Proof. apply tokenizeFrom_shape. Qed.

(** ** The output-transform pipeline *)

Section MergeFacts.
Import Lexicon Tokenizer Transforms.

Lemma merge_enabled base lex arch ov :
  otc_enabled (mergeOutputTransformsConfig base lex arch ov)
  = default (if present (arch ≫= aot_pipeline) then true
             else default false (base ≫= pot_enabled))
      ((ov ≫= oto_outputTransforms) ≫= pot_enabled).
Proof.
  unfold mergeOutputTransformsConfig. cbv zeta.
  destruct ov as [[[o|] m]|]; cbn [mbind option_bind oto_outputTransforms];
    destruct (present (arch ≫= aot_pipeline));
    destruct (present (lex ≫= lot_defaults));
    destruct base as [b|]; cbn [mbind option_bind otc_enabled otc_pipeline];
    repeat match goal with
           | |- context [if ?c then _ else _] => destruct c
           end;
    try destruct (pot_enabled o); try destruct (pot_enabled b); reflexivity.
Qed.

Lemma merge_pipeline base lex arch ov :
  otc_pipeline (mergeOutputTransformsConfig base lex arch ov)
  = let fromBase := default [] (base ≫= pot_pipeline) in
    let withLexicon :=
      if present (lex ≫= lot_defaults) && (length fromBase =? 0)%nat
      then default [] (lex ≫= lot_defaults) else fromBase in
    let withArchetype :=
      if present (arch ≫= aot_pipeline) then default [] (arch ≫= aot_pipeline)
      else withLexicon in
    match (ov ≫= oto_outputTransforms) ≫= pot_pipeline with
    | Some p =>
        match default TextGenerator.replace (ov ≫= oto_mergeMode) with
        | TextGenerator.append => withArchetype ++ p
        | TextGenerator.replace => p
        end
    | None => withArchetype
    end.
Proof.
  unfold mergeOutputTransformsConfig, present. cbv zeta.
  destruct ov as [[[o|] m]|], arch as [[[[|a ap]|]]|], lex as [[[[|l lp]|]]|],
    base as [b|];
    cbn [mbind option_bind oto_outputTransforms oto_mergeMode aot_pipeline
         lot_defaults otc_enabled otc_pipeline andb default length Nat.eqb
         DEFAULT_OUTPUT_TRANSFORMS_CONFIG];
    try (destruct (pot_pipeline b) as [[|x xs]|]);
    cbn [mbind option_bind default length Nat.eqb otc_pipeline andb];
    try (destruct (pot_pipeline o));
    try (destruct m as [[]|]); reflexivity.
Qed.

End MergeFacts.

Section PipelineFacts.
Import Lexicon Tokenizer Transforms.
Variable compile : string -> option (string -> bool).

Lemma executePipeline_off text config registry baseSeed traceEnabled :
  otc_enabled config = false \/ otc_pipeline config = [] ->
  executePipeline compile text config registry baseSeed traceEnabled
  = Ok (mkPipelineResult text (tokenize text) []).
Proof.
  intros H. unfold executePipeline.
  destruct H as [-> | ->]; [reflexivity|]. now rewrite orb_true_r.
Qed.

Lemma render_values ts ts' :
  map tok_value ts = map tok_value ts' -> render ts = render ts'.
Proof.
  revert ts'. induction ts as [|t ts IH]; intros [|t' ts'] H; try discriminate.
  - reflexivity.
  - injection H as Hv Hrest. rewrite !render_cons, Hv. f_equal. now apply IH.
Qed.

Lemma protectToken_keeps cfg regs t :
  tok_value (protectToken cfg regs t) = tok_value t
  /\ tok_type (protectToken cfg regs t) = tok_type t.
Proof. unfold protectToken. destruct (0 <? length _)%nat; split; reflexivity. Qed.

Lemma applyProtection_keeps tokens config tokens' :
  applyProtection compile tokens config = Ok tokens' ->
  map tok_value tokens' = map tok_value tokens
  /\ map tok_type tokens' = map tok_type tokens.
Proof.
  unfold applyProtection. destruct (compileAll _ _) as [regs|e]; [|discriminate].
  intros [= <-]. rewrite !map_map. split; apply map_ext; intros t;
    apply protectToken_keeps.
Qed.

Lemma collectValidSteps_unknown pipeline registry :
  (forall step, In step pipeline -> get registry (step_id step) = None) ->
  collectValidSteps pipeline registry false = Ok []
  /\ (forall step rest, pipeline = step :: rest ->
        collectValidSteps pipeline registry true
        = Throw (unknownTransform (step_id step))).
Proof.
  intros H. split.
  - induction pipeline as [|step rest IH]; [reflexivity|]. cbn [collectValidSteps].
    rewrite (H step) by now left. apply IH. intros s Hs. apply H. now right.
  - intros step rest ->. cbn [collectValidSteps]. now rewrite (H step) by now left.
Qed.

Lemma collectValidSteps_sound pipeline registry strict : forall steps,
  collectValidSteps pipeline registry strict = Ok steps ->
  (length steps <= length pipeline)%nat
  /\ forall step t, In (step, t) steps ->
       In step pipeline /\ get registry (step_id step) = Some t.
Proof.
  induction pipeline as [|step rest IH]; intros steps; cbn [collectValidSteps].
  - intros [= <-]. split; [cbn; lia | intros ? ? []].
  - destruct (get registry (step_id step)) as [t|] eqn:G.
    + destruct (collectValidSteps rest registry strict) as [steps'|e]; [|discriminate].
      intros [= <-]. destruct (IH steps' eq_refl) as [L S]. split; [cbn; lia|].
      intros s t' [[= <- <-]|Hin]; [split; [now left | exact G]|].
      destruct (S _ _ Hin). split; [now right | assumption].
    + destruct strict; [discriminate|]. intros Hs.
      destruct (IH steps Hs) as [L S]. split; [cbn; lia|].
      intros s t' Hin. destruct (S _ _ Hin). split; [now right | assumption].
Qed.

Lemma insertByOrder_Permutation s sorted :
  Permutation (insertByOrder s sorted) (s :: sorted).
Proof.
  induction sorted as [|y rest IH]; [reflexivity|]. cbn [insertByOrder].
  destruct (orderOf y <=? orderOf s)%Z; [|reflexivity].
  etransitivity; [apply perm_skip, IH | apply perm_swap].
Qed.

Lemma sortByOrder_Permutation steps : Permutation (sortByOrder steps) steps.
Proof.
  unfold sortByOrder.
  assert (H : forall acc, Permutation (fold_left (fun sorted s => insertByOrder s sorted)
                                         steps acc) (steps ++ acc)).
  { induction steps as [|s steps IH]; intros acc; cbn [fold_left]; [reflexivity|].
    etransitivity; [apply IH|].
    etransitivity; [apply Permutation_app_head, insertByOrder_Permutation|].
    symmetry. apply Permutation_middle. }
  specialize (H []). now rewrite app_nil_r in H.
Qed.

Lemma runSteps_applied config baseSeed traceEnabled steps : forall idx tokens applied r,
  runSteps config baseSeed traceEnabled steps idx tokens applied = Ok r ->
  exists more,
    snd r = applied ++ more /\ (length more <= length steps)%nat
    /\ forall id, In id more -> exists step t, In (step, t) steps /\ t_id t = id.
Proof.
  induction steps as [|[step t] rest IH]; intros idx tokens applied r; cbn [runSteps].
  - intros [= <-]. exists []. cbn [snd length]. rewrite app_nil_r.
    split; [reflexivity|]. split; [lia|]. intros ? [].
  - destruct (negb (v_valid _)).
    + destruct (otc_strict config); [discriminate|]. intros H.
      destruct (IH _ _ _ _ H) as (more & E & L & S). exists more.
      split; [exact E|]. split; [cbn; lia|].
      intros id Hid. destruct (S id Hid) as (s' & t' & Hin & Ht). eauto using in_cons.
    + intros H. destruct (IH _ _ _ _ H) as (more & E & L & S).
      exists (t_id t :: more). split; [now rewrite E, <- app_assoc|].
      split; [cbn; lia|].
      intros id [<-|Hid]; [exists step, t; split; [now left | reflexivity]|].
      destruct (S id Hid) as (s' & t' & Hin & Ht). eauto using in_cons.
Qed.

End PipelineFacts.

Section RegistryFacts.
Import Lexicon Tokenizer Transforms.

Lemma get_mapSet_eq id t r : get (mapSet id t r) id = Some t.
Proof.
  unfold get. induction r as [|[k v] rest IH]; cbn [mapSet List.find fst].
  - now rewrite String.eqb_refl.
  - destruct (String.eqb k id) eqn:E; cbn [List.find fst]; rewrite E; [reflexivity | exact IH].
Qed.

Lemma get_mapSet_ne id id' t r : id' <> id -> get (mapSet id t r) id' = get r id'.
Proof.
  intros Hne. unfold get. induction r as [|[k v] rest IH]; cbn [mapSet List.find fst].
  - destruct (String.eqb id id') eqn:E; [|reflexivity].
    apply String.eqb_eq in E. congruence.
  - destruct (String.eqb k id) eqn:E; cbn [List.find fst].
    + apply String.eqb_eq in E. subst k.
      destruct (String.eqb id id') eqn:E'; [|reflexivity].
      apply String.eqb_eq in E'. congruence.
    + destruct (String.eqb k id'); [reflexivity | exact IH].
Qed.

Lemma has_get r id : has r id = match get r id with Some _ => true | None => false end.
Proof.
  unfold has, get. induction r as [|[k v] rest IH]; [reflexivity|].
  cbn [existsb List.find fst]. destruct (String.eqb k id); [reflexivity | exact IH].
Qed.

Lemma length_mapSet id t r :
  length (mapSet id t r) = if has r id then length r else S (length r).
Proof.
  unfold has. induction r as [|[k v] rest IH]; [reflexivity|].
  cbn [mapSet existsb fst]. destruct (String.eqb k id); [reflexivity|].
  cbn [orb length]. rewrite IH. now destruct (existsb _ rest).
Qed.

End RegistryFacts.

(** X15.  How the four sources of an output-transform configuration
    combine.  Transforms are enabled by the per-call override when it
    says so either way; otherwise they are enabled when the archetype
    brings a non-empty pipeline, whatever the base configuration says;
    otherwise by the base configuration; otherwise they are off.  The
    steps are those of the base configuration, replaced by the lexicon
    defaults only when the base has none, replaced by a non-empty
    archetype pipeline, and then replaced by the per-call pipeline or,
    in append mode, extended with it.  With no source at all the result
    is the default configuration. *)
Theorem merge_precedence
    (base : option Transforms.PartialOutputTransformsConfig)
    (lex : option Transforms.LexiconOutputTransforms)
    (arch : option Transforms.ArchetypeOutputTransforms)
    (ov : option Transforms.OutputTransformsOverride) :
  Transforms.otc_enabled (Transforms.mergeOutputTransformsConfig base lex arch ov)
  = default (if Transforms.present (arch ≫= Transforms.aot_pipeline) then true
             else default false (base ≫= Transforms.pot_enabled))
      ((ov ≫= Transforms.oto_outputTransforms) ≫= Transforms.pot_enabled)
  /\ Transforms.otc_pipeline (Transforms.mergeOutputTransformsConfig base lex arch ov)
     = (let fromBase := default [] (base ≫= Transforms.pot_pipeline) in
        let withLexicon :=
          if Transforms.present (lex ≫= Transforms.lot_defaults)
             && (length fromBase =? 0)%nat
          then default [] (lex ≫= Transforms.lot_defaults) else fromBase in
        let withArchetype :=
          if Transforms.present (arch ≫= Transforms.aot_pipeline)
          then default [] (arch ≫= Transforms.aot_pipeline)
          else withLexicon in
        match (ov ≫= Transforms.oto_outputTransforms) ≫= Transforms.pot_pipeline with
        | Some p =>
            match default TextGenerator.replace (ov ≫= Transforms.oto_mergeMode) with
            | TextGenerator.append => withArchetype ++ p
            | TextGenerator.replace => p
            end
        | None => withArchetype
        end)
  /\ Transforms.mergeOutputTransformsConfig None None None None
     = Transforms.DEFAULT_OUTPUT_TRANSFORMS_CONFIG.
Proof.
  split; [apply merge_enabled|]. split; [apply merge_pipeline | reflexivity].
Qed.

(** X16.  When the configuration is not enabled, or its pipeline is
    empty, [executePipeline] hands the text back unchanged, with its
    tokens and no transform applied, whatever the registry, the seed and
    the protection patterns.  Hence a per-call override with
    [enabled: false] switches every configured transform off, and the
    default transforms of a lexicon alone never change a text: they fill
    the pipeline but do not enable it. *)
Theorem pipeline_off_returns_text
    (compile : string -> option (string -> bool)) (text : string)
    (registry : Transforms.TransformRegistry) (baseSeed : Z) (traceEnabled : bool) :
  (forall config,
     Transforms.otc_enabled config = false \/ Transforms.otc_pipeline config = [] ->
     Transforms.executePipeline compile text config registry baseSeed traceEnabled
     = Ok (Transforms.mkPipelineResult text (Tokenizer.tokenize text) []))
  /\ (forall base lex arch pipeline protection strict autoOrder mode,
        Transforms.executePipeline compile text
          (Transforms.mergeOutputTransformsConfig base lex arch
             (Some (Transforms.mkOTOverride
                      (Some (Transforms.mkPartialOT (Some false) pipeline protection
                               strict autoOrder)) mode)))
          registry baseSeed traceEnabled
        = Ok (Transforms.mkPipelineResult text (Tokenizer.tokenize text) []))
  /\ (forall lex,
        Transforms.executePipeline compile text
          (Transforms.mergeOutputTransformsConfig None lex None None)
          registry baseSeed traceEnabled
        = Ok (Transforms.mkPipelineResult text (Tokenizer.tokenize text) [])).
Proof.
  split; [|split].
  - intros config H. now apply executePipeline_off.
  - intros. apply executePipeline_off. left. rewrite merge_enabled. reflexivity.
  - intros lex. apply executePipeline_off. left. rewrite merge_enabled. reflexivity.
Qed.

Lemma pipeline_off_returns_text_witness :
  Transforms.executePipeline (fun _ => None) "Keep me."
    (Transforms.mkOT true [] Transforms.DEFAULT_PROTECTION_CONFIG true None)
    Transforms.emptyRegistry 42 false
  = Ok (Transforms.mkPipelineResult "Keep me." (Tokenizer.tokenize "Keep me.") []).
Proof.
  apply (proj1 (pipeline_off_returns_text (fun _ => None) "Keep me."
                  Transforms.emptyRegistry 42 false)).
  right. reflexivity.
Defined.

Section UnknownSteps.
Import Lexicon Tokenizer Transforms.

(** In lenient mode the result lists the steps the registry knows, in
    pipeline order, each with its transform. *)
Lemma collectValidSteps_lenient_known pipeline registry :
  collectValidSteps pipeline registry false
  = Ok (omap (fun step => pair step <$> get registry (step_id step)) pipeline).
Proof.
  induction pipeline as [|step rest IH]; [reflexivity|].
  cbn [collectValidSteps omap list_omap]. destruct (get registry (step_id step)) as [t|].
  - rewrite IH. reflexivity.
  - exact IH.
Qed.

Lemma collectValidSteps_skip registry unknown rest before :
  get registry (step_id unknown) = None ->
  collectValidSteps (before ++ unknown :: rest) registry false
  = collectValidSteps (before ++ rest) registry false.
Proof.
  intros H. induction before as [|s before IH]; cbn [app collectValidSteps].
  - now rewrite H.
  - destruct (get registry (step_id s)); [now rewrite IH | exact IH].
Qed.

Lemma collectValidSteps_refuse registry unknown rest known :
  get registry (step_id unknown) = None ->
  (forall s, In s known -> get registry (step_id s) <> None) ->
  collectValidSteps (known ++ unknown :: rest) registry true
  = Throw (unknownTransform (step_id unknown)).
Proof.
  intros H K. induction known as [|s known IH]; cbn [app collectValidSteps].
  - now rewrite H.
  - destruct (get registry (step_id s)) eqn:G.
    + rewrite IH; [reflexivity|]. intros s' Hs'. apply K. now right.
    + destruct (K s (or_introl eq_refl) G).
Qed.

Lemma collectValidSteps_all_known registry pipeline :
  (forall s, In s pipeline -> get registry (step_id s) <> None) ->
  collectValidSteps pipeline registry true = collectValidSteps pipeline registry false.
Proof.
  intros K. induction pipeline as [|s rest IH]; [reflexivity|]. cbn [collectValidSteps].
  destruct (get registry (step_id s)) eqn:G.
  - rewrite IH; [reflexivity|]. intros s' Hs'. apply K. now right.
  - destruct (K s (or_introl eq_refl) G).
Qed.

(** The loop over the steps reads [strict] and [protection] only. *)
Lemma runSteps_config config config' baseSeed traceEnabled steps :
  otc_strict config = otc_strict config' ->
  otc_protection config = otc_protection config' ->
  forall idx tokens applied,
    runSteps config baseSeed traceEnabled steps idx tokens applied
    = runSteps config' baseSeed traceEnabled steps idx tokens applied.
Proof.
  intros Hs Hp. induction steps as [|[step t] steps IH]; intros idx tokens applied;
    [reflexivity|].
  cbn [runSteps]. rewrite Hs, Hp.
  destruct (negb _); [destruct (otc_strict config'); [reflexivity | apply IH] | apply IH].
Qed.

End UnknownSteps.

(** X17.  A step whose id the registry does not hold is skipped in
    lenient mode and refused in strict mode, wherever it stands in the
    pipeline.  In lenient mode [collectValidSteps] resolves the pipeline
    as if the step were absent, and its result lists exactly the steps
    the registry knows, in order; a pipeline with the unknown step and
    some other step runs as the pipeline without it.  In strict mode the
    first unknown step, after any number of known ones, makes
    [collectValidSteps] and the whole call throw [Unknown transform ID]
    with its id; a pipeline of known steps is resolved as in lenient
    mode. *)
Theorem unknown_transforms_are_skipped_or_refused
    (compile : string -> option (string -> bool))
    (registry : Transforms.TransformRegistry)
    (before : list Lexicon.TransformStep) (unknown : Lexicon.TransformStep)
    (rest : list Lexicon.TransformStep) :
  Transforms.get registry (Lexicon.step_id unknown) = None ->
  Transforms.collectValidSteps (before ++ unknown :: rest) registry false
  = Transforms.collectValidSteps (before ++ rest) registry false
  /\ (forall pipeline,
        Transforms.collectValidSteps pipeline registry false
        = Ok (omap (fun step =>
                      pair step <$> Transforms.get registry (Lexicon.step_id step))
                pipeline))
  /\ (forall text enabled protection autoOrder baseSeed traceEnabled,
        before ++ rest <> [] ->
        Transforms.executePipeline compile text
          (Transforms.mkOT enabled (before ++ unknown :: rest) protection false autoOrder)
          registry baseSeed traceEnabled
        = Transforms.executePipeline compile text
            (Transforms.mkOT enabled (before ++ rest) protection false autoOrder)
            registry baseSeed traceEnabled)
  /\ ((forall s, In s before -> Transforms.get registry (Lexicon.step_id s) <> None) ->
      Transforms.collectValidSteps (before ++ unknown :: rest) registry true
      = Throw (Transforms.unknownTransform (Lexicon.step_id unknown))
      /\ forall text protection autoOrder baseSeed traceEnabled tokens,
           Transforms.applyProtection compile (Tokenizer.tokenize text) protection
           = Ok tokens ->
           Transforms.executePipeline compile text
             (Transforms.mkOT true (before ++ unknown :: rest) protection true autoOrder)
             registry baseSeed traceEnabled
           = Throw (Transforms.unknownTransform (Lexicon.step_id unknown)))
  /\ (forall pipeline,
        (forall s, In s pipeline ->
                   Transforms.get registry (Lexicon.step_id s) <> None) ->
        Transforms.collectValidSteps pipeline registry true
        = Transforms.collectValidSteps pipeline registry false).
Proof.
  intros H. split; [now apply collectValidSteps_skip|].
  split; [intros pipeline; apply collectValidSteps_lenient_known|].
  split; [|split].
  - intros text enabled protection autoOrder baseSeed traceEnabled Hne.
    unfold Transforms.executePipeline.
    cbn [Transforms.otc_enabled Transforms.otc_pipeline Transforms.otc_protection
         Transforms.otc_strict Transforms.otc_autoOrder].
    rewrite (collectValidSteps_skip registry unknown rest before H).
    assert (L1 : (length (before ++ unknown :: rest) =? 0)%nat = false).
    { rewrite length_app. cbn [length]. apply Nat.eqb_neq. lia. }
    assert (L2 : (length (before ++ rest) =? 0)%nat = false).
    { apply Nat.eqb_neq. destruct (before ++ rest); [contradiction | discriminate]. }
    rewrite L1, L2. destruct (negb enabled || false); [reflexivity|].
    destruct (Transforms.applyProtection _ _ _) as [tokens|e]; [|reflexivity].
    destruct (Transforms.collectValidSteps _ _ _) as [steps|e]; [|reflexivity].
    now rewrite (runSteps_config
                   (Transforms.mkOT enabled (before ++ unknown :: rest) protection false
                      autoOrder)
                   (Transforms.mkOT enabled (before ++ rest) protection false autoOrder)).
  - intros K.
    pose proof (collectValidSteps_refuse registry unknown rest before H K) as R.
    split; [exact R|].
    intros text protection autoOrder baseSeed traceEnabled tokens Ht.
    unfold Transforms.executePipeline.
    cbn [Transforms.otc_enabled Transforms.otc_pipeline Transforms.otc_protection
         Transforms.otc_strict Transforms.otc_autoOrder negb orb].
    assert (L1 : (length (before ++ unknown :: rest) =? 0)%nat = false).
    { rewrite length_app. cbn [length]. apply Nat.eqb_neq. lia. }
    rewrite L1, Ht, R. reflexivity.
  - apply collectValidSteps_all_known.
Qed.

Lemma unknown_transforms_are_skipped_or_refused_witness :
  let blank := Transforms.mkTransform "blank" None
                 (fun _ => Transforms.mkValidation true [])
                 (fun _ => Transforms.mkOutput [] None) in
  let registry := Transforms.register blank Transforms.emptyRegistry in
  let known := Lexicon.mkTransformStep "blank" None in
  let unknown := Lexicon.mkTransformStep "nope" None in
  Transforms.executePipeline (fun _ => None) "Hi there"
    (Transforms.mkOT true [known; unknown] Transforms.DEFAULT_PROTECTION_CONFIG
       false None) registry 42 false
  = Ok (Transforms.mkPipelineResult "" [] ["blank"])
  /\ Transforms.executePipeline (fun _ => None) "Hi there"
       (Transforms.mkOT true [known; unknown] Transforms.DEFAULT_PROTECTION_CONFIG
          true None) registry 42 false
     = Throw (Transforms.unknownTransform "nope").
Proof.
  cbv zeta.
  set (blank := Transforms.mkTransform "blank" None _ _).
  destruct (unknown_transforms_are_skipped_or_refused (fun _ => None)
              (Transforms.register blank Transforms.emptyRegistry)
              [Lexicon.mkTransformStep "blank" None]
              (Lexicon.mkTransformStep "nope" None) [] eq_refl)
    as (_ & _ & Hskip & Hstrict & _).
  split.
  - etransitivity;
      [exact (Hskip "Hi there" true Transforms.DEFAULT_PROTECTION_CONFIG None 42%Z false
                ltac:(discriminate))|].
    vm_compute. reflexivity.
  - destruct Hstrict as [_ Hs].
    + intros s [<- | []]. vm_compute. discriminate.
    + apply (Hs "Hi there" Transforms.DEFAULT_PROTECTION_CONFIG None 42%Z false
               (map (Transforms.protectToken
                       (Transforms.spreadProtection Transforms.DEFAULT_PROTECTION_CONFIG
                          Transforms.DEFAULT_PROTECTION_CONFIG) [])
                  (Tokenizer.tokenize "Hi there"))).
      vm_compute. reflexivity.
Defined.

(** X18.  [applyProtection] only marks tokens: the values and the types
    of the tokens, and so the text they render to, are unchanged.
    Punctuation and whitespace tokens are never marked.  With no custom
    pattern configured it cannot throw. *)
Theorem protection_only_marks_tokens
    (compile : string -> option (string -> bool))
    (tokens : list Tokenizer.Token) (config : Transforms.ProtectionConfig) :
  (forall tokens',
     Transforms.applyProtection compile tokens config = Ok tokens' ->
     map Tokenizer.tok_value tokens' = map Tokenizer.tok_value tokens
     /\ map Tokenizer.tok_type tokens' = map Tokenizer.tok_type tokens
     /\ Tokenizer.render tokens' = Tokenizer.render tokens
     /\ Forall2 (fun t t' =>
                   Tokenizer.tok_type t = Tokenizer.TPunct
                   \/ Tokenizer.tok_type t = Tokenizer.TWhitespace -> t' = t)
          tokens tokens')
  /\ (default [] (Transforms.customProtectedRegex config) = [] ->
      exists tokens', Transforms.applyProtection compile tokens config = Ok tokens').
Proof.
  split.
  - intros tokens' H. destruct (applyProtection_keeps compile _ _ _ H) as [Hv Hty].
    split; [exact Hv|]. split; [exact Hty|]. split; [now apply render_values|].
    unfold Transforms.applyProtection in H.
    destruct (Transforms.compileAll _ _) as [regs|e]; [|discriminate].
    injection H as <-. clear Hv Hty.
    induction tokens as [|t ts IH]; constructor; [|exact IH].
    intros Hp. unfold Transforms.protectToken.
    destruct Hp as [-> | ->]; reflexivity.
  - intros Hc. unfold Transforms.applyProtection.
    assert (E : default [] (Transforms.customProtectedRegex
                 (Transforms.spreadProtection Transforms.DEFAULT_PROTECTION_CONFIG config))
                = []).
    { cbn. destruct (Transforms.customProtectedRegex config); [exact Hc | reflexivity]. }
    rewrite E. cbn [Transforms.compileAll]. eauto.
Qed.

Lemma protection_only_marks_tokens_witness :
  exists tokens',
    Transforms.applyProtection (fun _ => None) (Tokenizer.tokenize "NASA sent 2 probes.")
      Transforms.DEFAULT_PROTECTION_CONFIG = Ok tokens'
    /\ Tokenizer.render tokens' = "NASA sent 2 probes.".
Proof.
  destruct (protection_only_marks_tokens (fun _ => None)
              (Tokenizer.tokenize "NASA sent 2 probes.")
              Transforms.DEFAULT_PROTECTION_CONFIG) as [H1 H2].
  destruct (H2 eq_refl) as [tokens' E]. exists tokens'. split; [exact E|].
  destruct (H1 tokens' E) as (_ & _ & Hr & _). rewrite Hr. apply tokenize_render.
Defined.

(** X19.  The registry is a map keyed by transform id: after
    [register(t)], [get(t.id)] returns [t] and every other id is looked
    up as before; registering under an id already present replaces the
    entry and does not lengthen [list()], a new id adds one entry; and
    [has(id)] holds exactly when [get(id)] is not null. *)
Theorem registry_register_get
    (r : Transforms.TransformRegistry) (t : Transforms.IOutputTransform)
    (id : string) :
  Transforms.get (Transforms.register t r) (Transforms.t_id t) = Some t
  /\ (id <> Transforms.t_id t ->
      Transforms.get (Transforms.register t r) id = Transforms.get r id)
  /\ length (Transforms.registryList (Transforms.register t r))
     = (if Transforms.has r (Transforms.t_id t)
        then length (Transforms.registryList r)
        else S (length (Transforms.registryList r)))
  /\ Transforms.has r id
     = match Transforms.get r id with Some _ => true | None => false end.
Proof.
  unfold Transforms.register, Transforms.registryList. rewrite !length_map.
  split; [apply get_mapSet_eq|]. split; [apply get_mapSet_ne|].
  split; [apply length_mapSet | apply has_get].
Qed.

Lemma registry_register_get_witness :
  let t := Transforms.mkTransform "a" None
             (fun _ => Transforms.mkValidation true [])
             (fun i => Transforms.mkOutput (Transforms.in_tokens i) None) in
  Transforms.get (Transforms.register t Transforms.emptyRegistry) "b" = None.
Proof.
  cbv zeta.
  destruct (registry_register_get Transforms.emptyRegistry
              (Transforms.mkTransform "a" None
                 (fun _ => Transforms.mkValidation true [])
                 (fun i => Transforms.mkOutput (Transforms.in_tokens i) None)) "b")
    as (_ & H & _).
  rewrite H; [reflexivity | discriminate].
Defined.

(** X20.  Whenever [executePipeline] returns, the text of the result is
    the rendering of its tokens, no more transforms were applied than
    the pipeline has steps, and every id in [transformsApplied] is the
    id of a transform that the registry holds under the id of some step
    of the pipeline. *)
Theorem pipeline_result_is_consistent
    (compile : string -> option (string -> bool)) (text : string)
    (config : Transforms.OutputTransformsConfig)
    (registry : Transforms.TransformRegistry) (baseSeed : Z) (traceEnabled : bool)
    (result : Transforms.PipelineResult) :
  Transforms.executePipeline compile text config registry baseSeed traceEnabled
  = Ok result ->
  Transforms.pr_text result = Tokenizer.render (Transforms.pr_tokens result)
  /\ (length (Transforms.pr_transformsApplied result)
      <= length (Transforms.otc_pipeline config))%nat
  /\ forall id, In id (Transforms.pr_transformsApplied result) ->
       exists step t,
         In step (Transforms.otc_pipeline config)
         /\ Transforms.get registry (Lexicon.step_id step) = Some t
         /\ Transforms.t_id t = id.
Proof.
  unfold Transforms.executePipeline.
  destruct (negb _ || _).
  { intros [= <-]. cbn. split; [symmetry; apply tokenize_render|].
    split; [lia | intros ? []]. }
  destruct (Transforms.applyProtection _ _ _) as [tokens|e]; [|discriminate].
  destruct (Transforms.collectValidSteps _ _ _) as [steps|e] eqn:C; [|discriminate].
  destruct (collectValidSteps_sound _ _ _ _ C) as [L S].
  set (steps' := if default false (Transforms.otc_autoOrder config)
                 then Transforms.sortByOrder steps else steps).
  assert (P : Permutation steps' steps).
  { unfold steps'. destruct (default false _); [apply sortByOrder_Permutation | reflexivity]. }
  destruct (Transforms.runSteps _ _ _ steps' _ _ _) as [[toks applied]|e] eqn:R;
    [|discriminate].
  intros [= <-]. cbn [Transforms.pr_text Transforms.pr_tokens Transforms.pr_transformsApplied].
  destruct (runSteps_applied _ _ _ _ _ _ _ _ R) as (more & E & Lm & Sm).
  cbn [snd app] in E. subst applied. split; [reflexivity|]. split.
  - rewrite (Permutation_length P) in Lm. lia.
  - intros id Hid. destruct (Sm id Hid) as (step & t & Hin & Ht).
    apply (Permutation_in _ P) in Hin. destruct (S _ _ Hin) as [H1 H2]. eauto.
Qed.

Lemma pipeline_result_is_consistent_witness :
  let id := Transforms.mkTransform "id" None
              (fun _ => Transforms.mkValidation true [])
              (fun i => Transforms.mkOutput (Transforms.in_tokens i) None) in
  exists result,
    Transforms.executePipeline (fun _ => None) "One two."
      (Transforms.mkOT true [Lexicon.mkTransformStep "id" None]
         Transforms.DEFAULT_PROTECTION_CONFIG false None)
      (Transforms.register id Transforms.emptyRegistry) 42 false = Ok result
    /\ Transforms.pr_text result = Tokenizer.render (Transforms.pr_tokens result).
Proof.
  cbv zeta. eexists. split; [vm_compute; reflexivity|].
  refine (proj1 (pipeline_result_is_consistent (fun _ => None) "One two."
                   (Transforms.mkOT true [Lexicon.mkTransformStep "id" None]
                      Transforms.DEFAULT_PROTECTION_CONFIG false None)
                   (Transforms.register
                      (Transforms.mkTransform "id" None
                         (fun _ => Transforms.mkValidation true [])
                         (fun i => Transforms.mkOutput (Transforms.in_tokens i) None))
                      Transforms.emptyRegistry) 42 false _ _)).
  vm_compute. reflexivity.
Defined.

(** ** The reverseWords transform *)

Section ReverseFacts.
Import Lexicon Tokenizer Transforms ReverseWords.
Variable up lo : ascii -> list ascii.

Ltac each_char c :=
  destruct c as [[] [] [] [] [] [] [] []]; vm_compute; try reflexivity; try discriminate;
  intros; try discriminate; try reflexivity.

Lemma letter_ascii c : isLetter c = true -> isAsciiUnit c = true.
Proof. each_char c. Qed.

Lemma upper_ascii c : isAsciiUnit c = true -> isAsciiUnit (Normalize.toUpperCaseChar c) = true.
Proof. each_char c. Qed.

Lemma lower_ascii c : isAsciiUnit c = true -> isAsciiUnit (RuleEngine.toLowerCaseChar c) = true.
Proof. each_char c. Qed.

Lemma upper_letter c : isLetter c = true -> isLetter (Normalize.toUpperCaseChar c) = true.
Proof. each_char c. Qed.

Lemma lower_letter c : isLetter c = true -> isLetter (RuleEngine.toLowerCaseChar c) = true.
Proof. each_char c. Qed.

(** On a unit of the ASCII range the loop writes one unit. *)
Lemma transferCase_cons w ws c s :
  isAsciiUnit c = true ->
  transferCase up lo (w :: ws) (c :: s)
  = (if isUpperCase w then Normalize.toUpperCaseChar c else RuleEngine.toLowerCaseChar c)
    :: transferCase up lo ws s.
Proof.
  intros H. cbn [transferCase]. unfold toUpperCaseUnit, toLowerCaseUnit. rewrite H.
  now destruct (isUpperCase w).
Qed.

Lemma transferCase_nil c s :
  isAsciiUnit c = true ->
  transferCase up lo [] (c :: s) = RuleEngine.toLowerCaseChar c :: transferCase up lo [] s.
Proof. intros H. cbn [transferCase]. unfold toLowerCaseUnit. now rewrite H. Qed.

Lemma transferCase_length word s :
  Forall (fun c => isAsciiUnit c = true) s ->
  length (transferCase up lo word s) = length s.
Proof.
  intros H. revert word. induction H as [|c s Hc _ IH]; intros word; [reflexivity|].
  destruct word; [rewrite transferCase_nil | rewrite transferCase_cons]; try exact Hc;
    cbn [length]; now rewrite IH.
Qed.

Lemma transferCase_app a1 : forall b1 a2 b2, length a1 = length b1 ->
  transferCase up lo (a1 ++ a2) (b1 ++ b2)
  = transferCase up lo a1 b1 ++ transferCase up lo a2 b2.
Proof.
  induction a1 as [|x a1 IH]; intros [|y b1] a2 b2 L; try discriminate.
  - reflexivity.
  - cbn [app transferCase]. rewrite <- app_assoc. f_equal. apply IH. now injection L.
Qed.

Lemma transferCase_rev a : forall b, length a = length b ->
  Forall (fun c => isAsciiUnit c = true) b ->
  rev (transferCase up lo a b) = transferCase up lo (rev a) (rev b).
Proof.
  induction a as [|x a IH]; intros [|y b] L Hb; try discriminate; [reflexivity|].
  injection L as L. inversion Hb as [|? ? Hy Hb']; subst.
  rewrite transferCase_cons by exact Hy. cbn [rev].
  rewrite transferCase_app by now rewrite !length_rev.
  rewrite IH by assumption. now rewrite transferCase_cons by exact Hy.
Qed.

(** The two characters that [transferCase] writes at a position where
    the word has [x] and the rearranged word has [y]. *)
Lemma case_back x y :
  isLetter x = true -> isLetter y = true ->
  (if isUpperCase (if isUpperCase x then Normalize.toUpperCaseChar y
                   else RuleEngine.toLowerCaseChar y)
   then Normalize.toUpperCaseChar
          (if isUpperCase y then Normalize.toUpperCaseChar x
           else RuleEngine.toLowerCaseChar x)
   else RuleEngine.toLowerCaseChar
          (if isUpperCase y then Normalize.toUpperCaseChar x
           else RuleEngine.toLowerCaseChar x)) = x.
Proof.
  intros Hx Hy.
  assert (U : forall c, isLetter c = true ->
            isUpperCase (Normalize.toUpperCaseChar c) = true) by (intros c; each_char c).
  assert (L : forall c, isLetter c = true ->
            isUpperCase (RuleEngine.toLowerCaseChar c) = false) by (intros c; each_char c).
  assert (UU : forall c, isUpperCase c = true ->
            Normalize.toUpperCaseChar (Normalize.toUpperCaseChar c) = c
            /\ Normalize.toUpperCaseChar (RuleEngine.toLowerCaseChar c) = c)
    by (intros c; each_char c; split; reflexivity).
  assert (LL : forall c, isLetter c = true -> isUpperCase c = false ->
            RuleEngine.toLowerCaseChar (Normalize.toUpperCaseChar c) = c
            /\ RuleEngine.toLowerCaseChar (RuleEngine.toLowerCaseChar c) = c)
    by (intros c; each_char c; split; reflexivity).
  destruct (isUpperCase x) eqn:Ex.
  - rewrite (U y Hy). destruct (UU x Ex). now destruct (isUpperCase y).
  - rewrite (L y Hy). destruct (LL x Hx Ex). now destruct (isUpperCase y).
Qed.

Lemma cased_ascii (b : bool) c :
  isLetter c = true ->
  isAsciiUnit (if b then Normalize.toUpperCaseChar c else RuleEngine.toLowerCaseChar c)
  = true.
Proof.
  intros H. apply letter_ascii. destruct b; [now apply upper_letter | now apply lower_letter].
Qed.

Lemma letters_ascii l :
  Forall (fun c => isLetter c = true) l -> Forall (fun c => isAsciiUnit c = true) l.
Proof. apply List.Forall_impl. exact letter_ascii. Qed.

Lemma transferCase_back a : forall b, length a = length b ->
  Forall (fun c => isLetter c = true) a ->
  Forall (fun c => isLetter c = true) b ->
  transferCase up lo (transferCase up lo a b) (transferCase up lo b a) = a.
Proof.
  induction a as [|x a IH]; intros [|y b] L Ha Hb; try discriminate; [reflexivity|].
  injection L as L. inversion Ha; inversion Hb; subst.
  rewrite (transferCase_cons x a y b) by now apply letter_ascii.
  rewrite (transferCase_cons y b x a) by now apply letter_ascii.
  rewrite transferCase_cons by now apply cased_ascii.
  rewrite case_back by assumption. f_equal. now apply IH.
Qed.

Lemma transferCase_one w c :
  isLetter c = true ->
  transferCase up lo [w] [c]
  = [if isUpperCase w then Normalize.toUpperCaseChar c else RuleEngine.toLowerCaseChar c].
Proof. intros H. now rewrite transferCase_cons by now apply letter_ascii. Qed.

Lemma snoc_cases (l : list ascii) : l = [] \/ exists inner last, l = inner ++ [last].
Proof.
  destruct l as [|x l]; [now left|]. right.
  exists (removelast (x :: l)), (List.last (x :: l) x).
  now apply app_removelast_last.
Qed.

Lemma reverseChars_length word params :
  jsTruthy (preserveCase params) = false
  \/ Forall (fun c => isAsciiUnit c = true) word ->
  length (reverseChars up lo word params) = length word.
Proof.
  intros H. unfold reverseChars. destruct (length word <=? 1)%nat; [reflexivity|].
  destruct (strictEquals _ _).
  - destruct (jsTruthy _); [|apply length_rev].
    destruct H as [H | H]; [discriminate|].
    rewrite transferCase_length by now apply List.Forall_rev. apply length_rev.
  - destruct (length word <=? 2)%nat eqn:E2; [reflexivity|].
    destruct word as [|first rest]; [reflexivity|].
    destruct (snoc_cases rest) as [-> | (inner & last & ->)]; [discriminate|].
    rewrite removelast_last, last_last.
    assert (L : length (first :: rev inner ++ [last])
                = length (first :: inner ++ [last])).
    { cbn [length]. now rewrite !length_app, length_rev. }
    destruct (jsTruthy _); [|exact L].
    destruct H as [H | H]; [discriminate|].
    rewrite transferCase_length; [exact L|].
    inversion H as [|? ? Hf Hr]; subst. apply Forall_app in Hr as [Hi Hl].
    constructor; [exact Hf|]. apply Forall_app. split; [now apply List.Forall_rev | exact Hl].
Qed.

Lemma reverseChars_twice word params :
  jsTruthy (preserveCase params) = false
  \/ Forall (fun c => isLetter c = true) word ->
  reverseChars up lo (reverseChars up lo word params) params = word.
Proof.
  intros H.
  assert (L : length (reverseChars up lo word params) = length word).
  { apply reverseChars_length. destruct H as [H | H]; [now left | right].
    now apply letters_ascii. }
  unfold reverseChars in *.
  destruct (length word <=? 1)%nat eqn:E1.
  { now rewrite E1. }
  destruct (strictEquals _ _).
  { rewrite L, E1. destruct (jsTruthy _).
    - destruct H as [H | H]; [discriminate|].
      rewrite transferCase_rev, rev_involutive;
        [| now rewrite length_rev | now apply List.Forall_rev, letters_ascii].
      apply transferCase_back; [now rewrite length_rev | exact H |].
      now apply List.Forall_rev.
    - apply rev_involutive. }
  destruct (length word <=? 2)%nat eqn:E2.
  { now rewrite E1, E2. }
  destruct word as [|first rest]; [reflexivity|].
  rewrite L, E1, E2. clear L.
  destruct (snoc_cases rest) as [-> | (inner & last & ->)]; [discriminate|].
  rewrite removelast_last, last_last.
  destruct (jsTruthy _).
  - destruct H as [H | H]; [discriminate|].
    change (first :: inner ++ [last]) with ([first] ++ inner ++ [last]) in *.
    change (first :: rev inner ++ [last]) with ([first] ++ rev inner ++ [last]).
    apply Forall_app in H as [Hf H]. apply Forall_app in H as [Hi Hl].
    inversion Hf as [|? ? Hfirst _]; inversion Hl as [|? ? Hlast _]; subst.
    rewrite !transferCase_app by (now rewrite ?length_rev).
    rewrite !transferCase_one by assumption.
    set (x := if isUpperCase first then _ else _).
    set (z := if isUpperCase last then _ else _).
    cbn [app]. rewrite removelast_last, last_last.
    rewrite transferCase_rev, rev_involutive;
      [| now rewrite length_rev | now apply List.Forall_rev, letters_ascii].
    change (x :: transferCase up lo inner (rev inner) ++ [z])
      with ([x] ++ transferCase up lo inner (rev inner) ++ [z]).
    change (x :: transferCase up lo (rev inner) inner ++ [z])
      with ([x] ++ transferCase up lo (rev inner) inner ++ [z]).
    assert (Ai : Forall (fun c => isAsciiUnit c = true) inner) by now apply letters_ascii.
    assert (Ar : Forall (fun c => isAsciiUnit c = true) (rev inner))
      by now apply List.Forall_rev.
    rewrite !transferCase_app
      by (now rewrite ?transferCase_length, ?length_rev by assumption).
    rewrite transferCase_back; [| now rewrite length_rev | exact Hi |].
    2:{ now apply List.Forall_rev. }
    assert (Lx : isLetter x = true)
      by (subst x; destruct (isUpperCase first); [now apply upper_letter | now apply lower_letter]).
    assert (Lz : isLetter z = true)
      by (subst z; destruct (isUpperCase last); [now apply upper_letter | now apply lower_letter]).
    rewrite !transferCase_one by assumption. subst x z.
    now rewrite !case_back by assumption.
  - now rewrite removelast_last, last_last, rev_involutive.
Qed.

Lemma length_string_of_list l :
  String.length (string_of_list_ascii l) = length l.
Proof. induction l as [|c l IH]; [reflexivity|]. cbn. now rewrite IH. Qed.

Lemma length_list_of_string s :
  length (list_ascii_of_string s) = String.length s.
Proof. induction s as [|c s IH]; [reflexivity|]. cbn. now rewrite IH. Qed.

Lemma allChars_Forall p s :
  allChars p s = true -> Forall (fun c => p c = true) (list_ascii_of_string s).
Proof.
  induction s as [|c s IH]; cbn; [constructor|].
  intros H. apply andb_true_iff in H as [H1 H2]. constructor; auto.
Qed.

Lemma reverseWord_twice word params :
  jsTruthy (preserveCase params) = false \/ allChars isLetter word = true ->
  reverseWord up lo (reverseWord up lo word params) params = word.
Proof.
  intros H. unfold reverseWord.
  rewrite list_ascii_of_string_of_list_ascii, reverseChars_twice.
  - apply string_of_list_ascii_of_string.
  - destruct H as [H | H]; [now left | right; now apply allChars_Forall].
Qed.

(** What one pass of [apply] does to a token. *)
Lemma apply_tokens input :
  out_tokens (apply up lo input)
  = map (fun token =>
           if match tok_type token with TWord => true | _ => false end
              && negb (isProtected token)
           then mkToken (tok_type token)
                  (reverseWord up lo (tok_value token) (withDefaults (in_params input)))
                  (tok_meta token)
           else token) (in_tokens input).
Proof.
  unfold apply. cbn [out_tokens]. apply map_ext. intros t.
  destruct (tok_type t), (isProtected t); reflexivity.
Qed.

Lemma apply_twice tokens params r1 r2 p1 p2 t1 t2 :
  jsTruthy (preserveCase (withDefaults params)) = false
  \/ Forall (fun t => tok_type t = TWord -> allChars isLetter (tok_value t) = true)
       tokens ->
  out_tokens (apply up lo
                (mkInput (out_tokens (apply up lo (mkInput tokens params r1 p1 t1)))
                   params r2 p2 t2)) = tokens.
Proof.
  intros H. rewrite !apply_tokens. cbn [in_tokens in_params].
  rewrite map_map. rewrite <- (map_id tokens) at 2.
  assert (H' : Forall (fun t => tok_type t = TWord ->
                 jsTruthy (preserveCase (withDefaults params)) = false
                 \/ allChars isLetter (tok_value t) = true) tokens).
  { destruct H as [H | H].
    - apply List.Forall_forall. intros t _ _. now left.
    - eapply List.Forall_impl; [|exact H]. intros t Ht Hw. right. auto. }
  clear H. induction H' as [|t ts Ht _ IH]; [reflexivity|].
  cbn [map]. f_equal; [|exact IH].
  destruct t as [ty v m]. cbn [tok_type tok_value tok_meta] in *.
  destruct ty; try reflexivity.
  unfold isProtected. cbn [tok_meta andb].
  destruct (match m ≫= tm_protected with Some true => true | _ => false end) eqn:P;
    cbn [negb]; cbn [tok_type tok_value tok_meta andb]; rewrite ?P; cbn [negb];
    [reflexivity|].
  cbn [tok_type tok_value tok_meta]. now rewrite reverseWord_twice by auto.
Qed.

Lemma noApostrophe_app a b :
  allChars (fun c => negb (Ascii.eqb c "'")) (a +:+ b) = true ->
  allChars (fun c => negb (Ascii.eqb c "'")) b = true.
Proof.
  induction a as [|c a IH]; [auto|]. rewrite append_cons. cbn [allChars].
  intros H. apply andb_true_iff in H as [_ H]. auto.
Qed.

Lemma wordTail_letters s :
  allChars (fun c => negb (Ascii.eqb c "'")) s = true -> allChars isLetter (fst (wordTail s)) = true.
Proof.
  induction s as [|c s IH]; [reflexivity|]. cbn [allChars wordTail].
  intros H. apply andb_true_iff in H as [Hc H].
  destruct (isLetter c) eqn:L.
  - specialize (IH H). destruct (wordTail s) as [a b]. cbn [fst allChars] in *.
    now rewrite L, IH.
  - apply negb_true_iff in Hc. rewrite Hc. reflexivity.
Qed.

Lemma tokenizeFrom_words fuel : forall s, allChars (fun c => negb (Ascii.eqb c "'")) s = true ->
  Forall (fun t => tok_type t = TWord -> allChars isLetter (tok_value t) = true)
    (tokenizeFrom fuel s).
Proof.
  induction fuel as [|fuel IH]; intros s Hs; [constructor|].
  destruct s as [|ch rest]; [constructor|]. cbn [tokenizeFrom].
  cbn [allChars] in Hs. apply andb_true_iff in Hs as [_ Hs].
  destruct (isWhitespace ch).
  { destruct (span_spec isWhitespace rest) as [H1 _].
    destruct (span isWhitespace rest) as [v r]. cbn [fst snd] in *.
    constructor; [discriminate|]. apply IH. rewrite <- H1 in Hs.
    now apply noApostrophe_app in Hs. }
  destruct (isLetter ch) eqn:L.
  { destruct (wordTail_spec rest) as [H1 _].
    pose proof (wordTail_letters rest Hs) as W.
    destruct (wordTail rest) as [v r]. cbn [fst snd] in *.
    constructor.
    - intros _. cbn [tok_value allChars]. now rewrite L, W.
    - apply IH. rewrite <- H1 in Hs. now apply noApostrophe_app in Hs. }
  destruct (isDigit ch).
  { destruct (numberTail_spec rest) as [H1 _].
    destruct (numberTail rest) as [v r]. cbn [fst snd] in *.
    constructor; [discriminate|]. apply IH. rewrite <- H1 in Hs.
    now apply noApostrophe_app in Hs. }
  destruct (Normalize.memChar ch PUNCTUATION_CHARS).
  { destruct rest as [|c1 [|c2 rest']];
      try (constructor; [discriminate | now apply IH]).
    destruct (Ascii.eqb ch "." && Ascii.eqb c1 "." && Ascii.eqb c2 ".").
    - constructor; [discriminate|]. apply IH.
      cbn [allChars] in Hs. apply andb_true_iff in Hs as [_ Hs].
      now apply andb_true_iff in Hs as [_ Hs].
    - constructor; [discriminate | now apply IH]. }
  constructor; [discriminate | now apply IH].
Qed.

Lemma sortByOrder_pair (s : ResolvedStep) : sortByOrder [s; s] = [s; s].
Proof.
  unfold sortByOrder. cbn [fold_left insertByOrder]. now rewrite Z.leb_refl.
Qed.

End ReverseFacts.

(** X21.  Applying [reverseWord] twice with the same parameters gives
    the word back when case is not preserved, or, with case preservation,
    when the word consists of letters only; with case preservation a word
    with an apostrophe can lose its capital ([Ab'] comes back as [ab']).
    The length of the word is kept when case is not preserved or every
    unit of the word is in the ASCII range; beyond ASCII it need not be:
    where the upper case of a unit has two units, as that of the sharp s
    has, a word of two units becomes one of three. *)
Theorem reverseWord_is_an_involution
    (upperBeyondAscii lowerBeyondAscii : ascii -> list ascii)
    (word : string) (params : ReverseWords.ReverseWordsParams) :
  (ReverseWords.jsTruthy (ReverseWords.preserveCase params) = false
   \/ Transforms.allChars Tokenizer.isLetter word = true ->
   ReverseWords.reverseWord upperBeyondAscii lowerBeyondAscii
     (ReverseWords.reverseWord upperBeyondAscii lowerBeyondAscii word params) params
   = word)
  /\ (ReverseWords.jsTruthy (ReverseWords.preserveCase params) = false
      \/ Transforms.allChars ReverseWords.isAsciiUnit word = true ->
      String.length
        (ReverseWords.reverseWord upperBeyondAscii lowerBeyondAscii word params)
      = String.length word)
  /\ ReverseWords.reverseWord upperBeyondAscii lowerBeyondAscii
       (ReverseWords.reverseWord upperBeyondAscii lowerBeyondAscii "Ab'"
          ReverseWords.DEFAULT_PARAMS)
       ReverseWords.DEFAULT_PARAMS = "ab'"
  /\ (forall sharp s1 s2,
        ReverseWords.isAsciiUnit sharp = false ->
        upperBeyondAscii sharp = [s1; s2] ->
        String.length
          (ReverseWords.reverseWord upperBeyondAscii lowerBeyondAscii
             (String "A" (String sharp EmptyString)) ReverseWords.DEFAULT_PARAMS)
        = 3%nat).
Proof.
  split; [|split; [|split]].
  - apply reverseWord_twice.
  - intros H. unfold ReverseWords.reverseWord.
    rewrite length_string_of_list, reverseChars_length, length_list_of_string;
      [reflexivity|].
    destruct H as [H | H]; [now left | right; now apply allChars_Forall].
  - vm_compute. reflexivity.
  - intros sharp s1 s2 Hs Hu. unfold ReverseWords.reverseWord.
    rewrite length_string_of_list.
    cbn [list_ascii_of_string ReverseWords.reverseChars length Nat.leb
         ReverseWords.mode ReverseWords.preserveCase ReverseWords.DEFAULT_PARAMS
         ReverseWords.jsTruthy rev app ReverseWords.transferCase].
    change (Lexicon.strictEquals (Lexicon.VStr "full") (Lexicon.VStr "full")) with true.
    cbv iota. cbn [ReverseWords.transferCase].
    change (ReverseWords.isUpperCase "A") with true.
    unfold ReverseWords.toUpperCaseUnit at 1. rewrite Hs, Hu.
    rewrite length_app. cbn [length].
    destruct (ReverseWords.isUpperCase sharp);
      unfold ReverseWords.toUpperCaseUnit, ReverseWords.toLowerCaseUnit;
      reflexivity.
Qed.

Lemma reverseWord_is_an_involution_witness :
  ReverseWords.reverseWord (fun c => [c]) (fun c => [c]) "Hello"
    ReverseWords.DEFAULT_PARAMS = "Olleh"
  /\ ReverseWords.reverseWord (fun c => [c]) (fun c => [c]) "Olleh"
       ReverseWords.DEFAULT_PARAMS = "Hello".
Proof.
  split; [vm_compute; reflexivity|].
  change "Olleh"
    with (ReverseWords.reverseWord (fun c => [c]) (fun c => [c]) "Hello"
            ReverseWords.DEFAULT_PARAMS) at 1.
  apply (reverseWord_is_an_involution (fun c => [c]) (fun c => [c]) "Hello"
           ReverseWords.DEFAULT_PARAMS).
  right. vm_compute. reflexivity.
Defined.

(** X22.  Running the pipeline with the same [reverseWords] step twice
    gives the input text back, for any protection settings without
    custom patterns, in strict or lenient mode and with or without
    automatic ordering, provided the step's parameters are valid and
    either case is not preserved or the text has no apostrophe; both
    steps are reported as applied. *)
Theorem reverseWords_twice_restores_text
    (upperBeyondAscii lowerBeyondAscii : ascii -> list ascii)
    (compile : string -> option (string -> bool)) (text : string)
    (step : Lexicon.TransformStep) (protection : Transforms.ProtectionConfig)
    (strict : bool) (autoOrder : option bool)
    (registry : Transforms.TransformRegistry) (baseSeed : Z) (traceEnabled : bool) :
  let params := default [] (Lexicon.step_params step) in
  Transforms.get registry (Lexicon.step_id step)
  = Some (ReverseWords.reverseWordsTransform upperBeyondAscii lowerBeyondAscii) ->
  Transforms.v_valid (ReverseWords.validateParams params) = true ->
  default [] (Transforms.customProtectedRegex protection) = [] ->
  ReverseWords.jsTruthy
    (ReverseWords.preserveCase (ReverseWords.withDefaults params)) = false
  \/ Transforms.allChars (fun c => negb (Ascii.eqb c "'")) text = true ->
  exists result,
    Transforms.executePipeline compile text
      (Transforms.mkOT true [step; step] protection strict autoOrder)
      registry baseSeed traceEnabled = Ok result
    /\ Transforms.pr_text result = text
    /\ Transforms.pr_transformsApplied result = ["reverseWords"; "reverseWords"].
Proof.
  intros params Hreg Hvalid Hcustom Hcase.
  unfold Transforms.executePipeline.
  cbn [Transforms.otc_enabled Transforms.otc_pipeline Transforms.otc_protection
       Transforms.otc_strict Transforms.otc_autoOrder negb orb length Nat.eqb].
  unfold Transforms.applyProtection.
  assert (E : default [] (Transforms.customProtectedRegex
               (Transforms.spreadProtection Transforms.DEFAULT_PROTECTION_CONFIG
                  protection)) = []).
  { cbn. destruct (Transforms.customProtectedRegex protection); [exact Hcustom | reflexivity]. }
  rewrite E. cbn [Transforms.compileAll].
  set (cfg := Transforms.spreadProtection _ _).
  set (tokens := map (Transforms.protectToken cfg []) (Tokenizer.tokenize text)).
  cbn [Transforms.collectValidSteps]. rewrite Hreg.
  cbv beta iota.
  assert (S : (if default false autoOrder
               then Transforms.sortByOrder
                      [(step, (ReverseWords.reverseWordsTransform upperBeyondAscii lowerBeyondAscii));
                       (step, (ReverseWords.reverseWordsTransform upperBeyondAscii lowerBeyondAscii))]
               else [(step, (ReverseWords.reverseWordsTransform upperBeyondAscii lowerBeyondAscii));
                     (step, (ReverseWords.reverseWordsTransform upperBeyondAscii lowerBeyondAscii))])
              = [(step, (ReverseWords.reverseWordsTransform upperBeyondAscii lowerBeyondAscii));
                 (step, (ReverseWords.reverseWordsTransform upperBeyondAscii lowerBeyondAscii))]).
  { destruct (default false autoOrder); [apply sortByOrder_pair | reflexivity]. }
  match goal with
  | |- context [Transforms.runSteps ?c ?b ?t ?st ?i ?tk ?ap] =>
      replace (Transforms.runSteps c b t st i tk ap)
        with (Transforms.runSteps c b t
                [(step, (ReverseWords.reverseWordsTransform upperBeyondAscii lowerBeyondAscii));
                 (step, (ReverseWords.reverseWordsTransform upperBeyondAscii lowerBeyondAscii))] i tk ap)
        by (f_equal; symmetry; exact S)
  end. clear S. cbn [Transforms.runSteps].
  cbn [Transforms.t_validateParams ReverseWords.reverseWordsTransform
       Transforms.t_apply Transforms.t_id].
  fold params. rewrite Hvalid. cbn [negb app].
  eexists. split; [reflexivity|].
  cbn [Transforms.pr_text Transforms.pr_transformsApplied]. split; [|reflexivity].
  rewrite apply_twice.
  - unfold tokens. rewrite (render_values _ (Tokenizer.tokenize text)).
    + apply tokenize_render.
    + rewrite map_map. apply map_ext. intros t.
      apply (protectToken_keeps cfg [] t).
  - destruct Hcase as [Hc | Hc]; [now left | right].
    unfold tokens. apply List.Forall_forall. intros t Ht.
    apply in_map_iff in Ht as (t0 & <- & Ht0).
    destruct (protectToken_keeps cfg [] t0) as [-> ->].
    pose proof (tokenizeFrom_words (String.length text) text Hc) as W.
    rewrite List.Forall_forall in W. exact (W t0 Ht0).
Qed.

Lemma reverseWords_twice_restores_text_witness :
  exists result,
    Transforms.executePipeline (fun _ => None) "Hello brave NASA world."
      (Transforms.mkOT true
         [Lexicon.mkTransformStep "reverseWords" None;
          Lexicon.mkTransformStep "reverseWords" None]
         Transforms.DEFAULT_PROTECTION_CONFIG true (Some true))
      (Transforms.register
         (ReverseWords.reverseWordsTransform (fun c => [c]) (fun c => [c]))
         Transforms.emptyRegistry)
      7 false = Ok result
    /\ Transforms.pr_text result = "Hello brave NASA world.".
Proof.
  destruct (reverseWords_twice_restores_text (fun c => [c]) (fun c => [c])
              (fun _ => None) "Hello brave NASA world."
              (Lexicon.mkTransformStep "reverseWords" None)
              Transforms.DEFAULT_PROTECTION_CONFIG true (Some true)
              (Transforms.register
                 (ReverseWords.reverseWordsTransform (fun c => [c]) (fun c => [c]))
                 Transforms.emptyRegistry) 7 false)
    as (result & E & T & _).
  - vm_compute. reflexivity.
  - vm_compute. reflexivity.
  - reflexivity.
  - right. vm_compute. reflexivity.
  - exists result. split; [exact E | exact T].
Defined.

(** ** Ordering of pipeline steps *)

Section OrderFacts.
Import Lexicon Tokenizer Transforms PipelineOrder.

Lemma insertByOrder_In s sorted x :
  In x (insertByOrder s sorted) -> x = s \/ In x sorted.
Proof.
  induction sorted as [|y rest IH]; cbn [insertByOrder].
  - intros [<- | []]. now left.
  - destruct (orderOf y <=? orderOf s)%Z.
    + intros [<- | H]; [right; now left|]. destruct (IH H); [now left | right; now right].
    + intros [<- | H]; [now left | now right].
Qed.

Lemma insertByOrder_sorted s sorted :
  StronglySorted (fun a b => (orderOf a <= orderOf b)%Z) sorted ->
  StronglySorted (fun a b => (orderOf a <= orderOf b)%Z) (insertByOrder s sorted).
Proof.
  induction 1 as [|y rest Hs IH Hy]; cbn [insertByOrder].
  - constructor; constructor.
  - destruct (orderOf y <=? orderOf s)%Z eqn:E.
    + constructor; [exact IH|]. apply List.Forall_forall. intros x Hx.
      apply insertByOrder_In in Hx as [-> | Hx]; [now apply Z.leb_le|].
      rewrite List.Forall_forall in Hy. auto.
    + apply Z.leb_gt in E. constructor; [now constructor|].
      constructor; [lia|]. eapply List.Forall_impl; [|exact Hy].
      intros x Hx. cbn beta in *. lia.
Qed.

Lemma fold_insert_sorted steps : forall acc,
  StronglySorted (fun a b => (orderOf a <= orderOf b)%Z) acc ->
  StronglySorted (fun a b => (orderOf a <= orderOf b)%Z)
    (fold_left (fun sorted s => insertByOrder s sorted) steps acc).
Proof.
  induction steps as [|s steps IH]; intros acc H; [exact H|].
  cbn [fold_left]. apply IH. now apply insertByOrder_sorted.
Qed.

Lemma insertByOrder_filter k s sorted :
  StronglySorted (fun a b => (orderOf a <= orderOf b)%Z) sorted ->
  List.filter (fun x => (orderOf x =? k)%Z) (insertByOrder s sorted)
  = List.filter (fun x => (orderOf x =? k)%Z) sorted
    ++ List.filter (fun x => (orderOf x =? k)%Z) [s].
Proof.
  induction 1 as [|y rest Hs IH Hy]; cbn [insertByOrder]; [reflexivity|].
  destruct (orderOf y <=? orderOf s)%Z eqn:E.
  - cbn [List.filter]. rewrite IH. cbn [List.filter].
    destruct (orderOf y =? k)%Z; reflexivity.
  - apply Z.leb_gt in E. cbn [List.filter app].
    destruct (orderOf s =? k)%Z eqn:Ek; [|now rewrite app_nil_r].
    apply Z.eqb_eq in Ek.
    assert (Ny : (orderOf y =? k)%Z = false) by (apply Z.eqb_neq; lia).
    rewrite Ny.
    assert (Nr : List.filter (fun x => (orderOf x =? k)%Z) rest = []).
    { clear IH Hs. induction Hy as [|x xs Hx _ IH]; [reflexivity|].
      cbn [List.filter].
      assert (Nx : (orderOf x =? k)%Z = false) by (apply Z.eqb_neq; lia).
      now rewrite Nx. }
    now rewrite Nr.
Qed.

Lemma fold_insert_filter k steps : forall acc,
  StronglySorted (fun a b => (orderOf a <= orderOf b)%Z) acc ->
  List.filter (fun x => (orderOf x =? k)%Z)
    (fold_left (fun sorted s => insertByOrder s sorted) steps acc)
  = List.filter (fun x => (orderOf x =? k)%Z) acc
    ++ List.filter (fun x => (orderOf x =? k)%Z) steps.
Proof.
  induction steps as [|s steps IH]; intros acc H; [now rewrite app_nil_r|].
  cbn [fold_left]. rewrite IH by now apply insertByOrder_sorted.
  rewrite insertByOrder_filter by exact H. rewrite <- app_assoc. f_equal.
  cbn [List.filter]. now destruct (orderOf s =? k)%Z.
Qed.

(** What [checkPipelineOrder] compares: the orders of the steps that the
    registry resolves. *)
Lemma collectValidSteps_lenient pipeline registry :
  exists steps, collectValidSteps pipeline registry false = Ok steps.
Proof.
  induction pipeline as [|step rest [steps IH]]; [now exists []|].
  cbn [collectValidSteps]. destruct (get registry (step_id step)).
  - rewrite IH. eauto.
  - eauto.
Qed.

Lemma checkFrom_sorted pipeline registry : forall steps lastOrder,
  collectValidSteps pipeline registry false = Ok steps ->
  checkFrom pipeline registry lastOrder = []
  <-> Sorted Z.le (match lastOrder with
                   | Some l => l :: map orderOf steps
                   | None => map orderOf steps
                   end).
Proof.
  induction pipeline as [|step rest IH]; intros steps lastOrder H.
  - injection H as <-. cbn. destruct lastOrder; split; auto.
  - cbn [collectValidSteps checkFrom] in *.
    destruct (get registry (step_id step)) as [t|]; [|now apply IH].
    destruct (collectValidSteps rest registry false) as [steps'|] eqn:C; [|discriminate].
    injection H as <-. specialize (IH steps' (Some (default 50%Z (t_preferredOrder t))) eq_refl).
    cbn [map]. unfold orderOf at 1 3. cbn [snd].
    destruct lastOrder as [l|].
    + destruct (default 50%Z (t_preferredOrder t) <? l)%Z eqn:E.
      * split; [discriminate|]. intros S. apply Z.ltb_lt in E.
        inversion S as [|? ? _ Hd]; subst. inversion Hd; subst. lia.
      * apply Z.ltb_ge in E. cbn [app]. rewrite IH. split.
        -- intros S. constructor; [exact S|]. now constructor.
        -- intros S. now inversion S.
    + cbn [app]. exact IH.
Qed.

Lemma collectValidSteps_resolved steps registry :
  (forall s, In s steps -> get registry (step_id (fst s)) = Some (snd s)) ->
  forall strict, collectValidSteps (map fst steps) registry strict = Ok steps.
Proof.
  intros H strict. induction steps as [|[step t] rest IH]; [reflexivity|].
  cbn [map fst collectValidSteps].
  pose proof (H (step, t) (or_introl eq_refl)) as Hg. cbn [fst snd] in Hg.
  rewrite Hg. rewrite IH; [reflexivity|].
  intros s Hs. apply H. now right.
Qed.

Lemma sorted_orders steps :
  StronglySorted (fun a b => (orderOf a <= orderOf b)%Z) steps ->
  StronglySorted Z.le (map orderOf steps).
Proof.
  induction 1 as [|x xs _ IH Hx]; cbn [map]; constructor; [exact IH|].
  apply List.Forall_forall. intros o Ho. apply in_map_iff in Ho as (y & <- & Hy).
  rewrite List.Forall_forall in Hx. auto.
Qed.

End OrderFacts.

(** X23.  The automatic ordering sorts the resolved steps by preferred
    order (50 when a transform states none) without losing or adding a
    step, and it is stable: steps of equal order keep the order they have
    in the pipeline. *)
Theorem auto_order_is_a_stable_sort (steps : list Transforms.ResolvedStep) :
  StronglySorted (fun a b => (Transforms.orderOf a <= Transforms.orderOf b)%Z)
    (Transforms.sortByOrder steps)
  /\ Permutation (Transforms.sortByOrder steps) steps
  /\ forall k,
       List.filter (fun s => (Transforms.orderOf s =? k)%Z) (Transforms.sortByOrder steps)
       = List.filter (fun s => (Transforms.orderOf s =? k)%Z) steps.
Proof.
  split; [|split].
  - apply fold_insert_sorted. constructor.
  - apply sortByOrder_Permutation.
  - intros k. unfold Transforms.sortByOrder.
    rewrite fold_insert_filter by constructor. reflexivity.
Qed.

(** X24.  [checkPipelineOrder] returns no warning exactly when the
    preferred orders of the steps the registry knows never decrease
    along the pipeline; unknown steps are ignored.  So a pipeline put in
    automatic order gets no warning. *)
Theorem order_warnings_iff_unsorted
    (pipeline : list Lexicon.TransformStep) (registry : Transforms.TransformRegistry)
    (steps : list Transforms.ResolvedStep) :
  Transforms.collectValidSteps pipeline registry false = Ok steps ->
  (PipelineOrder.checkPipelineOrder pipeline registry = []
   <-> Sorted Z.le (map Transforms.orderOf steps))
  /\ PipelineOrder.checkPipelineOrder (map fst (Transforms.sortByOrder steps)) registry
     = [].
Proof.
  intros H. split; [exact (checkFrom_sorted pipeline registry steps None H)|].
  assert (R : Transforms.collectValidSteps (map fst (Transforms.sortByOrder steps))
                registry false = Ok (Transforms.sortByOrder steps)).
  { apply collectValidSteps_resolved. intros s Hs.
    apply (Permutation_in _ (sortByOrder_Permutation steps)) in Hs.
    destruct (collectValidSteps_sound _ _ _ _ H) as [_ S].
    destruct s as [step t]. now destruct (S _ _ Hs). }
  apply (checkFrom_sorted _ _ _ None R).
  apply StronglySorted_Sorted, sorted_orders, fold_insert_sorted. constructor.
Qed.

Lemma order_warnings_iff_unsorted_witness :
  let late := Transforms.mkTransform "late" (Some 60%Z)
                (fun _ => Transforms.mkValidation true [])
                (fun i => Transforms.mkOutput (Transforms.in_tokens i) None) in
  let early := Transforms.mkTransform "early" None
                (fun _ => Transforms.mkValidation true [])
                (fun i => Transforms.mkOutput (Transforms.in_tokens i) None) in
  let registry := Transforms.register early
                    (Transforms.register late Transforms.emptyRegistry) in
  let pipeline := [Lexicon.mkTransformStep "late" None;
                   Lexicon.mkTransformStep "missing" None;
                   Lexicon.mkTransformStep "early" None] in
  length (PipelineOrder.checkPipelineOrder pipeline registry) = 1%nat
  /\ PipelineOrder.checkPipelineOrder
       (map fst (Transforms.sortByOrder
                   [(Lexicon.mkTransformStep "late" None, late);
                    (Lexicon.mkTransformStep "early" None, early)])) registry = [].
Proof.
  cbv zeta. split; [vm_compute; reflexivity|].
  refine (proj2 (order_warnings_iff_unsorted
                   [Lexicon.mkTransformStep "late" None;
                    Lexicon.mkTransformStep "missing" None;
                    Lexicon.mkTransformStep "early" None] _ _ _)).
  vm_compute. reflexivity.
Defined.

(** ** The mockCase transform *)

Section MockCaseFacts.
Import Lexicon Tokenizer Transforms MockCase.

Ltac every_char c :=
  destruct c as [[] [] [] [] [] [] [] []]; vm_compute; try reflexivity; try discriminate;
  intros; try discriminate; try reflexivity.

Lemma lower_of_upper c :
  RuleEngine.toLowerCaseChar (Normalize.toUpperCaseChar c) = RuleEngine.toLowerCaseChar c.
Proof. every_char c. Qed.

Lemma lower_of_lower c :
  RuleEngine.toLowerCaseChar (RuleEngine.toLowerCaseChar c) = RuleEngine.toLowerCaseChar c.
Proof. every_char c. Qed.

Lemma upper_of_upper c :
  Normalize.toUpperCaseChar (Normalize.toUpperCaseChar c) = Normalize.toUpperCaseChar c.
Proof. every_char c. Qed.

Lemma letter_upper c : isLetter (Normalize.toUpperCaseChar c) = isLetter c.
Proof. every_char c. Qed.

Lemma letter_lower c : isLetter (RuleEngine.toLowerCaseChar c) = isLetter c.
Proof. every_char c. Qed.

Lemma upper_is_upper c :
  isLetter c = true -> Normalize.isUpper (Normalize.toUpperCaseChar c) = true.
Proof. every_char c. Qed.

Lemma lower_not_upper c :
  isLetter c = true -> Normalize.isUpper (RuleEngine.toLowerCaseChar c) = false.
Proof. every_char c. Qed.

Lemma cased_lower (b : bool) c :
  RuleEngine.toLowerCaseChar
    (if b then Normalize.toUpperCaseChar c else RuleEngine.toLowerCaseChar c)
  = RuleEngine.toLowerCaseChar c.
Proof. destruct b; [apply lower_of_upper | apply lower_of_lower]. Qed.

Lemma alternateCase_lower word : forall startUpper,
  RuleEngine.toLowerCase (alternateCase word startUpper) = RuleEngine.toLowerCase word.
Proof.
  induction word as [|ch rest IH]; intros b; [reflexivity|]. cbn [alternateCase].
  destruct (isLetter ch); cbn [RuleEngine.toLowerCase]; rewrite IH; [|reflexivity].
  now rewrite cased_lower.
Qed.

Lemma alternateFrom_lower value : forall idx,
  RuleEngine.toLowerCase (fst (alternateFrom value idx)) = RuleEngine.toLowerCase value.
Proof.
  induction value as [|ch rest IH]; intros idx; [reflexivity|]. cbn [alternateFrom].
  destruct (isLetter ch).
  - specialize (IH (S idx)). destruct (alternateFrom rest (S idx)) as [r i].
    cbn [fst RuleEngine.toLowerCase] in *. rewrite IH. f_equal.
    destruct (idx mod 2 =? 0)%nat; [apply lower_of_lower | apply lower_of_upper].
  - specialize (IH idx). destruct (alternateFrom rest idx) as [r i].
    cbn [fst RuleEngine.toLowerCase] in *. now rewrite IH.
Qed.

Lemma randomizedCase_lower toNumber word rate : forall rng,
  RuleEngine.toLowerCase (fst (randomizedCase toNumber word rate rng))
  = RuleEngine.toLowerCase word.
Proof.
  induction word as [|ch rest IH]; intros rng; [reflexivity|]. cbn [randomizedCase].
  destruct (isLetter ch).
  - destruct (chanceOf toNumber rate rng) as [up rng1]. specialize (IH rng1).
    destruct (randomizedCase toNumber rest rate rng1) as [r rng2].
    cbn [fst RuleEngine.toLowerCase] in *. rewrite IH. f_equal. apply cased_lower.
  - specialize (IH rng). destruct (randomizedCase toNumber rest rate rng) as [r rng'].
    cbn [fst RuleEngine.toLowerCase] in *. now rewrite IH.
Qed.

Lemma toLowerCase_length s : String.length (RuleEngine.toLowerCase s) = String.length s.
Proof. induction s as [|c s IH]; [reflexivity|]. cbn. now rewrite IH. Qed.

Lemma recased_refl t : recased t t.
Proof. repeat split. Qed.

Lemma recased_word t v :
  tok_type t = TWord -> isProtected t = false ->
  RuleEngine.toLowerCase v = RuleEngine.toLowerCase (tok_value t) ->
  recased t (mkToken (tok_type t) v (tok_meta t)).
Proof.
  intros Ht Hp Hv. split; [reflexivity|]. split; [reflexivity|]. split; [exact Hv|].
  intros [H | H]; [contradiction | congruence].
Qed.

Lemma alternateTokens_recased params tokens : forall idx,
  Forall2 recased tokens (alternateTokens params tokens idx).
Proof.
  induction tokens as [|t ts IH]; intros idx; [constructor|]. cbn [alternateTokens].
  destruct (tok_type t) eqn:Ty; try (constructor; [apply recased_refl | apply IH]).
  destruct (isProtected t) eqn:P; cbn [negb]; [constructor; [apply recased_refl | apply IH]|].
  destruct (strictEquals _ _).
  - constructor; [|apply IH]. rewrite <- Ty.
    apply recased_word; auto using alternateCase_lower.
  - pose proof (alternateFrom_lower (tok_value t) idx) as L.
    destruct (alternateFrom (tok_value t) idx) as [r i]. cbn [fst] in L.
    constructor; [|apply IH]. rewrite <- Ty. now apply recased_word.
Qed.

Lemma randomizedTokens_recased toNumber params tokens : forall rng,
  Forall2 recased tokens (randomizedTokens toNumber params tokens rng).
Proof.
  induction tokens as [|t ts IH]; intros rng; [constructor|]. cbn [randomizedTokens].
  destruct (tok_type t) eqn:Ty; try (constructor; [apply recased_refl | apply IH]).
  destruct (isProtected t) eqn:P; cbn [negb]; [constructor; [apply recased_refl | apply IH]|].
  pose proof (randomizedCase_lower toNumber (tok_value t) (randomRate params) rng) as L.
  destruct (randomizedCase toNumber (tok_value t) (randomRate params) rng) as [r rng'].
  cbn [fst] in L. constructor; [|apply IH]. rewrite <- Ty. now apply recased_word.
Qed.

Lemma alternateCase_idempotent word : forall startUpper,
  alternateCase (alternateCase word startUpper) startUpper
  = alternateCase word startUpper.
Proof.
  induction word as [|ch rest IH]; intros b; [reflexivity|]. cbn [alternateCase].
  destruct (isLetter ch) eqn:L; cbn [alternateCase].
  - destruct b; rewrite ?letter_upper, ?letter_lower, L, IH;
      now rewrite ?upper_of_upper, ?lower_of_lower.
  - now rewrite L, IH.
Qed.

Lemma alternateCase_pattern word : forall startUpper i c,
  allChars isLetter word = true ->
  String.get i (alternateCase word startUpper) = Some c ->
  Normalize.isUpper c = xorb startUpper (Nat.odd i).
Proof.
  induction word as [|ch rest IH]; intros b i c Hl; [discriminate|].
  cbn [allChars] in Hl. apply andb_true_iff in Hl as [L Hl].
  cbn [alternateCase]. rewrite L. destruct i as [|i]; cbn [String.get].
  - intros [= <-]. cbn [Nat.odd]. rewrite xorb_false_r.
    destruct b; [now apply upper_is_upper | now apply lower_not_upper].
  - intros H. rewrite (IH _ _ _ Hl H). rewrite Nat.odd_succ, <- Nat.negb_odd.
    destruct b, (Nat.odd i); reflexivity.
Qed.

End MockCaseFacts.

(** X25.  Whatever its mode, parameters and random numbers, the mockCase
    transform changes nothing but the case of letters: every token keeps
    its type, its metadata, its length and its value up to case, and
    tokens that are not words or are protected are passed on unchanged. *)
Theorem mockCase_only_changes_case
    (toNumber : Lexicon.JsValue -> option Q) (input : Transforms.TransformInput) :
  Forall2
    (fun t t' =>
       Tokenizer.tok_type t' = Tokenizer.tok_type t
       /\ Tokenizer.tok_meta t' = Tokenizer.tok_meta t
       /\ RuleEngine.toLowerCase (Tokenizer.tok_value t')
          = RuleEngine.toLowerCase (Tokenizer.tok_value t)
       /\ String.length (Tokenizer.tok_value t') = String.length (Tokenizer.tok_value t)
       /\ (Tokenizer.tok_type t <> Tokenizer.TWord \/ Transforms.isProtected t = true ->
           t' = t))
    (Transforms.in_tokens input)
    (Transforms.out_tokens (MockCase.apply toNumber input)).
Proof.
  assert (H : Forall2 MockCase.recased (Transforms.in_tokens input)
                (Transforms.out_tokens (MockCase.apply toNumber input))).
  { unfold MockCase.apply. cbn [Transforms.out_tokens].
    destruct (Lexicon.strictEquals _ _);
      [apply alternateTokens_recased | apply randomizedTokens_recased]. }
  induction H as [|t t' ts ts' (H1 & H2 & H3 & H4) _ IH]; constructor; [|exact IH].
  split; [exact H1|]. split; [exact H2|]. split; [exact H3|]. split; [|exact H4].
  rewrite <- (toLowerCase_length (Tokenizer.tok_value t')), H3.
  apply toLowerCase_length.
Qed.

(** X26.  [alternateCase] is idempotent, and on a word of letters only
    it makes the characters at even positions lower case and those at
    odd positions upper case (the other way round when it starts upper). *)
Theorem alternateCase_alternates (word : string) (startUpper : bool) :
  MockCase.alternateCase (MockCase.alternateCase word startUpper) startUpper
  = MockCase.alternateCase word startUpper
  /\ (Transforms.allChars MockCase.isLetter word = true ->
      forall i c,
        String.get i (MockCase.alternateCase word startUpper) = Some c ->
        Normalize.isUpper c = xorb startUpper (Nat.odd i)).
Proof.
  split; [apply alternateCase_idempotent|].
  intros H i c. now apply alternateCase_pattern.
Qed.

Lemma alternateCase_alternates_witness :
  MockCase.alternateCase "Marlarky" false = "mArLaRkY"
  /\ Normalize.isUpper "A" = xorb false (Nat.odd 1).
Proof.
  split; [vm_compute; reflexivity|].
  apply (proj2 (alternateCase_alternates "Marlarky" false)); vm_compute; reflexivity.
Defined.

(** ** Fallback words *)

Section FallbackFacts.
Import Lexicon Config Context Gen WordProvider.

Lemma includes_In x l : LexiconStore.includes x l = true <-> In x l.
Proof.
  unfold LexiconStore.includes. rewrite existsb_exists. split.
  - intros (y & Hy & E). apply String.eqb_eq in E. now subst.
  - intros H. exists x. split; [exact H | apply String.eqb_refl].
Qed.

(** The candidates left after the exclusions. *)
Lemma remaining_In pos exclude x :
  In x (if LexiconStore.nonEmpty exclude then
          List.filter (fun w => negb (LexiconStore.includes w (default [] exclude)))
            (defaultCandidates pos)
        else defaultCandidates pos)
  <-> In x (defaultCandidates pos) /\ ~ In x (default [] exclude).
Proof.
  destruct exclude as [[|e es]|]; cbn [LexiconStore.nonEmpty default].
  - split; [intros H; split; [exact H | intros []] | now intros [H _]].
  - rewrite filter_In, negb_true_iff, <- not_true_iff_false, includes_In. reflexivity.
  - split; [intros H; split; [exact H | intros []] | now intros [H _]].
Qed.

Lemma pick_world {T} (l : list T) w :
  l <> [] ->
  exists x w', pick l w = (Ok x, w') /\ In x l /\ ctx w' = ctx w
    /\ fakerAdapter (session w') = fakerAdapter (session w)
    /\ config (session w') = config (session w).
Proof.
  intros H. unfold pick, liftRngResult.
  destruct (pick_In l (rng (session w)) H) as (x & E & Hx).
  destruct (Rng.pick l (rng (session w))) as [a r]. cbn [fst] in E. subst a.
  exists x. eexists. split; [reflexivity|]. repeat split. exact Hx.
Qed.

End FallbackFacts.

(** X27.  [getFallbackWord] honours the exclusion list as long as it
    leaves a default word for the part of speech: the word returned is
    then a default word that is not excluded, and neither the faker
    adapter nor the generation context is touched.  When every default
    word is excluded the exclusion list is given up and the word comes
    from the faker adapter (for a determiner, from the full default
    list). *)
Theorem fallback_word_respects_exclusions
    (pos : Lexicon.POS) (exclude : option (list string)) (w : Gen.World) :
  ((exists x, In x (WordProvider.defaultCandidates pos)
              /\ ~ In x (default [] exclude)) ->
   exists word w',
     WordProvider.getFallbackWord pos exclude w = (Ok word, w')
     /\ In word (WordProvider.defaultCandidates pos)
     /\ ~ In word (default [] exclude)
     /\ Gen.ctx w' = Gen.ctx w
     /\ Gen.fakerAdapter (Gen.session w') = Gen.fakerAdapter (Gen.session w))
  /\ ((forall x, In x (WordProvider.defaultCandidates pos) ->
                 In x (default [] exclude)) ->
      WordProvider.getFallbackWord pos exclude w = WordProvider.getFromFaker pos w).
Proof.
  unfold WordProvider.getFallbackWord. cbv zeta.
  set (candidates := if LexiconStore.nonEmpty exclude then _ else _).
  assert (R : forall x, In x candidates
              <-> In x (WordProvider.defaultCandidates pos)
                  /\ ~ In x (default [] exclude))
    by (intros x; apply remaining_In).
  split.
  - intros (x & Hx). apply R in Hx.
    assert (Hne : candidates <> []) by (intros E; rewrite E in Hx; destruct Hx).
    destruct candidates as [|c cs] eqn:Ec; [contradiction|]. cbn [length Nat.ltb Nat.leb].
    destruct (pick_world (c :: cs) w Hne) as (word & w' & E & Hin & Hc & Hf & _).
    exists word, w'. apply R in Hin. tauto.
  - intros Hall. destruct candidates as [|c cs]; [reflexivity|].
    destruct (proj1 (R c) (or_introl eq_refl)) as [H1 H2]. destruct (H2 (Hall c H1)).
Qed.

Lemma fallback_word_respects_exclusions_witness :
  exists word w',
    WordProvider.getFallbackWord Lexicon.conj (Some ["and"; "but"])
      (Gen.mkWorld Samples.seeded42
         (TextGenerator.createGenerationContext Samples.seeded42 None))
    = (Ok word, w')
    /\ word <> "and" /\ word <> "but".
Proof.
  destruct (proj1 (fallback_word_respects_exclusions Lexicon.conj (Some ["and"; "but"])
                     (Gen.mkWorld Samples.seeded42
                        (TextGenerator.createGenerationContext Samples.seeded42 None))))
    as (word & w' & E & _ & Hn & _).
  - exists "or". split; [vm_compute; tauto|]. cbn. intros [H | [H | []]]; discriminate.
  - exists word, w'. split; [exact E|]. cbn in Hn. split; intros ->; tauto.
Defined.

(** ** Protection of the tokens the tokenizer produces *)

Section ProtectedTokens.
Import Lexicon Tokenizer Transforms.

Ltac any_char c :=
  destruct c as [[] [] [] [] [] [] [] []]; vm_compute; try reflexivity; try discriminate;
  intros; try discriminate; try reflexivity.

(** The characters of a word token. *)
Lemma wordTail_chars_strong n : forall s, (String.length s <= n)%nat ->
  allChars (fun c => isLetter c || Ascii.eqb c "'") (fst (wordTail s)) = true.
Proof.
  induction n as [|n IH]; intros s Hn.
  - destruct s; [reflexivity | cbn in Hn; lia].
  - destruct s as [|c rest]; [reflexivity|]. cbn [wordTail].
    cbn [String.length] in Hn. destruct (isLetter c) eqn:L.
    + pose proof (IH rest ltac:(lia)) as H. destruct (wordTail rest) as [a b].
      cbn [fst allChars] in *. now rewrite L, H.
    + destruct (Ascii.eqb c "'") eqn:A; [|reflexivity].
      destruct rest as [|d rest']; [reflexivity|].
      destruct (isLetter d) eqn:D; [|reflexivity].
      cbn [String.length] in Hn. pose proof (IH rest' ltac:(lia)) as H.
      destruct (wordTail rest') as [a b]. cbn [fst allChars] in *.
      now rewrite L, A, D, H.
Qed.

Lemma tokenizeFrom_kinds fuel : forall s,
  Forall (fun t =>
            tok_meta t = None /\
            match tok_type t with
            | TWord =>
                allChars (fun c => isLetter c || Ascii.eqb c "'") (tok_value t) = true
            | TSymbol =>
                exists ch, tok_value t = String ch EmptyString
                           /\ classifyChar ch = TSymbol
            | _ => True
            end)
    (tokenizeFrom fuel s).
Proof.
  induction fuel as [|fuel IH]; intros s; [constructor|].
  destruct s as [|ch rest]; [constructor|]. cbn [tokenizeFrom].
  destruct (isWhitespace ch) eqn:W.
  { destruct (span isWhitespace rest) as [v r]. constructor; [now split | apply IH]. }
  destruct (isLetter ch) eqn:L.
  { pose proof (wordTail_chars_strong (String.length rest) rest ltac:(lia)) as H.
    destruct (wordTail rest) as [v r]. cbn [fst] in H.
    constructor; [|apply IH]. split; [reflexivity|].
    cbn [tok_type tok_value allChars]. now rewrite L, H. }
  destruct (isDigit ch) eqn:D.
  { destruct (numberTail rest) as [v r]. constructor; [now split | apply IH]. }
  destruct (Normalize.memChar ch PUNCTUATION_CHARS) eqn:P.
  { destruct rest as [|c1 [|c2 rest']]; try (constructor; [now split | apply IH]).
    destruct (Ascii.eqb ch "." && Ascii.eqb c1 "." && Ascii.eqb c2 ".");
      (constructor; [now split | apply IH]). }
  constructor; [|apply IH]. split; [reflexivity|]. cbn [tok_type tok_value]. exists ch.
  split; [reflexivity|]. unfold classifyChar. now rewrite W, L, D, P.
Qed.

Lemma prefix_chars p sub : forall value,
  allChars p value = true -> String.prefix sub value = true -> allChars p sub = true.
Proof.
  induction sub as [|c sub IH]; intros [|d value] Hv Hp; try reflexivity;
    cbn [String.prefix] in Hp; [discriminate|].
  cbn [allChars] in *. apply andb_true_iff in Hv as [Hd Hv].
  destruct (Ascii.ascii_dec c d) as [->|]; [|discriminate].
  now rewrite Hd, (IH value).
Qed.

Lemma includesStr_chars p sub value :
  allChars p value = true -> allChars p sub = false -> includesStr sub value = false.
Proof.
  intros Hv Hs. induction value as [|d value IH]; cbn [includesStr].
  - destruct (String.prefix sub "") eqn:E; [|reflexivity].
    now rewrite (prefix_chars p sub "" Hv E) in Hs.
  - destruct (String.prefix sub (String d value)) eqn:E.
    + now rewrite (prefix_chars p sub _ Hv E) in Hs.
    + cbn [allChars] in Hv. apply andb_true_iff in Hv as [_ Hv]. now apply IH.
Qed.

Lemma splitDots_none value :
  allChars (fun c => isLetter c || Ascii.eqb c "'") value = true ->
  splitDots value = (value, []).
Proof.
  induction value as [|c value IH]; [reflexivity|]. cbn [allChars splitDots].
  intros H. apply andb_true_iff in H as [Hc H]. rewrite (IH H).
  destruct (Ascii.eqb c ".") eqn:E; [|reflexivity].
  apply Ascii.eqb_eq in E. subst. discriminate.
Qed.

Lemma anyDigit_none value :
  allChars (fun c => isLetter c || Ascii.eqb c "'") value = true ->
  anyChar isDigit value = false.
Proof.
  induction value as [|c value IH]; [reflexivity|]. cbn [allChars anyChar].
  intros H. apply andb_true_iff in H as [Hc H]. rewrite (IH H), orb_false_r.
  revert Hc. any_char c.
Qed.

(** A word token is never taken for a URL, an e-mail address or code. *)
Lemma word_not_special value :
  allChars (fun c => isLetter c || Ascii.eqb c "'") value = true ->
  isUrlLike value = false /\ isEmailLike value = false /\ isCodeLike value = false.
Proof.
  intros H.
  assert (I : forall sub,
            allChars (fun c => isLetter c || Ascii.eqb c "'") sub = false ->
            includesStr sub value = false)
    by (intros sub; now apply includesStr_chars).
  split; [|split].
  - unfold isUrlLike. rewrite I by reflexivity.
    destruct (String.prefix "www." value) eqn:E; [|reflexivity].
    now pose proof (prefix_chars _ _ _ H E).
  - unfold isEmailLike. now apply I.
  - unfold isCodeLike, dotParts. rewrite !I by reflexivity.
    rewrite (splitDots_none value H), (anyDigit_none value H).
    cbn [orb andb length Nat.ltb Nat.leb]. now rewrite andb_false_r.
Qed.

(** A symbol token is one character that is no letter, digit, blank or
    punctuation mark. *)
Lemma symbol_special ch :
  classifyChar ch = TSymbol ->
  isUrlLike (String ch EmptyString) = false
  /\ isEmailLike (String ch EmptyString) = Ascii.eqb ch "@"
  /\ isCodeLike (String ch EmptyString) = (Ascii.eqb ch "_" || Ascii.eqb ch "\").
Proof. any_char ch; repeat split. Qed.

(** Which tokens of the tokenizer get protected. *)
Lemma protectToken_tokenized cfg t :
  tok_meta t = None ->
  match tok_type t with
  | TWord => allChars (fun c => isLetter c || Ascii.eqb c "'") (tok_value t) = true
  | TSymbol => exists ch, tok_value t = String ch EmptyString
                          /\ classifyChar ch = TSymbol
  | _ => True
  end ->
  isProtected (protectToken cfg [] t)
  = match tok_type t with
    | TNumber => default false (keepNumbers cfg)
    | TWord =>
        default false (keepAcronyms cfg) && isAcronym (tok_value t)
        || (0 <? default 0 (minWordLength cfg))%Z
           && (Z.of_nat (String.length (tok_value t)) <? default 0 (minWordLength cfg))%Z
    | TSymbol =>
        default false (keepUrlsEmails cfg) && String.eqb (tok_value t) "@"
        || default false (keepCodeTokens cfg)
           && (String.eqb (tok_value t) "_" || String.eqb (tok_value t) "\")
    | _ => false
    end.
Proof.
  destruct t as [ty v m]. cbn [tok_type tok_value tok_meta]. intros -> H.
  unfold protectToken. cbn [tok_type tok_value tok_meta].
  destruct ty; try reflexivity.
  - destruct (word_not_special v H) as (U & E & C). rewrite U, E, C.
    cbn [orb customLabels]. rewrite !andb_false_r. cbn [app].
    destruct (default false (keepAcronyms cfg) && isAcronym v);
      destruct ((0 <? default 0 (minWordLength cfg))%Z
                && (Z.of_nat (String.length v) <? default 0 (minWordLength cfg))%Z);
      reflexivity.
  - destruct (default false (keepNumbers cfg)); reflexivity.
  - destruct H as (ch & -> & Hc). destruct (symbol_special ch Hc) as (U & E & C).
    rewrite U, E, C. cbn [orb app String.eqb].
    destruct (default false (keepUrlsEmails cfg)), (default false (keepCodeTokens cfg)),
      (Ascii.eqb ch "@"), (Ascii.eqb ch "_"), (Ascii.eqb ch "\"); reflexivity.
Qed.

End ProtectedTokens.

(** X28.  On the tokens of [tokenize], with no custom pattern, protection
    comes down to this: a number is protected when [keepNumbers] is set;
    a word when it is an acronym and [keepAcronyms] is set, or when it is
    shorter than a positive [minWordLength]; a symbol when it is [@] and
    [keepUrlsEmails] is set, or an underscore or a backslash and
    [keepCodeTokens] is set.  Punctuation and white space never are.  A
    word token holds letters and apostrophes only, so it is never taken
    for a URL, an e-mail address or code. *)
Theorem tokenized_protection
    (compile : string -> option (string -> bool)) (text : string)
    (config : Transforms.ProtectionConfig) :
  default [] (Transforms.customProtectedRegex config) = [] ->
  let cfg := Transforms.spreadProtection Transforms.DEFAULT_PROTECTION_CONFIG config in
  exists tokens,
    Transforms.applyProtection compile (Tokenizer.tokenize text) config = Ok tokens
    /\ Forall
         (fun t =>
            Transforms.isProtected t
            = match Tokenizer.tok_type t with
              | Tokenizer.TNumber => default false (Transforms.keepNumbers cfg)
              | Tokenizer.TWord =>
                  default false (Transforms.keepAcronyms cfg)
                  && Transforms.isAcronym (Tokenizer.tok_value t)
                  || (0 <? default 0 (Transforms.minWordLength cfg))%Z
                     && (Z.of_nat (String.length (Tokenizer.tok_value t))
                         <? default 0 (Transforms.minWordLength cfg))%Z
              | Tokenizer.TSymbol =>
                  default false (Transforms.keepUrlsEmails cfg)
                  && String.eqb (Tokenizer.tok_value t) "@"
                  || default false (Transforms.keepCodeTokens cfg)
                     && (String.eqb (Tokenizer.tok_value t) "_"
                         || String.eqb (Tokenizer.tok_value t) "\")
              | _ => false
              end)
         tokens.
Proof.
  intros Hc cfg. unfold Transforms.applyProtection.
  assert (E : default [] (Transforms.customProtectedRegex cfg) = []).
  { cbn. destruct (Transforms.customProtectedRegex config); [exact Hc | reflexivity]. }
  fold cfg. rewrite E. cbn [Transforms.compileAll]. eexists. split; [reflexivity|].
  apply List.Forall_forall. intros t' Ht'. apply in_map_iff in Ht' as (t & <- & Ht).
  pose proof (tokenizeFrom_kinds (String.length text) text) as K.
  rewrite List.Forall_forall in K. destruct (K t Ht) as [Hm Hk].
  destruct (protectToken_keeps cfg [] t) as [-> ->].
  now apply protectToken_tokenized.
Qed.

Lemma tokenized_protection_witness :
  exists tokens,
    Transforms.applyProtection (fun _ => None)
      (Tokenizer.tokenize "Mail bob@example.com or see www.example.com")
      Transforms.DEFAULT_PROTECTION_CONFIG = Ok tokens
    /\ map Tokenizer.tok_value (List.filter Transforms.isProtected tokens) = ["@"].
Proof.
  destruct (tokenized_protection (fun _ => None)
              "Mail bob@example.com or see www.example.com"
              Transforms.DEFAULT_PROTECTION_CONFIG eq_refl) as (tokens & E & _).
  exists tokens. split; [exact E|].
  vm_compute in E. injection E as <-. vm_compute. reflexivity.
Defined.
